(** * Random forest trainer (RFTrainer): model and properties

    A shallow embedding of Shark's [RFTrainer]: the parameter defaults,
    the impurity measures, the split search, the table splitter, the random
    choice of attributes, the recursive tree builder and the bagging step
    of [train].

    Conventions of the model.
    - [std::size_t] is a 64-bit and [unsigned int] a 32-bit machine integer;
      both are carried as [Z] and every source operation that can wrap is
      written with [usize] or [uint].  Positions inside a vector, row
      identifiers, attribute indices and class labels are [nat]: they index
      vectors that exist in memory.
    - A [double] is carried as the rational it denotes ([Q]); infinities
      and NaN are not modelled.  The functions that compute a value ([gini],
      [hist], [average], [totalSumOfSquares]) are given on exact rationals.
      Where rounding decides what the program does next, the operations
      round as IEEE binary64 does ([Binary64], to nearest, ties to even):
      the impurities that the two split searches compare, and the product
      that [train] truncates to the size of the bag.  The leaf test
      [gini(cAbove,n)==0] is taken on the exact value.
    - Indexing outside a vector is undefined in the source; the model reads
      a default element there, and the theorems say where indices are in
      range.
    - [rand()] is an external source of numbers: a stream [nat -> nat] read
      at a position that every call advances. *)

From Stdlib Require Import ZArith QArith Qround Qpower Qabs Lqa Lia String.
From stdpp Require Import gmap list sorting relations.

Local Open Scope Z_scope.

(** ** Machine integers *)

Module Machine.

Definition usize_modulus : Z := 2 ^ 64.
Definition uint_modulus : Z := 2 ^ 32.

(** Reduction of a mathematical integer to [std::size_t]. *)
Definition usize (x : Z) : Z := x mod usize_modulus.

(** Reduction of a mathematical integer to [unsigned int]. *)
Definition uint (x : Z) : Z := x mod uint_modulus.

End Machine.
Export Machine.

(** ** Outcomes of a call

    [Ret] is a normal return.  [Throws] is a [SHARKEXCEPTION].  [DivByZero]
    marks a division by a zero count or an average over no labels (in the
    source a NaN or an access to [labels[0]] of an empty vector).
    [Trap] is the integer remainder by zero.  [OutOfFuel] is an exhausted
    fuel: the modelled loop or recursion has not finished yet. *)

Inductive outcome (A : Type) : Type :=
| Ret (a : A)
| Throws (msg : string)
| DivByZero
| Trap
| OutOfFuel.
Arguments Ret {A} a.
Arguments Throws {A} msg.
Arguments DivByZero {A}.
Arguments Trap {A}.
Arguments OutOfFuel {A}.

#[global] Instance outcome_ret : MRet outcome := fun A a => Ret a.

#[global] Instance outcome_bind : MBind outcome := fun A B k m =>
  match m with
  | Ret a => k a
  | Throws msg => Throws msg
  | DivByZero => DivByZero
  | Trap => Trap
  | OutOfFuel => OutOfFuel
  end.

Definition returns {A} (m : outcome A) : Prop := exists a, m = Ret a.
Definition throws {A} (m : outcome A) : Prop := exists msg, m = Throws msg.

(** A call fails when it ends in anything but a return or a timeout. *)
Definition fails {A} (m : outcome A) : Prop :=
  match m with
  | Ret _ | OutOfFuel => False
  | _ => True
  end.

(** ** Doubles and real vectors *)

Abbreviation double := (Q).
Abbreviation RealVector := (list double).

Definition Qlt_bool (x y : Q) : bool := negb (Qle_bool y x).

Definition Qsum (l : list Q) : Q := foldr Qplus 0%Q l.

Fixpoint zipWithQ (f : Q -> Q -> Q) (a b : RealVector) : RealVector :=
  match a, b with
  | x :: a', y :: b' => f x y :: zipWithQ f a' b'
  | _, _ => []
  end.

(** [a += b], [a -= b] and [a / s] on vectors of equal size. *)
Definition vadd (a b : RealVector) : RealVector := zipWithQ Qplus a b.
Definition vsub (a b : RealVector) : RealVector := zipWithQ Qminus a b.
Definition vdiv (a : RealVector) (s : Q) : RealVector :=
  List.map (fun x => (x / s)%Q) a.

(** [norm_sqr]: the squared Euclidean norm. *)
Definition norm_sqr (a : RealVector) : Q :=
  fold_left (fun acc x => (acc + x * x)%Q) a 0%Q.

(** [RealVector v(size)]: a vector of zeros. *)
Definition vzero (size : nat) : RealVector := replicate size 0%Q.

(** ** IEEE binary64

    The rounding of a rational to the nearest double, ties to the even
    significand, with the gradual underflow of the format.  An overflow to
    infinity is not modelled: the exponent is unbounded above. *)

Module Binary64.

(** The integer [l] with [2^l <= x < 2^(l+1)], for a positive [x]. *)
Definition ilog2 (x : Q) : Z :=
  let k := Z.log2 (Qnum x) - Z.log2 (Zpos (Qden x)) in
  if Qle_bool (2 ^ k) x then k else k - 1.

(** The nearest integer, the even one at a tie. *)
Definition rne (y : Q) : Z :=
  let f := Qfloor y in
  match (y - inject_Z f ?= 1 # 2)%Q with
  | Lt => f
  | Gt => f + 1
  | Eq => if Z.even f then f else f + 1
  end.

(** The exponent of the last place of [x]: 53 significant bits, and no
    spacing finer than [2^-1074]. *)
Definition ulp_exp (x : Q) : Z := Z.max (ilog2 (Qabs x) - 52) (-1074).

Definition round (x : Q) : Q :=
  Qred (inject_Z (rne (x / 2 ^ ulp_exp x)) * 2 ^ ulp_exp x).

(** The conversion of an integer and the four operations. *)
Definition of_Z (z : Z) : Q := round (inject_Z z).
Definition add (x y : Q) : Q := round (x + y).
Definition sub (x y : Q) : Q := round (x - y).
Definition mul (x y : Q) : Q := round (x * y).
Definition div (x y : Q) : Q := round (x / y).

(** [a += b], [a -= b] and [a /= s] on vectors, element by element, and
    [norm_sqr], which adds the squares in the order of the elements; every
    operation is rounded. *)
Definition vadd (a b : list Q) : list Q := zipWithQ add a b.
Definition vsub (a b : list Q) : list Q := zipWithQ sub a b.
Definition vdiv (a : list Q) (s : Q) : list Q := List.map (fun x => div x s) a.
Definition norm_sqr (a : list Q) : Q :=
  fold_left (fun acc x => add acc (mul x x)) a 0%Q.

End Binary64.

(** ** Data model *)

Record RFAttribute : Type := mkRFAttribute {
  value : double;
  id : nat
}.

Abbreviation AttributeTable := (list RFAttribute).
Abbreviation AttributeTables := (list AttributeTable).

(** [UIntVector]: one 32-bit counter per class. *)
Abbreviation ClassVector := (list Z).

Record NodeInfo : Type := mkNodeInfo {
  nodeId : Z;
  attributeIndex : nat;
  attributeValue : double;
  leftNodeId : Z;
  rightNodeId : Z;
  label : RealVector;
  misclassProp : double;
  r : Z;
  g : double
}.

Abbreviation TreeType := (list NodeInfo).

(** The fields of the trainer. [m_maxLabel] is set by the classification
    [train], [m_labelDimension] by the regression one. *)
Record RFTrainer : Type := mkRFTrainer {
  m_inputDimension : nat;
  m_labelDimension : nat;
  m_maxLabel : nat;
  m_try : Z;
  m_B : Z;
  m_nodeSize : Z;
  m_OOBratio : double;
  m_regressionLearner : bool;
  m_computeFeatureImportances : bool;
  m_computeOOBerror : bool
}.

Definition default_attribute : RFAttribute := mkRFAttribute 0%Q 0%nat.

(** [table[i]]. *)
Definition at_row (table : AttributeTable) (i : nat) : RFAttribute :=
  nth i table default_attribute.

(** [tables[i]]. *)
Definition at_table (tables : AttributeTables) (i : nat) : AttributeTable :=
  nth i tables [].

(** ** setDefaults *)

(** [std::ceil(m_inputDimension/3.0)] converted to [size_t]. *)
Definition ceil_third (d : nat) : Z :=
  usize (Qceiling (inject_Z (Z.of_nat d) / 3)).

(** [std::ceil(std::sqrt((double)m_inputDimension))] converted to [size_t]:
    on exact reals, the least integer whose square reaches [d]. *)
Definition ceil_sqrt (d : nat) : Z :=
  usize (Z.sqrt_up (Z.of_nat d)).

Definition setMTry (t : RFTrainer) (mtry : Z) : RFTrainer :=
  mkRFTrainer (m_inputDimension t) (m_labelDimension t) (m_maxLabel t)
    mtry (m_B t) (m_nodeSize t) (m_OOBratio t) (m_regressionLearner t)
    (m_computeFeatureImportances t) (m_computeOOBerror t).

Definition setNTrees (t : RFTrainer) (nTrees : Z) : RFTrainer :=
  mkRFTrainer (m_inputDimension t) (m_labelDimension t) (m_maxLabel t)
    (m_try t) nTrees (m_nodeSize t) (m_OOBratio t) (m_regressionLearner t)
    (m_computeFeatureImportances t) (m_computeOOBerror t).

Definition setNodeSize (t : RFTrainer) (nodeSize : Z) : RFTrainer :=
  mkRFTrainer (m_inputDimension t) (m_labelDimension t) (m_maxLabel t)
    (m_try t) (m_B t) nodeSize (m_OOBratio t) (m_regressionLearner t)
    (m_computeFeatureImportances t) (m_computeOOBerror t).

Definition setOOBratio (t : RFTrainer) (ratio : double) : RFTrainer :=
  mkRFTrainer (m_inputDimension t) (m_labelDimension t) (m_maxLabel t)
    (m_try t) (m_B t) (m_nodeSize t) ratio (m_regressionLearner t)
    (m_computeFeatureImportances t) (m_computeOOBerror t).

Definition setDefaults (t : RFTrainer) : RFTrainer :=
  let t1 :=
    if m_try t =? 0 then
      if m_regressionLearner t
      then setMTry t (ceil_third (m_inputDimension t))
      else setMTry t (ceil_sqrt (m_inputDimension t))
    else t in
  let t2 := if m_B t1 =? 0 then setNTrees t1 100 else t1 in
  let t3 :=
    if m_nodeSize t2 =? 0 then
      if m_regressionLearner t2 then setNodeSize t2 5 else setNodeSize t2 1
    else t2 in
  if Qle_bool (m_OOBratio t3) 0 || Qlt_bool 1 (m_OOBratio t3)
  then setOOBratio t3 (66 # 100)
  else t3.

(** ** Impurity measures *)

(** Modelled from the spec: [sqr] of Shark's core math header is not among
    the sources; it squares its argument. *)
Definition sqr (x : Z) : Z := x * x.

Definition gini (countVector : ClassVector) (n : Z) : double :=
  let res :=
    if n =? 0 then 0%Q
    else
      let n := usize (n * n) in
      fold_left (fun res i => (res + inject_Z (sqr i) / inject_Z n)%Q)
        countVector 0%Q in
  (1 - res)%Q.

(** [gini] as the processor evaluates it: the conversions of [sqr(i)] and of
    [n], the division, the addition to [res] and the subtraction from 1 are
    each rounded. *)
Definition gini_binary64 (countVector : ClassVector) (n : Z) : double :=
  let res :=
    if n =? 0 then 0%Q
    else
      let n := usize (n * n) in
      fold_left
        (fun res i =>
           Binary64.add res
             (Binary64.div (Binary64.of_Z (sqr i)) (Binary64.of_Z n)))
        countVector 0%Q in
  Binary64.sub 1 res.

(** The sum of the counters of a count vector. *)
Definition totalCount (countVector : ClassVector) : Z :=
  foldr Z.add 0 countVector.

(** [hist]: the counts divided by their total. *)
Definition hist (t : RFTrainer) (countVector : ClassVector)
  : outcome RealVector :=
  let histogram := vzero (m_maxLabel t + 1) in
  let '(histogram, totalElements) :=
    fold_left
      (fun '(h, total) i =>
         (<[i := inject_Z (nth i countVector 0)]> h,
          usize (total + nth i countVector 0)))
      (seq 0 (length countVector)) (histogram, 0) in
  if totalElements =? 0 then DivByZero
  else Ret (vdiv histogram (inject_Z totalElements)).

(** [average]: the mean of a non-empty vector of labels. *)
Definition average (labels : list RealVector) : outcome RealVector :=
  match labels with
  | [] => DivByZero
  | l0 :: rest =>
      let avg := fold_left vadd rest l0 in
      Ret (vdiv avg (inject_Z (Z.of_nat (length labels))))
  end.

Definition totalSumOfSquares (labels : list RealVector) (start length : Z)
    (sumLabel : RealVector) : outcome double :=
  if length <? 1 then
    Throws "[RFTrainer::totalSumOfSquares] length < 1"
  else if usize (start + length) >? Z.of_nat (List.length labels) then
    Throws "[RFTrainer::totalSumOfSquares] start+length > labels.size()"
  else
    let labelAvg := vdiv sumLabel (inject_Z length) in
    Ret (fold_left
           (fun sumOfSquares i =>
              (sumOfSquares +
               norm_sqr (vsub (nth (Z.to_nat (usize (start + Z.of_nat i)))
                                   labels [])
                              labelAvg))%Q)
           (seq 0 (Z.to_nat length)) 0%Q).

(** [totalSumOfSquares] as the processor evaluates it: the division of
    [sumLabel] by the converted [length], the subtraction of the mean, the
    squared norm and the addition to [sumOfSquares] are each rounded. *)
Definition totalSumOfSquares_binary64 (labels : list RealVector)
    (start length : Z) (sumLabel : RealVector) : outcome double :=
  if length <? 1 then
    Throws "[RFTrainer::totalSumOfSquares] length < 1"
  else if usize (start + length) >? Z.of_nat (List.length labels) then
    Throws "[RFTrainer::totalSumOfSquares] start+length > labels.size()"
  else
    let labelAvg := Binary64.vdiv sumLabel (Binary64.of_Z length) in
    Ret (fold_left
           (fun sumOfSquares i =>
              Binary64.add sumOfSquares
                (Binary64.norm_sqr
                   (Binary64.vsub
                      (nth (Z.to_nat (usize (start + Z.of_nat i))) labels [])
                      labelAvg)))
           (seq 0 (Z.to_nat length)) 0%Q).

(** ** Properties of tables *)

(** A table sorted ascending by value. *)
Definition sorted_table (table : AttributeTable) : Prop :=
  Sorted (fun a b => (value a <= value b)%Q) table.

(** The row identifiers of a table, in the order of the table. *)
Definition ids (table : AttributeTable) : list nat := id <$> table.

(** The rows that a split at [valIndex] of the table [win] sends to the
    left: those whose identifier stands at a position [<= valIndex]. *)
Definition goes_left (win : AttributeTable) (valIndex : nat) (a : RFAttribute)
  : Prop :=
  id a ∈ ids (take (S valIndex) win).

#[global] Instance goes_left_dec win valIndex a :
  Decision (goes_left win valIndex a).
Proof. unfold goes_left. apply _. Defined.

(** An out-of-bag ratio that [setDefaults] keeps. *)
Definition oob_in_range (x : double) : Prop := (0 < x)%Q /\ (x <= 1)%Q.

(** ** Table splitter *)

(** The loop that fills [hash]: row [i] of the winning table maps its row
    identifier to [i <= valIndex]; a later row overwrites an earlier one. *)
Fixpoint buildHash (i : nat) (rows : AttributeTable) (valIndex : nat)
    (hash : gmap nat bool) : gmap nat bool :=
  match rows with
  | [] => hash
  | a :: rest =>
      buildHash (S i) rest valIndex (<[id a := (i <=? valIndex)%nat]> hash)
  end.

(** [hash[k]]: a key that is absent reads as [false]. *)
Definition hashAt (hash : gmap nat bool) (k : nat) : bool :=
  default false (hash !! k).

(** The inner loop over the rows of one table. *)
Definition splitTable (hash : gmap nat bool) (table : AttributeTable)
  : AttributeTable * AttributeTable :=
  fold_left
    (fun '(L, R) a => if hashAt hash (id a) then (L ++ [a], R) else (L, R ++ [a]))
    table ([], []).

Definition splitAttributeTables (tables : AttributeTables)
    (index valIndex : nat) : AttributeTables * AttributeTables :=
  let hash := buildHash 0 (at_table tables index) valIndex ∅ in
  fold_left
    (fun '(LAttributeTables, RAttributeTables) table =>
       let '(L, R) := splitTable hash table in
       (LAttributeTables ++ [L], RAttributeTables ++ [R]))
    tables ([], []).

(** ** Datasets *)

Abbreviation ClassificationDataset := (list (RealVector * nat)).

Abbreviation RegressionDataset := (list (RealVector * RealVector)).

(** ** Random choice of attributes *)

(** [std::set<std::size_t>::insert]: the set is kept as a strictly ascending
    list, which is also the order in which the source iterates over it. *)
Fixpoint set_insert (x : nat) (s : list nat) : list nat :=
  match s with
  | [] => [x]
  | y :: s' =>
      if (x <? y)%nat then x :: s
      else if (x =? y)%nat then s
      else y :: set_insert x s'
  end.

(** A strictly ascending list: the representation of a [std::set]. *)
Definition ascending (s : list nat) : Prop := StronglySorted lt s.

Section Trainer.

Variable t : RFTrainer.

(** The numbers [rand()] returns, in the order of the calls. *)
Variable rand : nat -> nat.

(** The [while] loop, from the call number [pos] of [rand()]. It returns the
    set and the number of the next call. *)
Fixpoint generateRandomTableIndicies (fuel : nat) (pos : nat)
    (tableIndicies : list nat) : outcome (list nat * nat) :=
  if Z.of_nat (length tableIndicies) <? m_try t then
    match fuel with
    | O => OutOfFuel
    | S fuel' =>
        if (m_inputDimension t =? 0)%nat then Trap
        else
          generateRandomTableIndicies fuel' (S pos)
            (set_insert (rand pos mod m_inputDimension t)%nat tableIndicies)
    end
  else Ret (tableIndicies, pos).

(** The set after [k] draws, whatever the loop condition says. *)
Fixpoint drawn (k : nat) (pos : nat) (s : list nat) : list nat :=
  match k with
  | O => s
  | S k' => drawn k' (S pos) (set_insert (rand pos mod m_inputDimension t)%nat s)
  end.

(** The random numbers are varied enough for the draw: from every position
    of the stream, some number of draws yields [m_try] distinct attributes. *)
Definition fair_draws : Prop :=
  forall pos, exists k, m_try t <= Z.of_nat (length (drawn k pos [])).

(** Attribute indices below the input dimension. *)
Definition in_range (s : list nat) : Prop :=
  forall x, x ∈ s -> (x < m_inputDimension t)%nat.

(** ** Split search, classification *)

(** [dataset.element(i).label]. *)
Definition class_label (dataset : ClassificationDataset) (i : nat) : nat :=
  snd (nth i dataset ([], 0%nat)).

(** [++c[l]] and [--c[l]] on 32-bit counters. *)
Definition incr (c : ClassVector) (l : nat) : ClassVector :=
  <[l := uint (nth l c 0 + 1)]> c.
Definition decr (c : ClassVector) (l : nat) : ClassVector :=
  <[l := uint (nth l c 0 - 1)]> c.

Record Best : Type := mkBest {
  bestImpurity : double;
  bestAttributeIndex : nat;
  bestAttributeValIndex : nat;
  bestAttributeVal : double;
  cBestAbove : ClassVector;
  cBestBelow : ClassVector
}.

(** The state before the loops. [bestAttributeVal] is not initialised in the
    source and is read only after it has been assigned. *)
Definition initBest (n : nat) : Best :=
  mkBest (inject_Z (Z.of_nat n) + 1)%Q 0 0 0%Q
    (replicate (m_maxLabel t + 1) 0) (replicate (m_maxLabel t + 1) 0).

Section Classification.

Variable dataset : ClassificationDataset.

(** The size-weighted impurity of a boundary,
    [n1*gini(cBelow,n1)+n2*gini(cTmpAbove,n2)], as a double: [n1] and [n2]
    are converted, and the two products and the sum are rounded. *)
Definition weighted_gini (cBelow cTmpAbove : ClassVector) (n1 n2 : nat) : double :=
  Binary64.add
    (Binary64.mul (Binary64.of_Z (Z.of_nat n1))
       (gini_binary64 cBelow (Z.of_nat n1)))
    (Binary64.mul (Binary64.of_Z (Z.of_nat n2))
       (gini_binary64 cTmpAbove (Z.of_nat n2))).

(** One round of the loop over [i]. *)
Definition scanRow (table : AttributeTable) (n attributeIndex : nat)
    (st : ClassVector * ClassVector * Best) (i : nat)
  : ClassVector * ClassVector * Best :=
  let '(cBelow, cTmpAbove, best) := st in
  let prev := (i - 1)%nat in
  let cBelow := incr cBelow (class_label dataset (id (at_row table prev))) in
  let cTmpAbove := decr cTmpAbove (class_label dataset (id (at_row table prev))) in
  if negb (Qeq_bool (value (at_row table prev)) (value (at_row table i))) then
    let n1 := i in
    let n2 := (n - n1)%nat in
    let impurity := weighted_gini cBelow cTmpAbove n1 n2 in
    if Qlt_bool impurity (bestImpurity best) then
      (cBelow, cTmpAbove,
       mkBest impurity attributeIndex prev (value (at_row table prev))
         cTmpAbove cBelow)
    else (cBelow, cTmpAbove, best)
  else (cBelow, cTmpAbove, best).

(** One round of the loop over the chosen attributes. *)
Definition scanAttribute (tables : AttributeTables) (cAbove : ClassVector)
    (n : nat) (best : Best) (attributeIndex : nat) : Best :=
  let cTmpAbove := cAbove in
  let cBelow := replicate (m_maxLabel t + 1) 0 in
  snd (fold_left (scanRow (at_table tables attributeIndex) n attributeIndex)
         (seq 1 (n - 1)) (cBelow, cTmpAbove, best)).

Definition searchSplit (tables : AttributeTables) (cAbove : ClassVector)
    (n : nat) (tableIndicies : list nat) : Best :=
  fold_left (scanAttribute tables cAbove n) tableIndicies (initBest n).

(** *** The candidates of the search, in the order of the scan

    These definitions restate the loops position by position; the theorems
    relate them to [searchSplit]. *)

(** [cBelow] and [cTmpAbove] after the rounds [i = 1 .. k] over a table. *)
Fixpoint countsAt (table : AttributeTable) (cAbove : ClassVector) (k : nat)
  : ClassVector * ClassVector :=
  match k with
  | O => (replicate (m_maxLabel t + 1) 0, cAbove)
  | S k' =>
      let '(cBelow, cTmpAbove) := countsAt table cAbove k' in
      let l := class_label dataset (id (at_row table k')) in
      (incr cBelow l, decr cTmpAbove l)
  end.

(** There is a boundary at position [i] when the values on its two sides
    differ. *)
Definition boundary (table : AttributeTable) (i : nat) : bool :=
  negb (Qeq_bool (value (at_row table (i - 1))) (value (at_row table i))).

(** The impurity of the boundary at position [i] of a table. *)
Definition impurityAt (table : AttributeTable) (cAbove : ClassVector)
    (n i : nat) : double :=
  weighted_gini (fst (countsAt table cAbove i)) (snd (countsAt table cAbove i))
    i (n - i).

(** What the search stores when it takes the boundary at position [i]. *)
Definition candidate (tables : AttributeTables) (cAbove : ClassVector)
    (n : nat) (c : nat * nat) : Best :=
  let '(attributeIndex, i) := c in
  let table := at_table tables attributeIndex in
  mkBest (impurityAt table cAbove n i) attributeIndex (i - 1)
    (value (at_row table (i - 1)))
    (snd (countsAt table cAbove i)) (fst (countsAt table cAbove i)).

Definition newNode (nodeId : Z) : NodeInfo :=
  mkNodeInfo nodeId 0 0%Q 0 0 [] 0%Q 0 0%Q.

Definition withLabel (info : NodeInfo) (l : RealVector) : NodeInfo :=
  mkNodeInfo (nodeId info) (attributeIndex info) (attributeValue info)
    (leftNodeId info) (rightNodeId info) l (misclassProp info) (r info) (g info).

Definition withSplit (info : NodeInfo) (attr : nat) (val : double) : NodeInfo :=
  mkNodeInfo (nodeId info) attr val
    (usize (2 * nodeId info + 1)) (usize (2 * nodeId info + 2))
    (label info) (misclassProp info) (r info) (g info).

(** The classification [buildTree]. [fuel] bounds the depth of the recursion
    and the rounds of the attribute draw; [pos] is the number of the next
    call of [rand()]. *)
Fixpoint buildTree (fuel : nat) (tables : AttributeTables)
    (cAbove : ClassVector) (nodeId : Z) (pos : nat)
  : outcome (TreeType * nat) :=
  match fuel with
  | O => OutOfFuel
  | S fuel' =>
      let nodeInfo := newNode nodeId in
      let n := length (at_table tables 0) in
      if Qeq_bool (gini cAbove (Z.of_nat n)) 0 || (Z.of_nat n <=? m_nodeSize t)
      then
        h ← hist t cAbove;
        Ret ([withLabel nodeInfo h], pos)
      else
        '(tableIndicies, pos) ← generateRandomTableIndicies fuel' pos [];
        let best := searchSplit tables cAbove n tableIndicies in
        if Qlt_bool (bestImpurity best) (inject_Z (usize (Z.of_nat n + 1))) then
          let '(lTables, rTables) :=
            splitAttributeTables tables (bestAttributeIndex best)
              (bestAttributeValIndex best) in
          let nodeInfo :=
            withSplit nodeInfo (bestAttributeIndex best) (bestAttributeVal best) in
          '(lTree, pos) ← buildTree fuel' lTables (cBestBelow best)
                             (leftNodeId nodeInfo) pos;
          '(rTree, pos) ← buildTree fuel' rTables (cBestAbove best)
                             (rightNodeId nodeInfo) pos;
          Ret (nodeInfo :: lTree ++ rTree, pos)
        else
          h ← hist t cAbove;
          Ret ([withLabel nodeInfo h], pos)
  end.

(** *** The calls of the recursion *)

(** The number of rows labelled [j] among the rows [rows]. *)
Definition labelCount (rows : list nat) (j : nat) : Z :=
  Z.of_nat (length (filter (fun i => class_label dataset i = j) rows)).

(** The count vector of the rows [rows]. *)
Definition countsOf (rows : list nat) : ClassVector :=
  labelCount rows <$> seq 0 (m_maxLabel t + 1).

(** The arguments that [train] and the recursion hand to [buildTree]: one
    table per input dimension, all over the same rows, which are distinct,
    at least one and fewer than [2^32]; labels within the histogram; and the
    count vector of these rows. *)
Record wf_node (tables : AttributeTables) (cAbove : ClassVector) : Prop := {
  wf_dimension : length tables = m_inputDimension t;
  wf_has_table : (0 < length tables)%nat;
  wf_same_rows :
    forall table, table ∈ tables -> ids table ≡ₚ ids (at_table tables 0);
  wf_distinct : NoDup (ids (at_table tables 0));
  wf_nonempty : (1 <= length (at_table tables 0))%nat;
  wf_bound : Z.of_nat (length (at_table tables 0)) < 2 ^ 32;
  wf_labels :
    forall i, i ∈ ids (at_table tables 0) ->
              (class_label dataset i <= m_maxLabel t)%nat;
  wf_counts : cAbove = countsOf (ids (at_table tables 0))
}.

(** The split that a call settles on once the attributes are drawn; [None]
    when the node becomes a leaf. *)
Definition decideSplit (tables : AttributeTables) (cAbove : ClassVector)
    (tableIndicies : list nat) : option Best :=
  let n := length (at_table tables 0) in
  if Qeq_bool (gini cAbove (Z.of_nat n)) 0 || (Z.of_nat n <=? m_nodeSize t)
  then None
  else
    let best := searchSplit tables cAbove n tableIndicies in
    if Qlt_bool (bestImpurity best) (inject_Z (usize (Z.of_nat n + 1)))
    then Some best else None.

(** [subcall c c']: the call with the arguments [c] calls [buildTree] with the
    arguments [c'], for some state of the random numbers. *)
Inductive subcall
  : AttributeTables * ClassVector -> AttributeTables * ClassVector -> Prop :=
| subcall_left tables cAbove fuel pos tableIndicies pos' best :
    generateRandomTableIndicies fuel pos [] = Ret (tableIndicies, pos') ->
    decideSplit tables cAbove tableIndicies = Some best ->
    subcall (tables, cAbove)
      (fst (splitAttributeTables tables (bestAttributeIndex best)
              (bestAttributeValIndex best)),
       cBestBelow best)
| subcall_right tables cAbove fuel pos tableIndicies pos' best :
    generateRandomTableIndicies fuel pos [] = Ret (tableIndicies, pos') ->
    decideSplit tables cAbove tableIndicies = Some best ->
    subcall (tables, cAbove)
      (snd (splitAttributeTables tables (bestAttributeIndex best)
              (bestAttributeValIndex best)),
       cBestAbove best).

End Classification.

(** ** Split search and tree builder, regression *)

(** [dataset.element(i).label]. *)
Definition regr_label (dataset : RegressionDataset) (i : nat) : RealVector :=
  snd (nth i dataset ([], [])).

Record BestR : Type := mkBestR {
  r_bestImpurity : double;
  r_bestAttributeIndex : nat;
  r_bestAttributeValIndex : nat;
  r_bestAttributeVal : double;
  bestLabels : list RealVector;
  doSplit : bool
}.

Definition initBestR : BestR := mkBestR (-1)%Q 0 0 0%Q [] false.

Section Regression.

Variable dataset : RegressionDataset.

(** The labels of the rows of a table, in the order of the table. *)
Definition labelsOf (table : AttributeTable) : list RealVector :=
  List.map (fun a => regr_label dataset (id a)) table.

(** The size-weighted squared error of a boundary,
    [(n1*totalSumOfSquares(..)+n2*totalSumOfSquares(..))/(double)(n)], as a
    double: the sizes are converted, and the products, the sum and the
    quotient are rounded. *)
Definition weighted_sse (tmpLabels : list RealVector)
    (labelSumAbove labelSumBelow : RealVector) (n n1 n2 : nat) : outcome double :=
  sse1 ← totalSumOfSquares_binary64 tmpLabels 0 (Z.of_nat n1) labelSumAbove;
  sse2 ← totalSumOfSquares_binary64 tmpLabels (Z.of_nat n1) (Z.of_nat n2)
           labelSumBelow;
  Ret (Binary64.div
         (Binary64.add (Binary64.mul (Binary64.of_Z (Z.of_nat n1)) sse1)
            (Binary64.mul (Binary64.of_Z (Z.of_nat n2)) sse2))
         (Binary64.of_Z (Z.of_nat n))).

(** One round of the loop over [i]. *)
Definition scanRowR (table : AttributeTable) (tmpLabels : list RealVector)
    (n attributeIndex : nat)
    (st : outcome (RealVector * RealVector * BestR)) (i : nat)
  : outcome (RealVector * RealVector * BestR) :=
  '(labelSumAbove, labelSumBelow, best) ← st;
  let prev := (i - 1)%nat in
  best ←
    (if negb (Qeq_bool (value (at_row table prev)) (value (at_row table i))) then
       let n1 := i in
       let n2 := (n - n1)%nat in
       impurity ← weighted_sse tmpLabels labelSumAbove labelSumBelow n n1 n2;
       if Qlt_bool impurity (r_bestImpurity best)
          || Qlt_bool (r_bestImpurity best) 0
       then Ret (mkBestR impurity attributeIndex prev
                   (value (at_row table prev)) tmpLabels true)
       else Ret best
     else Ret best);
  Ret (Binary64.vadd labelSumAbove (nth i tmpLabels []),
       Binary64.vsub labelSumBelow (nth i tmpLabels []),
       best).

(** One round of the loop over the chosen attributes. *)
Definition scanAttributeR (tables : AttributeTables) (n : nat)
    (best : outcome BestR) (attributeIndex : nat) : outcome BestR :=
  best ← best;
  let table := at_table tables attributeIndex in
  let tmpLabels := labelsOf table in
  let labelSumBelow :=
    fold_left Binary64.vadd tmpLabels (vzero (m_labelDimension t)) in
  let labelSumAbove :=
    Binary64.vadd (vzero (m_labelDimension t)) (nth 0 tmpLabels []) in
  let labelSumBelow := Binary64.vsub labelSumBelow (nth 0 tmpLabels []) in
  '(_, _, best) ←
    fold_left (scanRowR table tmpLabels n attributeIndex) (seq 1 (n - 1))
      (Ret (labelSumAbove, labelSumBelow, best));
  Ret best.

Definition searchSplitR (tables : AttributeTables) (n : nat)
    (tableIndicies : list nat) : outcome BestR :=
  fold_left (scanAttributeR tables n) tableIndicies (Ret initBestR).

(** *** The candidates of the search, in the order of the scan *)

(** [labelSumAbove] and [labelSumBelow] when the round [i = k + 1] starts. *)
Fixpoint sumsAt (tmpLabels : list RealVector) (k : nat)
  : RealVector * RealVector :=
  match k with
  | O =>
      (Binary64.vadd (vzero (m_labelDimension t)) (nth 0 tmpLabels []),
       Binary64.vsub
         (fold_left Binary64.vadd tmpLabels (vzero (m_labelDimension t)))
         (nth 0 tmpLabels []))
  | S k' =>
      let '(labelSumAbove, labelSumBelow) := sumsAt tmpLabels k' in
      (Binary64.vadd labelSumAbove (nth k tmpLabels []),
       Binary64.vsub labelSumBelow (nth k tmpLabels []))
  end.

(** The impurity of the boundary at position [i] of a table. *)
Definition impurityAtR (table : AttributeTable) (n i : nat) : outcome double :=
  let tmpLabels := labelsOf table in
  weighted_sse tmpLabels (fst (sumsAt tmpLabels (i - 1)))
    (snd (sumsAt tmpLabels (i - 1))) n i (n - i).

(** What the search stores when it takes the boundary at position [i]. *)
Definition candidateR (tables : AttributeTables) (n : nat) (c : nat * nat)
  : outcome BestR :=
  let '(attributeIndex, i) := c in
  let table := at_table tables attributeIndex in
  impurity ← impurityAtR table n i;
  Ret (mkBestR impurity attributeIndex (i - 1)
         (value (at_row table (i - 1))) (labelsOf table) true).

(** The regression [buildTree]. *)
Fixpoint buildTreeR (fuel : nat) (tables : AttributeTables)
    (labels : list RealVector) (nodeId : Z) (pos : nat)
  : outcome (TreeType * nat) :=
  match fuel with
  | O => OutOfFuel
  | S fuel' =>
      avg ← average labels;
      let nodeInfo := withLabel (newNode nodeId) avg in
      let n := length (at_table tables 0) in
      if Z.of_nat n <=? m_nodeSize t then Ret ([nodeInfo], pos)
      else
        '(tableIndicies, pos) ← generateRandomTableIndicies fuel' pos [];
        best ← searchSplitR tables n tableIndicies;
        if doSplit best then
          let '(lTables, rTables) :=
            splitAttributeTables tables (r_bestAttributeIndex best)
              (r_bestAttributeValIndex best) in
          let lLabels := take (r_bestAttributeValIndex best + 1) (bestLabels best) in
          let rLabels := drop (r_bestAttributeValIndex best + 1) (bestLabels best) in
          let nodeInfo :=
            withSplit nodeInfo (r_bestAttributeIndex best)
              (r_bestAttributeVal best) in
          '(lTree, pos) ← buildTreeR fuel' lTables lLabels
                             (leftNodeId nodeInfo) pos;
          '(rTree, pos) ← buildTreeR fuel' rTables rLabels
                             (rightNodeId nodeInfo) pos;
          Ret (nodeInfo :: lTree ++ rTree, pos)
        else Ret ([nodeInfo], pos)
  end.

(** *** The calls of the recursion *)

(** The arguments that [train] and the recursion hand to the regression
    [buildTree]: tables as for classification, and one label per row. *)
Record wf_nodeR (tables : AttributeTables) (labels : list RealVector)
  : Prop := {
  wfR_dimension : length tables = m_inputDimension t;
  wfR_has_table : (0 < length tables)%nat;
  wfR_same_rows :
    forall table, table ∈ tables -> ids table ≡ₚ ids (at_table tables 0);
  wfR_distinct : NoDup (ids (at_table tables 0));
  wfR_nonempty : (1 <= length (at_table tables 0))%nat;
  wfR_bound : Z.of_nat (length (at_table tables 0)) < 2 ^ 64;
  wfR_labels : length labels = length (at_table tables 0)
}.

(** The split that a call settles on once the attributes are drawn; [None]
    when the node becomes a leaf or the search does not return. *)
Definition decideSplitR (tables : AttributeTables) (tableIndicies : list nat)
  : option BestR :=
  let n := length (at_table tables 0) in
  if Z.of_nat n <=? m_nodeSize t then None
  else
    match searchSplitR tables n tableIndicies with
    | Ret best => if doSplit best then Some best else None
    | _ => None
    end.

(** [subcallR c c']: the call with the arguments [c] calls [buildTreeR] with
    the arguments [c'], for some state of the random numbers. *)
Inductive subcallR
  : AttributeTables * list RealVector ->
    AttributeTables * list RealVector -> Prop :=
| subcallR_left tables labels fuel pos tableIndicies pos' best :
    generateRandomTableIndicies fuel pos [] = Ret (tableIndicies, pos') ->
    decideSplitR tables tableIndicies = Some best ->
    subcallR (tables, labels)
      (fst (splitAttributeTables tables (r_bestAttributeIndex best)
              (r_bestAttributeValIndex best)),
       take (r_bestAttributeValIndex best + 1) (bestLabels best))
| subcallR_right tables labels fuel pos tableIndicies pos' best :
    generateRandomTableIndicies fuel pos [] = Ret (tableIndicies, pos') ->
    decideSplitR tables tableIndicies = Some best ->
    subcallR (tables, labels)
      (snd (splitAttributeTables tables (r_bestAttributeIndex best)
              (r_bestAttributeValIndex best)),
       drop (r_bestAttributeValIndex best + 1) (bestLabels best)).

End Regression.

(** ** The root call of a tree in train *)

Section RootCall.

(** [std::sort] with a comparison, an external routine. *)
Variable std_sort :
  (RFAttribute -> RFAttribute -> bool) -> AttributeTable -> AttributeTable.

Definition tableSort (v1 v2 : RFAttribute) : bool :=
  Qlt_bool (value v1) (value v2).

(** One table per input dimension: the values of the column with their row
    numbers, sorted with [tableSort]. *)
Definition createAttributeTables (inputs : list RealVector) : AttributeTables :=
  let elements := length inputs in
  fold_left
    (fun tables j =>
       let table :=
         fold_left
           (fun table i =>
              table ++ [mkRFAttribute (nth j (nth i inputs []) 0%Q) i])
           (seq 0 elements) [] in
       tables ++ [std_sort tableSort table])
    (seq 0 (m_inputDimension t)) [].

Definition createCountVector (dataset : ClassificationDataset) : ClassVector :=
  fold_left (fun cAbove i => incr cAbove (class_label dataset i))
    (seq 0 (length dataset)) (replicate (m_maxLabel t + 1) 0).

(** The tree of one task of the classification [train], grown on the
    training bag [dataTrain]. *)
Definition trainTree (dataTrain : ClassificationDataset) (fuel pos : nat)
  : outcome (TreeType * nat) :=
  let tables := createAttributeTables (fst <$> dataTrain) in
  let cAbove := createCountVector dataTrain in
  buildTree dataTrain fuel tables cAbove 0 pos.

(** The tree of one task of the regression [train]. *)
Definition trainTreeR (dataTrain : RegressionDataset) (fuel pos : nat)
  : outcome (TreeType * nat) :=
  let tables := createAttributeTables (fst <$> dataTrain) in
  let labels :=
    fold_left (fun labels i => labels ++ [regr_label dataTrain i])
      (seq 0 (length dataTrain)) [] in
  buildTreeR dataTrain fuel tables labels 0 pos.

End RootCall.

End Trainer.

(** ** The order of the scan *)

(** The pairs (attribute, position) at which the search evaluates a split,
    in the order in which it meets them: attribute after attribute in the
    order of the set, and inside a table the positions [1 .. n-1], ascending,
    at which the value changes. *)
Definition candidates (tables : AttributeTables) (n : nat)
    (tableIndicies : list nat) : list (nat * nat) :=
  flat_map
    (fun attributeIndex =>
       List.map (fun i => (attributeIndex, i))
         (List.filter (boundary (at_table tables attributeIndex))
            (seq 1 (n - 1))))
    tableIndicies.

(** The order of the scan on pairs (attribute, position): by attribute
    first, by position inside a table. *)
Definition scan_before (c c' : nat * nat) : Prop :=
  (c.1 < c'.1)%nat \/ (c.1 = c'.1 /\ (c.2 < c'.2)%nat).

(** The update of a search that keeps the entry of strictly lower cost. *)
Definition pick_by {A} (cost : A -> Q) (best c : A) : A :=
  if Qlt_bool (cost c) (cost best) then c else best.

(** The classification update: a candidate replaces the best one when its
    impurity is strictly lower. *)
Definition pick (best c : Best) : Best :=
  if Qlt_bool (bestImpurity c) (bestImpurity best) then c else best.

(** The regression update: also when nothing was stored yet. *)
Definition pickR (best c : BestR) : BestR :=
  if Qlt_bool (r_bestImpurity c) (r_bestImpurity best)
     || Qlt_bool (r_bestImpurity best) 0
  then c else best.

(** [b] is the first entry of [cs] of lowest cost: strictly lower than every
    entry before it, not higher than any entry after it. *)
Definition first_lowest {A} (cost : A -> Q) (cs : list A) (b : A) : Prop :=
  exists pre post,
    cs = pre ++ b :: post /\
    (forall c, c ∈ pre -> (cost b < cost c)%Q) /\
    (forall c, c ∈ post -> (cost b <= cost c)%Q).

(** ** Shape of a flattened tree *)

Inductive shape : Type :=
| Leaf (info : NodeInfo)
| Node (info : NodeInfo) (l r : shape).

(** The preorder sequence: the node, the left subtree, the right subtree. *)
Fixpoint preorder (s : shape) : TreeType :=
  match s with
  | Leaf info => [info]
  | Node info l r => info :: preorder l ++ preorder r
  end.

Definition root (s : shape) : NodeInfo :=
  match s with
  | Leaf info => info
  | Node info _ _ => info
  end.

(** Heap numbering in [size_t] arithmetic, from the identifier [k]. *)
Fixpoint numbered (k : Z) (s : shape) : Prop :=
  match s with
  | Leaf info => nodeId info = k /\ leftNodeId info = 0 /\ rightNodeId info = 0
  | Node info l r =>
      nodeId info = k /\
      leftNodeId info = usize (2 * k + 1) /\
      rightNodeId info = usize (2 * k + 2) /\
      numbered (leftNodeId info) l /\
      numbered (rightNodeId info) r
  end.

(** The internal nodes of a tree. *)
Fixpoint internal (s : shape) : list NodeInfo :=
  match s with
  | Leaf _ => []
  | Node info l r => info :: internal l ++ internal r
  end.

(** The leaves of a tree. *)
Fixpoint leaves (s : shape) : list NodeInfo :=
  match s with
  | Leaf info => [info]
  | Node _ l r => leaves l ++ leaves r
  end.

(** ** Bagging in train *)

(** [static_cast<std::size_t>] of a double: the fraction is dropped. *)
Definition truncate (x : double) : Z :=
  if Qle_bool 0 x then Qfloor x else Qceiling x.

Section Bagging.

(** [boost::random_shuffle], an external routine. *)
Variable random_shuffle : list nat -> list nat.

(** The double that the field [m_OOBratio] holds: the one nearest to the
    ratio that was assigned. *)
Definition storedOOBratio (t : RFTrainer) : double :=
  Binary64.round (m_OOBratio t).

(** [subsetSize] of [train], computed after [setDefaults]: the number of
    elements is converted to a double, the product with the ratio is
    rounded, and the cast drops its fraction. *)
Definition subsetSize (t : RFTrainer) (numberOfElements : nat) : nat :=
  Z.to_nat (truncate (Binary64.mul (Binary64.of_Z (Z.of_nat numberOfElements))
                        (storedOOBratio (setDefaults t)))).

(** The row indices of the training bag and of the out-of-bag sample of one
    tree: [subsetIndices] after the [erase], and the range from [oobStart]
    to [oobEnd]. *)
Definition bagIndices (t : RFTrainer) (numberOfElements : nat)
  : list nat * list nat :=
  let subsetIndices := random_shuffle (seq 0 numberOfElements) in
  let oobStart := subsetSize t numberOfElements in
  (take oobStart subsetIndices, drop oobStart subsetIndices).

End Bagging.

(** ** A small run

    Four rows with one attribute, values [0,0,1,1]; the classification
    labels are [0,0,1,1] and the regression labels [1,1,5,5].  One attribute
    is drawn per split, a node of one row is a leaf, and [rand()] counts
    upwards.  [example_split] is a second collection, of two tables over
    three rows. *)

Module Example.

Definition trainer : RFTrainer :=
  mkRFTrainer 1 1 1 1 1 1 (66 # 100)%Q false false false.

Definition rand (k : nat) : nat := k.

(** A [std::sort] for tables that are sorted already. *)
Definition sorted_already (cmp : RFAttribute -> RFAttribute -> bool)
    (table : AttributeTable) : AttributeTable := table.

Definition data : ClassificationDataset :=
  [([0%Q], 0%nat); ([0%Q], 0%nat); ([1%Q], 1%nat); ([1%Q], 1%nat)].

Definition dataR : RegressionDataset :=
  [([0%Q], [1%Q]); ([0%Q], [1%Q]); ([1%Q], [5%Q]); ([1%Q], [5%Q])].

Definition tables : AttributeTables :=
  createAttributeTables trainer sorted_already (fst <$> data).

Definition counts : ClassVector := createCountVector trainer data.

Definition labels : list RealVector :=
  [[1%Q]; [1%Q]; [5%Q]; [5%Q]].

Definition example_split : AttributeTables :=
  [[mkRFAttribute 0%Q 0; mkRFAttribute 1%Q 1; mkRFAttribute 2%Q 2];
   [mkRFAttribute 5%Q 1; mkRFAttribute 6%Q 0; mkRFAttribute 7%Q 2]]%nat.

(** Eight rows with two attributes that both hold the values [0 .. 7], and
    the labels [0,1,0,0,0,1,0,0]: every position is a boundary of both
    tables, and the boundaries after two and after six rows have the same
    exact impurity, 8/3. *)
Definition trainer8 : RFTrainer :=
  mkRFTrainer 2 1 1 2 1 1 (66 # 100)%Q false false false.

Definition data8 : ClassificationDataset :=
  [([0%Q; 0%Q], 0%nat); ([1%Q; 1%Q], 1%nat); ([2%Q; 2%Q], 0%nat);
   ([3%Q; 3%Q], 0%nat); ([4%Q; 4%Q], 0%nat); ([5%Q; 5%Q], 1%nat);
   ([6%Q; 6%Q], 0%nat); ([7%Q; 7%Q], 0%nat)].

Definition tables8 : AttributeTables :=
  createAttributeTables trainer8 sorted_already (fst <$> data8).

Definition counts8 : ClassVector := createCountVector trainer8 data8.

(** The same rows with the regression labels [0,1,0,0,0,1,0,0]. *)
Definition dataR8 : RegressionDataset :=
  [([0%Q; 0%Q], [0%Q]); ([1%Q; 1%Q], [1%Q]); ([2%Q; 2%Q], [0%Q]);
   ([3%Q; 3%Q], [0%Q]); ([4%Q; 4%Q], [0%Q]); ([5%Q; 5%Q], [1%Q]);
   ([6%Q; 6%Q], [0%Q]); ([7%Q; 7%Q], [0%Q])].

End Example.

(** ** Construction and the first steps of train *)

(** The constructor.  It assigns neither [m_inputDimension] nor the label
    fields: they keep what the memory of the object held, which the model
    receives as [inputDimension], [labelDimension] and [maxLabel]. *)
Definition RFTrainer_new (inputDimension labelDimension maxLabel : nat)
    (computeFeatureImportances computeOOBerror : bool) : RFTrainer :=
  mkRFTrainer inputDimension labelDimension maxLabel 0 0 0 0%Q false
    computeFeatureImportances computeOOBerror.

(** The assignments at the start of the classification [train], before
    [setDefaults].  [inputDimension] and [numberOfClasses] are the values
    that Shark's functions of these names return for the dataset;
    [m_maxLabel] is computed on [unsigned int]. *)
Definition trainFields (t : RFTrainer) (inputDimension : nat)
    (numberOfClasses : Z) : RFTrainer :=
  mkRFTrainer inputDimension (m_labelDimension t)
    (Z.to_nat (uint (uint numberOfClasses - 1)))
    (m_try t) (m_B t) (m_nodeSize t) (m_OOBratio t) false
    (m_computeFeatureImportances t) (m_computeOOBerror t).

(** The same for the regression [train]. *)
Definition trainFieldsR (t : RFTrainer) (inputDimension labelDimension : nat)
  : RFTrainer :=
  mkRFTrainer inputDimension labelDimension (m_maxLabel t)
    (m_try t) (m_B t) (m_nodeSize t) (m_OOBratio t) true
    (m_computeFeatureImportances t) (m_computeOOBerror t).

(** The trainer with which the trees of one call of [train] are grown. *)
Definition trainSetup (t : RFTrainer) (inputDimension : nat)
    (numberOfClasses : Z) : RFTrainer :=
  setDefaults (trainFields t inputDimension numberOfClasses).

Definition trainSetupR (t : RFTrainer) (inputDimension labelDimension : nat)
  : RFTrainer :=
  setDefaults (trainFieldsR t inputDimension labelDimension).

(** ** The parameter vector *)

(** [parameterVector]: the number of trees, as a double. *)
Definition parameterVector (t : RFTrainer) : RealVector := [inject_Z (m_B t)].

Section Parameters.

(** [numberOfParameters] of the parameterizable interface, an external
    routine. *)
Variable numberOfParameters : RFTrainer -> nat.

(** [setParameterVector].  [None] stands for a vector that the assertion on
    its size rejects and for a first entry that has no value as a
    [size_t]. *)
Definition setParameterVector (t : RFTrainer) (newParameters : RealVector)
  : option RFTrainer :=
  if negb (length newParameters =? numberOfParameters t)%nat then None
  else
    match newParameters with
    | [] => None
    | x :: _ =>
        if Qlt_bool (-1) x && Qlt_bool x (inject_Z usize_modulus)
        then Some (setNTrees t (truncate x))
        else None
    end.

End Parameters.

(** ** One tree-growing task of train *)

(** Modelled from the spec: [toDataset(subset(elements, indices))] of
    Shark's data views is not among the sources; it materialises the rows
    at the given indices, in their order. *)
Definition subset {A} (elements : list A) (d : A) (indices : list nat)
  : list A :=
  (fun i => nth i elements d) <$> indices.

Section Task.

Variable rand : nat -> nat.
Variable std_sort :
  (RFAttribute -> RFAttribute -> bool) -> AttributeTable -> AttributeTable.
Variable random_shuffle : list nat -> list nat.

(** The body of the loop of the classification [train] up to the tree, for
    a trainer [t0] on which [train] is called. *)
Definition trainTask (t0 : RFTrainer) (dataset : ClassificationDataset)
    (inputDimension : nat) (numberOfClasses : Z) (fuel pos : nat)
  : outcome (TreeType * nat) :=
  let fields := trainFields t0 inputDimension numberOfClasses in
  let subsetIndices :=
    fst (bagIndices random_shuffle fields (length dataset)) in
  let dataTrain := subset dataset ([], 0%nat) subsetIndices in
  trainTree (setDefaults fields) rand std_sort dataTrain fuel pos.

(** The same for the regression [train]. *)
Definition trainTaskR (t0 : RFTrainer) (dataset : RegressionDataset)
    (inputDimension labelDimension : nat) (fuel pos : nat)
  : outcome (TreeType * nat) :=
  let fields := trainFieldsR t0 inputDimension labelDimension in
  let subsetIndices :=
    fst (bagIndices random_shuffle fields (length dataset)) in
  let dataTrain := subset dataset ([], []) subsetIndices in
  trainTreeR (setDefaults fields) rand std_sort dataTrain fuel pos.

End Task.

(** * Properties *)

(** ** Machine integers and comparisons *)

Lemma usize_small x : 0 <= x < 2 ^ 64 -> usize x = x.
Proof. intros H. unfold usize, usize_modulus. apply Z.mod_small. exact H. Qed.

Lemma uint_small x : 0 <= x < 2 ^ 32 -> uint x = x.
Proof. intros H. unfold uint, uint_modulus. apply Z.mod_small. exact H. Qed.

Lemma Qlt_bool_iff x y : Qlt_bool x y = true <-> (x < y)%Q.
Proof.
  unfold Qlt_bool. rewrite negb_true_iff.
  split.
  - intros H. apply Qnot_le_lt. intros Hle. apply Qle_bool_iff in Hle. congruence.
  - intros H. destruct (Qle_bool y x) eqn:E; [|reflexivity].
    apply Qle_bool_iff in E. exfalso. revert E. apply Qlt_not_le, H.
Qed.

Lemma fold_left_Qplus {A} (f : A -> Q) (l : list A) (a : Q) :
  (fold_left (fun res i => res + f i) l a == a + Qsum (List.map f l))%Q.
Proof.
  revert a. induction l as [|x l IH]; intros a; simpl.
  - ring.
  - rewrite IH. ring.
Qed.

Lemma Qsum_ext {A} (f g : A -> Q) (l : list A) :
  (forall x, In x l -> (f x == g x)%Q) ->
  (Qsum (List.map f l) == Qsum (List.map g l))%Q.
Proof.
  induction l as [|x l IH]; intros H; simpl; [reflexivity|].
  rewrite (H x) by (left; reflexivity).
  rewrite IH; [reflexivity|]. intros y Hy. apply H. right. exact Hy.
Qed.

Lemma gini_pos (c : ClassVector) (n : Z) :
  0 < n < 2 ^ 32 ->
  (gini c n == 1 - Qsum (List.map (fun cj => (inject_Z cj / inject_Z n) ^ 2) c))%Q.
Proof.
  intros Hn. unfold gini.
  destruct (Z.eqb_spec n 0) as [->|Hne]; [lia|].
  rewrite usize_small by nia.
  rewrite fold_left_Qplus.
  rewrite (Qsum_ext _ (fun cj => (inject_Z cj / inject_Z n) ^ 2)%Q).
  - ring.
  - intros x _. unfold sqr. rewrite !inject_Z_mult. simpl.
    field. intros H0. apply (inject_Z_injective n 0) in H0. lia.
Qed.

Lemma Qsum_replicate_zero (f : Z -> Q) (k : nat) :
  (f 0%Z == 0)%Q -> (Qsum (List.map f (replicate k 0%Z)) == 0)%Q.
Proof.
  intros H0. induction k as [|k IH]; simpl; [reflexivity|].
  rewrite H0, IH. ring.
Qed.

Lemma Qsum_replicate_const (f : Z -> Q) (k : nat) (m : Z) :
  (Qsum (List.map f (replicate k m)) == inject_Z (Z.of_nat k) * f m)%Q.
Proof.
  induction k as [|k IH].
  - simpl. ring.
  - rewrite Nat2Z.inj_succ. unfold Z.succ. rewrite inject_Z_plus.
    simpl. rewrite IH. ring.
Qed.

Lemma inject_Z_nonzero (n : Z) : n <> 0 -> ~ (inject_Z n == 0)%Q.
Proof. intros Hn H0. apply (inject_Z_injective n 0) in H0. exact (Hn H0). Qed.

(** C4. For a count vector [c] and a total [n] below [2^32] (where [n*n]
    does not wrap), [gini c n] is [1 - sum_j (c[j]/n)^2] when [n > 0] and
    [1] when [n = 0]; it is [0] when the whole mass [n] sits in one class
    and [1 - 1/K] for [K] classes of equal count. *)
Theorem gini_spec (c : ClassVector) (n : Z) :
  (0 < n < 2 ^ 32 ->
   (gini c n == 1 - Qsum (List.map (fun cj => (inject_Z cj / inject_Z n) ^ 2) c))%Q) /\
  (n = 0 -> (gini c n == 1)%Q) /\
  (0 < n < 2 ^ 32 ->
   (exists j k : nat, c = replicate j 0 ++ n :: replicate k 0) ->
   (gini c n == 0)%Q) /\
  (0 < n < 2 ^ 32 ->
   forall (K : nat) (m : Z),
     (0 < K)%nat -> n = Z.of_nat K * m -> c = replicate K m ->
     (gini c n == 1 - 1 / inject_Z (Z.of_nat K))%Q).
Proof.
  repeat split.
  - apply gini_pos.
  - intros ->. unfold gini. simpl. ring.
  - intros Hn (j & k & ->). rewrite gini_pos by exact Hn.
    rewrite List.map_app. simpl.
    assert (Hsplit : forall a b : list Q, (Qsum (a ++ b) == Qsum a + Qsum b)%Q).
    { induction a as [|x a IH]; intros b; simpl; [ring|]. rewrite IH. ring. }
    rewrite Hsplit. simpl.
    rewrite !Qsum_replicate_zero.
    + field. apply inject_Z_nonzero. lia.
    + unfold Qdiv. ring.
    + unfold Qdiv. ring.
  - intros Hn K m HK HnK ->. rewrite gini_pos by exact Hn.
    rewrite Qsum_replicate_const. subst n.
    rewrite inject_Z_mult.
    assert (m <> 0) by nia.
    field. split; apply inject_Z_nonzero; lia.
Qed.

Lemma gini_spec_witness :
  (gini [3; 0; 1]%Z 4%Z == 1 - Qsum (List.map (fun cj => (inject_Z cj / inject_Z 4) ^ 2) [3; 0; 1]%Z))%Q /\
  (gini [0; 5; 0]%Z 5%Z == 0)%Q /\
  (gini [2; 2; 2]%Z 6%Z == 1 - 1 / inject_Z 3)%Q.
Proof.
  split; [|split].
  - apply (proj1 (gini_spec [3; 0; 1] 4)). lia.
  - apply (proj1 (proj2 (proj2 (gini_spec [0; 5; 0] 5)))); [lia|].
    exists 1%nat, 1%nat. reflexivity.
  - apply (proj2 (proj2 (proj2 (gini_spec [2; 2; 2] 6))) ltac:(lia) 3%nat 2);
      [lia | reflexivity | reflexivity].
Defined.

(** ** setDefaults *)

Lemma ceil_third_spec (d : nat) :
  Z.of_nat d < 2 ^ 64 ->
  3 * (ceil_third d - 1) < Z.of_nat d <= 3 * ceil_third d.
Proof.
  intros Hd. unfold ceil_third.
  set (q := (inject_Z (Z.of_nat d) / 3)%Q).
  assert (Hup : (q <= inject_Z (Qceiling q))%Q) by apply Qle_ceiling.
  assert (Hlo : (inject_Z (Qceiling q - 1) < q)%Q) by apply Qceiling_lt.
  assert (Hq : (inject_Z (Z.of_nat d) == 3 * q)%Q) by (unfold q; field).
  assert (H1 : Z.of_nat d <= 3 * Qceiling q).
  { rewrite Zle_Qle, Hq, inject_Z_mult.
    apply Qmult_le_l; [reflexivity | exact Hup]. }
  assert (H2 : 3 * (Qceiling q - 1) < Z.of_nat d).
  { rewrite Zlt_Qlt, Hq, inject_Z_mult.
    apply Qmult_lt_l; [reflexivity | exact Hlo]. }
  rewrite usize_small by lia. lia.
Qed.

Lemma ceil_sqrt_spec (d : nat) :
  Z.of_nat d < 2 ^ 64 ->
  (d = 0%nat -> ceil_sqrt d = 0) /\
  ((0 < d)%nat ->
   (ceil_sqrt d - 1) * (ceil_sqrt d - 1) < Z.of_nat d
   <= ceil_sqrt d * ceil_sqrt d).
Proof.
  intros Hd. unfold ceil_sqrt. split.
  - intros ->. reflexivity.
  - intros Hpos.
    pose proof (Z.sqrt_up_spec (Z.of_nat d) ltac:(lia)) as Hs.
    pose proof (Z.sqrt_up_nonneg (Z.of_nat d)) as H0.
    assert (Z.sqrt_up (Z.of_nat d) <= Z.of_nat d).
    { destruct (Z.eq_dec (Z.of_nat d) 1) as [->|]; [reflexivity|].
      destruct (Z.eq_dec (Z.of_nat d) 2) as [->|]; [reflexivity|].
      apply Z.lt_le_incl, Z.sqrt_up_lt_lin. lia. }
    rewrite usize_small by lia.
    replace (Z.sqrt_up (Z.of_nat d) - 1) with (Z.pred (Z.sqrt_up (Z.of_nat d)))
      by lia.
    exact Hs.
Qed.

Lemma setDefaults_fields (t : RFTrainer) :
  let t' := setDefaults t in
  m_try t' =
    (if m_try t =? 0 then
       if m_regressionLearner t then ceil_third (m_inputDimension t)
       else ceil_sqrt (m_inputDimension t)
     else m_try t) /\
  m_B t' = (if m_B t =? 0 then 100 else m_B t) /\
  m_nodeSize t' =
    (if m_nodeSize t =? 0 then if m_regressionLearner t then 5 else 1
     else m_nodeSize t) /\
  m_OOBratio t' =
    (if Qle_bool (m_OOBratio t) 0 || Qlt_bool 1 (m_OOBratio t)
     then (66 # 100)%Q else m_OOBratio t) /\
  m_inputDimension t' = m_inputDimension t /\
  m_labelDimension t' = m_labelDimension t /\
  m_maxLabel t' = m_maxLabel t /\
  m_regressionLearner t' = m_regressionLearner t /\
  m_computeFeatureImportances t' = m_computeFeatureImportances t /\
  m_computeOOBerror t' = m_computeOOBerror t.
Proof.
  destruct t as [d ld ml mt mb ns ratio reg fi oob].
  unfold setDefaults, setMTry, setNTrees, setNodeSize, setOOBratio.
  cbn -[ceil_sqrt ceil_third Qle_bool Qlt_bool Z.eqb].
  destruct (mt =? 0), reg; cbn -[ceil_sqrt ceil_third Qle_bool Qlt_bool Z.eqb];
    destruct (mb =? 0); cbn -[ceil_sqrt ceil_third Qle_bool Qlt_bool Z.eqb];
    destruct (ns =? 0); cbn -[ceil_sqrt ceil_third Qle_bool Qlt_bool Z.eqb];
    destruct (Qle_bool ratio 0 || Qlt_bool 1 ratio);
    cbn -[ceil_sqrt ceil_third Qle_bool Qlt_bool Z.eqb];
    repeat split.
Qed.

Lemma oob_in_range_iff (x : double) :
  Qle_bool x 0 || Qlt_bool 1 x = false <-> oob_in_range x.
Proof.
  unfold oob_in_range. rewrite orb_false_iff. split.
  - intros [H1 H2]. split.
    + apply Qlt_bool_iff. unfold Qlt_bool. rewrite H1. reflexivity.
    + apply Qle_bool_iff. unfold Qlt_bool in H2.
      apply negb_false_iff in H2. exact H2.
  - intros [H1 H2]. split.
    + apply Qlt_bool_iff in H1. unfold Qlt_bool in H1.
      apply negb_true_iff in H1. exact H1.
    + unfold Qlt_bool. apply negb_false_iff. apply Qle_bool_iff. exact H2.
Qed.

(** C8. [setDefaults] replaces exactly the unset fields: [m_try] when it is
    0 (by the ceiling of the square root of the input dimension for
    classification, of a third of it for regression), [m_B] when it is 0
    (by 100), [m_nodeSize] when it is 0 (by 1 for classification, 5 for
    regression), and [m_OOBratio] when it lies outside (0,1] (by 0.66).
    Every other field, and every field already set, keeps its value; the
    function is total. *)
Theorem setDefaults_spec (t : RFTrainer) :
  let t' := setDefaults t in
  let d := m_inputDimension t in
  (* mTry *)
  (m_try t = 0 -> m_regressionLearner t = false -> m_try t' = ceil_sqrt d) /\
  (m_try t = 0 -> m_regressionLearner t = true -> m_try t' = ceil_third d) /\
  (m_try t <> 0 -> m_try t' = m_try t) /\
  (* nTrees *)
  (m_B t = 0 -> m_B t' = 100) /\
  (m_B t <> 0 -> m_B t' = m_B t) /\
  (* nodeSize *)
  (m_nodeSize t = 0 -> m_regressionLearner t = false -> m_nodeSize t' = 1) /\
  (m_nodeSize t = 0 -> m_regressionLearner t = true -> m_nodeSize t' = 5) /\
  (m_nodeSize t <> 0 -> m_nodeSize t' = m_nodeSize t) /\
  (* oobRatio *)
  (~ oob_in_range (m_OOBratio t) -> m_OOBratio t' = (66 # 100)%Q) /\
  (oob_in_range (m_OOBratio t) -> m_OOBratio t' = m_OOBratio t) /\
  (* the other fields *)
  m_inputDimension t' = d /\
  m_labelDimension t' = m_labelDimension t /\
  m_maxLabel t' = m_maxLabel t /\
  m_regressionLearner t' = m_regressionLearner t /\
  m_computeFeatureImportances t' = m_computeFeatureImportances t /\
  m_computeOOBerror t' = m_computeOOBerror t /\
  (* the two ceilings *)
  (Z.of_nat d < 2 ^ 64 ->
   3 * (ceil_third d - 1) < Z.of_nat d <= 3 * ceil_third d) /\
  (Z.of_nat d < 2 ^ 64 -> (0 < d)%nat ->
   (ceil_sqrt d - 1) * (ceil_sqrt d - 1) < Z.of_nat d
   <= ceil_sqrt d * ceil_sqrt d) /\
  ceil_sqrt 0 = 0.
Proof.
  intros t' d.
  destruct (setDefaults_fields t)
    as (Htry & HB & Hns & Hr & Hd & Hld & Hml & Hreg & Hfi & Hoob).
  fold t' in Htry, HB, Hns, Hr, Hd, Hld, Hml, Hreg, Hfi, Hoob.
  split; [intros H0 Hc; rewrite Htry, H0, Hc; reflexivity|].
  split; [intros H0 Hc; rewrite Htry, H0, Hc; reflexivity|].
  split; [intros H0; rewrite Htry; apply Z.eqb_neq in H0; rewrite H0; reflexivity|].
  split; [intros H0; rewrite HB, H0; reflexivity|].
  split; [intros H0; rewrite HB; apply Z.eqb_neq in H0; rewrite H0; reflexivity|].
  split; [intros H0 Hc; rewrite Hns, H0, Hc; reflexivity|].
  split; [intros H0 Hc; rewrite Hns, H0, Hc; reflexivity|].
  split; [intros H0; rewrite Hns; apply Z.eqb_neq in H0; rewrite H0; reflexivity|].
  split.
  { intros Hout. rewrite Hr.
    destruct (Qle_bool (m_OOBratio t) 0 || Qlt_bool 1 (m_OOBratio t)) eqn:E;
      [reflexivity|]. exfalso. apply Hout, oob_in_range_iff, E. }
  split.
  { intros Hin. rewrite Hr. apply oob_in_range_iff in Hin. rewrite Hin.
    reflexivity. }
  repeat (split; [assumption|]).
  split; [apply ceil_third_spec|].
  split; [intros Hlt Hpos; apply ceil_sqrt_spec; assumption|].
  reflexivity.
Qed.

Lemma setDefaults_spec_witness :
  m_try (setDefaults (mkRFTrainer 10 0 1 0 0 0 0%Q false false false)) = 4 /\
  m_nodeSize (setDefaults (mkRFTrainer 10 0 1 0 0 0 0%Q true false false)) = 5 /\
  m_OOBratio (setDefaults (mkRFTrainer 10 0 1 0 0 0 (1 # 2)%Q true false false))
    = (1 # 2)%Q.
Proof.
  split; [|split].
  - exact (proj1 (setDefaults_spec (mkRFTrainer 10 0 1 0 0 0 0%Q false false false))
             eq_refl eq_refl).
  - exact (proj1 (proj2 (proj2 (proj2 (proj2 (proj2 (proj2
             (setDefaults_spec (mkRFTrainer 10 0 1 0 0 0 0%Q true false false))))))))
             eq_refl eq_refl).
  - apply (proj1 (proj2 (proj2 (proj2 (proj2 (proj2 (proj2 (proj2 (proj2 (proj2
             (setDefaults_spec (mkRFTrainer 10 0 1 0 0 0 (1 # 2)%Q true false false)))))))))))).
    split; [reflexivity | apply Qle_bool_iff; reflexivity].
Defined.

(** ** totalSumOfSquares *)

Lemma throws_Throws {A} (msg : string) : throws (@Throws A msg).
Proof. exists msg. reflexivity. Qed.

Lemma throws_Ret {A} (a : A) : ~ throws (Ret a).
Proof. intros [msg H]. discriminate H. Qed.

Lemma totalSumOfSquares_throws (labels : list RealVector) (start length : Z)
    (sumLabel : RealVector) :
  throws (totalSumOfSquares labels start length sumLabel) <->
  length < 1 \/ usize (start + length) > Z.of_nat (List.length labels).
Proof.
  unfold totalSumOfSquares.
  destruct (Z.ltb_spec length 1) as [Hl|Hl].
  - split; [intros _; left; exact Hl | intros _; apply throws_Throws].
  - destruct (Z.gtb_spec (usize (start + length)) (Z.of_nat (List.length labels)))
      as [Hg|Hg].
    + split; [intros _; right; lia | intros _; apply throws_Throws].
    + split; [intros H; exfalso; revert H; apply throws_Ret | lia].
Qed.

(** C5. [totalSumOfSquares] throws exactly when [length < 1] or
    [start+length] (a [size_t] sum) exceeds the number of labels; otherwise
    it returns the sum, over [i] in [[0,length)], of the squared norm of
    [labels[start+i]] minus the mean [sumLabel/length]. *)
Theorem totalSumOfSquares_spec (labels : list RealVector) (start length : Z)
    (sumLabel : RealVector) :
  0 <= start < 2 ^ 64 -> 0 <= length < 2 ^ 64 ->
  let size := Z.of_nat (List.length labels) in
  let result := totalSumOfSquares labels start length sumLabel in
  (throws result <-> length < 1 \/ usize (start + length) > size) /\
  (start + length < 2 ^ 64 ->
   (throws result <-> length < 1 \/ start + length > size)) /\
  (start + length < 2 ^ 64 -> 1 <= length -> start + length <= size ->
   exists v, result = Ret v /\
     (v == Qsum (List.map
                   (fun i => norm_sqr
                      (vsub (nth (Z.to_nat start + i) labels [])
                            (vdiv sumLabel (inject_Z length))))
                   (seq 0 (Z.to_nat length))))%Q).
Proof.
  intros Hs Hl size result. subst size result.
  split; [apply totalSumOfSquares_throws|].
  split.
  - intros Hno. rewrite totalSumOfSquares_throws.
    rewrite usize_small by lia. reflexivity.
  - intros Hno H1 Hfit. unfold totalSumOfSquares.
    destruct (Z.ltb_spec length 1) as [Hc|_]; [lia|].
    rewrite usize_small by lia.
    destruct (Z.gtb_spec (start + length) (Z.of_nat (List.length labels)))
      as [Hc|_]; [lia|].
    eexists. split; [reflexivity|].
    rewrite fold_left_Qplus. rewrite Qplus_0_l.
    apply Qsum_ext. intros i Hi. apply in_seq in Hi.
    rewrite usize_small by lia.
    replace (Z.to_nat (start + Z.of_nat i)) with (Z.to_nat start + i)%nat by lia.
    reflexivity.
Qed.

Lemma totalSumOfSquares_spec_witness :
  (throws (totalSumOfSquares [[1%Q]; [3%Q]] 1 2 [4%Q]) <-> 2 < 1 \/ 1 + 2 > 2) /\
  (exists v, totalSumOfSquares [[1%Q]; [3%Q]] 0 2 [4%Q] = Ret v /\ (v == 2)%Q).
Proof.
  pose proof (totalSumOfSquares_spec [[1%Q]; [3%Q]] 1 2 [4%Q]
                ltac:(lia) ltac:(lia)) as (_ & H1 & _).
  pose proof (totalSumOfSquares_spec [[1%Q]; [3%Q]] 0 2 [4%Q]
                ltac:(lia) ltac:(lia)) as (_ & _ & H2).
  split.
  - apply H1. lia.
  - destruct (H2 ltac:(lia) ltac:(lia) ltac:(simpl; lia)) as (v & Hv & Heq).
    exists v. split; [exact Hv|]. rewrite Heq. reflexivity.
Defined.

(** ** The ordered set of attribute indices *)

Lemma elem_of_set_insert (x y : nat) (s : list nat) :
  y ∈ set_insert x s <-> y = x \/ y ∈ s.
Proof.
  induction s as [|z s IH]; simpl.
  - rewrite list_elem_of_singleton, elem_of_nil. tauto.
  - destruct (Nat.ltb_spec x z); [rewrite !elem_of_cons; tauto|].
    destruct (Nat.eqb_spec x z) as [->|Hne].
    + rewrite !elem_of_cons. tauto.
    + rewrite !elem_of_cons, IH. tauto.
Qed.

Lemma ascending_set_insert (x : nat) (s : list nat) :
  ascending s -> ascending (set_insert x s).
Proof.
  unfold ascending. induction 1 as [|z s Hs IH Hz]; simpl.
  - repeat constructor.
  - destruct (Nat.ltb_spec x z) as [Hlt|Hge].
    + constructor; [constructor; assumption|].
      constructor; [exact Hlt|].
      eapply Forall_impl; [exact Hz|]. intros w Hw. cbn in Hw. lia.
    + destruct (Nat.eqb_spec x z) as [->|Hne]; [constructor; assumption|].
      constructor; [exact IH|].
      apply Forall_forall. intros w Hw. apply elem_of_set_insert in Hw.
      destruct Hw as [->|Hw]; [lia|].
      rewrite Forall_forall in Hz. apply Hz, Hw.
Qed.

Lemma ascending_NoDup (s : list nat) : ascending s -> NoDup s.
Proof.
  unfold ascending. induction 1 as [|z s Hs IH Hz]; constructor; [|exact IH].
  intros Hin. rewrite Forall_forall in Hz. specialize (Hz z Hin). lia.
Qed.

Lemma length_set_insert (x : nat) (s : list nat) :
  ascending s ->
  length (set_insert x s) = if decide (x ∈ s) then length s else S (length s).
Proof.
  unfold ascending. induction 1 as [|z s Hs IH Hz]; simpl.
  - destruct (decide (x ∈ [])) as [Hin|_]; [inversion Hin | reflexivity].
  - rewrite Forall_forall in Hz.
    destruct (Nat.ltb_spec x z) as [Hlt|Hge].
    + destruct (decide (x ∈ z :: s)) as [Hin|_]; [|reflexivity].
      exfalso. apply elem_of_cons in Hin as [->|Hin]; [lia|].
      specialize (Hz x Hin). lia.
    + destruct (Nat.eqb_spec x z) as [->|Hne].
      * destruct (decide (z ∈ z :: s)) as [_|Hn]; [reflexivity|].
        exfalso. apply Hn. left.
      * simpl. rewrite IH.
        destruct (decide (x ∈ s)) as [Hin|Hn];
          destruct (decide (x ∈ z :: s)) as [Hin'|Hn']; try reflexivity.
        -- exfalso. apply Hn'. right. exact Hin.
        -- exfalso. apply elem_of_cons in Hin' as [->|Hin']; [lia|].
           exact (Hn Hin').
Qed.

Lemma length_set_insert_bounds (x : nat) (s : list nat) :
  ascending s ->
  (length s <= length (set_insert x s) <= S (length s))%nat.
Proof.
  intros Hs. rewrite length_set_insert by exact Hs.
  destruct (decide (x ∈ s)); lia.
Qed.

Lemma bounded_NoDup_length (s : list nat) (d : nat) :
  NoDup s -> (forall x, x ∈ s -> (x < d)%nat) -> (length s <= d)%nat.
Proof.
  intros Hnd Hr.
  assert (Hsub : s ⊆+ seq 0 d).
  { apply NoDup_submseteq; [exact Hnd|].
    intros x Hx. apply elem_of_seq. specialize (Hr x Hx). lia. }
  apply submseteq_length in Hsub. rewrite length_seq in Hsub. exact Hsub.
Qed.

Section Draw.

Variable t : RFTrainer.
Variable rand : nat -> nat.

Lemma in_range_set_insert (x : nat) (s : list nat) :
  m_inputDimension t <> 0%nat -> in_range t s ->
  in_range t (set_insert (x mod m_inputDimension t) s).
Proof.
  intros Hd Hs y Hy. apply elem_of_set_insert in Hy as [->|Hy].
  - apply Nat.mod_upper_bound. exact Hd.
  - apply Hs, Hy.
Qed.

Lemma generate_unfold (fuel pos : nat) (s : list nat) :
  generateRandomTableIndicies t rand fuel pos s =
  if Z.of_nat (length s) <? m_try t then
    match fuel with
    | O => OutOfFuel
    | S fuel' =>
        if (m_inputDimension t =? 0)%nat then Trap
        else
          generateRandomTableIndicies t rand fuel' (S pos)
            (set_insert (rand pos mod m_inputDimension t)%nat s)
    end
  else Ret (s, pos).
Proof. destruct fuel; reflexivity. Qed.

(** What a returned set looks like. *)
Lemma generate_sound (fuel pos : nat) (s s' : list nat) (pos' : nat) :
  ascending s -> in_range t s ->
  generateRandomTableIndicies t rand fuel pos s = Ret (s', pos') ->
  ascending s' /\ in_range t s' /\
  m_try t <= Z.of_nat (length s') /\
  (Z.of_nat (length s) <= m_try t -> Z.of_nat (length s') = m_try t) /\
  (pos <= pos')%nat.
Proof.
  revert pos s. induction fuel as [|fuel IH]; intros pos s Hasc Hr;
    rewrite generate_unfold;
    destruct (Z.ltb_spec (Z.of_nat (length s)) (m_try t)) as [Hlt|Hge];
    try discriminate.
  - intros [= <- <-]. repeat split; try assumption; lia.
  - destruct (Nat.eqb_spec (m_inputDimension t) 0) as [Hd|Hd]; [discriminate|].
    intros Hgen.
    apply IH in Hgen as (Ha & Hr' & Hm & Hl & Hp).
    + repeat split; try assumption; [|lia].
      intros _. apply Hl.
      pose proof (length_set_insert_bounds
                    (rand pos mod m_inputDimension t)%nat s Hasc).
      lia.
    + apply ascending_set_insert, Hasc.
    + apply in_range_set_insert; assumption.
  - intros [= <- <-]. repeat split; try assumption; lia.
Qed.

(** With more attributes asked for than there are, the loop has no exit. *)
Lemma generate_starves (fuel pos : nat) (s : list nat) :
  (0 < (m_inputDimension t))%nat -> Z.of_nat (m_inputDimension t) < m_try t ->
  ascending s -> in_range t s ->
  generateRandomTableIndicies t rand fuel pos s = OutOfFuel.
Proof.
  intros Hd Hm. revert pos s.
  induction fuel as [|fuel IH]; intros pos s Hasc Hr; rewrite generate_unfold.
  - pose proof (bounded_NoDup_length s (m_inputDimension t)
                  (ascending_NoDup s Hasc) Hr).
    destruct (Z.ltb_spec (Z.of_nat (length s)) (m_try t)); [reflexivity | lia].
  - pose proof (bounded_NoDup_length s (m_inputDimension t)
                  (ascending_NoDup s Hasc) Hr).
    destruct (Z.ltb_spec (Z.of_nat (length s)) (m_try t)); [|lia].
    destruct (Nat.eqb_spec (m_inputDimension t) 0); [lia|].
    apply IH; [apply ascending_set_insert, Hasc|].
    apply in_range_set_insert; [lia | exact Hr].
Qed.

(** The loop returns as soon as enough distinct attributes were drawn. *)
Lemma generate_fair (k pos : nat) (s : list nat) :
  (m_inputDimension t) <> 0%nat ->
  m_try t <= Z.of_nat (length (drawn t rand k pos s)) ->
  returns (generateRandomTableIndicies t rand k pos s).
Proof.
  intros Hd. revert pos s. induction k as [|k IH]; intros pos s Hk;
    rewrite generate_unfold; simpl in Hk.
  - destruct (Z.ltb_spec (Z.of_nat (length s)) (m_try t)); [lia|].
    eexists. reflexivity.
  - destruct (Z.ltb_spec (Z.of_nat (length s)) (m_try t)).
    + destruct (Nat.eqb_spec (m_inputDimension t) 0); [contradiction|].
      apply IH, Hk.
    + eexists. reflexivity.
Qed.

Lemma drawn_length_mono (k pos : nat) (s : list nat) :
  ascending s -> (length s <= length (drawn t rand k pos s))%nat.
Proof.
  revert pos s. induction k as [|k IH]; intros pos s Hs; simpl; [lia|].
  etransitivity; [|apply IH, ascending_set_insert, Hs].
  apply length_set_insert_bounds, Hs.
Qed.

(** Conversely a return means that enough distinct attributes were drawn. *)
Lemma generate_returns_drawn (fuel pos : nat) (s : list nat) :
  ascending s ->
  returns (generateRandomTableIndicies t rand fuel pos s) ->
  exists k, m_try t <= Z.of_nat (length (drawn t rand k pos s)).
Proof.
  revert pos s. induction fuel as [|fuel IH]; intros pos s Hs;
    rewrite generate_unfold;
    destruct (Z.ltb_spec (Z.of_nat (length s)) (m_try t)) as [Hlt|Hge].
  - intros [a Ha]. discriminate Ha.
  - intros _. exists 0%nat. simpl. lia.
  - destruct (Nat.eqb_spec (m_inputDimension t) 0);
      [intros [a Ha]; discriminate Ha|].
    intros Hret. apply IH in Hret as [k Hk]; [|apply ascending_set_insert, Hs].
    exists (S k). exact Hk.
  - intros _. exists 0%nat. simpl. lia.
Qed.

End Draw.

(** A stream that makes the draw succeed: it counts upwards from the
    position at which the loop starts. *)
Lemma set_insert_seq (a m : nat) :
  set_insert (a + m) (seq a m) = seq a (S m).
Proof.
  revert a. induction m as [|m IH]; intros a.
  - rewrite Nat.add_0_r. reflexivity.
  - cbn [seq set_insert].
    destruct (Nat.ltb_spec (a + S m) a); [lia|].
    destruct (Nat.eqb_spec (a + S m) a); [lia|].
    replace (a + S m)%nat with (S a + m)%nat by lia.
    rewrite IH. reflexivity.
Qed.

Lemma drawn_counting (t : RFTrainer) (pos0 k m : nat) :
  (m + k <= m_inputDimension t)%nat ->
  drawn t (fun i => (i - pos0)%nat) k (pos0 + m) (seq 0 m) = seq 0 (m + k).
Proof.
  revert m. induction k as [|k IH]; intros m Hle; cbn [drawn].
  - rewrite Nat.add_0_r. reflexivity.
  - replace (pos0 + m - pos0)%nat with m by lia.
    rewrite Nat.mod_small by lia.
    pose proof (set_insert_seq 0 m) as Hins. cbn [Nat.add] in Hins.
    rewrite Hins.
    replace (S (pos0 + m)) with (pos0 + S m)%nat by lia.
    rewrite IH by lia. f_equal. lia.
Qed.

(** A stream that always returns the same number never fills a set of two
    attributes. *)
Lemma generate_constant (t : RFTrainer) (c fuel pos : nat) :
  2 <= m_try t -> (0 < m_inputDimension t)%nat ->
  generateRandomTableIndicies t (fun _ => c) fuel pos [] = OutOfFuel.
Proof.
  intros Hm Hd.
  assert (Hone : forall fuel pos,
            generateRandomTableIndicies t (fun _ => c) fuel pos
              [(c mod m_inputDimension t)%nat] = OutOfFuel).
  { clear fuel pos. induction fuel as [|fuel IH]; intros pos;
      rewrite generate_unfold; cbn [length];
      destruct (Z.ltb_spec (Z.of_nat 1) (m_try t)); try lia; [reflexivity|].
    destruct (Nat.eqb_spec (m_inputDimension t) 0); [lia|].
    cbn [set_insert]. rewrite Nat.ltb_irrefl, Nat.eqb_refl. apply IH. }
  rewrite generate_unfold. cbn [length].
  destruct (Z.ltb_spec (Z.of_nat 0) (m_try t)); [|lia].
  destruct fuel as [|fuel]; [reflexivity|].
  destruct (Nat.eqb_spec (m_inputDimension t) 0); [lia|].
  cbn [set_insert]. apply Hone.
Qed.

(** C9. [generateRandomTableIndicies] on an empty set, for [m_try] in the
    range of [size_t].  When [m_try <= m_inputDimension], the loop returns
    exactly for the streams of random numbers that, from the position of
    the call, yield [m_try] distinct remainders after some number of
    draws: there are such streams, and there are others, as the constant
    ones when [m_try >= 2], for which it never returns.  Every set it
    returns has exactly [m_try] distinct indices, all below
    [m_inputDimension].  When [m_try > m_inputDimension] it never returns,
    whatever the random numbers are. *)
Theorem generateRandomTableIndicies_spec (t : RFTrainer) (rand : nat -> nat)
    (pos : nat) :
  0 <= m_try t ->
  (m_try t <= Z.of_nat (m_inputDimension t) ->
   ((exists fuel s pos',
       generateRandomTableIndicies t rand fuel pos [] = Ret (s, pos')) <->
    (exists k, m_try t <= Z.of_nat (length (drawn t rand k pos []))))) /\
  (forall fuel s pos',
     generateRandomTableIndicies t rand fuel pos [] = Ret (s, pos') ->
     Z.of_nat (length s) = m_try t /\ NoDup s /\ ascending s /\
     (forall x, x ∈ s -> (x < m_inputDimension t)%nat)) /\
  (Z.of_nat (m_inputDimension t) < m_try t ->
   forall fuel,
     ~ returns (generateRandomTableIndicies t rand fuel pos []) /\
     ((0 < m_inputDimension t)%nat ->
      generateRandomTableIndicies t rand fuel pos [] = OutOfFuel)) /\
  (m_try t <= Z.of_nat (m_inputDimension t) ->
   exists (rand' : nat -> nat) fuel s pos',
     generateRandomTableIndicies t rand' fuel pos [] = Ret (s, pos')) /\
  (2 <= m_try t ->
   forall c fuel,
     ~ returns (generateRandomTableIndicies t (fun _ => c) fuel pos [])).
Proof.
  intros Hm.
  assert (Hnil : ascending []) by constructor.
  assert (Hrnil : in_range t []) by (intros x Hx; inversion Hx).
  split; [|split; [|split; [|split]]].
  - intros Hd. split.
    + intros (fuel & s & pos' & Hgen).
      apply (generate_returns_drawn t rand fuel pos [] Hnil).
      exists (s, pos'). exact Hgen.
    + intros [k Hk].
      destruct (Z.eq_dec (m_try t) 0) as [H0|H0].
      * exists 0%nat, [], pos. rewrite generate_unfold, H0. reflexivity.
      * destruct (generate_fair t rand k pos []) as [[s pos'] Hs];
          [lia | exact Hk |].
        exists k, s, pos'. exact Hs.
  - intros fuel s pos' Hgen.
    apply generate_sound in Hgen as (Ha & Hr & _ & Hl & _); try assumption.
    split; [apply Hl; simpl; lia|].
    split; [apply ascending_NoDup, Ha|].
    split; [exact Ha | exact Hr].
  - intros Hd fuel.
    destruct (Nat.eq_dec (m_inputDimension t) 0%nat) as [H0|H0].
    + split; [|lia]. rewrite generate_unfold. cbn [length].
      destruct (Z.ltb_spec (Z.of_nat 0%nat) (m_try t)); [|lia].
      destruct fuel; [intros [a Ha]; discriminate Ha|].
      rewrite H0. intros [a Ha]. discriminate Ha.
    + assert (Hto : generateRandomTableIndicies t rand fuel pos [] = OutOfFuel).
      { apply generate_starves; try assumption; lia. }
      split; [|intros _; exact Hto].
      rewrite Hto. intros [a Ha]. discriminate Ha.
  - intros Hd. exists (fun i => (i - pos)%nat).
    destruct (Z.eq_dec (m_try t) 0) as [H0|H0].
    + exists 0%nat, [], pos. rewrite generate_unfold, H0. reflexivity.
    + destruct (generate_fair t (fun i => (i - pos)%nat) (Z.to_nat (m_try t))
                  pos []) as [[s pos'] Hs]; [lia | |].
      * pose proof (drawn_counting t pos (Z.to_nat (m_try t)) 0 ltac:(lia))
          as H.
        rewrite Nat.add_0_r in H. cbn [seq] in H. rewrite H.
        rewrite length_seq. lia.
      * exists (Z.to_nat (m_try t)), s, pos'. exact Hs.
  - intros H2 c fuel.
    destruct (Nat.eq_dec (m_inputDimension t) 0%nat) as [H0|H0].
    + rewrite generate_unfold. cbn [length].
      destruct (Z.ltb_spec (Z.of_nat 0%nat) (m_try t)); [|lia].
      destruct fuel; [intros [a Ha]; discriminate Ha|].
      rewrite H0. intros [a Ha]. discriminate Ha.
    + rewrite generate_constant by lia. intros [a Ha]. discriminate Ha.
Qed.

Lemma generateRandomTableIndicies_spec_witness :
  generateRandomTableIndicies
    (mkRFTrainer 3 0 1 2 1 1 (66 # 100)%Q false false false)
    (fun k => (5 - k)%nat) 2 0 [] = Ret ([1; 2]%nat, 2%nat) /\
  generateRandomTableIndicies
    (mkRFTrainer 3 0 1 4 1 1 (66 # 100)%Q false false false)
    (fun k => k) 7 0 [] = OutOfFuel.
Proof.
  pose proof (generateRandomTableIndicies_spec
                (mkRFTrainer 3 0 1 2 1 1 (66 # 100)%Q false false false)
                (fun k => (5 - k)%nat) 0 ltac:(cbn; lia)) as (H1 & _ & _ & _).
  pose proof (generateRandomTableIndicies_spec
                (mkRFTrainer 3 0 1 4 1 1 (66 # 100)%Q false false false)
                (fun k => k) 0 ltac:(cbn; lia)) as (_ & _ & H3 & _).
  split.
  - destruct (proj2 (H1 ltac:(cbn; lia))) as (fuel & s & pos' & _);
      [exists 2%nat; cbn; lia|].
    reflexivity.
  - apply (H3 ltac:(cbn; lia) 7%nat). cbn. lia.
Defined.

(** Three attributes, two to draw, and a [rand()] that always returns 0:
    [m_try <= m_inputDimension], and the loop does not return. *)
Lemma generateRandomTableIndicies_starved :
  m_try (mkRFTrainer 3 0 1 2 1 1 (66 # 100)%Q false false false)
  <= Z.of_nat
       (m_inputDimension
          (mkRFTrainer 3 0 1 2 1 1 (66 # 100)%Q false false false)) /\
  forall fuel,
    generateRandomTableIndicies
      (mkRFTrainer 3 0 1 2 1 1 (66 # 100)%Q false false false)
      (fun _ => 0%nat) fuel 0 [] = OutOfFuel.
Proof.
  split; [cbn; lia|].
  intros fuel. apply generate_constant; cbn; lia.
Qed.

Local Open Scope nat_scope.

(** ** Table splitter *)

Lemma splitTable_filter (hash : gmap nat bool) (table : AttributeTable) :
  splitTable hash table =
  (filter (fun a => hashAt hash (id a) = true) table,
   filter (fun a => ~ hashAt hash (id a) = true) table).
Proof.
  unfold splitTable.
  enough (H : forall L R,
    fold_left
      (fun '(L, R) a =>
         if hashAt hash (id a) then (L ++ [a], R) else (L, R ++ [a]))
      table (L, R) =
    (L ++ filter (fun a => hashAt hash (id a) = true) table,
     R ++ filter (fun a => ~ hashAt hash (id a) = true) table))
    by apply (H [] []).
  induction table as [|a table IH]; intros L R; cbn [fold_left].
  - rewrite !filter_nil, !app_nil_r. reflexivity.
  - rewrite !filter_cons.
    destruct (hashAt hash (id a)) eqn:E; rewrite IH.
    + rewrite decide_True by reflexivity.
      rewrite decide_False by (intros H; apply H; reflexivity).
      rewrite <- app_assoc. reflexivity.
    + rewrite decide_False by discriminate.
      rewrite decide_True by discriminate.
      rewrite <- app_assoc. reflexivity.
Qed.

Lemma splitAttributeTables_map (tables : AttributeTables) (index valIndex : nat) :
  let hash := buildHash 0 (at_table tables index) valIndex ∅ in
  splitAttributeTables tables index valIndex =
  (((fun table => fst (splitTable hash table)) <$> tables),
   ((fun table => snd (splitTable hash table)) <$> tables)).
Proof.
  intros hash. unfold splitAttributeTables. cbv zeta. subst hash.
  generalize (buildHash 0 (at_table tables index) valIndex ∅). intros hash.
  enough (H : forall Ls Rs,
    fold_left
      (fun '(LAttributeTables, RAttributeTables) table =>
         let '(L, R) := splitTable hash table in
         (LAttributeTables ++ [L], RAttributeTables ++ [R]))
      tables (Ls, Rs) =
    (Ls ++ ((fun table => fst (splitTable hash table)) <$> tables),
     Rs ++ ((fun table => snd (splitTable hash table)) <$> tables)))
    by apply (H [] []).
  induction tables as [|table tables IH]; intros Ls Rs; simpl.
  - rewrite !app_nil_r. reflexivity.
  - destruct (splitTable hash table) as [L R] eqn:E. rewrite IH.
    rewrite <- !app_assoc. reflexivity.
Qed.

Lemma buildHash_spec (rows : AttributeTable) (valIndex i : nat)
    (hash : gmap nat bool) (k : nat) :
  NoDup (ids rows) ->
  hashAt (buildHash i rows valIndex hash) k = true <->
  k ∈ ids (take (S valIndex - i) rows) \/
  ((k ∉ ids rows) /\ hashAt hash k = true).
Proof.
  unfold ids. revert i hash.
  induction rows as [|a rows IH]; intros i hash Hnd; cbn [buildHash].
  - rewrite take_nil, fmap_nil, elem_of_nil. tauto.
  - rewrite fmap_cons in Hnd. apply NoDup_cons in Hnd as [Ha Hnd].
    rewrite IH by exact Hnd.
    change (S valIndex - S i) with (valIndex - i).
    rewrite fmap_cons, (elem_of_cons _ k (id a)).
    unfold hashAt at 1.
    destruct (Nat.leb_spec i valIndex) as [Hle|Hgt].
    + replace (S valIndex - i) with (S (valIndex - i)) by lia.
      rewrite firstn_cons, fmap_cons, elem_of_cons.
      destruct (decide (k = id a)) as [->|Hne].
      * rewrite lookup_insert_eq. cbn [default]. tauto.
      * rewrite lookup_insert_ne by congruence. fold (hashAt hash k). tauto.
    + replace (S valIndex - i) with 0 by lia.
      replace (valIndex - i) with 0 by lia.
      rewrite !take_0, !fmap_nil, elem_of_nil.
      destruct (decide (k = id a)) as [->|Hne].
      * rewrite lookup_insert_eq. cbn [default]. split.
        -- intros [[]|[_ H]]. discriminate H.
        -- intros [[]|[H _]]. exfalso. apply H. left. reflexivity.
      * rewrite lookup_insert_ne by congruence. fold (hashAt hash k). tauto.
Qed.

Lemma hash_goes_left (win : AttributeTable) (valIndex : nat) (a : RFAttribute) :
  NoDup (ids win) ->
  hashAt (buildHash 0 win valIndex ∅) (id a) = true <-> goes_left win valIndex a.
Proof.
  intros Hnd. rewrite buildHash_spec by exact Hnd.
  unfold goes_left. rewrite Nat.sub_0_r.
  unfold hashAt. rewrite lookup_empty. simpl. split; [|tauto].
  intros [H|[_ H]]; [exact H | discriminate H].
Qed.

(** Both sides of the split as filters of the parent tables. *)
Lemma splitAttributeTables_filter (tables : AttributeTables)
    (index valIndex : nat) :
  NoDup (ids (at_table tables index)) ->
  splitAttributeTables tables index valIndex =
  (filter (goes_left (at_table tables index) valIndex) <$> tables,
   filter (fun a => ~ goes_left (at_table tables index) valIndex a) <$> tables).
Proof.
  intros Hnd. rewrite splitAttributeTables_map. cbv zeta.
  f_equal; apply list_fmap_ext; intros i table _;
    rewrite splitTable_filter; simpl; apply list_filter_iff; intros a.
  - apply hash_goes_left, Hnd.
  - rewrite hash_goes_left by exact Hnd. reflexivity.
Qed.

Lemma Qle_value_trans : Transitive (fun a b : RFAttribute => (value a <= value b)%Q).
Proof. intros a b c. apply Qle_trans. Qed.

Lemma StronglySorted_sublist {A} (R : relation A) (l k : list A) :
  l `sublist_of` k -> StronglySorted R k -> StronglySorted R l.
Proof.
  induction 1 as [|x l k Hsub IH|x l k Hsub IH]; intros Hs.
  - constructor.
  - apply StronglySorted_inv in Hs as [Hs Hx].
    constructor; [apply IH, Hs|].
    rewrite Forall_forall in *. intros y Hy. apply Hx.
    eapply elem_of_sublist; eassumption.
  - apply StronglySorted_inv in Hs as [Hs _]. apply IH, Hs.
Qed.

Lemma sorted_table_sublist (l k : AttributeTable) :
  l `sublist_of` k -> sorted_table k -> sorted_table l.
Proof.
  unfold sorted_table. intros Hsub Hs.
  apply StronglySorted_Sorted.
  eapply StronglySorted_sublist; [exact Hsub|].
  apply Sorted_StronglySorted; [apply Qle_value_trans | exact Hs].
Qed.

Lemma filter_all {A} (P : A -> Prop) `{!forall x, Decision (P x)} (l : list A) :
  Forall P l -> filter P l = l.
Proof.
  induction 1 as [|x l Hx _ IH]; [reflexivity|].
  rewrite filter_cons_True by exact Hx. rewrite IH. reflexivity.
Qed.

Lemma filter_none {A} (P : A -> Prop) `{!forall x, Decision (P x)} (l : list A) :
  Forall (fun x => ~ P x) l -> filter P l = [].
Proof.
  induction 1 as [|x l Hx _ IH]; [reflexivity|].
  rewrite filter_cons_False by exact Hx. exact IH.
Qed.

Lemma filter_elem_of_take {A} `{EqDecision A} (l : list A) (k : nat) :
  NoDup l -> filter (fun x => x ∈ take k l) l = take k l.
Proof.
  intros Hnd.
  assert (H : filter (fun x => x ∈ take k l) (take k l ++ drop k l) = take k l).
  { rewrite <- (take_drop k l) in Hnd.
    apply NoDup_app in Hnd as (_ & Hdisj & _).
    rewrite filter_app, filter_all, filter_none.
    - apply app_nil_r.
    - apply Forall_forall. intros x Hx Hin. exact (Hdisj x Hin Hx).
    - apply Forall_forall. intros x Hx. exact Hx. }
  rewrite take_drop in H. exact H.
Qed.

Lemma filter_fmap_id (P : nat -> Prop) (Q : RFAttribute -> Prop)
    `{!forall x, Decision (P x)} `{!forall a, Decision (Q a)}
    (table : list RFAttribute) :
  (forall a, Q a <-> P (id a)) ->
  ids (filter Q table) = filter P (ids table).
Proof.
  intros HPQ. unfold ids. induction table as [|a table IH]; [reflexivity|].
  rewrite fmap_cons, !filter_cons.
  destruct (decide (Q a)) as [Hq|Hq], (decide (P (id a))) as [Hp|Hp];
    try (exfalso; apply HPQ in Hq; tauto);
    try (exfalso; apply HPQ in Hp; tauto).
  - rewrite fmap_cons, IH. reflexivity.
  - exact IH.
Qed.

Lemma ids_take (k : nat) (table : list RFAttribute) :
  ids (take k table) = take k (ids table).
Proof. apply fmap_take. Qed.

Lemma ids_take_drop (k : nat) (table : list RFAttribute) :
  ids (take k table) ++ ids (drop k table) = ids table.
Proof. unfold ids. rewrite <- fmap_app, take_drop. reflexivity. Qed.

(** The identifiers on the left of a split are those of the first
    [valIndex + 1] rows of the winning table, up to the order. *)
Lemma ids_left (win table : list RFAttribute) (valIndex : nat) :
  NoDup (ids win) -> ids table ≡ₚ ids win ->
  ids (filter (goes_left win valIndex) table) ≡ₚ ids (take (S valIndex) win).
Proof.
  intros Hnd Hperm.
  rewrite (filter_fmap_id (fun k => k ∈ ids (take (S valIndex) win))
             (goes_left win valIndex)) by (intros a; reflexivity).
  rewrite Hperm, !ids_take.
  rewrite filter_elem_of_take by exact Hnd. reflexivity.
Qed.

Lemma ids_right (win table : list RFAttribute) (valIndex : nat) :
  NoDup (ids win) -> ids table ≡ₚ ids win ->
  ids (filter (fun a => ~ goes_left win valIndex a) table)
  ≡ₚ ids (drop (S valIndex) win).
Proof.
  intros Hnd Hperm.
  rewrite (filter_fmap_id (fun k => ~ k ∈ ids (take (S valIndex) win))
             (fun a => ~ goes_left win valIndex a)) by (intros a; reflexivity).
  rewrite Hperm.
  assert (H : filter (fun k => ~ k ∈ ids (take (S valIndex) win))
                (ids (take (S valIndex) win) ++ ids (drop (S valIndex) win))
              = ids (drop (S valIndex) win)).
  { rewrite <- (ids_take_drop (S valIndex) win) in Hnd.
    apply NoDup_app in Hnd as (_ & Hdisj & _).
    rewrite filter_app, filter_none, filter_all.
    - reflexivity.
    - apply Forall_forall. intros x Hx Hin. exact (Hdisj x Hin Hx).
    - apply Forall_forall. intros x Hx Hn. exact (Hn Hx). }
  rewrite ids_take_drop in H. rewrite H. reflexivity.
Qed.

Lemma length_ids (table : list RFAttribute) : length (ids table) = length table.
Proof. apply length_fmap. Qed.

Lemma goes_left_position (win : list RFAttribute) (valIndex : nat)
    (a : RFAttribute) :
  goes_left win valIndex a <->
  exists p, p <= valIndex /\ id <$> (win !! p) = Some (id a).
Proof.
  unfold goes_left, ids. rewrite fmap_take, elem_of_take. split.
  - intros (p & Hp & Hlt). exists p. split; [lia|].
    rewrite list_lookup_fmap in Hp. exact Hp.
  - intros (p & Hle & Hp). exists p. split; [|lia].
    rewrite list_lookup_fmap. exact Hp.
Qed.

(** C2. Splitting a collection of tables at row [valIndex] of the table
    [index], when the rows of that table have distinct identifiers, every
    table holds the same rows (its identifiers are a permutation of those
    of the winning table) and every table is sorted ascending by value:
    for every attribute the two child tables have sizes that add up to the
    parent's, the left one holds exactly the rows whose identifier stands
    at a position [<= valIndex] of the winning table, both keep the
    parent's relative order, and both stay sorted by value. *)
Theorem splitAttributeTables_spec (tables : AttributeTables)
    (index valIndex : nat) (win : AttributeTable) :
  tables !! index = Some win ->
  NoDup (ids win) ->
  (forall table, table ∈ tables -> ids table ≡ₚ ids win) ->
  (forall table, table ∈ tables -> sorted_table table) ->
  let L := fst (splitAttributeTables tables index valIndex) in
  let R := snd (splitAttributeTables tables index valIndex) in
  length L = length tables /\ length R = length tables /\
  forall i table, tables !! i = Some table ->
    exists l r,
      L !! i = Some l /\ R !! i = Some r /\
      length l + length r = length table /\
      l = filter (goes_left win valIndex) table /\
      r = filter (fun a => ~ goes_left win valIndex a) table /\
      (forall a, a ∈ l <->
         a ∈ table /\
         exists p, p <= valIndex /\ id <$> (win !! p) = Some (id a)) /\
      (forall a, a ∈ table -> a ∈ l \/ a ∈ r) /\
      l `sublist_of` table /\ r `sublist_of` table /\
      sorted_table l /\ sorted_table r /\
      length l = Nat.min (S valIndex) (length win).
Proof.
  intros Hwin Hnd Hperm Hsorted L R.
  assert (Hat : at_table tables index = win).
  { unfold at_table. apply nth_lookup_Some with (d := []) in Hwin. exact Hwin. }
  subst L R. rewrite splitAttributeTables_filter by (rewrite Hat; exact Hnd).
  rewrite Hat. cbn [fst snd]. rewrite !length_fmap.
  split; [reflexivity|]. split; [reflexivity|].
  intros i table Hi.
  assert (Hin : table ∈ tables) by (eapply list_elem_of_lookup_2; exact Hi).
  exists (filter (goes_left win valIndex) table),
         (filter (fun a => ~ goes_left win valIndex a) table).
  rewrite !list_lookup_fmap, Hi. cbn [fmap option_fmap option_map].
  split; [reflexivity|]. split; [reflexivity|].
  split.
  { rewrite <- length_app.
    rewrite (filter_app_complement (goes_left win valIndex) table). reflexivity. }
  split; [reflexivity|]. split; [reflexivity|].
  split.
  { intros a. rewrite list_elem_of_filter, goes_left_position. tauto. }
  split.
  { intros a Ha. rewrite !list_elem_of_filter.
    destruct (decide (goes_left win valIndex a)); tauto. }
  split; [apply sublist_filter|]. split; [apply sublist_filter|].
  split; [eapply sorted_table_sublist; [apply sublist_filter | apply Hsorted, Hin]|].
  split; [eapply sorted_table_sublist; [apply sublist_filter | apply Hsorted, Hin]|].
  rewrite <- length_ids.
  rewrite (ids_left win table valIndex Hnd (Hperm table Hin)).
  rewrite length_ids. apply length_take.
Qed.

Local Close Scope nat_scope.

(** ** Rounding to binary64 *)

Lemma Qpow2_pos (e : Z) : (0 < 2 ^ e)%Q.
Proof. apply Qpower_0_lt. reflexivity. Qed.

Lemma Qpow2_plus (a b : Z) : (2 ^ (a + b) == 2 ^ a * 2 ^ b)%Q.
Proof. apply Qpower_plus. intros H. discriminate H. Qed.

Lemma Qpow2_le (a b : Z) : a <= b -> (2 ^ a <= 2 ^ b)%Q.
Proof.
  intros H. apply Qpower_le_compat_l; [exact H|]. apply Qle_bool_iff. reflexivity.
Qed.

Lemma Qpow2_lt_inv (a b : Z) : (2 ^ a < 2 ^ b)%Q -> a < b.
Proof. intros H. apply (Qpower_lt_compat_l_inv 2); [exact H | reflexivity]. Qed.

Lemma Qpow2_Z (n : Z) : 0 <= n -> (inject_Z (2 ^ n) == 2 ^ n)%Q.
Proof. intros H. apply (Zpower_Qpower 2 n H). Qed.

Lemma Qabs_positive (x : Q) : (0 < x)%Q -> Qabs x = x.
Proof.
  destruct x as [p q]. unfold Qlt. cbn. intros H.
  rewrite Z.abs_eq by lia. reflexivity.
Qed.

Lemma ilog2_spec (x : Q) :
  (0 < x)%Q ->
  (2 ^ Binary64.ilog2 x <= x)%Q /\ (x < 2 ^ (Binary64.ilog2 x + 1))%Q.
Proof.
  intros Hx. destruct x as [p q].
  assert (Hp : 0 < p) by (unfold Qlt in Hx; cbn in Hx; lia).
  unfold Binary64.ilog2. cbn [Qnum Qden].
  destruct (Z.log2_spec p Hp) as [Ha1 Ha2].
  destruct (Z.log2_spec (Zpos q) eq_refl) as [Hb1 Hb2].
  pose proof (Z.log2_nonneg p) as Ha0.
  pose proof (Z.log2_nonneg (Zpos q)) as Hb0.
  set (a := Z.log2 p) in *. set (b := Z.log2 (Zpos q)) in *.
  assert (Hq : (0 < inject_Z (Zpos q))%Q) by reflexivity.
  assert (Hpq : (p # q == inject_Z p / inject_Z (Zpos q))%Q)
    by apply Qmake_Qdiv.
  assert (Hlow : (2 ^ (a - b - 1) < p # q)%Q).
  { rewrite Hpq. apply Qlt_shift_div_l; [exact Hq|].
    apply Qlt_le_trans with (2 ^ (a - b - 1) * 2 ^ (b + 1))%Q.
    - apply Qmult_lt_l; [apply Qpow2_pos|].
      rewrite <- Qpow2_Z by lia. rewrite <- Zlt_Qlt.
      replace (b + 1) with (Z.succ b) by lia. exact Hb2.
    - rewrite <- Qpow2_plus. replace (a - b - 1 + (b + 1)) with a by lia.
      rewrite <- Qpow2_Z by lia. rewrite <- Zle_Qle. exact Ha1. }
  assert (Hhigh : (p # q < 2 ^ (a - b + 1))%Q).
  { rewrite Hpq. apply Qlt_shift_div_r; [exact Hq|].
    apply Qlt_le_trans with (2 ^ (a - b + 1) * 2 ^ b)%Q.
    - rewrite <- Qpow2_plus. replace (a - b + 1 + b) with (Z.succ a) by lia.
      rewrite <- Qpow2_Z by lia. rewrite <- Zlt_Qlt. exact Ha2.
    - apply Qmult_le_l; [apply Qpow2_pos|].
      rewrite <- Qpow2_Z by lia. rewrite <- Zle_Qle. exact Hb1. }
  destruct (Qle_bool (2 ^ (a - b)) (p # q)) eqn:E.
  - apply Qle_bool_iff in E. split; [exact E | exact Hhigh].
  - split; [apply Qlt_le_weak, Hlow|].
    replace (a - b - 1 + 1) with (a - b) by lia.
    apply Qnot_le_lt. intros H. apply Qle_bool_iff in H. congruence.
Qed.

Lemma ilog2_le (x y : Q) :
  (0 < x)%Q -> (x <= y)%Q -> Binary64.ilog2 x <= Binary64.ilog2 y.
Proof.
  intros Hx Hxy.
  destruct (ilog2_spec x Hx) as [H1 _].
  destruct (ilog2_spec y (Qlt_le_trans _ _ _ Hx Hxy)) as [_ H2].
  assert (H : Binary64.ilog2 x < Binary64.ilog2 y + 1); [|lia].
  apply Qpow2_lt_inv.
  eapply Qle_lt_trans; [exact H1|]. eapply Qle_lt_trans; [exact Hxy | exact H2].
Qed.

Lemma ilog2_lt (x : Q) (l : Z) :
  (0 < x)%Q -> (x < 2 ^ l)%Q -> Binary64.ilog2 x < l.
Proof.
  intros Hx Hl. destruct (ilog2_spec x Hx) as [H1 _].
  apply Qpow2_lt_inv. eapply Qle_lt_trans; [exact H1 | exact Hl].
Qed.

Lemma rne_bounds (y : Q) : Qfloor y <= Binary64.rne y <= Qfloor y + 1.
Proof.
  unfold Binary64.rne.
  destruct (_ ?= _)%Q; [destruct (Z.even _)| |]; lia.
Qed.

Lemma rne_compat (y y' : Q) : (y == y')%Q -> Binary64.rne y = Binary64.rne y'.
Proof.
  intros H. unfold Binary64.rne.
  rewrite (Qfloor_comp _ _ H).
  assert (E : (y - inject_Z (Qfloor y') ?= 1 # 2)%Q
              = (y' - inject_Z (Qfloor y') ?= 1 # 2)%Q)
    by (apply Qcompare_comp; [rewrite H|]; reflexivity).
  rewrite E. reflexivity.
Qed.

Lemma rne_Z (z : Z) : Binary64.rne (inject_Z z) = z.
Proof.
  unfold Binary64.rne. rewrite Qfloor_Z.
  replace (inject_Z z - inject_Z z ?= 1 # 2)%Q with Lt; [reflexivity|].
  symmetry. apply (proj1 (Qlt_alt _ _)). generalize (inject_Z z). intros q. lra.
Qed.

Lemma rne_le (a b : Q) : (a <= b)%Q -> Binary64.rne a <= Binary64.rne b.
Proof.
  intros H. pose proof (Qfloor_resp_le _ _ H) as Hf.
  pose proof (rne_bounds a) as Ha. pose proof (rne_bounds b) as Hb.
  destruct (Z.eq_dec (Qfloor a) (Qfloor b)) as [E|E]; [|lia].
  clear Ha Hb. unfold Binary64.rne. rewrite <- E.
  destruct (Qcompare_spec (a - inject_Z (Qfloor a)) (1 # 2)) as [Ha|Ha|Ha];
    destruct (Qcompare_spec (b - inject_Z (Qfloor a)) (1 # 2)) as [Hb|Hb|Hb];
    try (destruct (Z.even (Qfloor a)); lia); try lia; exfalso; lra.
Qed.

Lemma round_eq (x : Q) :
  (Binary64.round x
   == inject_Z (Binary64.rne (x / 2 ^ Binary64.ulp_exp x))
      * 2 ^ Binary64.ulp_exp x)%Q.
Proof. apply Qred_correct. Qed.

Lemma round_nonneg (x : Q) : (0 <= x)%Q -> (0 <= Binary64.round x)%Q.
Proof.
  intros Hx. rewrite round_eq.
  apply Qmult_le_0_compat; [|apply Qlt_le_weak, Qpow2_pos].
  change 0%Q with (inject_Z 0). rewrite <- Zle_Qle.
  rewrite <- (rne_Z 0). apply rne_le.
  apply Qle_shift_div_l; [apply Qpow2_pos|]. rewrite Qmult_0_l. exact Hx.
Qed.

Lemma round_nonpos (x : Q) : (x <= 0)%Q -> (Binary64.round x <= 0)%Q.
Proof.
  intros Hx. rewrite round_eq.
  assert (Hr : Binary64.rne (x / 2 ^ Binary64.ulp_exp x) <= 0).
  { rewrite <- (rne_Z 0). apply rne_le.
    apply Qle_shift_div_r; [apply Qpow2_pos|]. rewrite Qmult_0_l. exact Hx. }
  rewrite Zle_Qle in Hr.
  pose proof (Qpow2_pos (Binary64.ulp_exp x)) as Hp.
  apply Qle_trans with (0 * 2 ^ Binary64.ulp_exp x)%Q;
    [|rewrite Qmult_0_l; apply Qle_refl].
  apply Qmult_le_compat_r; [exact Hr | apply Qlt_le_weak, Hp].
Qed.

Lemma ulp_exp_le (x y : Q) :
  (0 < x)%Q -> (x <= y)%Q -> Binary64.ulp_exp x <= Binary64.ulp_exp y.
Proof.
  intros Hx Hxy. unfold Binary64.ulp_exp.
  rewrite (Qabs_positive x Hx), (Qabs_positive y (Qlt_le_trans _ _ _ Hx Hxy)).
  pose proof (ilog2_le x y Hx Hxy). lia.
Qed.

(** Rounding keeps the order of two numbers, the larger of which is not
    negative. *)
Lemma round_le (x y : Q) :
  (x <= y)%Q -> (0 <= y)%Q -> (Binary64.round x <= Binary64.round y)%Q.
Proof.
  intros Hxy Hy.
  destruct (Qlt_le_dec 0 x) as [Hx|Hx];
    [|eapply Qle_trans; [apply round_nonpos, Hx | apply round_nonneg, Hy]].
  assert (Hy' : (0 < y)%Q) by (eapply Qlt_le_trans; eassumption).
  pose proof (ulp_exp_le x y Hx Hxy) as He.
  rewrite !round_eq.
  destruct (Z.eq_dec (Binary64.ulp_exp x) (Binary64.ulp_exp y)) as [E|E].
  - rewrite E. apply Qmult_le_compat_r; [|apply Qlt_le_weak, Qpow2_pos].
    rewrite <- Zle_Qle. apply rne_le.
    apply Qmult_le_compat_r; [exact Hxy|].
    apply Qinv_le_0_compat, Qlt_le_weak, Qpow2_pos.
  - assert (Hlt : Binary64.ulp_exp x < Binary64.ulp_exp y) by lia.
    clear E He.
    destruct (ilog2_spec x Hx) as [_ Hx2].
    destruct (ilog2_spec y Hy') as [Hy1 _].
    unfold Binary64.ulp_exp in *.
    rewrite (Qabs_positive x Hx) in *. rewrite (Qabs_positive y Hy') in *.
    set (ex := Z.max (Binary64.ilog2 x - 52) (-1074)) in *.
    set (ey := Z.max (Binary64.ilog2 y - 52) (-1074)) in *.
    apply Qle_trans with (inject_Z (2 ^ 53) * 2 ^ ex)%Q.
    { apply Qmult_le_compat_r; [|apply Qlt_le_weak, Qpow2_pos].
      rewrite <- Zle_Qle.
      apply Z.le_trans with (Binary64.rne (inject_Z (2 ^ 53)));
        [|rewrite rne_Z; lia].
      apply rne_le. apply Qle_shift_div_r; [apply Qpow2_pos|].
      rewrite Qpow2_Z by lia. rewrite <- Qpow2_plus.
      apply Qlt_le_weak. eapply Qlt_le_trans; [exact Hx2|].
      apply Qpow2_le. lia. }
    apply Qle_trans with (inject_Z (2 ^ 52) * 2 ^ ey)%Q.
    { rewrite !Qpow2_Z by lia. rewrite <- !Qpow2_plus. apply Qpow2_le. lia. }
    apply Qmult_le_compat_r; [|apply Qlt_le_weak, Qpow2_pos].
    rewrite <- Zle_Qle.
    apply Z.le_trans with (Binary64.rne (inject_Z (2 ^ 52)));
      [rewrite rne_Z; lia|].
    apply rne_le. apply Qle_shift_div_l; [apply Qpow2_pos|].
    rewrite Qpow2_Z by lia. rewrite <- Qpow2_plus.
    eapply Qle_trans; [|exact Hy1].
    apply Qpow2_le. lia.
Qed.

(** A number with a significand below [2^53] and an exponent in the range
    of the format is a double: rounding returns it. *)
Lemma round_representable (x : Q) (m e : Z) :
  0 <= m < 2 ^ 53 -> -1074 <= e ->
  (x == inject_Z m * 2 ^ e)%Q -> (Binary64.round x == x)%Q.
Proof.
  intros Hm He Hx.
  destruct (Z.eq_dec m 0) as [->|Hm0].
  { assert (H0 : (x == 0)%Q) by (rewrite Hx; ring).
    apply Qle_antisym.
    - rewrite H0 at 2. apply round_nonpos. rewrite H0. apply Qle_refl.
    - rewrite H0 at 1. apply round_nonneg. rewrite H0. apply Qle_refl. }
  assert (Hpos : (0 < x)%Q).
  { rewrite Hx. apply Qmult_lt_0_compat; [|apply Qpow2_pos].
    change 0%Q with (inject_Z 0). rewrite <- Zlt_Qlt. lia. }
  rewrite round_eq. unfold Binary64.ulp_exp. rewrite (Qabs_positive x Hpos).
  assert (Hl : Binary64.ilog2 x < 53 + e).
  { apply ilog2_lt; [exact Hpos|]. rewrite Hx, Qpow2_plus.
    apply Qmult_lt_r; [apply Qpow2_pos|].
    rewrite <- Qpow2_Z by lia. rewrite <- Zlt_Qlt. lia. }
  set (u := Z.max (Binary64.ilog2 x - 52) (-1074)).
  assert (Hu : u <= e) by lia.
  assert (Hq : (x / 2 ^ u == inject_Z (m * 2 ^ (e - u)))%Q).
  { rewrite Hx, inject_Z_mult, Qpow2_Z by lia.
    replace e with (e - u + u) at 1 by lia. rewrite Qpow2_plus.
    field. intros H. pose proof (Qpow2_pos u) as Hp. rewrite H in Hp.
    exact (Qlt_irrefl 0 Hp). }
  rewrite (rne_compat _ _ Hq), rne_Z.
  rewrite Hx, inject_Z_mult, Qpow2_Z by lia.
  replace e with (e - u + u) at 2 by lia. rewrite Qpow2_plus. ring.
Qed.

Lemma round_Z (z : Z) :
  0 <= z < 2 ^ 53 -> (Binary64.of_Z z == inject_Z z)%Q.
Proof.
  intros Hz. unfold Binary64.of_Z.
  apply (round_representable _ z 0); [exact Hz | lia | ring].
Qed.

(** Rounding a number that is equal to a double returns that double. *)
Lemma round_exact (x y : Q) :
  (x == y)%Q -> (0 <= y)%Q -> (Binary64.round y == y)%Q ->
  (Binary64.round x == y)%Q.
Proof.
  intros Hxy Hy Hr. rewrite <- Hr. apply Qle_antisym.
  - apply round_le; [rewrite Hxy; apply Qle_refl | exact Hy].
  - apply round_le; rewrite Hxy; [apply Qle_refl | exact Hy].
Qed.

(** Samples of the rounding: the doubles nearest to 0.1 and to -1/3, the
    tie [2^53+1], which goes to the even significand, [2^53+3], and a
    number below half of the smallest subnormal. *)
Lemma round_samples :
  Binary64.round (1 # 10) = (3602879701896397 # 36028797018963968)%Q /\
  Binary64.round (- (1 # 3)) = (- (6004799503160661 # 18014398509481984))%Q /\
  Binary64.round (inject_Z (2 ^ 53 + 1)) = inject_Z (2 ^ 53) /\
  Binary64.round (inject_Z (2 ^ 53 + 3)) = inject_Z (2 ^ 53 + 4) /\
  Binary64.round (1 # 3 * 2 ^ 1074) = 0%Q.
Proof. vm_compute. repeat split; reflexivity. Qed.

(** ** The rounded impurity stays below the sentinel *)

Lemma inject_Z_nonneg (z : Z) : 0 <= z -> (0 <= inject_Z z)%Q.
Proof. intros H. change 0%Q with (inject_Z 0). rewrite <- Zle_Qle. exact H. Qed.

Lemma Qdiv_nonneg (a b : Q) : (0 <= a)%Q -> (0 <= b)%Q -> (0 <= a / b)%Q.
Proof.
  intros Ha Hb. unfold Qdiv. apply Qmult_le_0_compat; [exact Ha|].
  apply Qinv_le_0_compat, Hb.
Qed.

Lemma usize_nonneg (x : Z) : 0 <= usize x.
Proof. unfold usize, usize_modulus. apply Z.mod_pos_bound. reflexivity. Qed.

Lemma fold_add_nonneg {A} (f : A -> Q) (l : list A) (a : Q) :
  (forall x, (0 <= f x)%Q) -> (0 <= a)%Q ->
  (0 <= fold_left (fun res i => Binary64.add res (f i)) l a)%Q.
Proof.
  intros Hf. revert a. induction l as [|x l IH]; intros a Ha; cbn [fold_left].
  - exact Ha.
  - apply IH. unfold Binary64.add. apply round_nonneg.
    specialize (Hf x). lra.
Qed.

Lemma gini_binary64_le_1 (c : ClassVector) (n : Z) : (gini_binary64 c n <= 1)%Q.
Proof.
  unfold gini_binary64.
  assert (H : forall res, (0 <= res)%Q -> (Binary64.sub 1 res <= 1)%Q).
  { intros res Hres. unfold Binary64.sub.
    eapply Qle_trans; [apply (round_le _ 1); lra|].
    apply Qle_lteq. right. apply (round_Z 1). lia. }
  apply H. destruct (n =? 0); [apply Qle_refl|].
  apply (fold_add_nonneg
           (fun i => Binary64.div (Binary64.of_Z (sqr i))
                       (Binary64.of_Z (usize (n * n)))));
    [|apply Qle_refl].
  intros x. unfold Binary64.div, Binary64.of_Z.
  apply round_nonneg, Qdiv_nonneg.
  - apply round_nonneg, inject_Z_nonneg. unfold sqr. nia.
  - apply round_nonneg, inject_Z_nonneg, usize_nonneg.
Qed.

Lemma weighted_gini_le (cBelow cTmpAbove : ClassVector) (n1 n2 : nat) :
  Z.of_nat (n1 + n2) < 2 ^ 53 ->
  (weighted_gini cBelow cTmpAbove n1 n2 <= inject_Z (Z.of_nat (n1 + n2)))%Q.
Proof.
  intros Hn. unfold weighted_gini, Binary64.add, Binary64.mul.
  assert (Hmul : forall (k : nat) (g : Q),
             Z.of_nat k < 2 ^ 53 -> (g <= 1)%Q ->
             (Binary64.round (Binary64.of_Z (Z.of_nat k) * g)
              <= inject_Z (Z.of_nat k))%Q).
  { intros k g Hk Hg.
    pose proof (round_Z (Z.of_nat k) ltac:(lia)) as Hz.
    pose proof (inject_Z_nonneg (Z.of_nat k) ltac:(lia)) as H0.
    apply Qle_trans with (Binary64.round (inject_Z (Z.of_nat k)));
      [|apply Qle_lteq; right; exact Hz].
    apply round_le; [|exact H0].
    rewrite Hz.
    apply Qle_trans with (inject_Z (Z.of_nat k) * 1)%Q;
      [|rewrite Qmult_1_r; apply Qle_refl].
    destruct (Qle_lt_or_eq _ _ H0) as [Hlt|Heq].
    - apply Qmult_le_l; assumption.
    - rewrite <- Heq, !Qmult_0_l. apply Qle_refl. }
  pose proof (Hmul n1 (gini_binary64 cBelow (Z.of_nat n1)) ltac:(lia)
                (gini_binary64_le_1 _ _)) as H1.
  pose proof (Hmul n2 (gini_binary64 cTmpAbove (Z.of_nat n2)) ltac:(lia)
                (gini_binary64_le_1 _ _)) as H2.
  pose proof (round_Z (Z.of_nat (n1 + n2)) ltac:(lia)) as Hz.
  apply Qle_trans with (Binary64.round (inject_Z (Z.of_nat (n1 + n2))));
    [|apply Qle_lteq; right; exact Hz].
  apply round_le; [|apply inject_Z_nonneg; lia].
  rewrite Nat2Z.inj_add, inject_Z_plus. lra.
Qed.

(** ** The rounded Gini impurity of a node of one class *)

Lemma gini_binary64_zeros (N a : Q) (k : nat) (res : Q) :
  (0 <= a)%Q -> (Binary64.round a == a)%Q -> (res == a)%Q ->
  (fold_left
     (fun res i =>
        Binary64.add res (Binary64.div (Binary64.of_Z (sqr i)) N))
     (replicate k 0%Z) res == a)%Q.
Proof.
  intros Ha Hr. revert res.
  induction k as [|k IH]; intros res Hres; cbn [replicate fold_left];
    [exact Hres|].
  apply IH.
  assert (Hz : (Binary64.div (Binary64.of_Z (sqr 0)) N == 0)%Q).
  { unfold Binary64.div. apply round_exact; [|apply Qle_refl | reflexivity].
    change (Binary64.of_Z (sqr 0)) with 0%Q. unfold Qdiv. ring. }
  unfold Binary64.add. apply round_exact; [|exact Ha | exact Hr].
  rewrite Hz, Hres. ring.
Qed.

(** X25. The Gini impurity as the program computes it, every operation
    rounded: when one class holds all the [n] rows, [0 < n < 2^32], it is
    exactly 0, so that the rounding does not hide a node of one class from
    the test [gini(cAbove,n)==0]; and whatever the counters are, it is at
    most 1. *)
Theorem gini_binary64_pure (n : Z) (j k : nat) :
  0 < n < 2 ^ 32 ->
  (gini_binary64 (replicate j 0%Z ++ n :: replicate k 0%Z) n == 0)%Q /\
  forall c m, (gini_binary64 c m <= 1)%Q.
Proof.
  intros Hn. split; [|intros c m; apply gini_binary64_le_1].
  unfold gini_binary64.
  destruct (Z.eqb_spec n 0) as [H0|_]; [lia|].
  rewrite usize_small by nia.
  set (N := Binary64.of_Z (n * n)).
  assert (H1 : (Binary64.round 1 == 1)%Q) by (apply (round_Z 1); lia).
  assert (HN : (1 <= N)%Q).
  { rewrite <- H1. unfold N, Binary64.of_Z. apply round_le.
    - change 1%Q with (inject_Z 1). rewrite <- Zle_Qle. nia.
    - apply inject_Z_nonneg. nia. }
  set (f := fun res i =>
              Binary64.add res (Binary64.div (Binary64.of_Z (sqr i)) N)).
  rewrite fold_left_app.
  change (fold_left f (n :: replicate k 0%Z) (fold_left f (replicate j 0%Z) 0%Q))
    with (fold_left f (replicate k 0%Z) (f (fold_left f (replicate j 0%Z) 0%Q) n)).
  assert (Hfirst : (fold_left f (replicate j 0%Z) 0 == 0)%Q)
    by (apply gini_binary64_zeros; [apply Qle_refl | reflexivity | reflexivity]).
  assert (Hbig : (f (fold_left f (replicate j 0%Z) 0) n == 1)%Q).
  { unfold f at 1. unfold Binary64.add.
    assert (Hq : (Binary64.div (Binary64.of_Z (sqr n)) N == 1)%Q).
    { unfold Binary64.div. apply round_exact; [|lra | exact H1].
      unfold sqr. fold N. field. intros HN0. rewrite HN0 in HN. lra. }
    apply round_exact; [|lra | exact H1].
    rewrite Hfirst, Hq. ring. }
  assert (Hres : (fold_left f (replicate k 0%Z)
                    (f (fold_left f (replicate j 0%Z) 0) n) == 1)%Q)
    by (apply gini_binary64_zeros; [lra | exact H1 | exact Hbig]).
  unfold Binary64.sub. apply round_exact; [|apply Qle_refl | reflexivity].
  rewrite Hres. ring.
Qed.

Lemma gini_binary64_pure_witness :
  (gini_binary64 [0; 5; 0]%Z 5 == 0)%Q /\ (gini_binary64 [2; 3]%Z 5 <= 1)%Q.
Proof.
  destruct (gini_binary64_pure 5 1 1 ltac:(lia)) as (H1 & H2).
  split; [exact H1 | apply H2].
Defined.

(** ** Bagging *)

Lemma truncate_bounds (n : nat) (x : double) :
  (0 < x)%Q -> (x <= 1)%Q ->
  0 <= truncate (inject_Z (Z.of_nat n) * x)%Q <= Z.of_nat n /\
  truncate (inject_Z (Z.of_nat n) * x)%Q = Qfloor (inject_Z (Z.of_nat n) * x)%Q.
Proof.
  intros H0 H1.
  assert (Hn : (0 <= inject_Z (Z.of_nat n))%Q).
  { change (inject_Z 0 <= inject_Z (Z.of_nat n))%Q. rewrite <- Zle_Qle. lia. }
  assert (Hprod : (0 <= inject_Z (Z.of_nat n) * x)%Q).
  { apply Qmult_le_0_compat; [exact Hn | apply Qlt_le_weak, H0]. }
  assert (Hle : (inject_Z (Z.of_nat n) * x <= inject_Z (Z.of_nat n))%Q).
  { destruct (Qle_lt_or_eq _ _ Hn) as [Hlt|Heq].
    - apply Qle_trans with (inject_Z (Z.of_nat n) * 1)%Q.
      + apply Qmult_le_l; assumption.
      + rewrite Qmult_1_r. apply Qle_refl.
    - rewrite <- Heq. rewrite Qmult_0_l. apply Qle_refl. }
  unfold truncate.
  destruct (Qle_bool 0 (inject_Z (Z.of_nat n) * x)) eqn:E.
  - split; [|reflexivity]. split.
    + pose proof (Qfloor_resp_le _ _ Hprod) as H. exact H.
    + pose proof (Qfloor_resp_le _ _ Hle) as H. rewrite Qfloor_Z in H. exact H.
  - exfalso. apply Qle_bool_iff in Hprod. congruence.
Qed.

Lemma setDefaults_oob_in_range (t : RFTrainer) :
  oob_in_range (m_OOBratio (setDefaults t)).
Proof.
  destruct (setDefaults_fields t) as (_ & _ & _ & Hr & _).
  rewrite Hr.
  destruct (Qle_bool (m_OOBratio t) 0 || Qlt_bool 1 (m_OOBratio t)) eqn:E.
  - split; [reflexivity | apply Qle_bool_iff; reflexivity].
  - apply oob_in_range_iff, E.
Qed.

Lemma Qfloor_unique (x : Q) (k : Z) :
  (inject_Z k <= x)%Q -> (x < inject_Z (k + 1))%Q -> Qfloor x = k.
Proof.
  intros H1 H2.
  pose proof (Qfloor_le x) as Hf1. pose proof (Qlt_floor x) as Hf2.
  assert (Ha : Qfloor x < k + 1).
  { rewrite Zlt_Qlt. eapply Qle_lt_trans; eassumption. }
  assert (Hb : k < Qfloor x + 1).
  { rewrite Zlt_Qlt. eapply Qle_lt_trans; eassumption. }
  lia.
Qed.

Lemma truncate_nonneg (x : double) : (0 <= x)%Q -> truncate x = Qfloor x.
Proof.
  intros H. unfold truncate. apply Qle_bool_iff in H. rewrite H. reflexivity.
Qed.

(** The stored ratio is a double between 0 and 1. *)
Lemma storedOOBratio_range (t : RFTrainer) :
  (0 <= storedOOBratio (setDefaults t))%Q /\
  (storedOOBratio (setDefaults t) <= 1)%Q.
Proof.
  destruct (setDefaults_oob_in_range t) as [H0 H1]. unfold storedOOBratio.
  split; [apply round_nonneg, Qlt_le_weak, H0|].
  eapply Qle_trans; [apply (round_le _ 1); [exact H1 | lra]|].
  apply Qle_lteq. right. apply (round_Z 1). lia.
Qed.

(** The rounded product lies between the integers around the exact one. *)
Lemma rounded_product_bounds (n : nat) (ratio : double) :
  Z.of_nat n < 2 ^ 53 -> (0 <= ratio)%Q -> (ratio <= 1)%Q ->
  let exact := (inject_Z (Z.of_nat n) * ratio)%Q in
  let product := Binary64.mul (Binary64.of_Z (Z.of_nat n)) ratio in
  (0 <= product)%Q /\
  Qfloor exact <= Qfloor product <= Qfloor exact + 1 /\
  Qfloor product <= Z.of_nat n /\
  ((exact == inject_Z (Qfloor exact))%Q -> Qfloor product = Qfloor exact).
Proof.
  intros Hn H0 H1 exact product.
  pose proof (round_Z (Z.of_nat n) ltac:(lia)) as Hz.
  pose proof (inject_Z_nonneg (Z.of_nat n) ltac:(lia)) as Hn0.
  assert (He0 : (0 <= exact)%Q) by (apply Qmult_le_0_compat; assumption).
  assert (Hen : (exact <= inject_Z (Z.of_nat n))%Q).
  { unfold exact.
    apply Qle_trans with (inject_Z (Z.of_nat n) * 1)%Q;
      [|rewrite Qmult_1_r; apply Qle_refl].
    destruct (Qle_lt_or_eq _ _ Hn0) as [Hlt|Heq].
    - apply Qmult_le_l; assumption.
    - rewrite <- Heq, !Qmult_0_l. apply Qle_refl. }
  assert (Harg : (Binary64.of_Z (Z.of_nat n) * ratio == exact)%Q)
    by (unfold exact; rewrite Hz; reflexivity).
  pose proof (Qfloor_le exact) as Hf1. pose proof (Qlt_floor exact) as Hf2.
  assert (Hf0 : 0 <= Qfloor exact).
  { pose proof (Qfloor_resp_le _ _ He0) as H. exact H. }
  assert (Hfn : Qfloor exact <= Z.of_nat n).
  { pose proof (Qfloor_resp_le _ _ Hen) as H. rewrite Qfloor_Z in H. exact H. }
  assert (Hlow : (inject_Z (Qfloor exact) <= product)%Q).
  { apply Qle_trans with (Binary64.round (inject_Z (Qfloor exact))).
    - apply Qle_lteq. right. symmetry. apply (round_Z (Qfloor exact)). lia.
    - apply round_le; rewrite Harg; assumption. }
  assert (Hup : (product <= inject_Z (Z.of_nat n))%Q).
  { apply Qle_trans with (Binary64.round (inject_Z (Z.of_nat n)));
      [|apply Qle_lteq; right; exact Hz].
    apply round_le; [rewrite Harg; exact Hen | exact Hn0]. }
  assert (Hp0 : (0 <= product)%Q).
  { eapply Qle_trans; [|exact Hlow]. apply inject_Z_nonneg, Hf0. }
  assert (Hpf : Qfloor exact <= Qfloor product).
  { pose proof (Qfloor_resp_le _ _ Hlow) as H. rewrite Qfloor_Z in H. exact H. }
  assert (Hpn : Qfloor product <= Z.of_nat n).
  { pose proof (Qfloor_resp_le _ _ Hup) as H. rewrite Qfloor_Z in H. exact H. }
  split; [exact Hp0|]. split; [|split; [exact Hpn|]].
  - split; [exact Hpf|].
    destruct (Z_lt_le_dec (Qfloor exact + 1) (2 ^ 53)) as [Hs|Hs]; [|lia].
    assert (Hup' : (product <= inject_Z (Qfloor exact + 1))%Q).
    { apply Qle_trans with (Binary64.round (inject_Z (Qfloor exact + 1))).
      - apply round_le; [rewrite Harg; apply Qlt_le_weak, Hf2|].
        apply inject_Z_nonneg. lia.
      - apply Qle_lteq. right. apply (round_Z (Qfloor exact + 1)). lia. }
    pose proof (Qfloor_resp_le _ _ Hup') as H. rewrite Qfloor_Z in H. exact H.
  - intros Hint.
    assert (Hup' : (product <= inject_Z (Qfloor exact))%Q).
    { apply Qle_trans with (Binary64.round (inject_Z (Qfloor exact))).
      - apply round_le; [rewrite Harg; apply Qle_lteq; right; exact Hint|].
        apply inject_Z_nonneg, Hf0.
      - apply Qle_lteq. right. apply (round_Z (Qfloor exact)). lia. }
    pose proof (Qfloor_resp_le _ _ Hup') as H. rewrite Qfloor_Z in H. lia.
Qed.

(** The size of the bag under the conditions of [train]. *)
Lemma subsetSize_bounds (t : RFTrainer) (n : nat) :
  Z.of_nat n < 2 ^ 53 ->
  let ratio := storedOOBratio (setDefaults t) in
  let exact := (inject_Z (Z.of_nat n) * ratio)%Q in
  Z.of_nat (subsetSize t n)
  = Qfloor (Binary64.mul (Binary64.of_Z (Z.of_nat n)) ratio) /\
  Qfloor exact <= Z.of_nat (subsetSize t n) <= Qfloor exact + 1 /\
  (subsetSize t n <= n)%nat /\
  ((exact == inject_Z (Qfloor exact))%Q ->
   Z.of_nat (subsetSize t n) = Qfloor exact).
Proof.
  intros Hn ratio exact.
  destruct (storedOOBratio_range t) as [H0 H1].
  destruct (rounded_product_bounds n ratio Hn H0 H1)
    as (Hp0 & Hb & Hpn & Hint).
  cbv zeta in Hp0, Hb, Hpn, Hint. fold exact in Hb, Hint.
  pose proof (Qfloor_resp_le _ _ Hp0) as Hf0. cbn in Hf0.
  assert (Hk : Z.of_nat (subsetSize t n)
               = Qfloor (Binary64.mul (Binary64.of_Z (Z.of_nat n)) ratio)).
  { unfold subsetSize. fold ratio. rewrite truncate_nonneg by exact Hp0.
    apply Z2Nat.id. exact Hf0. }
  rewrite Hk. split; [reflexivity|]. split; [exact Hb|].
  split; [lia | exact Hint].
Qed.

(** C6. For one tree of [train], with [random_shuffle] returning a
    permutation of its argument: the training bag is the first [k] entries
    of the shuffled row indices [0..n-1] and the out-of-bag sample is the
    rest; the two are duplicate-free and disjoint, together they are all
    the rows, and their sizes add up to [n].  For fewer than [2^53] rows,
    [k] is the integer part of the product of [n] and the ratio as the
    program computes it, in doubles: this is [floor(n * ratio)] for the
    ratio that the field holds, or one more, and [floor(n * ratio)] when
    [n * ratio] is an integer; it is never more than [n]. *)
Theorem bagIndices_spec (random_shuffle : list nat -> list nat)
    (t : RFTrainer) (n : nat) :
  (forall l, random_shuffle l ≡ₚ l) ->
  let bag := fst (bagIndices random_shuffle t n) in
  let oob := snd (bagIndices random_shuffle t n) in
  let shuffled := random_shuffle (seq 0 n) in
  let ratio := storedOOBratio (setDefaults t) in
  let exact := (inject_Z (Z.of_nat n) * ratio)%Q in
  let k := subsetSize t n in
  shuffled ≡ₚ seq 0 n /\
  bag = take k shuffled /\
  oob = drop k shuffled /\
  (length bag + length oob)%nat = n /\
  NoDup bag /\ NoDup oob /\
  (forall i, i ∈ bag -> i ∉ oob) /\
  (forall i, (i < n)%nat <-> i ∈ bag \/ i ∈ oob) /\
  (Z.of_nat n < 2 ^ 53 ->
   length bag = k /\
   Z.of_nat k = Qfloor (Binary64.mul (Binary64.of_Z (Z.of_nat n)) ratio) /\
   Qfloor exact <= Z.of_nat k <= Qfloor exact + 1 /\
   (k <= n)%nat /\
   ((exact == inject_Z (Qfloor exact))%Q -> Z.of_nat k = Qfloor exact)).
Proof.
  intros Hperm bag oob shuffled ratio exact k.
  assert (Hlen : length shuffled = n).
  { unfold shuffled. rewrite (Hperm (seq 0 n)). apply length_seq. }
  assert (Hbag : bag = take k shuffled) by reflexivity.
  assert (Hoob : oob = drop k shuffled) by reflexivity.
  assert (Hnd : NoDup (bag ++ oob)).
  { rewrite Hbag, Hoob, take_drop. unfold shuffled.
    rewrite (Hperm (seq 0 n)). apply NoDup_seq. }
  apply NoDup_app in Hnd as (Hnd1 & Hdisj & Hnd2).
  split; [apply Hperm|].
  split; [exact Hbag|].
  split; [exact Hoob|].
  split; [rewrite Hbag, Hoob, length_take, length_drop; lia|].
  split; [exact Hnd1|].
  split; [exact Hnd2|].
  split; [exact Hdisj|].
  split.
  - intros i. rewrite <- elem_of_app, Hbag, Hoob, take_drop.
    unfold shuffled. rewrite (Hperm (seq 0 n)), elem_of_seq. lia.
  - intros Hn.
    destruct (subsetSize_bounds t n Hn) as (Hk & Hb & Hkn & Hint).
    cbv zeta in Hk, Hb, Hint. fold ratio in Hk, Hb, Hint.
    fold exact in Hb, Hint. fold k in Hk, Hb, Hkn, Hint.
    split; [rewrite Hbag, length_take; lia|].
    split; [exact Hk|]. split; [exact Hb|]. split; [exact Hkn | exact Hint].
Qed.

Lemma bagIndices_spec_witness :
  fst (bagIndices (@rev nat) (setOOBratio Example.trainer (7 # 10)) 10)
    = [9; 8; 7; 6; 5; 4; 3]%nat /\
  snd (bagIndices (@rev nat) (setOOBratio Example.trainer (7 # 10)) 10)
    = [2; 1; 0]%nat /\
  Z.of_nat (subsetSize (setOOBratio Example.trainer (7 # 10)) 10)
    = Qfloor (10 * storedOOBratio (setOOBratio Example.trainer (7 # 10))) + 1.
Proof.
  assert (Hrev : forall l : list nat, rev l ≡ₚ l).
  { intros l. symmetry. apply Permutation_rev. }
  pose proof (bagIndices_spec (@rev nat)
                (setOOBratio Example.trainer (7 # 10)) 10 Hrev)
    as (_ & Hb & Ho & _ & _ & _ & _ & _ & Hk).
  destruct (Hk ltac:(cbn; lia)) as (_ & Hk' & _).
  split; [rewrite Hb; vm_compute; reflexivity|].
  split; [rewrite Ho; vm_compute; reflexivity|].
  rewrite Hk'. vm_compute. reflexivity.
Defined.

(** Ten rows at the ratio that is the double nearest to 0.7: the bag has
    seven rows, while ten times the ratio has the integer part 6.  A
    hundred rows at the ratio 0.29: the bag has 28 rows, while
    [100 * 0.29] is 29. *)
Lemma bagIndices_not_floor :
  length (fst (bagIndices (@rev nat)
                 (setOOBratio Example.trainer (Binary64.round (7 # 10))) 10))
    = 7%nat /\
  Qfloor (10 * m_OOBratio
                 (setDefaults
                    (setOOBratio Example.trainer (Binary64.round (7 # 10)))))
    = 6 /\
  length (fst (bagIndices (@rev nat)
                 (setOOBratio Example.trainer (29 # 100)) 100))
    = 28%nat /\
  Qfloor (100 * m_OOBratio (setDefaults (setOOBratio Example.trainer (29 # 100))))
    = 29.
Proof. vm_compute. repeat split; reflexivity. Qed.

(** ** The search keeps the first candidate of lowest impurity *)

Lemma Qlt_bool_false x y : Qlt_bool x y = false <-> (y <= x)%Q.
Proof.
  unfold Qlt_bool. rewrite negb_false_iff. apply Qle_bool_iff.
Qed.

Section FirstLowest.

Context {A : Type} (cost : A -> Q).

Lemma fold_pick_by (cs : list A) (b0 : A) :
  let b := fold_left (pick_by cost) cs b0 in
  (b = b0 /\ forall c, c ∈ cs -> (cost b0 <= cost c)%Q) \/
  ((cost b < cost b0)%Q /\ first_lowest cost cs b).
Proof.
  revert b0. induction cs as [|c cs IH]; intros b0; cbn [fold_left].
  - left. split; [reflexivity|]. intros c Hc. inversion Hc.
  - destruct (Qlt_bool (cost c) (cost b0)) eqn:E.
    + replace (pick_by cost b0 c) with c by (unfold pick_by; rewrite E; reflexivity).
      apply Qlt_bool_iff in E. right.
      destruct (IH c) as [[Heq Hall]|[Hlt (pre & post & Hcs & Hpre & Hpost)]].
      * rewrite Heq. split; [exact E|].
        exists [], cs. split; [reflexivity|]. split; [|exact Hall].
        intros c' Hc'. inversion Hc'.
      * split; [eapply Qlt_trans; eassumption|].
        exists (c :: pre), post. split; [cbn [app]; f_equal; exact Hcs|].
        split; [|exact Hpost].
        intros c' Hc'. apply elem_of_cons in Hc' as [->|Hc'];
          [exact Hlt | apply Hpre, Hc'].
    + replace (pick_by cost b0 c) with b0 by (unfold pick_by; rewrite E; reflexivity).
      apply Qlt_bool_false in E.
      destruct (IH b0) as [[Heq Hall]|[Hlt (pre & post & Hcs & Hpre & Hpost)]].
      * left. split; [exact Heq|].
        intros c' Hc'. apply elem_of_cons in Hc' as [->|Hc'];
          [exact E | apply Hall, Hc'].
      * right. split; [exact Hlt|].
        exists (c :: pre), post. split; [cbn [app]; f_equal; exact Hcs|].
        split; [|exact Hpost].
        intros c' Hc'. apply elem_of_cons in Hc' as [->|Hc'];
          [eapply Qlt_le_trans; eassumption | apply Hpre, Hc'].
Qed.

(** From a sentinel above every cost, the fold returns the sentinel when
    there is no candidate and the first candidate of lowest cost otherwise. *)
Lemma fold_pick_by_sentinel (cs : list A) (b0 : A) :
  (forall c, c ∈ cs -> (cost c < cost b0)%Q) ->
  let b := fold_left (pick_by cost) cs b0 in
  (cs = [] -> b = b0) /\
  (cs <> [] -> first_lowest cost cs b).
Proof.
  intros Hbelow b. subst b.
  destruct (fold_pick_by cs b0) as [[Heq Hall]|[Hlt Hfirst]].
  - destruct cs as [|c cs].
    + split; [intros _; reflexivity | intros H; contradiction].
    + exfalso. assert (Hc : c ∈ c :: cs) by left.
      apply (Qlt_not_le _ _ (Hbelow c Hc)), Hall, Hc.
  - split; [|intros _; exact Hfirst].
    intros ->. reflexivity.
Qed.

End FirstLowest.

Lemma pick_pick_by : pick = pick_by bestImpurity.
Proof. reflexivity. Qed.

(** ** Classification: the loops visit the candidates in order *)

Section ScanClassification.

Variable t : RFTrainer.
Variable dataset : ClassificationDataset.

Lemma countsAt_S (table : AttributeTable) (cAbove : ClassVector) (k : nat) :
  countsAt t dataset table cAbove (S k) =
  (incr (fst (countsAt t dataset table cAbove k))
        (class_label dataset (id (at_row table k))),
   decr (snd (countsAt t dataset table cAbove k))
        (class_label dataset (id (at_row table k)))).
Proof.
  cbn [countsAt]. destruct (countsAt t dataset table cAbove k). reflexivity.
Qed.

Lemma scanRow_fold (tables : AttributeTables) (cAbove : ClassVector)
    (n attributeIndex m : nat) (best : Best) :
  let table := at_table tables attributeIndex in
  fold_left (scanRow dataset table n attributeIndex) (seq 1 m)
    (countsAt t dataset table cAbove 0, best) =
  (countsAt t dataset table cAbove m,
   fold_left pick
     (List.map (fun i => candidate t dataset tables cAbove n (attributeIndex, i))
        (List.filter (boundary table) (seq 1 m)))
     best).
Proof.
  intros table. induction m as [|m IH].
  - reflexivity.
  - rewrite seq_S, fold_left_app, IH. cbn [fold_left].
    rewrite List.filter_app, List.map_app, fold_left_app.
    change (1 + m)%nat with (S m).
    cbn [List.filter]. unfold scanRow.
    destruct (countsAt t dataset table cAbove m) as [cBelow cTmpAbove] eqn:Em.
    change (negb (Qeq_bool (value (at_row table (S m - 1)))
                           (value (at_row table (S m)))))
      with (boundary table (S m)).
    rewrite countsAt_S, Em. cbn [fst snd].
    replace (S m - 1)%nat with m by lia.
    destruct (boundary table (S m)) eqn:Eb; [|reflexivity].
    cbn [List.map fold_left]. unfold candidate, impurityAt.
    fold table. rewrite countsAt_S, Em. cbn [fst snd].
    replace (S m - 1)%nat with m by lia.
    set (best' := fold_left pick _ best).
    unfold pick. cbn [bestImpurity].
    destruct (Qlt_bool _ _); reflexivity.
Qed.

Lemma scanAttribute_fold (tables : AttributeTables) (cAbove : ClassVector)
    (n : nat) (best : Best) (attributeIndex : nat) :
  scanAttribute t dataset tables cAbove n best attributeIndex =
  fold_left pick
    (List.map (candidate t dataset tables cAbove n)
       (candidates tables n [attributeIndex]))
    best.
Proof.
  unfold scanAttribute.
  pose proof (scanRow_fold tables cAbove n attributeIndex (n - 1) best) as H.
  cbn [countsAt] in H. cbv zeta in H. rewrite H. cbn [snd].
  unfold candidates. cbn [flat_map]. rewrite app_nil_r, List.map_map.
  reflexivity.
Qed.

Lemma candidates_cons (tables : AttributeTables) (n a : nat) (l : list nat) :
  candidates tables n (a :: l) = candidates tables n [a] ++ candidates tables n l.
Proof. unfold candidates. cbn [flat_map]. rewrite app_nil_r. reflexivity. Qed.

Lemma searchSplit_fold (tables : AttributeTables) (cAbove : ClassVector)
    (n : nat) (tableIndicies : list nat) :
  searchSplit t dataset tables cAbove n tableIndicies =
  fold_left pick
    (List.map (candidate t dataset tables cAbove n)
       (candidates tables n tableIndicies))
    (initBest t n).
Proof.
  unfold searchSplit. generalize (initBest t n) as best.
  induction tableIndicies as [|a l IH]; intros best; [reflexivity|].
  cbn [fold_left]. rewrite IH, scanAttribute_fold.
  rewrite (candidates_cons tables n a l), List.map_app, fold_left_app.
  reflexivity.
Qed.

End ScanClassification.

(** ** Bounds on the impurities *)

Lemma fold_left_nonneg {A} (f : A -> Q) (l : list A) (a : Q) :
  (forall x, (0 <= f x)%Q) -> (0 <= a)%Q ->
  (0 <= fold_left (fun acc x => acc + f x) l a)%Q.
Proof.
  intros Hf. revert a. induction l as [|x l IH]; intros a Ha; cbn [fold_left].
  - exact Ha.
  - apply IH. rewrite <- (Qplus_0_r 0). apply Qplus_le_compat; [exact Ha | apply Hf].
Qed.

Lemma gini_le_1 (c : ClassVector) (n : Z) : (gini c n <= 1)%Q.
Proof.
  unfold gini.
  assert (H : forall res, (0 <= res)%Q -> (1 - res <= 1)%Q).
  { intros res Hres. rewrite <- (Qplus_0_r 1) at 2. unfold Qminus.
    apply Qplus_le_compat; [apply Qle_refl|].
    change 0%Q with (- 0)%Q. apply Qopp_le_compat, Hres. }
  apply H. destruct (n =? 0); [apply Qle_refl|].
  apply (fold_left_nonneg (fun i => inject_Z (sqr i) / inject_Z (usize (n * n)))%Q);
    [|apply Qle_refl].
  intros x. apply Qdiv_nonneg; apply inject_Z_nonneg;
    [unfold sqr; nia | apply usize_nonneg].
Qed.

Lemma elem_of_candidates (tables : AttributeTables) (n : nat)
    (tableIndicies : list nat) (attributeIndex i : nat) :
  (attributeIndex, i) ∈ candidates tables n tableIndicies <->
  attributeIndex ∈ tableIndicies /\ (1 <= i <= n - 1)%nat /\
  ~ (value (at_row (at_table tables attributeIndex) (i - 1))
     == value (at_row (at_table tables attributeIndex) i))%Q.
Proof.
  unfold candidates. rewrite list_elem_of_In, in_flat_map. split.
  - intros (f & Hf & Hin). apply in_map_iff in Hin as (j & [= <- <-] & Hj).
    apply filter_In in Hj as [Hj Hb]. apply in_seq in Hj.
    split; [apply list_elem_of_In, Hf|]. split; [lia|].
    unfold boundary in Hb. apply negb_true_iff in Hb.
    intros Heq. apply Qeq_bool_iff in Heq. congruence.
  - intros (Hf & Hi & Hne). exists attributeIndex.
    split; [apply list_elem_of_In, Hf|].
    apply in_map_iff. exists i. split; [reflexivity|].
    apply filter_In. split; [apply in_seq; lia|].
    unfold boundary. apply negb_true_iff.
    destruct (Qeq_bool _ _) eqn:E; [|reflexivity].
    exfalso. apply Hne, Qeq_bool_iff, E.
Qed.

Lemma candidate_below_sentinel (t : RFTrainer) (dataset : ClassificationDataset)
    (tables : AttributeTables) (cAbove : ClassVector) (n : nat)
    (tableIndicies : list nat) (b : Best) :
  Z.of_nat n < 2 ^ 53 ->
  b ∈ List.map (candidate t dataset tables cAbove n)
        (candidates tables n tableIndicies) ->
  (bestImpurity b < bestImpurity (initBest t n))%Q.
Proof.
  intros Hn Hb. apply list_elem_of_In, in_map_iff in Hb as ([f i] & <- & Hc).
  apply list_elem_of_In, elem_of_candidates in Hc as (_ & Hi & _).
  cbn [candidate bestImpurity initBest]. unfold impurityAt.
  eapply Qle_lt_trans; [apply weighted_gini_le; lia|].
  replace (i + (n - i))%nat with n by lia.
  generalize (inject_Z (Z.of_nat n)). intros q. lra.
Qed.

(** ** Regression: the squared errors are returned and are not negative *)

Lemma Qsquare_nonneg (x : Q) : (0 <= x * x)%Q.
Proof. unfold Qle, Qmult. simpl. nia. Qed.

Lemma norm_sqr_nonneg (v : RealVector) : (0 <= norm_sqr v)%Q.
Proof.
  unfold norm_sqr.
  apply (fold_left_nonneg (fun x => x * x)%Q); [apply Qsquare_nonneg | apply Qle_refl].
Qed.

Lemma totalSumOfSquares_returns (labels : list RealVector) (start length : Z)
    (sumLabel : RealVector) :
  0 <= start -> 1 <= length ->
  start + length <= Z.of_nat (List.length labels) -> start + length < 2 ^ 64 ->
  exists v, totalSumOfSquares labels start length sumLabel = Ret v /\ (0 <= v)%Q.
Proof.
  intros Hs Hl Hfit Hno. unfold totalSumOfSquares.
  destruct (Z.ltb_spec length 1); [lia|].
  rewrite usize_small by lia.
  destruct (Z.gtb_spec (start + length) (Z.of_nat (List.length labels))); [lia|].
  eexists. split; [reflexivity|].
  apply (fold_left_nonneg
           (fun i => norm_sqr
              (vsub (nth (Z.to_nat (usize (start + Z.of_nat i))) labels [])
                    (vdiv sumLabel (inject_Z length)))));
    [intros i; apply norm_sqr_nonneg | apply Qle_refl].
Qed.

Lemma norm_sqr_binary64_nonneg (v : RealVector) :
  (0 <= Binary64.norm_sqr v)%Q.
Proof.
  unfold Binary64.norm_sqr.
  apply (fold_add_nonneg (fun x => Binary64.mul x x)); [|apply Qle_refl].
  intros x. unfold Binary64.mul. apply round_nonneg, Qsquare_nonneg.
Qed.

Lemma totalSumOfSquares_binary64_returns (labels : list RealVector)
    (start length : Z) (sumLabel : RealVector) :
  0 <= start -> 1 <= length ->
  start + length <= Z.of_nat (List.length labels) -> start + length < 2 ^ 64 ->
  exists v,
    totalSumOfSquares_binary64 labels start length sumLabel = Ret v /\
    (0 <= v)%Q.
Proof.
  intros Hs Hl Hfit Hno. unfold totalSumOfSquares_binary64.
  destruct (Z.ltb_spec length 1); [lia|].
  rewrite usize_small by lia.
  destruct (Z.gtb_spec (start + length) (Z.of_nat (List.length labels))); [lia|].
  eexists. split; [reflexivity|].
  apply (fold_add_nonneg
           (fun i => Binary64.norm_sqr
              (Binary64.vsub
                 (nth (Z.to_nat (usize (start + Z.of_nat i))) labels [])
                 (Binary64.vdiv sumLabel (Binary64.of_Z length)))));
    [intros i; apply norm_sqr_binary64_nonneg | apply Qle_refl].
Qed.

Lemma weighted_sse_returns (tmpLabels : list RealVector)
    (labelSumAbove labelSumBelow : RealVector) (n i : nat) :
  (1 <= i <= n - 1)%nat -> (n <= List.length tmpLabels)%nat ->
  Z.of_nat n < 2 ^ 64 ->
  exists v,
    weighted_sse tmpLabels labelSumAbove labelSumBelow n i (n - i) = Ret v /\
    (0 <= v)%Q.
Proof.
  intros Hi Hlen Hn. unfold weighted_sse.
  destruct (totalSumOfSquares_binary64_returns tmpLabels 0 (Z.of_nat i)
              labelSumAbove) as (v1 & -> & Hv1); try lia.
  destruct (totalSumOfSquares_binary64_returns tmpLabels (Z.of_nat i)
              (Z.of_nat (n - i)) labelSumBelow) as (v2 & -> & Hv2); try lia.
  cbn [mbind outcome_bind]. eexists. split; [reflexivity|].
  assert (Hof : forall k : nat, (0 <= Binary64.of_Z (Z.of_nat k))%Q).
  { intros k. unfold Binary64.of_Z. apply round_nonneg, inject_Z_nonneg. lia. }
  unfold Binary64.div, Binary64.add, Binary64.mul.
  apply round_nonneg, Qdiv_nonneg; [|apply Hof].
  apply round_nonneg.
  pose proof (round_nonneg _ (Qmult_le_0_compat _ _ (Hof i) Hv1)) as H1.
  pose proof (round_nonneg _ (Qmult_le_0_compat _ _ (Hof (n - i)%nat) Hv2)) as H2.
  lra.
Qed.

Section ScanRegression.

Variable t : RFTrainer.
Variable dataset : RegressionDataset.

Lemma length_labelsOf (table : AttributeTable) :
  List.length (labelsOf dataset table) = List.length table.
Proof. unfold labelsOf. apply List.length_map. Qed.

Lemma candidateR_returns (tables : AttributeTables) (n : nat) (c : nat * nat) :
  (1 <= c.2 <= n - 1)%nat ->
  (n <= List.length (at_table tables c.1))%nat ->
  Z.of_nat n < 2 ^ 64 ->
  exists b, candidateR t dataset tables n c = Ret b /\
            (0 <= r_bestImpurity b)%Q /\ doSplit b = true /\
            r_bestAttributeIndex b = c.1 /\
            r_bestAttributeValIndex b = (c.2 - 1)%nat /\
            r_bestAttributeVal b
              = value (at_row (at_table tables c.1) (c.2 - 1)) /\
            bestLabels b = labelsOf dataset (at_table tables c.1).
Proof.
  destruct c as [f i]. cbn [fst snd]. intros Hi Hlen Hn.
  unfold candidateR, impurityAtR.
  destruct (weighted_sse_returns (labelsOf dataset (at_table tables f))
              (fst (sumsAt t (labelsOf dataset (at_table tables f)) (i - 1)))
              (snd (sumsAt t (labelsOf dataset (at_table tables f)) (i - 1)))
              n i Hi) as (v & -> & Hv);
    [rewrite length_labelsOf; exact Hlen | exact Hn |].
  cbn. eexists. split; [reflexivity|]. cbn. repeat split. exact Hv.
Qed.

Lemma sumsAt_S (tmpLabels : list RealVector) (k : nat) :
  sumsAt t tmpLabels (S k) =
  (Binary64.vadd (fst (sumsAt t tmpLabels k)) (nth (S k) tmpLabels []),
   Binary64.vsub (snd (sumsAt t tmpLabels k)) (nth (S k) tmpLabels [])).
Proof. cbn [sumsAt]. destruct (sumsAt t tmpLabels k). reflexivity. Qed.

(** The rounds [1 .. m] over a table whose candidates all return. *)
Lemma scanRowR_fold (tables : AttributeTables) (n attributeIndex m : nat)
    (best : BestR) (recs : list BestR) :
  let table := at_table tables attributeIndex in
  let tmpLabels := labelsOf dataset table in
  Forall2 (fun i b => candidateR t dataset tables n (attributeIndex, i) = Ret b)
    (List.filter (boundary table) (seq 1 m)) recs ->
  fold_left (scanRowR table tmpLabels n attributeIndex) (seq 1 m)
    (Ret (sumsAt t tmpLabels 0, best)) =
  Ret (sumsAt t tmpLabels m, fold_left pickR recs best).
Proof.
  intros table tmpLabels. revert recs. induction m as [|m IH]; intros recs Hrecs.
  - cbn in Hrecs. inversion Hrecs. reflexivity.
  - rewrite seq_S in *. rewrite List.filter_app in Hrecs.
    apply Forall2_app_inv_l in Hrecs as (recs1 & recs2 & H1 & H2 & ->).
    rewrite !fold_left_app, (IH recs1 H1). cbn [fold_left].
    change (1 + m)%nat with (S m) in *.
    unfold scanRowR.
    destruct (sumsAt t tmpLabels m) as [labelSumAbove labelSumBelow] eqn:Em.
    cbn [mbind outcome_bind].
    change (negb (Qeq_bool (value (at_row table (S m - 1)))
                           (value (at_row table (S m)))))
      with (boundary table (S m)).
    rewrite sumsAt_S, Em. cbn [fst snd].
    cbn [List.filter] in H2.
    destruct (boundary table (S m)) eqn:Eb.
    + inversion H2 as [|i b l1 l2 Hb Hnil]; subst. inversion Hnil; subst.
      unfold candidateR in Hb. fold table in Hb. unfold impurityAtR in Hb.
      fold tmpLabels in Hb. replace (S m - 1)%nat with m in * by lia.
      rewrite Em in Hb. cbn [fst snd] in Hb.
      destruct (weighted_sse tmpLabels labelSumAbove labelSumBelow n (S m) (n - S m))
        as [v| | | |]; try discriminate Hb.
      cbn in Hb. injection Hb as <-.
      cbn [mbind outcome_bind fold_left].
      set (best' := fold_left pickR recs1 best).
      unfold pickR. cbn [r_bestImpurity].
      destruct (Qlt_bool v _ || Qlt_bool _ 0); reflexivity.
    + inversion H2; subst. reflexivity.
Qed.

End ScanRegression.

Section SearchRegression.

Variable t : RFTrainer.
Variable dataset : RegressionDataset.

Lemma scanAttributeR_fold (tables : AttributeTables) (n : nat) (best : BestR)
    (attributeIndex : nat) (recs : list BestR) :
  Forall2 (fun c b => candidateR t dataset tables n c = Ret b)
    (candidates tables n [attributeIndex]) recs ->
  scanAttributeR t dataset tables n (Ret best) attributeIndex =
  Ret (fold_left pickR recs best).
Proof.
  intros Hrecs. unfold candidates in Hrecs. cbn [flat_map] in Hrecs.
  rewrite app_nil_r in Hrecs. apply Forall2_fmap_l in Hrecs.
  unfold scanAttributeR. cbn [mbind outcome_bind].
  pose proof (scanRowR_fold t dataset tables n attributeIndex (n - 1) best recs
                Hrecs) as H.
  cbn [sumsAt] in H. cbv zeta in H. rewrite H.
  destruct (sumsAt t _ (n - 1)). reflexivity.
Qed.

Lemma searchSplitR_fold (tables : AttributeTables) (n : nat)
    (tableIndicies : list nat) (recs : list BestR) :
  Forall2 (fun c b => candidateR t dataset tables n c = Ret b)
    (candidates tables n tableIndicies) recs ->
  searchSplitR t dataset tables n tableIndicies =
  Ret (fold_left pickR recs initBestR).
Proof.
  unfold searchSplitR. generalize initBestR as best. revert recs.
  induction tableIndicies as [|a l IH]; intros recs best Hrecs.
  - inversion Hrecs. reflexivity.
  - rewrite candidates_cons in Hrecs.
    apply Forall2_app_inv_l in Hrecs as (recs1 & recs2 & H1 & H2 & ->).
    cbn [fold_left]. rewrite (scanAttributeR_fold _ _ _ _ _ H1).
    rewrite (IH recs2 _ H2), fold_left_app. reflexivity.
Qed.

(** Every candidate of tables of [n] rows returns. *)
Lemma candidatesR_return (tables : AttributeTables) (n : nat)
    (tableIndicies : list nat) :
  (forall f, f ∈ tableIndicies -> (n <= List.length (at_table tables f))%nat) ->
  Z.of_nat n < 2 ^ 64 ->
  exists recs,
    Forall2 (fun c b => candidateR t dataset tables n c = Ret b)
      (candidates tables n tableIndicies) recs /\
    Forall (fun b => (0 <= r_bestImpurity b)%Q /\ doSplit b = true) recs.
Proof.
  intros Hlen Hn.
  assert (Hall : forall c, c ∈ candidates tables n tableIndicies ->
            exists b, candidateR t dataset tables n c = Ret b /\
                      (0 <= r_bestImpurity b)%Q /\ doSplit b = true).
  { intros [f i] Hc. apply elem_of_candidates in Hc as (Hf & Hi & _).
    destruct (candidateR_returns t dataset tables n (f, i)) as (b & Hb & H0 & Hd & _);
      [exact Hi | apply Hlen, Hf | exact Hn |].
    exists b. auto. }
  induction (candidates tables n tableIndicies) as [|c cs IH].
  - exists []. split; constructor.
  - destruct (Hall c) as (b & Hb & Hprop); [left|].
    destruct IH as (recs & Hrecs & Hprops); [intros c' Hc'; apply Hall; right; exact Hc'|].
    exists (b :: recs). split; constructor; assumption.
Qed.

End SearchRegression.

Lemma fold_pickR_pick_by (recs : list BestR) (b0 : BestR) :
  (0 <= r_bestImpurity b0)%Q ->
  Forall (fun b => (0 <= r_bestImpurity b)%Q) recs ->
  fold_left pickR recs b0 = fold_left (pick_by r_bestImpurity) recs b0.
Proof.
  revert b0. induction recs as [|c recs IH]; intros b0 H0 Hall; [reflexivity|].
  apply Forall_cons in Hall as [Hc Hall]. cbn [fold_left].
  assert (Hp : pickR b0 c = pick_by r_bestImpurity b0 c).
  { unfold pickR, pick_by.
    replace (Qlt_bool (r_bestImpurity b0) 0) with false;
      [rewrite orb_false_r; reflexivity|].
    symmetry. apply Qlt_bool_false, H0. }
  rewrite Hp. apply IH; [|exact Hall].
  unfold pick_by. destruct (Qlt_bool _ _); assumption.
Qed.

(** From the regression sentinel: no candidate, no split; otherwise the first
    candidate of lowest impurity. *)
Lemma fold_pickR_sentinel (recs : list BestR) :
  Forall (fun b => (0 <= r_bestImpurity b)%Q) recs ->
  let b := fold_left pickR recs initBestR in
  (recs = [] -> b = initBestR) /\
  (recs <> [] -> first_lowest r_bestImpurity recs b).
Proof.
  intros Hall b. subst b. split; [intros ->; reflexivity|].
  destruct recs as [|c recs]; [intros H; contradiction|]. intros _.
  apply Forall_cons in Hall as [Hc Hall]. cbn [fold_left].
  replace (pickR initBestR c) with c
    by (unfold pickR; cbn; rewrite orb_true_r; reflexivity).
  rewrite fold_pickR_pick_by by assumption.
  destruct (fold_pick_by r_bestImpurity recs c)
    as [[Heq Hrest]|[Hlt (pre & post & Hcs & Hpre & Hpost)]].
  - rewrite Heq. exists [], recs. split; [reflexivity|].
    split; [intros c' Hc'; inversion Hc' | exact Hrest].
  - exists (c :: pre), post. split; [cbn [app]; f_equal; exact Hcs|].
    split; [|exact Hpost].
    intros c' Hc'. apply elem_of_cons in Hc' as [->|Hc'];
      [exact Hlt | apply Hpre, Hc'].
Qed.

(** ** The candidates stand in the order of the scan *)

Lemma StronglySorted_seq (a n : nat) : StronglySorted lt (seq a n).
Proof.
  revert a. induction n as [|n IH]; intros a; constructor; [apply IH|].
  apply Forall_forall. intros x Hx. apply elem_of_seq in Hx. lia.
Qed.

Lemma sublist_List_filter {A} (f : A -> bool) (l : list A) :
  List.filter f l `sublist_of` l.
Proof.
  induction l as [|x l IH]; [constructor|]. cbn [List.filter].
  destruct (f x); constructor; exact IH.
Qed.

Lemma candidates_ordered (tables : AttributeTables) (n : nat)
    (tableIndicies : list nat) :
  ascending tableIndicies ->
  StronglySorted scan_before (candidates tables n tableIndicies).
Proof.
  unfold ascending. induction 1 as [|a l Hl IH Ha].
  - constructor.
  - rewrite candidates_cons. apply StronglySorted_app_2; [| |exact IH].
    + intros [f i] [g j] H1 H2.
      apply elem_of_candidates in H1 as (Hf & _).
      apply elem_of_candidates in H2 as (Hg & _).
      apply list_elem_of_singleton in Hf. subst f.
      rewrite Forall_forall in Ha. left. cbn. apply Ha, Hg.
    + unfold candidates. cbn [flat_map]. rewrite app_nil_r.
      apply (StronglySorted_fmap (fun i => (a, i)) lt).
      * intros x y Hxy. right. cbn. split; [reflexivity | exact Hxy].
      * eapply StronglySorted_sublist;
          [apply sublist_List_filter | apply StronglySorted_seq].
Qed.

(** C1. The split search evaluates a boundary at position [i] of a chosen
    attribute only where the values at [i-1] and [i] differ, and visits these
    candidates attribute after attribute, position after position.  The
    classification search starts from the sentinel [n+1] and the regression
    search from the sentinel [-1]; with no candidate the sentinel stays, and
    otherwise the stored candidate is the first one of lowest size-weighted
    impurity: strictly lower than every earlier candidate and not higher
    than any later one.  The impurities are the doubles that the program
    computes and compares, with the rounding of every operation.
    (Classification: for [n] below [2^53], where [n+1.0] is exact.
    Regression: for tables that all have [n] rows.)  For the ascending
    order in which a [std::set] is iterated, "earlier" is by attribute
    index first and by position second. *)
Theorem searchSplit_first_lowest (t : RFTrainer) (tables : AttributeTables)
    (n : nat) (tableIndicies : list nat) :
  let cs := candidates tables n tableIndicies in
  (forall attributeIndex i,
     (attributeIndex, i) ∈ cs <->
     attributeIndex ∈ tableIndicies /\ (1 <= i <= n - 1)%nat /\
     ~ (value (at_row (at_table tables attributeIndex) (i - 1))
        == value (at_row (at_table tables attributeIndex) i))%Q) /\
  (ascending tableIndicies -> StronglySorted scan_before cs) /\
  (forall (dataset : ClassificationDataset) (cAbove : ClassVector),
     Z.of_nat n < 2 ^ 53 ->
     let best := searchSplit t dataset tables cAbove n tableIndicies in
     bestImpurity (initBest t n) = (inject_Z (Z.of_nat n) + 1)%Q /\
     (cs = [] -> best = initBest t n) /\
     (cs <> [] ->
      first_lowest bestImpurity
        (List.map (candidate t dataset tables cAbove n) cs) best /\
      (bestImpurity best < inject_Z (Z.of_nat n) + 1)%Q)) /\
  (forall dataset : RegressionDataset,
     (forall f, f ∈ tableIndicies -> (n <= List.length (at_table tables f))%nat) ->
     Z.of_nat n < 2 ^ 64 ->
     r_bestImpurity initBestR = (-1)%Q /\ doSplit initBestR = false /\
     exists recs best,
       Forall2 (fun c b => candidateR t dataset tables n c = Ret b) cs recs /\
       searchSplitR t dataset tables n tableIndicies = Ret best /\
       (cs = [] -> best = initBestR) /\
       (cs <> [] ->
        first_lowest r_bestImpurity recs best /\ doSplit best = true)).
Proof.
  intros cs. split; [|split; [|split]].
  - intros f i. apply elem_of_candidates.
  - apply candidates_ordered.
  - intros dataset cAbove Hn best. split; [reflexivity|].
    subst best. rewrite searchSplit_fold, pick_pick_by. fold cs.
    destruct (fold_pick_by_sentinel bestImpurity
                (List.map (candidate t dataset tables cAbove n) cs)
                (initBest t n)) as [Hnil Hcons].
    { intros c Hc. eapply candidate_below_sentinel; [exact Hn | exact Hc]. }
    set (b := fold_left (pick_by bestImpurity) _ _) in *. clearbody b.
    split.
    + intros Hcs. apply Hnil. rewrite Hcs. reflexivity.
    + intros Hcs.
      assert (Hne : List.map (candidate t dataset tables cAbove n) cs <> []).
      { destruct cs; [contradiction | discriminate]. }
      specialize (Hcons Hne). split; [exact Hcons|].
      destruct Hcons as (pre & post & Heq & _).
      apply (candidate_below_sentinel t dataset tables cAbove n tableIndicies b Hn).

      fold cs. rewrite Heq. apply elem_of_app. right. left.
  - intros dataset Hlen Hn. split; [reflexivity|]. split; [reflexivity|].
    destruct (candidatesR_return t dataset tables n tableIndicies Hlen Hn)
      as (recs & Hrecs & Hprops).
    fold cs in Hrecs.
    exists recs, (fold_left pickR recs initBestR).
    split; [exact Hrecs|].
    split; [apply searchSplitR_fold, Hrecs|].
    clear Hlen.
    assert (Hnonneg : Forall (fun b => (0 <= r_bestImpurity b)%Q) recs).
    { eapply Forall_impl; [exact Hprops|]. intros b [H _]. exact H. }
    destruct (fold_pickR_sentinel recs Hnonneg) as [Hnil Hcons].
    set (b := fold_left pickR recs initBestR) in *. clearbody b.
    split.
    + intros Hcs. apply Hnil. rewrite Hcs in Hrecs. inversion Hrecs. reflexivity.
    + intros Hcs.
      assert (Hne : recs <> []).
      { intros ->. inversion Hrecs as [Hc|]. apply Hcs. symmetry. exact Hc. }
      specialize (Hcons Hne). split; [exact Hcons|].
      destruct Hcons as (pre & post & Heq & _).
      rewrite Forall_forall in Hprops. apply Hprops.
      rewrite Heq. apply elem_of_app. right. left.
Qed.

(** ** The tree builder, one call at a time *)

Section Unfold.

Variable t : RFTrainer.
Variable rand : nat -> nat.

Lemma buildTree_unfold (dataset : ClassificationDataset) (fuel : nat)
    (tables : AttributeTables) (cAbove : ClassVector) (rootId : Z) (pos : nat) :
  buildTree t rand dataset (S fuel) tables cAbove rootId pos =
  let n := length (at_table tables 0) in
  if Qeq_bool (gini cAbove (Z.of_nat n)) 0 || (Z.of_nat n <=? m_nodeSize t)
  then
    h ← hist t cAbove; Ret ([withLabel (newNode rootId) h], pos)
  else
    '(tableIndicies, pos) ← generateRandomTableIndicies t rand fuel pos [];
    match decideSplit t dataset tables cAbove tableIndicies with
    | Some best =>
        let split :=
          splitAttributeTables tables (bestAttributeIndex best)
            (bestAttributeValIndex best) in
        let nodeInfo :=
          withSplit (newNode rootId) (bestAttributeIndex best)
            (bestAttributeVal best) in
        '(lTree, pos) ← buildTree t rand dataset fuel (fst split)
                           (cBestBelow best) (leftNodeId nodeInfo) pos;
        '(rTree, pos) ← buildTree t rand dataset fuel (snd split)
                           (cBestAbove best) (rightNodeId nodeInfo) pos;
        Ret (nodeInfo :: lTree ++ rTree, pos)
    | None =>
        h ← hist t cAbove; Ret ([withLabel (newNode rootId) h], pos)
    end.
Proof.
  cbn [buildTree]. cbv zeta. unfold decideSplit.
  destruct (Qeq_bool _ _ || _) eqn:E; [reflexivity|].
  destruct (generateRandomTableIndicies t rand fuel pos []) as [[ti pos1]| | | |];
    try reflexivity.
  cbn [mbind outcome_bind]. cbv zeta.
  destruct (Qlt_bool _ _); [|reflexivity].
  destruct (splitAttributeTables _ _ _) as [lTables rTables]. reflexivity.
Qed.

Lemma buildTreeR_unfold (dataset : RegressionDataset) (fuel : nat)
    (tables : AttributeTables) (labels : list RealVector) (rootId : Z)
    (pos : nat) :
  buildTreeR t rand dataset (S fuel) tables labels rootId pos =
  avg ← average labels;
  let nodeInfo := withLabel (newNode rootId) avg in
  let n := length (at_table tables 0) in
  if Z.of_nat n <=? m_nodeSize t then Ret ([nodeInfo], pos)
  else
    '(tableIndicies, pos) ← generateRandomTableIndicies t rand fuel pos [];
    best ← searchSplitR t dataset tables n tableIndicies;
    if doSplit best then
      let split :=
        splitAttributeTables tables (r_bestAttributeIndex best)
          (r_bestAttributeValIndex best) in
      let nodeInfo :=
        withSplit nodeInfo (r_bestAttributeIndex best)
          (r_bestAttributeVal best) in
      '(lTree, pos) ← buildTreeR t rand dataset fuel (fst split)
                         (take (r_bestAttributeValIndex best + 1) (bestLabels best))
                         (leftNodeId nodeInfo) pos;
      '(rTree, pos) ← buildTreeR t rand dataset fuel (snd split)
                         (drop (r_bestAttributeValIndex best + 1) (bestLabels best))
                         (rightNodeId nodeInfo) pos;
      Ret (nodeInfo :: lTree ++ rTree, pos)
    else Ret ([nodeInfo], pos).
Proof.
  cbn [buildTreeR]. destruct (average labels) as [avg| | | |]; try reflexivity.
  cbn [mbind outcome_bind]. cbv zeta.
  destruct (_ <=? _); [reflexivity|].
  destruct (generateRandomTableIndicies t rand fuel pos []) as [[ti pos1]| | | |];
    try reflexivity.
  cbn [mbind outcome_bind].
  destruct (searchSplitR _ _ _ _ _) as [best| | | |]; try reflexivity.
  cbn [mbind outcome_bind].
  destruct (doSplit best); [|reflexivity].
  destruct (splitAttributeTables _ _ _) as [lTables rTables]. reflexivity.
Qed.

End Unfold.

(** ** Shape of the returned tree *)

Lemma bind_Ret_inv {A B} (m : outcome A) (k : A -> outcome B) (b : B) :
  m ≫= k = Ret b -> exists a, m = Ret a /\ k a = Ret b.
Proof. destruct m; try discriminate. intros H. eexists. split; [reflexivity | exact H]. Qed.

Lemma numbered_root (s : shape) (k : Z) : numbered k s -> nodeId (root s) = k.
Proof. destruct s; cbn; tauto. Qed.

Lemma numbered_internal (s : shape) (k : Z) :
  numbered k s ->
  forall info, info ∈ internal s ->
    leftNodeId info = usize (2 * nodeId info + 1) /\
    rightNodeId info = usize (2 * nodeId info + 2).
Proof.
  revert k. induction s as [info|info l IHl r IHr]; intros k Hn info' Hin.
  - inversion Hin.
  - cbn in Hn. destruct Hn as (Hk & Hl & Hr & Hnl & Hnr).
    cbn [internal] in Hin. apply elem_of_cons in Hin as [->|Hin].
    + rewrite Hk. split; assumption.
    + apply elem_of_app in Hin as [Hin|Hin]; [eapply IHl | eapply IHr]; eassumption.
Qed.


Section Shape.

Variable t : RFTrainer.
Variable rand : nat -> nat.

Lemma buildTree_shape (dataset : ClassificationDataset) (fuel : nat) :
  forall tables cAbove rootId pos tree pos',
    buildTree t rand dataset fuel tables cAbove rootId pos = Ret (tree, pos') ->
    exists s, tree = preorder s /\ numbered rootId s.
Proof.
  induction fuel as [|fuel IH]; intros tables cAbove rootId pos tree pos' H;
    [discriminate H|].
  rewrite buildTree_unfold in H. cbv zeta in H.
  assert (Hleaf : forall pos0,
            (h ← hist t cAbove; Ret ([withLabel (newNode rootId) h], pos0))
            = Ret (tree, pos') ->
            exists s, tree = preorder s /\ numbered rootId s).
  { intros pos0 Hl. apply bind_Ret_inv in Hl as (h & _ & [= <- _]).
    exists (Leaf (withLabel (newNode rootId) h)). cbn. auto. }
  destruct (Qeq_bool _ _ || _); [eapply Hleaf; exact H|].
  apply bind_Ret_inv in H as ([ti pos1] & _ & H).
  destruct (decideSplit t dataset tables cAbove ti) as [best|];
    [|eapply Hleaf; exact H].
  apply bind_Ret_inv in H as ([lTree pos2] & Hl & H).
  apply bind_Ret_inv in H as ([rTree pos3] & Hr & [= <- _]).
  apply IH in Hl as (sl & -> & Hnl). apply IH in Hr as (sr & -> & Hnr).
  exists (Node (withSplit (newNode rootId) (bestAttributeIndex best)
                  (bestAttributeVal best)) sl sr).
  cbn [preorder numbered]. repeat split; try reflexivity; assumption.
Qed.

Lemma buildTreeR_shape (dataset : RegressionDataset) (fuel : nat) :
  forall tables labels rootId pos tree pos',
    buildTreeR t rand dataset fuel tables labels rootId pos = Ret (tree, pos') ->
    exists s, tree = preorder s /\ numbered rootId s.
Proof.
  induction fuel as [|fuel IH]; intros tables labels rootId pos tree pos' H;
    [discriminate H|].
  rewrite buildTreeR_unfold in H.
  apply bind_Ret_inv in H as (avg & _ & H). cbv zeta in H.
  destruct (_ <=? _).
  { injection H as <- _. exists (Leaf (withLabel (newNode rootId) avg)). cbn. auto. }
  apply bind_Ret_inv in H as ([ti pos1] & _ & H).
  apply bind_Ret_inv in H as (best & _ & H).
  destruct (doSplit best).
  - apply bind_Ret_inv in H as ([lTree pos2] & Hl & H).
    apply bind_Ret_inv in H as ([rTree pos3] & Hr & [= <- _]).
    apply IH in Hl as (sl & -> & Hnl). apply IH in Hr as (sr & -> & Hnr).
    exists (Node (withSplit (withLabel (newNode rootId) avg)
                    (r_bestAttributeIndex best) (r_bestAttributeVal best)) sl sr).
    cbn [preorder numbered]. repeat split; try reflexivity; assumption.
  - injection H as <- _. exists (Leaf (withLabel (newNode rootId) avg)). cbn. auto.
Qed.

End Shape.

(** ** Count vectors *)

Section Counts.

Variable t : RFTrainer.
Variable dataset : ClassificationDataset.

Lemma labelCount_perm (rows rows' : list nat) (j : nat) :
  rows ≡ₚ rows' -> labelCount dataset rows j = labelCount dataset rows' j.
Proof. intros H. unfold labelCount. rewrite H. reflexivity. Qed.

Lemma countsOf_perm (rows rows' : list nat) :
  rows ≡ₚ rows' -> countsOf t dataset rows = countsOf t dataset rows'.
Proof.
  intros H. unfold countsOf. apply list_fmap_ext. intros _ j _.
  apply labelCount_perm, H.
Qed.

Lemma length_countsOf (rows : list nat) :
  length (countsOf t dataset rows) = (m_maxLabel t + 1)%nat.
Proof. unfold countsOf. rewrite length_fmap, length_seq. reflexivity. Qed.

Lemma lookup_countsOf (rows : list nat) (j : nat) :
  (j <= m_maxLabel t)%nat ->
  countsOf t dataset rows !! j = Some (labelCount dataset rows j).
Proof.
  intros Hj. unfold countsOf. rewrite list_lookup_fmap, lookup_seq_lt by lia.
  reflexivity.
Qed.

Lemma nth_countsOf (rows : list nat) (j : nat) :
  (j <= m_maxLabel t)%nat ->
  nth j (countsOf t dataset rows) 0 = labelCount dataset rows j.
Proof. intros Hj. apply nth_lookup_Some, lookup_countsOf, Hj. Qed.

Lemma labelCount_bounds (rows : list nat) (j : nat) :
  0 <= labelCount dataset rows j <= Z.of_nat (length rows).
Proof.
  unfold labelCount.
  pose proof (length_filter (fun i => class_label dataset i = j) rows). lia.
Qed.

Lemma labelCount_cons (i : nat) (rows : list nat) (j : nat) :
  labelCount dataset (i :: rows) j =
  (if decide (class_label dataset i = j) then 1 else 0)
  + labelCount dataset rows j.
Proof.
  unfold labelCount. rewrite filter_cons.
  destruct (decide (class_label dataset i = j)); cbn [length]; lia.
Qed.

Lemma countsOf_nil : countsOf t dataset [] = replicate (m_maxLabel t + 1) 0.
Proof.
  apply list_eq. intros j. unfold countsOf.
  rewrite list_lookup_fmap.
  destruct (decide (j < m_maxLabel t + 1)%nat) as [Hj|Hj].
  - rewrite lookup_seq_lt, lookup_replicate_2 by lia. reflexivity.
  - rewrite lookup_seq_ge by lia. symmetry. apply lookup_replicate_None. lia.
Qed.

(** Counting one more row is [++c[l]] for its label [l]. *)
Lemma incr_countsOf (i : nat) (rows : list nat) :
  (class_label dataset i <= m_maxLabel t)%nat ->
  Z.of_nat (length rows) + 1 < 2 ^ 32 ->
  incr (countsOf t dataset rows) (class_label dataset i)
  = countsOf t dataset (i :: rows).
Proof.
  intros Hl Hlen. unfold incr. apply list_eq. intros j.
  rewrite nth_countsOf by exact Hl.
  pose proof (labelCount_bounds rows (class_label dataset i)) as Hb.
  rewrite uint_small by lia.
  destruct (decide (j <= m_maxLabel t)%nat) as [Hj|Hj].
  - rewrite (lookup_countsOf (i :: rows)) by exact Hj.
    rewrite labelCount_cons.
    destruct (decide (class_label dataset i = j)) as [<-|Hne].
    + rewrite list_lookup_insert_eq by (rewrite length_countsOf; lia).
      f_equal. lia.
    + rewrite list_lookup_insert_ne by exact Hne.
      rewrite lookup_countsOf by exact Hj. reflexivity.
  - rewrite !(proj2 (lookup_ge_None _ _));
      [reflexivity | rewrite length_countsOf; lia
       | rewrite length_insert, length_countsOf; lia].
Qed.

(** Removing a counted row is [--c[l]] for its label [l]. *)
Lemma decr_countsOf (i : nat) (rows : list nat) :
  (class_label dataset i <= m_maxLabel t)%nat ->
  Z.of_nat (length rows) + 1 < 2 ^ 32 ->
  decr (countsOf t dataset (i :: rows)) (class_label dataset i)
  = countsOf t dataset rows.
Proof.
  intros Hl Hlen. unfold decr. apply list_eq. intros j.
  rewrite nth_countsOf by exact Hl.
  rewrite labelCount_cons, decide_True by reflexivity.
  pose proof (labelCount_bounds rows (class_label dataset i)) as Hb.
  rewrite uint_small by lia.
  destruct (decide (j <= m_maxLabel t)%nat) as [Hj|Hj].
  - rewrite (lookup_countsOf rows) by exact Hj.
    destruct (decide (class_label dataset i = j)) as [<-|Hne].
    + rewrite list_lookup_insert_eq by (rewrite length_countsOf; lia).
      f_equal. lia.
    + rewrite list_lookup_insert_ne by exact Hne.
      rewrite lookup_countsOf by exact Hj.
      rewrite labelCount_cons, decide_False by exact Hne. reflexivity.
  - rewrite !(proj2 (lookup_ge_None _ _));
      [reflexivity | rewrite length_countsOf; lia
       | rewrite length_insert, length_countsOf; lia].
Qed.

Lemma at_row_lookup (table : AttributeTable) (k : nat) :
  (k < length table)%nat -> table !! k = Some (at_row table k).
Proof.
  intros Hk. unfold at_row.
  destruct (nth_lookup_or_length table k default_attribute) as [H|H];
    [exact H | lia].
Qed.

(** The counters of the scan are the counts of the rows on either side. *)
Lemma countsAt_countsOf (table : AttributeTable) (cAbove : ClassVector)
    (k : nat) :
  (k <= length table)%nat ->
  Z.of_nat (length table) < 2 ^ 32 ->
  (forall i, i ∈ ids table -> (class_label dataset i <= m_maxLabel t)%nat) ->
  cAbove = countsOf t dataset (ids table) ->
  countsAt t dataset table cAbove k =
  (countsOf t dataset (ids (take k table)),
   countsOf t dataset (ids (drop k table))).
Proof.
  intros Hk Hlen Hlab ->. induction k as [|k IH].
  - cbn [countsAt]. rewrite take_0, drop_0.
    change (ids []) with (@nil nat). rewrite countsOf_nil. reflexivity.
  - cbn [countsAt]. rewrite IH by lia.
    pose proof (at_row_lookup table k ltac:(lia)) as Hrow.
    assert (Hl : (class_label dataset (id (at_row table k)) <= m_maxLabel t)%nat).
    { apply Hlab. unfold ids. apply list_elem_of_fmap.
      exists (at_row table k). split; [reflexivity|].
      eapply list_elem_of_lookup_2. exact Hrow. }
    f_equal.
    + rewrite (take_S_r _ _ _ Hrow).
      rewrite (countsOf_perm (ids (take k table ++ [at_row table k]))
                 (id (at_row table k) :: ids (take k table))).
      * apply incr_countsOf; [exact Hl|].
        unfold ids. rewrite length_fmap, length_take. lia.
      * unfold ids. rewrite fmap_app, Permutation_app_comm. reflexivity.
    + rewrite (drop_S _ _ _ Hrow).
      change (ids (at_row table k :: drop (S k) table))
        with (id (at_row table k) :: ids (drop (S k) table)).
      apply decr_countsOf; [exact Hl|].
      unfold ids. rewrite length_fmap, length_drop. lia.
Qed.

End Counts.

(** ** The histogram of a leaf *)

Lemma hist_loop_total (t : RFTrainer) (pre l : list Z) (h : RealVector) (acc : Z) :
  0 <= acc -> Forall (fun x => 0 <= x) l -> acc + totalCount l < 2 ^ 64 ->
  snd (fold_left
         (fun '(h, total) i =>
            (<[i := inject_Z (nth i (pre ++ l) 0)]> h,
             usize (total + nth i (pre ++ l) 0)))
         (seq (length pre) (length l)) (h, acc))
  = acc + totalCount l.
Proof.
  revert pre h acc. induction l as [|x l IH]; intros pre h acc Hacc Hpos Hlt.
  - cbn. lia.
  - apply Forall_cons in Hpos as [Hx Hpos]. cbn [totalCount foldr] in Hlt.
    fold (totalCount l) in Hlt.
    assert (Hl : 0 <= totalCount l).
    { clear -Hpos. induction Hpos; cbn; [lia|]. fold (totalCount l). lia. }
    cbn [length seq fold_left].
    rewrite nth_middle.
    rewrite usize_small by lia.
    replace (pre ++ x :: l) with ((pre ++ [x]) ++ l) by (rewrite <- app_assoc; reflexivity).
    replace (S (length pre)) with (length (pre ++ [x]))
      by (rewrite length_app; cbn; lia).
    rewrite IH; [|lia|exact Hpos|lia].
    cbn [totalCount foldr]. fold (totalCount l). lia.
Qed.

Lemma hist_returns (t : RFTrainer) (c : ClassVector) :
  Forall (fun x => 0 <= x) c -> 0 < totalCount c < 2 ^ 64 ->
  returns (hist t c).
Proof.
  intros Hpos Htot. unfold hist.
  pose proof (hist_loop_total t [] c (vzero (m_maxLabel t + 1)) 0
                ltac:(lia) Hpos ltac:(lia)) as H.
  cbn [app length] in H.
  destruct (fold_left _ _ _) as [h total]. cbn [snd] in H. subst total.
  destruct (Z.eqb_spec (0 + totalCount c) 0); [lia|].
  eexists. reflexivity.
Qed.

Section CountsTotal.

Variable t : RFTrainer.
Variable dataset : ClassificationDataset.

Lemma totalCount_indicator (g : nat -> Z) (l a K : nat) :
  totalCount ((fun j => (if decide (l = j) then 1 else 0) + g j) <$> seq a K)
  = (if decide (a <= l < a + K)%nat then 1 else 0) + totalCount (g <$> seq a K).
Proof.
  revert a. induction K as [|K IH]; intros a.
  - cbn. destruct (decide (a <= l < a + 0)%nat); lia.
  - cbn [seq fmap list_fmap totalCount foldr].
    fold (totalCount ((fun j => (if decide (l = j) then 1 else 0) + g j) <$> seq (S a) K)).
    fold (totalCount (g <$> seq (S a) K)).
    rewrite IH.
    destruct (decide (l = a)), (decide (S a <= l < S a + K)%nat),
      (decide (a <= l < a + S K)%nat); lia.
Qed.

Lemma totalCount_countsOf (rows : list nat) :
  (forall i, i ∈ rows -> (class_label dataset i <= m_maxLabel t)%nat) ->
  totalCount (countsOf t dataset rows) = Z.of_nat (length rows).
Proof.
  induction rows as [|i rows IH]; intros Hlab.
  - rewrite countsOf_nil. cbn [length].
    induction (m_maxLabel t + 1)%nat as [|k IHk]; [reflexivity|].
    cbn. fold (totalCount (replicate k 0)). rewrite IHk. reflexivity.
  - unfold countsOf.
    rewrite (list_fmap_ext (labelCount dataset (i :: rows))
               (fun j => (if decide (class_label dataset i = j) then 1 else 0)
                         + labelCount dataset rows j) (seq 0 (m_maxLabel t + 1)))
      by (intros _ j _; apply labelCount_cons).
    rewrite totalCount_indicator. fold (countsOf t dataset rows).
    rewrite IH by (intros i' Hi'; apply Hlab; right; exact Hi').
    specialize (Hlab i ltac:(left)).
    rewrite decide_True by lia. cbn [length]. lia.
Qed.

Lemma countsOf_nonneg (rows : list nat) :
  Forall (fun x => 0 <= x) (countsOf t dataset rows).
Proof.
  unfold countsOf. apply Forall_fmap, Forall_forall. intros j _.
  apply labelCount_bounds.
Qed.

End CountsTotal.

(** ** One split of the tables of a node *)

Lemma at_table_elem_of (tables : AttributeTables) (f : nat) :
  (f < length tables)%nat -> at_table tables f ∈ tables.
Proof.
  intros Hf. unfold at_table.
  destruct (nth_lookup_or_length tables f []) as [H|H]; [|lia].
  eapply list_elem_of_lookup_2. exact H.
Qed.

Lemma length_ids_perm (a b : AttributeTable) :
  ids a ≡ₚ ids b -> length a = length b.
Proof.
  intros H. rewrite <- (length_ids a), <- (length_ids b), H. reflexivity.
Qed.

Lemma split_tables (tables : AttributeTables) (f p : nat) :
  (0 < length tables)%nat -> (f < length tables)%nat ->
  (forall table, table ∈ tables -> ids table ≡ₚ ids (at_table tables 0)) ->
  NoDup (ids (at_table tables 0)) ->
  (S p <= length (at_table tables 0) - 1)%nat ->
  let win := at_table tables f in
  let n := length (at_table tables 0) in
  let L := fst (splitAttributeTables tables f p) in
  let R := snd (splitAttributeTables tables f p) in
  length L = length tables /\ length R = length tables /\
  (forall table, table ∈ L ->
     ids table ≡ₚ ids (take (S p) win) /\ length table = S p) /\
  (forall table, table ∈ R ->
     ids table ≡ₚ ids (drop (S p) win) /\ length table = (n - S p)%nat) /\
  NoDup (ids (take (S p) win)) /\ NoDup (ids (drop (S p) win)) /\
  length win = n /\ ids win ≡ₚ ids (at_table tables 0).
Proof.
  intros H0 Hf Hrows Hnd Hp win n L R.
  assert (Hwin : ids win ≡ₚ ids (at_table tables 0))
    by (apply Hrows, at_table_elem_of, Hf).
  assert (Hndw : NoDup (ids win)) by (rewrite Hwin; exact Hnd).
  assert (Hlen : length win = n) by (apply length_ids_perm, Hwin).
  assert (Hall : forall table, table ∈ tables -> ids table ≡ₚ ids win).
  { intros table Hin. rewrite Hwin. apply Hrows, Hin. }
  subst L R. rewrite splitAttributeTables_filter by exact Hndw.
  fold win. cbn [fst snd]. rewrite !length_fmap.
  split; [reflexivity|]. split; [reflexivity|].
  split.
  { intros table' Hin. apply list_elem_of_fmap in Hin as (table & -> & Hin).
    pose proof (ids_left win table p Hndw (Hall table Hin)) as Hl.
    split; [exact Hl|].
    rewrite <- (length_ids (filter _ table)), Hl, length_ids, length_take. lia. }
  split.
  { intros table' Hin. apply list_elem_of_fmap in Hin as (table & -> & Hin).
    pose proof (ids_right win table p Hndw (Hall table Hin)) as Hr.
    split; [exact Hr|].
    rewrite <- (length_ids (filter _ table)), Hr, length_ids, length_drop. lia. }
  split.
  { rewrite ids_take. eapply sublist_NoDup; [exact Hndw | apply sublist_take]. }
  split.
  { unfold ids. rewrite fmap_drop.
    eapply sublist_NoDup; [exact Hndw | apply sublist_drop]. }
  split; [exact Hlen | exact Hwin].
Qed.

Lemma elem_of_ids_take (table : AttributeTable) (k i : nat) :
  i ∈ ids (take k table) -> i ∈ ids table.
Proof.
  unfold ids. rewrite !list_elem_of_fmap. intros (a & -> & Ha).
  exists a. split; [reflexivity|].
  eapply elem_of_sublist; [exact Ha | apply sublist_take].
Qed.

Lemma elem_of_ids_drop (table : AttributeTable) (k i : nat) :
  i ∈ ids (drop k table) -> i ∈ ids table.
Proof.
  unfold ids. rewrite !list_elem_of_fmap. intros (a & -> & Ha).
  exists a. split; [reflexivity|].
  eapply elem_of_sublist; [exact Ha | apply sublist_drop].
Qed.

(** ** Classification: what a call hands to the calls it makes *)

Section NodeClassification.

Variable t : RFTrainer.
Variable rand : nat -> nat.
Variable dataset : ClassificationDataset.

(** An accepted split is one of the candidates. *)
Lemma decideSplit_candidate (tables : AttributeTables) (cAbove : ClassVector)
    (tableIndicies : list nat) (best : Best) :
  Z.of_nat (length (at_table tables 0)) < 2 ^ 32 ->
  decideSplit t dataset tables cAbove tableIndicies = Some best ->
  exists f i,
    f ∈ tableIndicies /\ (1 <= i <= length (at_table tables 0) - 1)%nat /\
    best = candidate t dataset tables cAbove (length (at_table tables 0)) (f, i).
Proof.
  intros Hn. unfold decideSplit. cbv zeta.
  set (n := length (at_table tables 0)) in *.
  destruct (Qeq_bool _ _ || _); [discriminate|].
  rewrite searchSplit_fold, pick_pick_by.
  destruct (fold_pick_by bestImpurity
              (List.map (candidate t dataset tables cAbove n)
                 (candidates tables n tableIndicies)) (initBest t n))
    as [[Heq _]|[_ (pre & post & Hcs & _)]].
  - rewrite Heq. cbn [initBest bestImpurity].
    rewrite usize_small by lia. rewrite inject_Z_plus.
    replace (Qlt_bool _ _) with false; [discriminate|].
    symmetry. apply Qlt_bool_false. apply Qle_refl.
  - set (b := fold_left _ _ _) in *. clearbody b.
    destruct (Qlt_bool _ _); [|discriminate]. intros [= <-].
    assert (Hin : b ∈ List.map (candidate t dataset tables cAbove n)
                        (candidates tables n tableIndicies)).
    { rewrite Hcs. apply elem_of_app. right. left. }
    apply list_elem_of_In, in_map_iff in Hin as ([f i] & <- & Hc).
    apply list_elem_of_In, elem_of_candidates in Hc as (Hf & Hi & _).
    exists f, i. auto.
Qed.

(** The calls made after an accepted split receive well-formed arguments. *)
Lemma split_children (tables : AttributeTables) (cAbove : ClassVector)
    (tableIndicies : list nat) (best : Best) :
  wf_node t dataset tables cAbove ->
  in_range t tableIndicies ->
  decideSplit t dataset tables cAbove tableIndicies = Some best ->
  let n := length (at_table tables 0) in
  let p := bestAttributeValIndex best in
  let L := fst (splitAttributeTables tables (bestAttributeIndex best) p) in
  let R := snd (splitAttributeTables tables (bestAttributeIndex best) p) in
  (p <= n - 2)%nat /\ (2 <= n)%nat /\
  (forall table, table ∈ L -> length table = (p + 1)%nat) /\
  (forall table, table ∈ R -> length table = (n - p - 1)%nat) /\
  wf_node t dataset L (cBestBelow best) /\
  wf_node t dataset R (cBestAbove best).
Proof.
  intros Hwf Hrange Hdec n p L R.
  destruct Hwf as [Hdim Hhas Hrows Hnd Hne Hbound Hlab Hcounts].
  destruct (decideSplit_candidate tables cAbove tableIndicies best Hbound Hdec)
    as (f & i & Hf & Hi & Hbest).
  fold n in Hi, Hbest, Hbound, Hne.
  assert (Hfd : (f < length tables)%nat) by (rewrite Hdim; apply Hrange, Hf).
  assert (Hattr : bestAttributeIndex best = f) by (rewrite Hbest; reflexivity).
  assert (Hp : p = (i - 1)%nat) by (unfold p; rewrite Hbest; reflexivity).
  assert (HSp : S p = i) by lia.
  subst L R. rewrite Hattr.
  destruct (split_tables tables f p Hhas Hfd Hrows Hnd ltac:(fold n; lia))
    as (HlenL & HlenR & HL & HR & HndL & HndR & Hlenw & Hwin).
  fold n in HR, Hlenw.
  set (win := at_table tables f) in *.
  set (L := fst (splitAttributeTables tables f p)) in *.
  set (R := snd (splitAttributeTables tables f p)) in *.
  assert (Hlabw : forall k, k ∈ ids win ->
                    (class_label dataset k <= m_maxLabel t)%nat).
  { intros k Hk. apply Hlab. rewrite <- Hwin. exact Hk. }
  assert (Hcw : cAbove = countsOf t dataset (ids win)).
  { rewrite Hcounts. apply countsOf_perm. symmetry. exact Hwin. }
  pose proof (countsAt_countsOf t dataset win cAbove i ltac:(lia) ltac:(lia)
                Hlabw Hcw) as Hcnt.
  assert (HcB : cBestBelow best = countsOf t dataset (ids (take (S p) win))).
  { rewrite Hbest. cbn [candidate cBestBelow]. fold win.
    rewrite Hcnt, HSp. reflexivity. }
  assert (HcA : cBestAbove best = countsOf t dataset (ids (drop (S p) win))).
  { rewrite Hbest. cbn [candidate cBestAbove]. fold win.
    rewrite Hcnt, HSp. reflexivity. }
  assert (H0L : at_table L 0 ∈ L) by (apply at_table_elem_of; lia).
  assert (H0R : at_table R 0 ∈ R) by (apply at_table_elem_of; lia).
  split; [lia|]. split; [lia|].
  split; [intros table Hin; rewrite (proj2 (HL table Hin)); lia|].
  split; [intros table Hin; rewrite (proj2 (HR table Hin)); lia|].
  split.
  - constructor.
    + rewrite HlenL. exact Hdim.
    + lia.
    + intros table Hin. rewrite (proj1 (HL table Hin)), (proj1 (HL _ H0L)).
      reflexivity.
    + rewrite (proj1 (HL _ H0L)). exact HndL.
    + rewrite (proj2 (HL _ H0L)). lia.
    + rewrite (proj2 (HL _ H0L)). lia.
    + intros k Hk. rewrite (proj1 (HL _ H0L)) in Hk.
      apply Hlabw. eapply elem_of_ids_take. exact Hk.
    + rewrite HcB. apply countsOf_perm. symmetry. apply (HL _ H0L).
  - constructor.
    + rewrite HlenR. exact Hdim.
    + lia.
    + intros table Hin. rewrite (proj1 (HR table Hin)), (proj1 (HR _ H0R)).
      reflexivity.
    + rewrite (proj1 (HR _ H0R)). exact HndR.
    + rewrite (proj2 (HR _ H0R)). lia.
    + rewrite (proj2 (HR _ H0R)). lia.
    + intros k Hk. rewrite (proj1 (HR _ H0R)) in Hk.
      apply Hlabw. eapply elem_of_ids_drop. exact Hk.
    + rewrite HcA. apply countsOf_perm. symmetry. apply (HR _ H0R).
Qed.

(** The histogram of a well-formed node is defined. *)
Lemma wf_node_hist (tables : AttributeTables) (cAbove : ClassVector) :
  wf_node t dataset tables cAbove ->
  totalCount cAbove = Z.of_nat (length (at_table tables 0)) /\
  returns (hist t cAbove).
Proof.
  intros [Hdim Hhas Hrows Hnd Hne Hbound Hlab Hcounts].
  assert (Htot : totalCount cAbove = Z.of_nat (length (at_table tables 0))).
  { rewrite Hcounts, totalCount_countsOf by exact Hlab. rewrite length_ids.
    reflexivity. }
  split; [exact Htot|].
  apply hist_returns; [rewrite Hcounts; apply countsOf_nonneg | lia].
Qed.

End NodeClassification.

Lemma generate_no_fail (t : RFTrainer) (rand : nat -> nat) (fuel pos : nat)
    (s : list nat) :
  m_inputDimension t <> 0%nat ->
  ~ fails (generateRandomTableIndicies t rand fuel pos s).
Proof.
  intros Hd. revert pos s. induction fuel as [|fuel IH]; intros pos s;
    rewrite generate_unfold;
    destruct (Z.of_nat (length s) <? m_try t); cbn; try tauto.
  destruct (Nat.eqb_spec (m_inputDimension t) 0); [contradiction|]. apply IH.
Qed.

Lemma generate_in_range (t : RFTrainer) (rand : nat -> nat) (fuel pos : nat)
    (s : list nat) (pos' : nat) :
  generateRandomTableIndicies t rand fuel pos [] = Ret (s, pos') ->
  in_range t s.
Proof.
  intros H. apply generate_sound in H as (_ & Hr & _); [exact Hr | constructor |].
  intros x Hx. inversion Hx.
Qed.

Lemma fails_bind {A B} (m : outcome A) (k : A -> outcome B) :
  ~ fails m -> (forall a, m = Ret a -> ~ fails (k a)) -> ~ fails (m ≫= k).
Proof.
  intros Hm Hk. destruct m; cbn in *; try tauto. apply Hk. reflexivity.
Qed.

Section CallsClassification.

Variable t : RFTrainer.
Variable rand : nat -> nat.
Variable dataset : ClassificationDataset.

Lemma leaf_no_fail (tables : AttributeTables) (cAbove : ClassVector)
    (rootId : Z) (pos : nat) :
  wf_node t dataset tables cAbove ->
  ~ fails (h ← hist t cAbove; Ret ([withLabel (newNode rootId) h], pos)).
Proof.
  intros Hwf. destruct (wf_node_hist t dataset tables cAbove Hwf) as [_ [h ->]].
  cbn. tauto.
Qed.

(** A call on well-formed arguments ends in a return or runs out of fuel. *)
Lemma buildTree_no_fail (fuel : nat) :
  forall tables cAbove rootId pos,
    wf_node t dataset tables cAbove ->
    ~ fails (buildTree t rand dataset fuel tables cAbove rootId pos).
Proof.
  induction fuel as [|fuel IH]; intros tables cAbove rootId pos Hwf;
    [cbn; tauto|].
  rewrite buildTree_unfold. cbv zeta.
  destruct (Qeq_bool _ _ || _); [apply (leaf_no_fail tables), Hwf|].
  apply fails_bind.
  { apply generate_no_fail. destruct Hwf as [Hdim Hhas]. lia. }
  intros [ti pos1] Hgen.
  destruct (decideSplit t dataset tables cAbove ti) as [best|] eqn:Hdec;
    [|apply (leaf_no_fail tables), Hwf].
  destruct (split_children t dataset tables cAbove ti best Hwf
              (generate_in_range t rand fuel pos ti pos1 Hgen) Hdec)
    as (_ & _ & _ & _ & HwfL & HwfR).
  apply fails_bind; [apply IH, HwfL|]. intros [lTree pos2] _.
  apply fails_bind; [apply IH, HwfR|]. intros [rTree pos3] _.
  cbn. tauto.
Qed.

(** Every call of the recursion receives well-formed arguments. *)
Lemma subcall_wf (c c' : AttributeTables * ClassVector) :
  subcall t rand dataset c c' ->
  wf_node t dataset c.1 c.2 -> wf_node t dataset c'.1 c'.2.
Proof.
  intros Hsub Hwf.
  destruct Hsub as [tables cAbove fuel pos ti pos' best Hgen Hdec
                   |tables cAbove fuel pos ti pos' best Hgen Hdec];
    cbn [fst snd] in *;
    destruct (split_children t dataset tables cAbove ti best Hwf
                (generate_in_range t rand fuel pos ti pos' Hgen) Hdec)
      as (_ & _ & _ & _ & HwfL & HwfR); assumption.
Qed.

Lemma reachable_wf (c c' : AttributeTables * ClassVector) :
  rtc (subcall t rand dataset) c c' ->
  wf_node t dataset c.1 c.2 -> wf_node t dataset c'.1 c'.2.
Proof.
  induction 1 as [|c1 c2 c3 Hstep _ IH]; intros Hwf; [exact Hwf|].
  apply IH. eapply subcall_wf; eassumption.
Qed.

End CallsClassification.

(** ** Regression: what a call hands to the calls it makes *)

Lemma Forall2_elem_of_r {A B} (P : A -> B -> Prop) (l : list A) (k : list B)
    (y : B) :
  Forall2 P l k -> y ∈ k -> exists x, x ∈ l /\ P x y.
Proof.
  induction 1 as [|x y' l k Hxy _ IH]; intros Hy; [inversion Hy|].
  apply elem_of_cons in Hy as [->|Hy].
  - exists x. split; [left | exact Hxy].
  - destruct (IH Hy) as (x' & Hx' & HP). exists x'. split; [right|]; assumption.
Qed.

Section CallsRegression.

Variable t : RFTrainer.
Variable rand : nat -> nat.
Variable dataset : RegressionDataset.

Lemma wf_nodeR_rows (tables : AttributeTables) (labels : list RealVector)
    (tableIndicies : list nat) :
  wf_nodeR t tables labels -> in_range t tableIndicies ->
  forall f, f ∈ tableIndicies ->
    (length (at_table tables 0) <= length (at_table tables f))%nat.
Proof.
  intros [Hdim Hhas Hrows Hnd Hne Hbound Hlab] Hrange f Hf.
  assert (Hfd : (f < length tables)%nat) by (rewrite Hdim; apply Hrange, Hf).
  rewrite (length_ids_perm _ _ (Hrows _ (at_table_elem_of tables f Hfd))).
  reflexivity.
Qed.

(** On well-formed arguments the search returns. *)
Lemma searchSplitR_returns (tables : AttributeTables) (labels : list RealVector)
    (tableIndicies : list nat) :
  wf_nodeR t tables labels -> in_range t tableIndicies ->
  exists best,
    searchSplitR t dataset tables (length (at_table tables 0)) tableIndicies
      = Ret best /\
    (doSplit best = true ->
     exists f i,
       f ∈ tableIndicies /\ (1 <= i <= length (at_table tables 0) - 1)%nat /\
       candidateR t dataset tables (length (at_table tables 0)) (f, i) = Ret best).
Proof.
  intros Hwf Hrange.
  pose proof (wf_nodeR_rows tables labels tableIndicies Hwf Hrange) as Hlen.
  destruct Hwf as [Hdim Hhas Hrows Hnd Hne Hbound Hlab].
  set (n := length (at_table tables 0)) in *.
  destruct (candidatesR_return t dataset tables n tableIndicies Hlen Hbound)
    as (recs & Hrecs & Hprops).
  exists (fold_left pickR recs initBestR).
  split; [apply searchSplitR_fold, Hrecs|].
  assert (Hnonneg : Forall (fun b => (0 <= r_bestImpurity b)%Q) recs).
  { eapply Forall_impl; [exact Hprops|]. intros b [H _]. exact H. }
  destruct (fold_pickR_sentinel recs Hnonneg) as [Hnil Hcons].
  set (b := fold_left pickR recs initBestR) in *. clearbody b.
  intros Hdo.
  destruct recs as [|r0 recs]; [rewrite Hnil in Hdo by reflexivity; discriminate Hdo|].
  destruct (Hcons ltac:(discriminate)) as (pre & post & Heq & _).
  assert (Hin : b ∈ r0 :: recs) by (rewrite Heq; apply elem_of_app; right; left).
  destruct (Forall2_elem_of_r _ _ _ _ Hrecs Hin) as ([f i] & Hc & Hb).
  apply elem_of_candidates in Hc as (Hf & Hi & _).
  exists f, i. auto.
Qed.

Lemma decideSplitR_candidate (tables : AttributeTables)
    (labels : list RealVector) (tableIndicies : list nat) (best : BestR) :
  wf_nodeR t tables labels -> in_range t tableIndicies ->
  decideSplitR t dataset tables tableIndicies = Some best ->
  exists f i,
    f ∈ tableIndicies /\ (1 <= i <= length (at_table tables 0) - 1)%nat /\
    candidateR t dataset tables (length (at_table tables 0)) (f, i) = Ret best.
Proof.
  intros Hwf Hrange. unfold decideSplitR. cbv zeta.
  destruct (_ <=? _); [discriminate|].
  destruct (searchSplitR_returns tables labels tableIndicies Hwf Hrange)
    as (b & -> & Hb).
  destruct (doSplit b) eqn:Hdo; [|discriminate].
  intros [= <-]. apply Hb. reflexivity.
Qed.

(** The calls made after an accepted split receive well-formed arguments. *)
Lemma split_childrenR (tables : AttributeTables) (labels : list RealVector)
    (tableIndicies : list nat) (best : BestR) :
  wf_nodeR t tables labels ->
  in_range t tableIndicies ->
  decideSplitR t dataset tables tableIndicies = Some best ->
  let n := length (at_table tables 0) in
  let p := r_bestAttributeValIndex best in
  let L := fst (splitAttributeTables tables (r_bestAttributeIndex best) p) in
  let R := snd (splitAttributeTables tables (r_bestAttributeIndex best) p) in
  let lLabels := take (p + 1) (bestLabels best) in
  let rLabels := drop (p + 1) (bestLabels best) in
  (p <= n - 2)%nat /\ (2 <= n)%nat /\
  (forall table, table ∈ L -> length table = (p + 1)%nat) /\
  (forall table, table ∈ R -> length table = (n - p - 1)%nat) /\
  length lLabels = (p + 1)%nat /\ length rLabels = (n - p - 1)%nat /\
  wf_nodeR t L lLabels /\ wf_nodeR t R rLabels.
Proof.
  intros Hwf Hrange Hdec n p L R lLabels rLabels.
  destruct (decideSplitR_candidate tables labels tableIndicies best Hwf Hrange Hdec)
    as (f & i & Hf & Hi & Hbest).
  destruct Hwf as [Hdim Hhas Hrows Hnd Hne Hbound Hlab].
  fold n in Hi, Hbest, Hbound, Hne.
  assert (Hfd : (f < length tables)%nat) by (rewrite Hdim; apply Hrange, Hf).
  assert (Hlenf : (n <= length (at_table tables f))%nat).
  { rewrite (length_ids_perm _ _ (Hrows _ (at_table_elem_of tables f Hfd))).
    reflexivity. }
  destruct (candidateR_returns t dataset tables n (f, i) Hi Hlenf Hbound)
    as (b & Hb & _ & _ & Hattr & Hval & _ & Hlabels).
  rewrite Hbest in Hb. injection Hb as <-. cbn [fst snd] in *.
  assert (HSp : S p = i) by (unfold p; lia).
  subst L R. rewrite Hattr.
  destruct (split_tables tables f p Hhas Hfd Hrows Hnd ltac:(fold n; lia))
    as (HlenL & HlenR & HL & HR & HndL & HndR & Hlenw & Hwin).
  fold n in HR, Hlenw.
  set (win := at_table tables f) in *.
  set (L := fst (splitAttributeTables tables f p)) in *.
  set (R := snd (splitAttributeTables tables f p)) in *.
  assert (H0L : at_table L 0 ∈ L) by (apply at_table_elem_of; lia).
  assert (H0R : at_table R 0 ∈ R) by (apply at_table_elem_of; lia).
  assert (HlL : length lLabels = (p + 1)%nat).
  { unfold lLabels. rewrite Hlabels, length_take, length_labelsOf. lia. }
  assert (HlR : length rLabels = (n - p - 1)%nat).
  { unfold rLabels. rewrite Hlabels, length_drop, length_labelsOf. lia. }
  split; [lia|]. split; [lia|].
  split; [intros table Hin; rewrite (proj2 (HL table Hin)); lia|].
  split; [intros table Hin; rewrite (proj2 (HR table Hin)); lia|].
  split; [exact HlL|]. split; [exact HlR|].
  split.
  - constructor.
    + rewrite HlenL. exact Hdim.
    + lia.
    + intros table Hin. rewrite (proj1 (HL table Hin)), (proj1 (HL _ H0L)).
      reflexivity.
    + rewrite (proj1 (HL _ H0L)). exact HndL.
    + rewrite (proj2 (HL _ H0L)). lia.
    + rewrite (proj2 (HL _ H0L)). lia.
    + rewrite HlL, (proj2 (HL _ H0L)). lia.
  - constructor.
    + rewrite HlenR. exact Hdim.
    + lia.
    + intros table Hin. rewrite (proj1 (HR table Hin)), (proj1 (HR _ H0R)).
      reflexivity.
    + rewrite (proj1 (HR _ H0R)). exact HndR.
    + rewrite (proj2 (HR _ H0R)). lia.
    + rewrite (proj2 (HR _ H0R)). lia.
    + rewrite HlR, (proj2 (HR _ H0R)). lia.
Qed.

(** The mean of the labels of a well-formed node is defined. *)
Lemma wf_nodeR_average (tables : AttributeTables) (labels : list RealVector) :
  wf_nodeR t tables labels -> labels <> [] /\ returns (average labels).
Proof.
  intros [Hdim Hhas Hrows Hnd Hne Hbound Hlab].
  destruct labels as [|l0 labels]; [cbn in Hlab; lia|].
  split; [discriminate|]. eexists. reflexivity.
Qed.

(** A call on well-formed arguments ends in a return or runs out of fuel. *)
Lemma buildTreeR_no_fail (fuel : nat) :
  forall tables labels rootId pos,
    wf_nodeR t tables labels ->
    ~ fails (buildTreeR t rand dataset fuel tables labels rootId pos).
Proof.
  induction fuel as [|fuel IH]; intros tables labels rootId pos Hwf;
    [cbn; tauto|].
  rewrite buildTreeR_unfold.
  destruct (wf_nodeR_average tables labels Hwf) as [_ [avg ->]].
  cbn [mbind outcome_bind]. cbv zeta.
  destruct (_ <=? _) eqn:Esize; [cbn; tauto|].
  apply fails_bind.
  { apply generate_no_fail. destruct Hwf as [Hdim Hhas]. lia. }
  intros [ti pos1] Hgen.
  pose proof (generate_in_range t rand fuel pos ti pos1 Hgen) as Hrange.
  destruct (searchSplitR_returns tables labels ti Hwf Hrange) as (best & Hs & _).
  rewrite Hs. cbn [mbind outcome_bind].
  destruct (doSplit best) eqn:Hdo; [|cbn; tauto].
  assert (Hdec : decideSplitR t dataset tables ti = Some best).
  { unfold decideSplitR. cbv zeta. rewrite Esize, Hs, Hdo. reflexivity. }
  destruct (split_childrenR tables labels ti best Hwf Hrange Hdec)
    as (_ & _ & _ & _ & _ & _ & HwfL & HwfR).
  apply fails_bind; [apply IH, HwfL|]. intros [lTree pos2] _.
  apply fails_bind; [apply IH, HwfR|]. intros [rTree pos3] _.
  cbn. tauto.
Qed.

Lemma subcallR_wf (c c' : AttributeTables * list RealVector) :
  subcallR t rand dataset c c' ->
  wf_nodeR t c.1 c.2 -> wf_nodeR t c'.1 c'.2.
Proof.
  intros Hsub Hwf.
  destruct Hsub as [tables labels fuel pos ti pos' best Hgen Hdec
                   |tables labels fuel pos ti pos' best Hgen Hdec];
    cbn [fst snd] in *;
    destruct (split_childrenR tables labels ti best Hwf
                (generate_in_range t rand fuel pos ti pos' Hgen) Hdec)
      as (_ & _ & _ & _ & _ & _ & HwfL & HwfR); assumption.
Qed.

Lemma reachableR_wf (c c' : AttributeTables * list RealVector) :
  rtc (subcallR t rand dataset) c c' ->
  wf_nodeR t c.1 c.2 -> wf_nodeR t c'.1 c'.2.
Proof.
  induction 1 as [|c1 c2 c3 Hstep _ IH]; intros Hwf; [exact Hwf|].
  apply IH. eapply subcallR_wf; eassumption.
Qed.

End CallsRegression.

(** ** The root call made by train *)

Lemma fold_left_snoc {A B} (f : A -> B) (l : list A) (init : list B) :
  fold_left (fun acc x => acc ++ [f x]) l init = init ++ (f <$> l).
Proof.
  revert init. induction l as [|x l IH]; intros init; cbn [fold_left].
  - rewrite fmap_nil, app_nil_r. reflexivity.
  - rewrite IH, fmap_cons, <- app_assoc. reflexivity.
Qed.

Section Root.

Variable t : RFTrainer.
Variable std_sort :
  (RFAttribute -> RFAttribute -> bool) -> AttributeTable -> AttributeTable.
Hypothesis std_sort_perm : forall cmp table, std_sort cmp table ≡ₚ table.

Lemma createAttributeTables_map (inputs : list RealVector) :
  createAttributeTables t std_sort inputs =
  (fun j =>
     std_sort tableSort
       ((fun i => mkRFAttribute (nth j (nth i inputs []) 0%Q) i)
          <$> seq 0 (length inputs)))
    <$> seq 0 (m_inputDimension t).
Proof.
  unfold createAttributeTables. cbv zeta.
  rewrite (fold_left_snoc
             (fun j => std_sort tableSort
                (fold_left
                   (fun table i =>
                      table ++ [mkRFAttribute (nth j (nth i inputs []) 0%Q) i])
                   (seq 0 (length inputs)) []))).
  cbn [app]. apply list_fmap_ext. intros _ j _.
  rewrite (fold_left_snoc (fun i => mkRFAttribute (nth j (nth i inputs []) 0%Q) i)).
  reflexivity.
Qed.

Lemma createAttributeTables_rows (inputs : list RealVector)
    (table : AttributeTable) :
  table ∈ createAttributeTables t std_sort inputs ->
  ids table ≡ₚ seq 0 (length inputs).
Proof.
  rewrite createAttributeTables_map. intros Hin.
  apply list_elem_of_fmap in Hin as (j & -> & _).
  unfold ids. rewrite std_sort_perm, <- list_fmap_compose.
  rewrite (list_fmap_ext _ (fun i => i) (seq 0 (length inputs)))
    by (intros; reflexivity).
  rewrite list_fmap_id. reflexivity.
Qed.

Lemma length_createAttributeTables (inputs : list RealVector) :
  length (createAttributeTables t std_sort inputs) = m_inputDimension t.
Proof. rewrite createAttributeTables_map, length_fmap, length_seq. reflexivity. Qed.

Lemma createCountVector_countsOf (dataset : ClassificationDataset) :
  Z.of_nat (length dataset) < 2 ^ 32 ->
  (forall i, (i < length dataset)%nat ->
             (class_label dataset i <= m_maxLabel t)%nat) ->
  createCountVector t dataset = countsOf t dataset (seq 0 (length dataset)).
Proof.
  intros Hlen Hlab. unfold createCountVector. rewrite <- countsOf_nil with (dataset := dataset).
  assert (H : forall l acc,
            (forall i, i ∈ l -> (class_label dataset i <= m_maxLabel t)%nat) ->
            Z.of_nat (length acc + length l) < 2 ^ 32 ->
            fold_left (fun cAbove i => incr cAbove (class_label dataset i)) l
              (countsOf t dataset acc)
            = countsOf t dataset (rev l ++ acc)).
  { induction l as [|i l IH]; intros acc Hl Hb; [reflexivity|].
    cbn [fold_left rev]. rewrite incr_countsOf;
      [|apply Hl; left | cbn [length] in Hb; lia].
    rewrite IH; [|intros k Hk; apply Hl; right; exact Hk | cbn [length] in *; lia].
    rewrite <- app_assoc. reflexivity. }
  rewrite H.
  - apply countsOf_perm. rewrite app_nil_r. symmetry. apply Permutation_rev.
  - intros i Hi. apply Hlab. apply elem_of_seq in Hi. lia.
  - rewrite length_seq. cbn [length]. lia.
Qed.

(** The arguments of the classification root call are well formed. *)
Lemma train_root_wf (dataTrain : ClassificationDataset) :
  (0 < m_inputDimension t)%nat ->
  (1 <= length dataTrain)%nat -> Z.of_nat (length dataTrain) < 2 ^ 32 ->
  (forall i, (i < length dataTrain)%nat ->
             (class_label dataTrain i <= m_maxLabel t)%nat) ->
  wf_node t dataTrain (createAttributeTables t std_sort (fst <$> dataTrain))
    (createCountVector t dataTrain).
Proof.
  intros Hd Hn Hb Hlab.
  set (tables := createAttributeTables t std_sort (fst <$> dataTrain)).
  assert (Hlen : length tables = m_inputDimension t)
    by apply length_createAttributeTables.
  assert (Hrows : forall table, table ∈ tables ->
                    ids table ≡ₚ seq 0 (length dataTrain)).
  { intros table Hin. rewrite (createAttributeTables_rows _ table Hin).
    rewrite length_fmap. reflexivity. }
  assert (H0 : at_table tables 0 ∈ tables) by (apply at_table_elem_of; lia).
  pose proof (Hrows _ H0) as Hrow0.
  constructor.
  - exact Hlen.
  - lia.
  - intros table Hin. rewrite (Hrows table Hin), Hrow0. reflexivity.
  - rewrite Hrow0. apply NoDup_seq.
  - rewrite <- length_ids, Hrow0, length_seq. exact Hn.
  - rewrite <- length_ids, Hrow0, length_seq. exact Hb.
  - intros i Hi. rewrite Hrow0 in Hi. apply elem_of_seq in Hi. apply Hlab. lia.
  - rewrite createCountVector_countsOf by assumption.
    apply countsOf_perm. symmetry. exact Hrow0.
Qed.

(** The arguments of the regression root call are well formed. *)
Lemma train_root_wfR (dataTrain : RegressionDataset) :
  (0 < m_inputDimension t)%nat ->
  (1 <= length dataTrain)%nat -> Z.of_nat (length dataTrain) < 2 ^ 64 ->
  wf_nodeR t (createAttributeTables t std_sort (fst <$> dataTrain))
    (fold_left (fun labels i => labels ++ [regr_label dataTrain i])
       (seq 0 (length dataTrain)) []).
Proof.
  intros Hd Hn Hb.
  set (tables := createAttributeTables t std_sort (fst <$> dataTrain)).
  assert (Hlen : length tables = m_inputDimension t)
    by apply length_createAttributeTables.
  assert (Hrows : forall table, table ∈ tables ->
                    ids table ≡ₚ seq 0 (length dataTrain)).
  { intros table Hin. rewrite (createAttributeTables_rows _ table Hin).
    rewrite length_fmap. reflexivity. }
  assert (H0 : at_table tables 0 ∈ tables) by (apply at_table_elem_of; lia).
  pose proof (Hrows _ H0) as Hrow0.
  constructor.
  - exact Hlen.
  - lia.
  - intros table Hin. rewrite (Hrows table Hin), Hrow0. reflexivity.
  - rewrite Hrow0. apply NoDup_seq.
  - rewrite <- length_ids, Hrow0, length_seq. exact Hn.
  - rewrite <- length_ids, Hrow0, length_seq. exact Hb.
  - rewrite (fold_left_snoc (regr_label dataTrain)). cbn [app].
    rewrite length_fmap, length_seq, <- length_ids, Hrow0, length_seq.
    reflexivity.
Qed.

End Root.

(** C10. From a root call on well-formed, non-empty tables (the arguments
    that [train] passes), every call that the recursion reaches has at
    least one row; a split that it accepts at position [p] has
    [0 <= p <= n-2], its left tables have [p+1 >= 1] rows and its right
    tables [n-p-1 >= 1] rows; the count vector handed to [hist] sums to the
    number of rows and is never all zero, the labels handed to [average]
    are never empty, and no call ends in a division by zero, an exception or
    a trap: it returns or is still running.  This holds in particular for
    the root calls of [train] on a bag of at least one row, with at least
    one attribute and labels below the number of classes. *)
Theorem buildTree_calls_nonempty (t : RFTrainer) (rand : nat -> nat) :
  (forall (dataset : ClassificationDataset) (tables : AttributeTables)
          (cAbove : ClassVector),
     wf_node t dataset tables cAbove ->
     (forall c, rtc (subcall t rand dataset) (tables, cAbove) c ->
        let n := length (at_table c.1 0) in
        (1 <= n)%nat /\
        totalCount c.2 = Z.of_nat n /\ totalCount c.2 <> 0 /\
        returns (hist t c.2) /\
        forall fuel pos tableIndicies pos' best,
          generateRandomTableIndicies t rand fuel pos [] = Ret (tableIndicies, pos') ->
          decideSplit t dataset c.1 c.2 tableIndicies = Some best ->
          let p := bestAttributeValIndex best in
          let split := splitAttributeTables c.1 (bestAttributeIndex best) p in
          (p <= n - 2)%nat /\
          (forall table, table ∈ split.1 ->
             length table = (p + 1)%nat /\ (1 <= length table)%nat) /\
          (forall table, table ∈ split.2 ->
             length table = (n - p - 1)%nat /\ (1 <= length table)%nat)) /\
     (forall fuel rootId pos,
        ~ fails (buildTree t rand dataset fuel tables cAbove rootId pos))) /\
  (forall (dataset : RegressionDataset) (tables : AttributeTables)
          (labels : list RealVector),
     wf_nodeR t tables labels ->
     (forall c, rtc (subcallR t rand dataset) (tables, labels) c ->
        let n := length (at_table c.1 0) in
        (1 <= n)%nat /\
        length c.2 = n /\ c.2 <> [] /\
        returns (average c.2) /\
        forall fuel pos tableIndicies pos' best,
          generateRandomTableIndicies t rand fuel pos [] = Ret (tableIndicies, pos') ->
          decideSplitR t dataset c.1 tableIndicies = Some best ->
          let p := r_bestAttributeValIndex best in
          let split := splitAttributeTables c.1 (r_bestAttributeIndex best) p in
          (p <= n - 2)%nat /\
          (forall table, table ∈ split.1 ->
             length table = (p + 1)%nat /\ (1 <= length table)%nat) /\
          (forall table, table ∈ split.2 ->
             length table = (n - p - 1)%nat /\ (1 <= length table)%nat)) /\
     (forall fuel rootId pos,
        ~ fails (buildTreeR t rand dataset fuel tables labels rootId pos))) /\
  (forall std_sort, (forall cmp table, std_sort cmp table ≡ₚ table) ->
     (0 < m_inputDimension t)%nat ->
     (forall (dataTrain : ClassificationDataset) fuel pos,
        (1 <= length dataTrain)%nat -> Z.of_nat (length dataTrain) < 2 ^ 32 ->
        (forall i, (i < length dataTrain)%nat ->
                   (class_label dataTrain i <= m_maxLabel t)%nat) ->
        ~ fails (trainTree t rand std_sort dataTrain fuel pos)) /\
     (forall (dataTrain : RegressionDataset) fuel pos,
        (1 <= length dataTrain)%nat -> Z.of_nat (length dataTrain) < 2 ^ 64 ->
        ~ fails (trainTreeR t rand std_sort dataTrain fuel pos))).
Proof.
  split; [|split].
  3:{ intros std_sort Hsort Hd. split.
      - intros dataTrain fuel pos Hn Hb Hlab. unfold trainTree.
        apply buildTree_no_fail, train_root_wf; assumption.
      - intros dataTrain fuel pos Hn Hb. unfold trainTreeR.
        apply buildTreeR_no_fail, train_root_wfR; assumption. }
  - intros dataset tables cAbove Hwf. split.
    + intros c Hreach n.
      pose proof (reachable_wf t rand dataset _ _ Hreach Hwf) as Hc.
      cbn [fst snd] in Hc.
      destruct (wf_node_hist t dataset _ _ Hc) as [Htot Hhist].
      pose proof (wf_nonempty _ _ _ _ Hc) as Hne. fold n in Hne, Htot.
      split; [exact Hne|]. split; [exact Htot|]. split; [lia|].
      split; [exact Hhist|].
      intros fuel pos ti pos' best Hgen Hdec p split.
      destruct (split_children t dataset _ _ ti best Hc
                  (generate_in_range t rand fuel pos ti pos' Hgen) Hdec)
        as (Hp & Hn2 & HL & HR & _ & _).
      fold n in Hp, Hn2, HR. fold p in Hp, HL, HR.
      split; [exact Hp|]. split.
      * intros table Hin. rewrite (HL table Hin). lia.
      * intros table Hin. rewrite (HR table Hin). lia.
    + intros fuel rootId pos. apply buildTree_no_fail, Hwf.
  - intros dataset tables labels Hwf. split.
    + intros c Hreach n.
      pose proof (reachableR_wf t rand dataset _ _ Hreach Hwf) as Hc.
      cbn [fst snd] in Hc.
      destruct (wf_nodeR_average t _ _ Hc) as [Hnil Havg].
      pose proof (wfR_nonempty _ _ _ Hc) as Hne.
      pose proof (wfR_labels _ _ _ Hc) as Hlab. fold n in Hne, Hlab.
      split; [exact Hne|]. split; [exact Hlab|]. split; [exact Hnil|].
      split; [exact Havg|].
      intros fuel pos ti pos' best Hgen Hdec p split.
      destruct (split_childrenR t dataset _ _ ti best Hc
                  (generate_in_range t rand fuel pos ti pos' Hgen) Hdec)
        as (Hp & Hn2 & HL & HR & _).
      fold n in Hp, Hn2, HR. fold p in Hp, HL, HR.
      split; [exact Hp|]. split.
      * intros table Hin. rewrite (HL table Hin). lia.
      * intros table Hin. rewrite (HR table Hin). lia.
    + intros fuel rootId pos. apply buildTreeR_no_fail, Hwf.
Qed.

(** ** Enough fuel: the tree builder returns *)

Section Fuel.

Variable t : RFTrainer.
Variable rand : nat -> nat.

Lemma generate_fuel_mono (fuel fuel' pos : nat) (s : list nat)
    (x : list nat * nat) :
  (fuel <= fuel')%nat ->
  generateRandomTableIndicies t rand fuel pos s = Ret x ->
  generateRandomTableIndicies t rand fuel' pos s = Ret x.
Proof.
  revert fuel' pos s. induction fuel as [|fuel IH]; intros fuel' pos s Hle;
    rewrite (generate_unfold t rand fuel' pos s);
    [rewrite (generate_unfold t rand 0 pos s)
    |rewrite (generate_unfold t rand (S fuel) pos s)];
    destruct (Z.of_nat (length s) <? m_try t); try discriminate; try tauto.
  destruct fuel' as [|fuel']; [lia|].
  destruct (m_inputDimension t =? 0)%nat; [tauto|].
  apply IH. lia.
Qed.

Lemma buildTree_fuel_mono (dataset : ClassificationDataset) (fuel : nat) :
  forall fuel' tables cAbove rootId pos x,
    (fuel <= fuel')%nat ->
    buildTree t rand dataset fuel tables cAbove rootId pos = Ret x ->
    buildTree t rand dataset fuel' tables cAbove rootId pos = Ret x.
Proof.
  induction fuel as [|fuel IH]; intros fuel' tables cAbove rootId pos x Hle H;
    [discriminate H|].
  destruct fuel' as [|fuel']; [lia|].
  rewrite buildTree_unfold in *. cbv zeta in *.
  destruct (Qeq_bool _ _ || _); [exact H|].
  apply bind_Ret_inv in H as ([ti pos1] & Hgen & H).
  rewrite (generate_fuel_mono fuel fuel' pos [] (ti, pos1) ltac:(lia) Hgen).
  cbn [mbind outcome_bind].
  destruct (decideSplit t dataset tables cAbove ti) as [best|]; [|exact H].
  apply bind_Ret_inv in H as ([lTree pos2] & Hl & H).
  apply bind_Ret_inv in H as ([rTree pos3] & Hr & H).
  rewrite (IH fuel' _ _ _ _ _ ltac:(lia) Hl). cbn [mbind outcome_bind].
  rewrite (IH fuel' _ _ _ _ _ ltac:(lia) Hr). cbn [mbind outcome_bind].
  exact H.
Qed.

Lemma buildTreeR_fuel_mono (dataset : RegressionDataset) (fuel : nat) :
  forall fuel' tables labels rootId pos x,
    (fuel <= fuel')%nat ->
    buildTreeR t rand dataset fuel tables labels rootId pos = Ret x ->
    buildTreeR t rand dataset fuel' tables labels rootId pos = Ret x.
Proof.
  induction fuel as [|fuel IH]; intros fuel' tables labels rootId pos x Hle H;
    [discriminate H|].
  destruct fuel' as [|fuel']; [lia|].
  rewrite buildTreeR_unfold in *.
  apply bind_Ret_inv in H as (avg & -> & H). cbn [mbind outcome_bind].
  cbv zeta in *.
  destruct (_ <=? _); [exact H|].
  apply bind_Ret_inv in H as ([ti pos1] & Hgen & H).
  rewrite (generate_fuel_mono fuel fuel' pos [] (ti, pos1) ltac:(lia) Hgen).
  cbn [mbind outcome_bind].
  apply bind_Ret_inv in H as (best & -> & H). cbn [mbind outcome_bind].
  destruct (doSplit best); [|exact H].
  apply bind_Ret_inv in H as ([lTree pos2] & Hl & H).
  apply bind_Ret_inv in H as ([rTree pos3] & Hr & H).
  rewrite (IH fuel' _ _ _ _ _ ltac:(lia) Hl). cbn [mbind outcome_bind].
  rewrite (IH fuel' _ _ _ _ _ ltac:(lia) Hr). cbn [mbind outcome_bind].
  exact H.
Qed.

Hypothesis Hfair : fair_draws t rand.

Lemma generate_returns (pos : nat) :
  m_inputDimension t <> 0%nat ->
  exists fuel ti pos',
    generateRandomTableIndicies t rand fuel pos [] = Ret (ti, pos').
Proof.
  intros Hd. destruct (Hfair pos) as [k Hk].
  destruct (generate_fair t rand k pos [] Hd Hk) as [[ti pos'] H].
  exists k, ti, pos'. exact H.
Qed.

(** With varied enough random numbers, the classification builder returns
    on well-formed arguments once the fuel suffices. *)
Lemma buildTree_returns (dataset : ClassificationDataset) (n : nat) :
  forall tables cAbove rootId pos,
    wf_node t dataset tables cAbove ->
    length (at_table tables 0) = n ->
    exists fuel, returns (buildTree t rand dataset fuel tables cAbove rootId pos).
Proof.
  induction n as [n IH] using lt_wf_ind.
  intros tables cAbove rootId pos Hwf Hn.
  destruct (wf_node_hist t dataset tables cAbove Hwf) as [_ [h Hh]].
  destruct (Qeq_bool (gini cAbove (Z.of_nat (length (at_table tables 0)))) 0
            || (Z.of_nat (length (at_table tables 0)) <=? m_nodeSize t)) eqn:E.
  { exists 1%nat. rewrite buildTree_unfold. cbv zeta. rewrite E, Hh.
    eexists. reflexivity. }
  destruct (generate_returns pos) as (k & ti & pos1 & Hgen).
  { destruct Hwf as [Hdim Hhas]. lia. }
  destruct (decideSplit t dataset tables cAbove ti) as [best|] eqn:Hdec.
  - destruct (split_children t dataset tables cAbove ti best Hwf
                (generate_in_range t rand k pos ti pos1 Hgen) Hdec)
      as (Hp & Hn2 & HL & HR & HwfL & HwfR).
    set (L := fst (splitAttributeTables tables _ _)) in *.
    set (R := snd (splitAttributeTables tables _ _)) in *.
    assert (H0L : at_table L 0 ∈ L).
    { apply at_table_elem_of. destruct HwfL as [_ Hhas]. exact Hhas. }
    assert (H0R : at_table R 0 ∈ R).
    { apply at_table_elem_of. destruct HwfR as [_ Hhas]. exact Hhas. }
    destruct (IH (length (at_table L 0)) ltac:(rewrite (HL _ H0L); lia)
                L (cBestBelow best)
                (leftNodeId (withSplit (newNode rootId) (bestAttributeIndex best)
                               (bestAttributeVal best)))
                pos1 HwfL eq_refl) as (f1 & [lTree pos2] & Hl).
    destruct (IH (length (at_table R 0)) ltac:(rewrite (HR _ H0R); lia)
                R (cBestAbove best)
                (rightNodeId (withSplit (newNode rootId) (bestAttributeIndex best)
                                (bestAttributeVal best)))
                pos2 HwfR eq_refl) as (f2 & [rTree pos3] & Hr).
    exists (S (Nat.max k (Nat.max f1 f2))).
    rewrite buildTree_unfold. cbv zeta. rewrite E.
    rewrite (generate_fuel_mono k (Nat.max k (Nat.max f1 f2)) pos [] (ti, pos1)
               ltac:(lia) Hgen).
    cbn [mbind outcome_bind]. rewrite Hdec.
    fold L R.
    rewrite (buildTree_fuel_mono dataset f1 (Nat.max k (Nat.max f1 f2))
               _ _ _ _ _ ltac:(lia) Hl).
    cbn [mbind outcome_bind].
    rewrite (buildTree_fuel_mono dataset f2 (Nat.max k (Nat.max f1 f2))
               _ _ _ _ _ ltac:(lia) Hr).
    cbn [mbind outcome_bind]. eexists. reflexivity.
  - exists (S k). rewrite buildTree_unfold. cbv zeta. rewrite E, Hgen.
    cbn [mbind outcome_bind]. rewrite Hdec, Hh. eexists. reflexivity.
Qed.

(** The same for the regression builder. *)
Lemma buildTreeR_returns (dataset : RegressionDataset) (n : nat) :
  forall tables labels rootId pos,
    wf_nodeR t tables labels ->
    length (at_table tables 0) = n ->
    exists fuel, returns (buildTreeR t rand dataset fuel tables labels rootId pos).
Proof.
  induction n as [n IH] using lt_wf_ind.
  intros tables labels rootId pos Hwf Hn.
  destruct (wf_nodeR_average t tables labels Hwf) as [_ [avg Havg]].
  destruct (Z.of_nat (length (at_table tables 0)) <=? m_nodeSize t) eqn:E.
  { exists 1%nat. rewrite buildTreeR_unfold, Havg. cbn [mbind outcome_bind].
    cbv zeta. rewrite E. eexists. reflexivity. }
  destruct (generate_returns pos) as (k & ti & pos1 & Hgen).
  { destruct Hwf as [Hdim Hhas]. lia. }
  pose proof (generate_in_range t rand k pos ti pos1 Hgen) as Hrange.
  destruct (searchSplitR_returns t dataset tables labels ti Hwf Hrange)
    as (best & Hs & _).
  destruct (doSplit best) eqn:Hdo.
  - assert (Hdec : decideSplitR t dataset tables ti = Some best).
    { unfold decideSplitR. cbv zeta. rewrite E, Hs, Hdo. reflexivity. }
    destruct (split_childrenR t dataset tables labels ti best Hwf Hrange Hdec)
      as (Hp & Hn2 & HL & HR & _ & _ & HwfL & HwfR).
    set (L := fst (splitAttributeTables tables _ _)) in *.
    set (R := snd (splitAttributeTables tables _ _)) in *.
    assert (H0L : at_table L 0 ∈ L).
    { apply at_table_elem_of. destruct HwfL as [_ Hhas]. exact Hhas. }
    assert (H0R : at_table R 0 ∈ R).
    { apply at_table_elem_of. destruct HwfR as [_ Hhas]. exact Hhas. }
    destruct (IH (length (at_table L 0)) ltac:(rewrite (HL _ H0L); lia)
                L _
                (leftNodeId (withSplit (withLabel (newNode rootId) avg)
                               (r_bestAttributeIndex best)
                               (r_bestAttributeVal best)))
                pos1 HwfL eq_refl) as (f1 & [lTree pos2] & Hl).
    destruct (IH (length (at_table R 0)) ltac:(rewrite (HR _ H0R); lia)
                R _
                (rightNodeId (withSplit (withLabel (newNode rootId) avg)
                                (r_bestAttributeIndex best)
                                (r_bestAttributeVal best)))
                pos2 HwfR eq_refl) as (f2 & [rTree pos3] & Hr).
    exists (S (Nat.max k (Nat.max f1 f2))).
    rewrite buildTreeR_unfold, Havg. cbn [mbind outcome_bind]. cbv zeta.
    rewrite E.
    rewrite (generate_fuel_mono k (Nat.max k (Nat.max f1 f2)) pos [] (ti, pos1)
               ltac:(lia) Hgen).
    cbn [mbind outcome_bind]. rewrite Hs. cbn [mbind outcome_bind].
    rewrite Hdo. fold L R.
    rewrite (buildTreeR_fuel_mono dataset f1 (Nat.max k (Nat.max f1 f2))
               _ _ _ _ _ ltac:(lia) Hl).
    cbn [mbind outcome_bind].
    rewrite (buildTreeR_fuel_mono dataset f2 (Nat.max k (Nat.max f1 f2))
               _ _ _ _ _ ltac:(lia) Hr).
    cbn [mbind outcome_bind]. eexists. reflexivity.
  - exists (S k). rewrite buildTreeR_unfold, Havg. cbn [mbind outcome_bind].
    cbv zeta. rewrite E, Hgen. cbn [mbind outcome_bind].
    rewrite Hs. cbn [mbind outcome_bind]. rewrite Hdo. eexists. reflexivity.
Qed.

End Fuel.


(** ** The small run *)


Lemma example_wf :
  wf_node Example.trainer Example.data Example.tables Example.counts.
Proof.
  apply train_root_wf.
  - intros cmp table. reflexivity.
  - cbn. lia.
  - cbn. lia.
  - cbn. lia.
  - intros i Hi. cbn in Hi.
    destruct i as [|[|[|[|i]]]]; cbn; lia.
Qed.

Lemma example_wfR :
  wf_nodeR Example.trainer Example.tables Example.labels.
Proof.
  apply (train_root_wfR Example.trainer Example.sorted_already
           ltac:(intros cmp table; reflexivity) Example.dataR);
    cbn; lia.
Qed.


Lemma searchSplit_first_lowest_witness :
  let cs := candidates Example.tables8 8 [0; 1]%nat in
  let cand :=
    candidate Example.trainer8 Example.data8 Example.tables8 Example.counts8 8 in
  let best :=
    searchSplit Example.trainer8 Example.data8 Example.tables8 Example.counts8
      8 [0; 1]%nat in
  cs = [(0, 1); (0, 2); (0, 3); (0, 4); (0, 5); (0, 6); (0, 7);
        (1, 1); (1, 2); (1, 3); (1, 4); (1, 5); (1, 6); (1, 7)]%nat /\
  first_lowest bestImpurity (List.map cand cs) best /\
  best = cand (0, 6)%nat /\
  bestAttributeIndex best = 0%nat /\ bestAttributeValIndex best = 5%nat /\
  bestImpurity best = (6004799503160661 # 2251799813685248)%Q /\
  bestImpurity (cand (0, 2)%nat) = (3002399751580331 # 1125899906842624)%Q /\
  (bestImpurity best < bestImpurity (cand (0, 2)%nat))%Q /\
  (2 * gini [1; 1]%Z 2%Z + 6 * gini [5; 1]%Z 6%Z == 8 # 3)%Q /\
  (6 * gini [4; 2]%Z 6%Z + 2 * gini [2; 0]%Z 2%Z == 8 # 3)%Q /\
  bestImpurity (cand (1, 6)%nat) = bestImpurity best /\
  (exists recs bestR,
     Forall2
       (fun c b =>
          candidateR Example.trainer8 Example.dataR8 Example.tables8 8 c = Ret b)
       cs recs /\
     searchSplitR Example.trainer8 Example.dataR8 Example.tables8 8 [0; 1]%nat
       = Ret bestR /\
     first_lowest r_bestImpurity recs bestR /\ doSplit bestR = true /\
     r_bestAttributeIndex bestR = 0%nat /\
     r_bestAttributeValIndex bestR = 3%nat /\
     r_bestImpurity bestR = (3 # 4)%Q /\
     exists earlier later,
       candidateR Example.trainer8 Example.dataR8 Example.tables8 8 (0, 2)%nat
         = Ret earlier /\
       r_bestImpurity earlier = (6755399441055745 # 9007199254740992)%Q /\
       candidateR Example.trainer8 Example.dataR8 Example.tables8 8 (1, 4)%nat
         = Ret later /\
       r_bestImpurity later = (3 # 4)%Q).
Proof.
  pose proof (searchSplit_first_lowest Example.trainer8 Example.tables8 8
                [0; 1]%nat) as (_ & _ & Hc & Hr).
  assert (Hcs : candidates Example.tables8 8 [0; 1]%nat <> [])
    by (vm_compute; discriminate).
  split; [vm_compute; reflexivity|].
  split; [apply (Hc Example.data8 Example.counts8 ltac:(cbn; lia)), Hcs|].
  split; [vm_compute; reflexivity|].
  split; [vm_compute; reflexivity|].
  split; [vm_compute; reflexivity|].
  split; [vm_compute; reflexivity|].
  split; [vm_compute; reflexivity|].
  split; [vm_compute; reflexivity|].
  split; [vm_compute; reflexivity|].
  split; [vm_compute; reflexivity|].
  split; [vm_compute; reflexivity|].
  destruct (Hr Example.dataR8) as (_ & _ & recs & best & Hrecs & Hs & _ & Hfirst).
  - intros f Hf. rewrite !elem_of_cons, elem_of_nil in Hf.
    destruct Hf as [->|[->|[]]]; cbn; lia.
  - cbn. lia.
  - exists recs, best.
    destruct (Hfirst Hcs) as [Hfl Hdo].
    split; [exact Hrecs|]. split; [exact Hs|]. split; [exact Hfl|].
    split; [exact Hdo|].
    assert (E : exists b,
              searchSplitR Example.trainer8 Example.dataR8 Example.tables8 8
                [0; 1]%nat = Ret b /\
              r_bestAttributeIndex b = 0%nat /\
              r_bestAttributeValIndex b = 3%nat /\
              r_bestImpurity b = (3 # 4)%Q).
    { vm_compute. eexists. split; [reflexivity|]. repeat split. }
    destruct E as (b & Hb & E1 & E2 & E3).
    rewrite Hs in Hb. injection Hb as <-.
    split; [exact E1|]. split; [exact E2|]. split; [exact E3|].
    vm_compute. eexists. eexists. repeat split.
Defined.

Lemma splitAttributeTables_spec_witness :
  length (fst (splitAttributeTables Example.example_split 0 0)) = 2%nat /\
  exists l r,
    fst (splitAttributeTables Example.example_split 0 0) !! 1%nat = Some l /\
    snd (splitAttributeTables Example.example_split 0 0) !! 1%nat = Some r /\
    (length l + length r = 3)%nat /\ sorted_table l /\ sorted_table r /\
    length l = 1%nat.
Proof.
  pose proof (splitAttributeTables_spec Example.example_split 0 0
                [mkRFAttribute 0%Q 0; mkRFAttribute 1%Q 1; mkRFAttribute 2%Q 2]%nat
                eq_refl) as H.
  destruct H as (HL & _ & H).
  - cbn. repeat constructor; rewrite ?elem_of_cons, ?elem_of_nil; lia.
  - intros table Hin. unfold Example.example_split in Hin.
    rewrite !elem_of_cons, elem_of_nil in Hin.
    destruct Hin as [->|[->|[]]]; cbn; [reflexivity | apply perm_swap].
  - intros table Hin. unfold Example.example_split in Hin.
    rewrite !elem_of_cons, elem_of_nil in Hin.
    destruct Hin as [->|[->|[]]]; unfold sorted_table;
      repeat constructor; cbn; unfold Qle; cbn; lia.
  - split; [exact HL|].
    destruct (H 1%nat _ eq_refl)
      as (l & r & Hl & Hr & Hlen & _ & _ & _ & _ & _ & _ & Hsl & Hsr & Hmin).
    exists l, r. repeat split; assumption.
Defined.

Lemma buildTree_calls_nonempty_witness :
  ((1 <= length (at_table Example.tables 0))%nat /\
   totalCount Example.counts = 4 /\
   returns (hist Example.trainer Example.counts)) /\
  (Example.labels <> [] /\ returns (average Example.labels)).
Proof.
  pose proof (buildTree_calls_nonempty Example.trainer Example.rand)
    as (Hc & Hr & _).
  destruct (Hc Example.data Example.tables Example.counts example_wf) as [Hcalls _].
  destruct (Hr Example.dataR Example.tables Example.labels example_wfR) as [HcallsR _].
  split.
  - destruct (Hcalls (Example.tables, Example.counts) (rtc_refl _ _))
      as (Hn & Htot & _ & Hhist & _).
    split; [exact Hn|]. split; [exact Htot | exact Hhist].
  - destruct (HcallsR (Example.tables, Example.labels) (rtc_refl _ _))
      as (_ & _ & Hnil & Havg & _).
    split; assumption.
Defined.

(** ** Parameters across calls *)

Lemma RFTrainer_ext (a b : RFTrainer) :
  m_inputDimension a = m_inputDimension b ->
  m_labelDimension a = m_labelDimension b ->
  m_maxLabel a = m_maxLabel b ->
  m_try a = m_try b -> m_B a = m_B b -> m_nodeSize a = m_nodeSize b ->
  m_OOBratio a = m_OOBratio b ->
  m_regressionLearner a = m_regressionLearner b ->
  m_computeFeatureImportances a = m_computeFeatureImportances b ->
  m_computeOOBerror a = m_computeOOBerror b ->
  a = b.
Proof. destruct a, b; cbn; intros; subst; reflexivity. Qed.

Lemma ceil_third_zero (d : nat) :
  Z.of_nat d < 2 ^ 64 -> (ceil_third d = 0 <-> d = 0%nat).
Proof.
  intros Hd. pose proof (ceil_third_spec d Hd). lia.
Qed.

Lemma ceil_sqrt_zero (d : nat) :
  Z.of_nat d < 2 ^ 64 -> (ceil_sqrt d = 0 <-> d = 0%nat).
Proof.
  intros Hd. destruct (ceil_sqrt_spec d Hd) as [H0 Hpos]. split.
  - intros Hz. destruct d as [|d]; [reflexivity|].
    specialize (Hpos ltac:(lia)). rewrite Hz in Hpos. lia.
  - exact H0.
Qed.

Lemma ceil_third_le (d : nat) :
  Z.of_nat d < 2 ^ 64 -> 0 <= ceil_third d <= Z.of_nat d.
Proof. intros Hd. pose proof (ceil_third_spec d Hd). lia. Qed.

Lemma ceil_sqrt_le (d : nat) :
  Z.of_nat d < 2 ^ 64 -> 0 <= ceil_sqrt d <= Z.of_nat d.
Proof.
  intros Hd. destruct (ceil_sqrt_spec d Hd) as [H0 Hpos].
  destruct d as [|d]; [rewrite H0 by reflexivity; lia|].
  specialize (Hpos ltac:(lia)). nia.
Qed.

(** X1. A second call of [setDefaults] changes nothing.  After a call the
    number of trees and the node size are not zero and the out-of-bag ratio
    lies in (0,1]; [m_try] is still zero only when it was zero and there is
    no input dimension. *)
Theorem setDefaults_idempotent (t : RFTrainer) :
  setDefaults (setDefaults t) = setDefaults t /\
  m_B (setDefaults t) <> 0 /\
  m_nodeSize (setDefaults t) <> 0 /\
  oob_in_range (m_OOBratio (setDefaults t)) /\
  (Z.of_nat (m_inputDimension t) < 2 ^ 64 ->
   (m_try (setDefaults t) = 0 <->
    m_try t = 0 /\ m_inputDimension t = 0%nat)).
Proof.
  destruct (setDefaults_fields t)
    as (Htry & HB & Hns & Hr & Hd & Hld & Hml & Hreg & Hfi & Hoob).
  destruct (setDefaults_fields (setDefaults t))
    as (Htry' & HB' & Hns' & Hr' & Hd' & Hld' & Hml' & Hreg' & Hfi' & Hoob').
  cbv zeta in *.
  pose proof (setDefaults_oob_in_range t) as Hin.
  assert (HB0 : m_B (setDefaults t) <> 0).
  { rewrite HB. destruct (Z.eqb_spec (m_B t) 0); lia. }
  assert (Hns0 : m_nodeSize (setDefaults t) <> 0).
  { rewrite Hns. destruct (Z.eqb_spec (m_nodeSize t) 0);
      [destruct (m_regressionLearner t)|]; lia. }
  split; [|split; [exact HB0|split; [exact Hns0|split; [exact Hin|]]]].
  - apply RFTrainer_ext; try assumption.
    + rewrite Htry'. destruct (Z.eqb_spec (m_try (setDefaults t)) 0) as [H0|H0];
        [|reflexivity].
      rewrite Hreg, Hd, H0. rewrite Htry in H0.
      destruct (Z.eqb_spec (m_try t) 0); [exact H0|contradiction].
    + rewrite HB'. apply Z.eqb_neq in HB0. rewrite HB0. reflexivity.
    + rewrite Hns'. apply Z.eqb_neq in Hns0. rewrite Hns0. reflexivity.
    + rewrite Hr'. apply oob_in_range_iff in Hin. rewrite Hin. reflexivity.
  - intros Hlt. rewrite Htry.
    destruct (Z.eqb_spec (m_try t) 0) as [H0|H0]; [|tauto].
    destruct (m_regressionLearner t).
    + rewrite ceil_third_zero by exact Hlt. tauto.
    + rewrite ceil_sqrt_zero by exact Hlt. tauto.
Qed.

(** The stream that counts upwards from a position makes the draw return
    whenever [m_try] does not exceed the number of attributes. *)
Lemma generate_counting_returns (t : RFTrainer) (pos : nat) :
  0 <= m_try t <= Z.of_nat (m_inputDimension t) ->
  exists fuel s pos',
    generateRandomTableIndicies t (fun i => (i - pos)%nat) fuel pos []
    = Ret (s, pos').
Proof.
  intros Hm. destruct (Z.eq_dec (m_try t) 0) as [H0|H0].
  - exists 0%nat, [], pos. rewrite generate_unfold, H0. reflexivity.
  - destruct (generate_fair t (fun i => (i - pos)%nat) (Z.to_nat (m_try t))
                pos []) as [[s pos'] Hs]; [lia | |].
    + pose proof (drawn_counting t pos (Z.to_nat (m_try t)) 0 ltac:(lia)) as H.
      rewrite Nat.add_0_r in H. cbn [seq] in H. rewrite H.
      rewrite length_seq. lia.
    + exists (Z.to_nat (m_try t)), s, pos'. exact Hs.
Qed.

Lemma trainSetup_fields (t : RFTrainer) (d : nat) (classes : Z) :
  let t' := trainSetup t d classes in
  m_inputDimension t' = d /\
  m_try t' = (if m_try t =? 0 then ceil_sqrt d else m_try t) /\
  m_B t' = (if m_B t =? 0 then 100 else m_B t) /\
  m_nodeSize t' = (if m_nodeSize t =? 0 then 1 else m_nodeSize t) /\
  m_OOBratio t' =
    (if Qle_bool (m_OOBratio t) 0 || Qlt_bool 1 (m_OOBratio t)
     then (66 # 100)%Q else m_OOBratio t) /\
  m_regressionLearner t' = false /\
  m_maxLabel t' = Z.to_nat (uint (uint classes - 1)).
Proof.
  unfold trainSetup.
  destruct (setDefaults_fields (trainFields t d classes))
    as (Htry & HB & Hns & Hr & Hd & Hld & Hml & Hreg & Hfi & Hoob).
  cbn [trainFields m_try m_B m_nodeSize m_OOBratio m_regressionLearner
       m_inputDimension m_maxLabel] in *.
  repeat split; assumption.
Qed.

Lemma trainSetupR_fields (t : RFTrainer) (d ld : nat) :
  let t' := trainSetupR t d ld in
  m_inputDimension t' = d /\
  m_try t' = (if m_try t =? 0 then ceil_third d else m_try t) /\
  m_B t' = (if m_B t =? 0 then 100 else m_B t) /\
  m_nodeSize t' = (if m_nodeSize t =? 0 then 5 else m_nodeSize t) /\
  m_OOBratio t' =
    (if Qle_bool (m_OOBratio t) 0 || Qlt_bool 1 (m_OOBratio t)
     then (66 # 100)%Q else m_OOBratio t) /\
  m_regressionLearner t' = true /\
  m_labelDimension t' = ld.
Proof.
  unfold trainSetupR.
  destruct (setDefaults_fields (trainFieldsR t d ld))
    as (Htry & HB & Hns & Hr & Hd & Hld & Hml & Hreg & Hfi & Hoob).
  cbn [trainFieldsR m_try m_B m_nodeSize m_OOBratio m_regressionLearner
       m_inputDimension m_labelDimension] in *.
  repeat split; assumption.
Qed.

(** X2. [train] on a trainer that was just constructed: the parameters are
    the defaults for the kind of learner, whatever the constructor left in
    the fields it does not assign, and the default [m_try] lies between 1
    and the number of attributes (it is 0 only for no attribute at all), so
    that there are random numbers for which the attribute draw returns. *)
Theorem trainSetup_fresh (d0 ld0 ml0 : nat) (fi oob : bool) (d : nat) :
  Z.of_nat d < 2 ^ 64 ->
  let t0 := RFTrainer_new d0 ld0 ml0 fi oob in
  (forall classes,
     let t := trainSetup t0 d classes in
     m_inputDimension t = d /\ m_regressionLearner t = false /\
     m_try t = ceil_sqrt d /\ m_B t = 100 /\ m_nodeSize t = 1 /\
     m_OOBratio t = (66 # 100)%Q /\
     0 <= m_try t <= Z.of_nat d /\ ((1 <= d)%nat -> 1 <= m_try t) /\
     forall pos, exists rand fuel s pos',
       generateRandomTableIndicies t rand fuel pos [] = Ret (s, pos')) /\
  (forall ld,
     let t := trainSetupR t0 d ld in
     m_inputDimension t = d /\ m_regressionLearner t = true /\
     m_try t = ceil_third d /\ m_B t = 100 /\ m_nodeSize t = 5 /\
     m_OOBratio t = (66 # 100)%Q /\
     0 <= m_try t <= Z.of_nat d /\ ((1 <= d)%nat -> 1 <= m_try t) /\
     forall pos, exists rand fuel s pos',
       generateRandomTableIndicies t rand fuel pos [] = Ret (s, pos')).
Proof.
  intros Hd t0. split.
  - intros classes t.
    destruct (trainSetup_fields t0 d classes)
      as (Hdim & Htry & HB & Hns & Hr & Hreg & _).
    fold t in Hdim, Htry, HB, Hns, Hr, Hreg. cbn in Htry, HB, Hns, Hr.
    pose proof (ceil_sqrt_le d Hd) as Hle.
    pose proof (ceil_sqrt_zero d Hd) as Hz.
    assert (Hm : 0 <= m_try t <= Z.of_nat d) by (rewrite Htry; exact Hle).
    split; [exact Hdim|]. split; [exact Hreg|]. split; [exact Htry|].
    split; [exact HB|]. split; [exact Hns|]. split; [exact Hr|].
    split; [exact Hm|]. split; [rewrite Htry; lia|].
    intros pos. exists (fun i => (i - pos)%nat).
    apply generate_counting_returns. rewrite Hdim. exact Hm.
  - intros ld t.
    destruct (trainSetupR_fields t0 d ld)
      as (Hdim & Htry & HB & Hns & Hr & Hreg & _).
    fold t in Hdim, Htry, HB, Hns, Hr, Hreg. cbn in Htry, HB, Hns, Hr.
    pose proof (ceil_third_le d Hd) as Hle.
    pose proof (ceil_third_zero d Hd) as Hz.
    assert (Hm : 0 <= m_try t <= Z.of_nat d) by (rewrite Htry; exact Hle).
    split; [exact Hdim|]. split; [exact Hreg|]. split; [exact Htry|].
    split; [exact HB|]. split; [exact Hns|]. split; [exact Hr|].
    split; [exact Hm|]. split; [rewrite Htry; lia|].
    intros pos. exists (fun i => (i - pos)%nat).
    apply generate_counting_returns. rewrite Hdim. exact Hm.
Qed.

Lemma trainSetup_fresh_witness :
  m_try (trainSetup (RFTrainer_new 7 7 7 false false) 10 3) = 4 /\
  m_nodeSize (trainSetupR (RFTrainer_new 7 7 7 false false) 10 2) = 5.
Proof.
  pose proof (trainSetup_fresh 7 7 7 false false 10 ltac:(cbn; lia))
    as [Hc Hr].
  split.
  - destruct (Hc 3) as (_ & _ & Htry & _). rewrite Htry. reflexivity.
  - destruct (Hr 2%nat) as (_ & _ & _ & _ & Hns & _). exact Hns.
Defined.

Lemma generate_never (t : RFTrainer) (rand : nat -> nat) (fuel pos : nat) :
  Z.of_nat (m_inputDimension t) < m_try t ->
  ~ returns (generateRandomTableIndicies t rand fuel pos []).
Proof.
  intros Hd.
  destruct (Nat.eq_dec (m_inputDimension t) 0%nat) as [H0|H0].
  - rewrite generate_unfold. cbn [length].
    destruct (Z.ltb_spec (Z.of_nat 0%nat) (m_try t)); [|lia].
    destruct fuel; [intros [a Ha]; discriminate Ha|].
    rewrite H0. intros [a Ha]. discriminate Ha.
  - rewrite generate_starves; [intros [a Ha]; discriminate Ha | lia | exact Hd
                              | constructor |].
    intros x Hx. inversion Hx.
Qed.

(** X3. The parameters that one call of [train] has filled in stay for the
    next call on the same trainer: [m_try], the number of trees, the node
    size and the ratio are not computed again, also when the next dataset
    has another number of attributes or the other kind of labels.  A
    classification after a regression on [d1 >= 1] attributes runs with
    [m_try] the ceiling of [d1/3] and node size 5; and when the dataset of
    a call has fewer attributes than the [m_try] that was kept, the
    attribute draw of that call never returns, whatever the random numbers
    are. *)
Theorem trainSetup_keeps_parameters :
  (forall t d classes,
     let t' := trainSetup t d classes in
     (m_try t <> 0 -> m_try t' = m_try t) /\
     (m_B t <> 0 -> m_B t' = m_B t) /\
     (m_nodeSize t <> 0 -> m_nodeSize t' = m_nodeSize t) /\
     (oob_in_range (m_OOBratio t) -> m_OOBratio t' = m_OOBratio t)) /\
  (forall t d ld,
     let t' := trainSetupR t d ld in
     (m_try t <> 0 -> m_try t' = m_try t) /\
     (m_B t <> 0 -> m_B t' = m_B t) /\
     (m_nodeSize t <> 0 -> m_nodeSize t' = m_nodeSize t) /\
     (oob_in_range (m_OOBratio t) -> m_OOBratio t' = m_OOBratio t)) /\
  (forall d0 ld0 ml0 fi oob d1 ld d2 classes,
     (1 <= d1)%nat -> Z.of_nat d1 < 2 ^ 64 ->
     let t2 :=
       trainSetup (trainSetupR (RFTrainer_new d0 ld0 ml0 fi oob) d1 ld)
         d2 classes in
     m_try t2 = ceil_third d1 /\ m_nodeSize t2 = 5 /\
     m_inputDimension t2 = d2) /\
  (forall t d classes rand fuel pos,
     Z.of_nat d < m_try t ->
     ~ returns (generateRandomTableIndicies (trainSetup t d classes) rand
                  fuel pos [])) /\
  (forall t d ld rand fuel pos,
     Z.of_nat d < m_try t ->
     ~ returns (generateRandomTableIndicies (trainSetupR t d ld) rand
                  fuel pos [])).
Proof.
  assert (Hc : forall t d classes,
            let t' := trainSetup t d classes in
            (m_try t <> 0 -> m_try t' = m_try t) /\
            (m_B t <> 0 -> m_B t' = m_B t) /\
            (m_nodeSize t <> 0 -> m_nodeSize t' = m_nodeSize t) /\
            (oob_in_range (m_OOBratio t) -> m_OOBratio t' = m_OOBratio t)).
  { intros t d classes t'.
    destruct (trainSetup_fields t d classes) as (_ & Htry & HB & Hns & Hr & _).
    fold t' in Htry, HB, Hns, Hr.
    split; [intros H; apply Z.eqb_neq in H; rewrite Htry, H; reflexivity|].
    split; [intros H; apply Z.eqb_neq in H; rewrite HB, H; reflexivity|].
    split; [intros H; apply Z.eqb_neq in H; rewrite Hns, H; reflexivity|].
    intros H. apply oob_in_range_iff in H. rewrite Hr, H. reflexivity. }
  assert (Hr : forall t d ld,
            let t' := trainSetupR t d ld in
            (m_try t <> 0 -> m_try t' = m_try t) /\
            (m_B t <> 0 -> m_B t' = m_B t) /\
            (m_nodeSize t <> 0 -> m_nodeSize t' = m_nodeSize t) /\
            (oob_in_range (m_OOBratio t) -> m_OOBratio t' = m_OOBratio t)).
  { intros t d ld t'.
    destruct (trainSetupR_fields t d ld) as (_ & Htry & HB & Hns & Hr & _).
    fold t' in Htry, HB, Hns, Hr.
    split; [intros H; apply Z.eqb_neq in H; rewrite Htry, H; reflexivity|].
    split; [intros H; apply Z.eqb_neq in H; rewrite HB, H; reflexivity|].
    split; [intros H; apply Z.eqb_neq in H; rewrite Hns, H; reflexivity|].
    intros H. apply oob_in_range_iff in H. rewrite Hr, H. reflexivity. }
  split; [exact Hc|]. split; [exact Hr|]. split; [|split].
  - intros d0 ld0 ml0 fi oob d1 ld d2 classes Hd1 Hlt t2.
    set (t1 := trainSetupR (RFTrainer_new d0 ld0 ml0 fi oob) d1 ld) in *.
    destruct (trainSetupR_fields (RFTrainer_new d0 ld0 ml0 fi oob) d1 ld)
      as (_ & Htry1 & _ & Hns1 & _).
    fold t1 in Htry1, Hns1. cbn in Htry1, Hns1.
    destruct (Hc t1 d2 classes) as (Htry & _ & Hns & _).
    fold t2 in Htry, Hns.
    pose proof (ceil_third_zero d1 Hlt) as Hz.
    split; [rewrite Htry, Htry1; [reflexivity | rewrite Htry1; lia]|].
    split; [rewrite Hns, Hns1; [reflexivity | rewrite Hns1; lia]|].
    apply (trainSetup_fields t1 d2 classes).
  - intros t d classes rand fuel pos Hlt. apply generate_never.
    destruct (trainSetup_fields t d classes) as (Hdim & _).
    destruct (Hc t d classes) as (Htry & _).
    rewrite Hdim, Htry; lia.
  - intros t d ld rand fuel pos Hlt. apply generate_never.
    destruct (trainSetupR_fields t d ld) as (Hdim & _).
    destruct (Hr t d ld) as (Htry & _).
    rewrite Hdim, Htry; lia.
Qed.

(** ** The parameter vector *)

Lemma truncate_inject_Z (z : Z) : truncate (inject_Z z) = z.
Proof.
  unfold truncate. destruct (Qle_bool 0 (inject_Z z));
    [apply Qfloor_Z | apply Qceiling_Z].
Qed.

Lemma setNTrees_same (t : RFTrainer) : setNTrees t (m_B t) = t.
Proof. destruct t. reflexivity. Qed.

(** X4. Reading the parameter vector and setting it again gives the
    trainer back, for a number of trees below [2^53] (where the conversion
    to a double is exact) and one parameter.  Setting a vector [[x]] with
    [0 <= x < 2^64] stores the integer part of [x] as the number of trees
    and touches no other field; a vector of another size than the number
    of parameters is rejected. *)
Theorem setParameterVector_parameterVector
    (numberOfParameters : RFTrainer -> nat) (t : RFTrainer) :
  numberOfParameters t = 1%nat ->
  (0 <= m_B t < 2 ^ 53 ->
   setParameterVector numberOfParameters t (parameterVector t) = Some t) /\
  (forall x, (0 <= x)%Q -> (x < inject_Z (2 ^ 64))%Q ->
     setParameterVector numberOfParameters t [x]
     = Some (setNTrees t (Qfloor x)) /\
     parameterVector (setNTrees t (Qfloor x)) = [inject_Z (Qfloor x)] /\
     m_try (setNTrees t (Qfloor x)) = m_try t /\
     m_nodeSize (setNTrees t (Qfloor x)) = m_nodeSize t /\
     m_OOBratio (setNTrees t (Qfloor x)) = m_OOBratio t) /\
  (forall v, length v <> 1%nat ->
     setParameterVector numberOfParameters t v = None).
Proof.
  intros Hnp. split; [|split].
  - intros HB. unfold setParameterVector, parameterVector.
    rewrite Hnp. cbn [length Nat.eqb negb].
    replace (Qlt_bool (-1) (inject_Z (m_B t))) with true.
    2:{ symmetry. apply Qlt_bool_iff.
        change (-1)%Q with (inject_Z (-1)). rewrite <- Zlt_Qlt. lia. }
    replace (Qlt_bool (inject_Z (m_B t)) (inject_Z usize_modulus)) with true.
    2:{ symmetry. apply Qlt_bool_iff. rewrite <- Zlt_Qlt.
        unfold usize_modulus. lia. }
    cbn [andb]. rewrite truncate_inject_Z, setNTrees_same. reflexivity.
  - intros x H0 Hlt. unfold setParameterVector.
    rewrite Hnp. cbn [length Nat.eqb negb].
    replace (Qlt_bool (-1) x) with true.
    2:{ symmetry. apply Qlt_bool_iff.
        eapply Qlt_le_trans; [|exact H0]. reflexivity. }
    replace (Qlt_bool x (inject_Z usize_modulus)) with true
      by (symmetry; apply Qlt_bool_iff; exact Hlt).
    cbn [andb]. unfold truncate.
    apply Qle_bool_iff in H0. rewrite H0.
    repeat split.
  - intros v Hv. unfold setParameterVector. rewrite Hnp.
    destruct (Nat.eqb_spec (length v) 1); [contradiction|]. reflexivity.
Qed.

Lemma setParameterVector_parameterVector_witness :
  setParameterVector (fun _ => 1%nat)
    (mkRFTrainer 3 0 1 2 100 1 (66 # 100)%Q false false false)
    (parameterVector
       (mkRFTrainer 3 0 1 2 100 1 (66 # 100)%Q false false false))
  = Some (mkRFTrainer 3 0 1 2 100 1 (66 # 100)%Q false false false).
Proof.
  apply (proj1 (setParameterVector_parameterVector (fun _ => 1%nat)
                  (mkRFTrainer 3 0 1 2 100 1 (66 # 100)%Q false false false)
                  eq_refl)).
  cbn [m_B]. lia.
Defined.

(** ** The comparison of rows and the tables of a bag *)

Lemma tableSort_true (a b : RFAttribute) :
  tableSort a b = true <-> (value a < value b)%Q.
Proof. unfold tableSort. apply Qlt_bool_iff. Qed.

Lemma tableSort_false (a b : RFAttribute) :
  tableSort a b = false <-> (value b <= value a)%Q.
Proof. unfold tableSort. apply Qlt_bool_false. Qed.

(** X5. [tableSort] is a strict weak ordering, as [std::sort] requires of
    its comparison: it is irreflexive, asymmetric and transitive, and
    being unordered either way is transitive.  It looks at the values
    only: two rows are unordered either way exactly when their values are
    equal, whatever their row identifiers are. *)
Theorem tableSort_strict_weak_order :
  (forall a, tableSort a a = false) /\
  (forall a b, tableSort a b = true -> tableSort b a = false) /\
  (forall a b c,
     tableSort a b = true -> tableSort b c = true -> tableSort a c = true) /\
  (forall a b c,
     tableSort a b = false /\ tableSort b a = false ->
     tableSort b c = false /\ tableSort c b = false ->
     tableSort a c = false /\ tableSort c a = false) /\
  (forall a b,
     tableSort a b = false /\ tableSort b a = false <->
     (value a == value b)%Q).
Proof.
  split; [|split; [|split; [|split]]].
  - intros a. apply tableSort_false, Qle_refl.
  - intros a b H. apply tableSort_true in H. apply tableSort_false.
    apply Qlt_le_weak, H.
  - intros a b c H1 H2. apply tableSort_true in H1, H2. apply tableSort_true.
    eapply Qlt_trans; eassumption.
  - intros a b c [H1 H2] [H3 H4].
    apply tableSort_false in H1, H2, H3, H4.
    split; apply tableSort_false; eapply Qle_trans; eassumption.
  - intros a b. rewrite !tableSort_false. split.
    + intros [H1 H2]. apply Qle_antisym; assumption.
    + intros H. rewrite H. split; apply Qle_refl.
Qed.

Lemma Sorted_weaken {A} (R R' : A -> A -> Prop) (l : list A) :
  (forall a b, R a b -> R' a b) -> Sorted R l -> Sorted R' l.
Proof.
  intros HR. induction 1 as [|a l Hl IH Hhd]; constructor; [exact IH|].
  destruct Hhd; constructor. apply HR. assumption.
Qed.

(** The rows of column [j] before the sort. *)
Lemma column_rows (inputs : list RealVector) (j : nat) (a : RFAttribute) :
  a ∈ (fun i => mkRFAttribute (nth j (nth i inputs []) 0%Q) i)
        <$> seq 0 (length inputs) <->
  (id a < length inputs)%nat /\ value a = nth j (nth (id a) inputs []) 0%Q.
Proof.
  rewrite list_elem_of_fmap. split.
  - intros (i & -> & Hi). apply elem_of_seq in Hi. cbn. split; [lia | reflexivity].
  - intros [Hlt Hv]. exists (id a). split.
    + destruct a as [v i]. cbn in *. rewrite Hv. reflexivity.
    + apply elem_of_seq. lia.
Qed.

Lemma ids_column (inputs : list RealVector) (j : nat) :
  ids ((fun i => mkRFAttribute (nth j (nth i inputs []) 0%Q) i)
         <$> seq 0 (length inputs)) = seq 0 (length inputs).
Proof.
  unfold ids. rewrite <- list_fmap_compose.
  rewrite (list_fmap_ext _ (fun i => i) (seq 0 (length inputs)))
    by (intros; reflexivity).
  apply list_fmap_id.
Qed.

(** X6. [createAttributeTables], when [std::sort] with [tableSort] returns
    a permutation of its argument in which no row is ordered before its
    predecessor: there is one table per input dimension; the table of
    attribute [j] holds every row number [0 .. n-1] of the dataset exactly
    once, each with the value of attribute [j] in that row, and it is
    sorted ascending by value. *)
Theorem createAttributeTables_spec (t : RFTrainer)
    (std_sort : (RFAttribute -> RFAttribute -> bool) ->
                AttributeTable -> AttributeTable)
    (inputs : list RealVector) :
  (forall table, std_sort tableSort table ≡ₚ table) ->
  (forall table,
     Sorted (fun a b => tableSort b a = false) (std_sort tableSort table)) ->
  let tables := createAttributeTables t std_sort inputs in
  length tables = m_inputDimension t /\
  forall j table, tables !! j = Some table ->
    (j < m_inputDimension t)%nat /\
    length table = length inputs /\
    ids table ≡ₚ seq 0 (length inputs) /\
    NoDup (ids table) /\
    (forall a, a ∈ table <->
       (id a < length inputs)%nat /\
       value a = nth j (nth (id a) inputs []) 0%Q) /\
    sorted_table table.
Proof.
  intros Hperm Hsorted tables. subst tables.
  rewrite createAttributeTables_map.
  split; [rewrite length_fmap, length_seq; reflexivity|].
  intros j table Hj.
  rewrite list_lookup_fmap in Hj.
  destruct (seq 0 (m_inputDimension t) !! j) as [j'|] eqn:Ej; [|discriminate Hj].
  apply lookup_seq in Ej as [-> Hlt]. cbn in Hj. injection Hj as <-.
  set (col := (fun i => mkRFAttribute (nth j (nth i inputs []) 0%Q) i)
                <$> seq 0 (length inputs)).
  assert (Hids : ids (std_sort tableSort col) ≡ₚ seq 0 (length inputs)).
  { unfold ids. rewrite (Hperm col). apply Permutation_refl'.
    apply ids_column. }
  split; [lia|].
  split; [rewrite <- length_ids, Hids, length_seq; reflexivity|].
  split; [exact Hids|].
  split; [rewrite Hids; apply NoDup_seq|].
  split.
  - intros a. rewrite (Hperm col). apply column_rows.
  - unfold sorted_table.
    eapply Sorted_weaken; [|apply Hsorted].
    intros a b Hab. apply tableSort_false in Hab. exact Hab.
Qed.

Lemma createAttributeTables_spec_witness :
  ids (at_table
         (createAttributeTables
            (mkRFTrainer 2 0 1 1 1 1 (66 # 100)%Q false false false)
            (fun cmp =>
               @merge_sort _ (fun a b => cmp b a = false)
                 (fun a b => decide (cmp b a = false)))
            [[3%Q; 1%Q]; [1%Q; 2%Q]; [2%Q; 0%Q]]) 0)
  ≡ₚ [0; 1; 2]%nat.
Proof.
  assert (Htotal : Total (fun a b : RFAttribute => tableSort b a = false)).
  { intros a b. rewrite !tableSort_false.
    destruct (Qlt_le_dec (value a) (value b)) as [H|H];
      [left; apply Qlt_le_weak, H | right; exact H]. }
  destruct (createAttributeTables_spec
              (mkRFTrainer 2 0 1 1 1 1 (66 # 100)%Q false false false)
              (fun cmp =>
               @merge_sort _ (fun a b => cmp b a = false)
                 (fun a b => decide (cmp b a = false)))
              [[3%Q; 1%Q]; [1%Q; 2%Q]; [2%Q; 0%Q]]) as [_ H].
  - intros table. apply merge_sort_Permutation.
  - intros table. apply Sorted_merge_sort. exact Htotal.
  - destruct (H 0%nat _ eq_refl) as (_ & _ & Hids & _). exact Hids.
Defined.

(** ** The count vector of a bag *)

Lemma filter_positions {A} (P : A -> Prop) `{!forall x, Decision (P x)}
    (d : A) (pre l : list A) :
  length (filter (fun i => P (nth i (pre ++ l) d))
            (seq (length pre) (length l)))
  = length (filter P l).
Proof.
  revert pre. induction l as [|x l IH]; intros pre; [reflexivity|].
  cbn [length seq]. rewrite !filter_cons.
  rewrite nth_middle.
  replace (pre ++ x :: l) with ((pre ++ [x]) ++ l)
    by (rewrite <- app_assoc; reflexivity).
  replace (S (length pre)) with (length (pre ++ [x]))
    by (rewrite length_app; cbn; lia).
  destruct (decide (P x)); cbn [length]; rewrite IH; reflexivity.
Qed.

Lemma labelCount_rows (dataset : ClassificationDataset) (j : nat) :
  labelCount dataset (seq 0 (length dataset)) j
  = Z.of_nat (length (filter (fun row => snd row = j) dataset)).
Proof.
  unfold labelCount, class_label. f_equal.
  pose proof (filter_positions (fun row : RealVector * nat => snd row = j)
                ([], 0%nat) [] dataset) as H.
  cbn [app length] in H. exact H.
Qed.

(** X7. [createCountVector] on a bag of fewer than [2^32] rows whose labels
    do not exceed [m_maxLabel]: the vector has one counter per label
    [0 .. m_maxLabel], the counter of a label is the number of rows that
    carry it, and the counters add up to the number of rows. *)
Theorem createCountVector_spec (t : RFTrainer)
    (dataset : ClassificationDataset) :
  Z.of_nat (length dataset) < 2 ^ 32 ->
  (forall i, (i < length dataset)%nat ->
             (class_label dataset i <= m_maxLabel t)%nat) ->
  let cAbove := createCountVector t dataset in
  length cAbove = (m_maxLabel t + 1)%nat /\
  (forall j, (j <= m_maxLabel t)%nat ->
     nth j cAbove 0
     = Z.of_nat (length (filter (fun row => snd row = j) dataset))) /\
  totalCount cAbove = Z.of_nat (length dataset) /\
  Forall (fun x => 0 <= x) cAbove.
Proof.
  intros Hlen Hlab cAbove. subst cAbove.
  rewrite createCountVector_countsOf by assumption.
  split; [apply length_countsOf|].
  split.
  { intros j Hj. rewrite nth_countsOf by exact Hj. apply labelCount_rows. }
  split.
  { rewrite totalCount_countsOf, length_seq; [reflexivity|].
    intros i Hi. apply elem_of_seq in Hi. apply Hlab. lia. }
  apply countsOf_nonneg.
Qed.

Lemma createCountVector_spec_witness :
  createCountVector Example.trainer Example.data = [2; 2] /\
  totalCount (createCountVector Example.trainer Example.data) = 4.
Proof.
  destruct (createCountVector_spec Example.trainer Example.data)
    as (_ & _ & Htot & _).
  - cbn. lia.
  - intros i Hi. cbn in Hi. destruct i as [|[|[|[|i]]]]; cbn; lia.
  - split; [reflexivity | exact Htot].
Defined.

(** ** Sums of counters *)

Lemma totalCount_cons (x : Z) (l : list Z) :
  totalCount (x :: l) = x + totalCount l.
Proof. reflexivity. Qed.

Lemma totalCount_app (l k : list Z) :
  totalCount (l ++ k) = totalCount l + totalCount k.
Proof.
  induction l as [|x l IH]; [reflexivity|].
  cbn [app]. rewrite !totalCount_cons, IH. lia.
Qed.

Lemma totalCount_replicate_zero (k : nat) : totalCount (replicate k 0) = 0.
Proof.
  induction k as [|k IH]; [reflexivity|].
  cbn [replicate]. rewrite totalCount_cons, IH. reflexivity.
Qed.

Lemma totalCount_nonneg (l : list Z) :
  Forall (fun x => 0 <= x) l -> 0 <= totalCount l.
Proof.
  induction 1 as [|x l Hx _ IH]; [reflexivity|].
  rewrite totalCount_cons. lia.
Qed.

Lemma nth_le_totalCount (l : list Z) (j : nat) :
  Forall (fun x => 0 <= x) l -> 0 <= nth j l 0 <= totalCount l.
Proof.
  intros Hl. revert j. induction Hl as [|x l Hx Hl IH]; intros j.
  - destruct j; cbn; lia.
  - rewrite totalCount_cons. pose proof (totalCount_nonneg l Hl).
    destruct j as [|j]; cbn [nth]; [lia|]. specialize (IH j). lia.
Qed.

Lemma elem_le_totalCount (l : list Z) (x : Z) :
  Forall (fun x => 0 <= x) l -> x ∈ l -> 0 <= x <= totalCount l.
Proof.
  intros Hl Hx. apply list_elem_of_lookup in Hx as [j Hj].
  rewrite <- (nth_lookup_Some l j 0 x Hj). apply nth_le_totalCount, Hl.
Qed.

(** The sum of the squares against the square of the sum. *)
Lemma squares_le (l : list Z) :
  Forall (fun x => 0 <= x) l ->
  0 <= totalCount (List.map (fun x => x * x) l)
    <= totalCount l * totalCount l.
Proof.
  induction 1 as [|x l Hx Hl IH]; [cbn; lia|].
  cbn [List.map]. rewrite !totalCount_cons.
  pose proof (totalCount_nonneg l Hl). nia.
Qed.

Lemma squares_eq_pure (l : list Z) :
  Forall (fun x => 0 <= x) l -> 0 < totalCount l ->
  totalCount (List.map (fun x => x * x) l) = totalCount l * totalCount l ->
  exists j, nth j l 0 = totalCount l.
Proof.
  induction 1 as [|x l Hx Hl IH]; [cbn; lia|].
  cbn [List.map]. rewrite !totalCount_cons. intros Hpos Heq.
  pose proof (totalCount_nonneg l Hl) as HT.
  pose proof (squares_le l Hl) as Hsq.
  destruct (Z.eq_dec (totalCount l) 0) as [H0|H0].
  - exists 0%nat. cbn [nth]. lia.
  - assert (x = 0) by nia. subst x.
    destruct IH as [j Hj]; [lia | nia |].
    exists (S j). cbn [nth]. lia.
Qed.

Lemma pure_squares (l : list Z) (j : nat) :
  Forall (fun x => 0 <= x) l -> nth j l 0 = totalCount l ->
  totalCount (List.map (fun x => x * x) l) = totalCount l * totalCount l.
Proof.
  intros Hl. revert j. induction Hl as [|x l Hx Hl IH]; intros j; [reflexivity|].
  cbn [List.map]. rewrite !totalCount_cons.
  pose proof (totalCount_nonneg l Hl) as HT.
  pose proof (squares_le l Hl) as Hsq.
  destruct j as [|j]; cbn [nth]; intros Hj.
  - assert (totalCount l = 0) by lia. nia.
  - pose proof (nth_le_totalCount l j Hl) as Hle.
    assert (x = 0) by lia. subst x.
    rewrite (IH j) by lia. lia.
Qed.

Lemma Qsum_squares (c : ClassVector) (n : Z) :
  n <> 0 ->
  (Qsum (List.map (fun cj => (inject_Z cj / inject_Z n) ^ 2) c)
   == inject_Z (totalCount (List.map (fun x => (x * x)%Z) c))
      / inject_Z (n * n))%Q.
Proof.
  intros Hn. induction c as [|x c IH].
  - cbn. unfold Qdiv. ring.
  - cbn [List.map Qsum foldr].
    fold (Qsum (List.map (fun cj => ((inject_Z cj / inject_Z n) ^ 2)%Q) c)).
    rewrite IH, totalCount_cons, !inject_Z_plus, !inject_Z_mult.
    simpl. field. apply inject_Z_nonzero, Hn.
Qed.

(** X10. For non-negative counters that add up to [n], with
    [0 < n < 2^32]: the Gini impurity lies between 0 and 1, and it is 0
    exactly when one class holds all [n] rows.  The test [gini(..)==0] of
    [buildTree] therefore recognises the nodes with a single class. *)
Theorem gini_zero_iff_pure (c : ClassVector) (n : Z) :
  0 < n < 2 ^ 32 ->
  Forall (fun x => 0 <= x) c ->
  totalCount c = n ->
  (0 <= gini c n)%Q /\ (gini c n <= 1)%Q /\
  ((gini c n == 0)%Q <-> exists j, nth j c 0 = n) /\
  (Qeq_bool (gini c n) 0 = true <-> exists j, nth j c 0 = n).
Proof.
  intros Hn Hc Htot.
  pose proof (gini_pos c n Hn) as Hg.
  rewrite Qsum_squares in Hg by lia.
  set (S2 := totalCount (List.map (fun x => x * x) c)) in *.
  pose proof (squares_le c Hc) as Hsq. fold S2 in Hsq. rewrite Htot in Hsq.
  assert (Hnz : ~ (inject_Z (n * n) == 0)%Q) by (apply inject_Z_nonzero; nia).
  assert (Hform : (gini c n == inject_Z (n * n - S2) / inject_Z (n * n))%Q).
  { rewrite Hg. unfold Zminus. rewrite inject_Z_plus, inject_Z_opp.
    field. exact Hnz. }
  assert (Hiff : (gini c n == 0)%Q <-> exists j, nth j c 0 = n).
  { split.
    - intros H0. rewrite Hform in H0.
      assert (Hz : (inject_Z (n * n - S2) == 0)%Q).
      { rewrite <- (Qmult_div_r (inject_Z (n * n - S2)) (inject_Z (n * n)))
          by exact Hnz.
        rewrite H0. ring. }
      apply (inject_Z_injective (n * n - S2) 0) in Hz.
      rewrite <- Htot. apply squares_eq_pure; [exact Hc | lia |].
      fold S2. rewrite Htot. lia.
    - intros [j Hj]. rewrite <- Htot in Hj.
      pose proof (pure_squares c j Hc Hj) as Hp. fold S2 in Hp.
      rewrite Htot in Hp. rewrite Hform, Hp, Z.sub_diag.
      unfold Qdiv. ring. }
  split; [|split; [apply gini_le_1|split; [exact Hiff|]]].
  - rewrite Hform. apply Qdiv_nonneg; apply inject_Z_nonneg; nia.
  - rewrite Qeq_bool_iff. exact Hiff.
Qed.

Lemma gini_zero_iff_pure_witness :
  Qeq_bool (gini [0; 4; 0] 4) 0 = true /\
  (0 <= gini [1; 2; 1]%Z 4%Z)%Q.
Proof.
  split.
  - apply (proj2 (proj2 (proj2 (gini_zero_iff_pure [0; 4; 0] 4 ltac:(lia)
             ltac:(repeat constructor; lia) eq_refl)))).
    exists 1%nat. reflexivity.
  - apply (proj1 (gini_zero_iff_pure [1; 2; 1] 4 ltac:(lia)
             ltac:(repeat constructor; lia) eq_refl)).
Defined.

(** ** The histogram of a leaf *)

Lemma hist_loop_hist (pre l : list Z) (h : RealVector) (acc : Z) :
  (length pre + length l <= length h)%nat ->
  fst (fold_left
         (fun '(h, total) i =>
            (<[i := inject_Z (nth i (pre ++ l) 0)]> h,
             usize (total + nth i (pre ++ l) 0)))
         (seq (length pre) (length l)) (h, acc))
  = take (length pre) h ++ (inject_Z <$> l)
      ++ drop (length pre + length l) h.
Proof.
  revert pre h acc. induction l as [|x l IH]; intros pre h acc Hlen.
  - cbn [length seq fold_left fst fmap list_fmap app].
    rewrite Nat.add_0_r. symmetry. apply take_drop.
  - cbn [length seq fold_left]. cbn [length] in Hlen.
    rewrite nth_middle.
    replace (pre ++ x :: l) with ((pre ++ [x]) ++ l)
      by (rewrite <- app_assoc; reflexivity).
    replace (S (length pre)) with (length (pre ++ [x]))
      by (rewrite length_app; cbn; lia).
    rewrite IH by (rewrite length_insert, length_app; cbn [length]; lia).
    rewrite length_app. cbn [length].
    replace (length pre + 1)%nat with (S (length pre)) by lia.
    rewrite (take_S_r _ _ (inject_Z x))
      by (apply list_lookup_insert_eq; lia).
    rewrite take_insert_ge by lia.
    rewrite drop_insert_lt by lia.
    rewrite fmap_cons, <- app_assoc. cbn [app].
    replace (S (length pre) + length l)%nat
      with (length pre + S (length l))%nat by lia.
    reflexivity.
Qed.

Lemma Qsum_map_div (l : list Z) (s : Q) :
  (Qsum (List.map (fun x => inject_Z x / s) l)
   == inject_Z (totalCount l) / s)%Q.
Proof.
  induction l as [|x l IH].
  - cbn. unfold Qdiv. ring.
  - cbn [List.map Qsum foldr].
    fold (Qsum (List.map (fun x => (inject_Z x / s)%Q) l)).
    rewrite IH, totalCount_cons, inject_Z_plus. unfold Qdiv. ring.
Qed.

Lemma nth_map_counts (c : list Z) (k : nat) (s : Q) (j : nat) :
  (nth j (List.map (fun x => (inject_Z x / s)%Q) (c ++ replicate k 0%Z)) 0
   == inject_Z (nth j c 0%Z) / s)%Q.
Proof.
  assert (Hz : (inject_Z 0 / s == 0)%Q) by (unfold Qdiv; ring).
  destruct (Nat.lt_ge_cases j (length (c ++ replicate k 0))) as [Hlt|Hge].
  - rewrite (nth_indep _ 0%Q (inject_Z 0 / s)%Q) by (rewrite length_map; exact Hlt).
    rewrite (map_nth (fun x => (inject_Z x / s)%Q)).
    destruct (Nat.lt_ge_cases j (length c)) as [Hc|Hc].
    + rewrite app_nth1 by exact Hc. reflexivity.
    + rewrite app_nth2 by exact Hc. rewrite (nth_overflow c) by exact Hc.
      replace (nth (j - length c) (replicate k 0) 0) with 0; [reflexivity|].
      rewrite nth_lookup.
      destruct (replicate k 0 !! (j - length c)%nat) as [x|] eqn:E;
        [apply lookup_replicate in E as [-> _]|]; reflexivity.
  - rewrite nth_overflow by (rewrite length_map; exact Hge).
    rewrite length_app in Hge. rewrite (nth_overflow c) by lia.
    symmetry. exact Hz.
Qed.

(** The value of [hist]: the counters, padded with zeros to one entry per
    label, divided by their sum. *)
Lemma hist_value (t : RFTrainer) (c : ClassVector) :
  Forall (fun x => 0 <= x) c ->
  (length c <= m_maxLabel t + 1)%nat ->
  totalCount c < 2 ^ 64 ->
  hist t c
  = if totalCount c =? 0 then DivByZero
    else Ret (List.map (fun x => (inject_Z x / inject_Z (totalCount c))%Q)
                (c ++ replicate (m_maxLabel t + 1 - length c) 0)).
Proof.
  intros Hc Hlen Hlt.
  pose proof (totalCount_nonneg c Hc) as Hnn.
  pose proof (hist_loop_total t [] c (vzero (m_maxLabel t + 1)) 0
                ltac:(lia) Hc ltac:(lia)) as Htot.
  pose proof (hist_loop_hist [] c (vzero (m_maxLabel t + 1)) 0) as Hh.
  cbn [app length] in Htot, Hh.
  rewrite Z.add_0_l in Htot.
  unfold vzero in Hh at 1. rewrite length_replicate in Hh.
  specialize (Hh ltac:(lia)). rewrite take_0 in Hh. cbn [app Nat.add] in Hh.
  unfold hist.
  destruct (fold_left _ _ _) as [h total] eqn:E.
  cbn [fst snd] in Htot, Hh. subst total.
  destruct (totalCount c =? 0); [reflexivity|]. f_equal.
  rewrite Hh. unfold vdiv, vzero. rewrite drop_replicate.
  rewrite !List.map_app.
  change (inject_Z <$> c) with (List.map inject_Z c).
  rewrite List.map_map. f_equal.
  clear. induction (m_maxLabel t + 1 - length c)%nat as [|k IH];
    [reflexivity|]. cbn. f_equal. exact IH.
Qed.

(** Counters divided by their positive sum are relative frequencies. *)
Lemma frequencies (c : list Z) (n : nat) :
  Forall (fun x => 0 <= x) c -> (length c <= n)%nat -> 0 < totalCount c ->
  let h := List.map (fun x => (inject_Z x / inject_Z (totalCount c))%Q)
             (c ++ replicate (n - length c) 0) in
  length h = n /\
  (forall j,
     (nth j h 0 == inject_Z (nth j c 0%Z) / inject_Z (totalCount c))%Q) /\
  (Qsum h == 1)%Q /\
  Forall (fun x => (0 <= x)%Q /\ (x <= 1)%Q) h.
Proof.
  intros Hc Hlen Hpos. cbv zeta.
  set (s := inject_Z (totalCount c)).
  assert (Hs : (0 < s)%Q).
  { unfold s. change 0%Q with (inject_Z 0). rewrite <- Zlt_Qlt. exact Hpos. }
  split; [|split; [|split]].
  - rewrite length_map, length_app, length_replicate. lia.
  - intros j. apply nth_map_counts.
  - rewrite Qsum_map_div, totalCount_app, totalCount_replicate_zero,
      Z.add_0_r. fold s. field. intros H0. rewrite H0 in Hs.
    exact (Qlt_irrefl 0 Hs).
  - apply Forall_forall. intros q Hq.
    apply list_elem_of_In, in_map_iff in Hq as (x & <- & Hx).
    apply list_elem_of_In in Hx.
    assert (Hb : 0 <= x <= totalCount c).
    { apply elem_of_app in Hx as [Hx|Hx].
      - apply elem_le_totalCount; assumption.
      - apply elem_of_replicate in Hx as [-> _]. lia. }
    split.
    + apply Qdiv_nonneg; [apply inject_Z_nonneg; lia | apply Qlt_le_weak, Hs].
    + apply Qle_shift_div_r; [exact Hs|]. rewrite Qmult_1_l.
      unfold s. rewrite <- Zle_Qle. lia.
Qed.

(** X8. [hist] on non-negative counters, at most one per label, whose sum
    fits a [size_t]: when the counters are all zero the division is by
    zero; otherwise the histogram has one entry per label [0 ..
    m_maxLabel], the entry of a label is its counter divided by the sum of
    the counters (0 for a label without counter), every entry lies between
    0 and 1 and the entries add up to 1. *)
Theorem hist_spec (t : RFTrainer) (c : ClassVector) :
  Forall (fun x => 0 <= x) c ->
  (length c <= m_maxLabel t + 1)%nat ->
  totalCount c < 2 ^ 64 ->
  (totalCount c = 0 -> hist t c = DivByZero) /\
  (0 < totalCount c ->
   exists h,
     hist t c = Ret h /\
     h = List.map (fun x => (inject_Z x / inject_Z (totalCount c))%Q)
           (c ++ replicate (m_maxLabel t + 1 - length c) 0) /\
     length h = (m_maxLabel t + 1)%nat /\
     (forall j,
        (nth j h 0 == inject_Z (nth j c 0%Z) / inject_Z (totalCount c))%Q) /\
     (Qsum h == 1)%Q /\
     Forall (fun x => (0 <= x)%Q /\ (x <= 1)%Q) h).
Proof.
  intros Hc Hlen Hlt.
  pose proof (hist_value t c Hc Hlen Hlt) as Hv.
  split.
  - intros H0. rewrite Hv, H0. reflexivity.
  - intros Hpos.
    assert (E : (totalCount c =? 0) = false) by (apply Z.eqb_neq; lia).
    rewrite E in Hv.
    eexists. split; [exact Hv|]. split; [reflexivity|].
    apply (frequencies c (m_maxLabel t + 1) Hc Hlen Hpos).
Qed.

Lemma hist_spec_witness :
  hist Example.trainer [1; 3] = Ret [(1 # 4)%Q; (3 # 4)%Q] /\
  hist Example.trainer [0; 0] = DivByZero.
Proof.
  split.
  - destruct (hist_spec Example.trainer [1; 3]) as [_ H].
    + repeat constructor; lia.
    + cbn. lia.
    + cbn. lia.
    + destruct H as (h & Hh & _); [cbn; lia|]. reflexivity.
  - apply (hist_spec Example.trainer [0; 0]).
    + repeat constructor; lia.
    + cbn. lia.
    + cbn. lia.
    + reflexivity.
Defined.

(** ** Averages and squared errors *)

Lemma length_zipWithQ (f : Q -> Q -> Q) (a b : RealVector) :
  length (zipWithQ f a b) = Nat.min (length a) (length b).
Proof.
  revert b. induction a as [|x a IH]; intros [|y b]; cbn; try reflexivity.
  rewrite IH. reflexivity.
Qed.

Lemma nth_zipWithQ (f : Q -> Q -> Q) (a b : RealVector) (j : nat) :
  (j < length a)%nat -> (j < length b)%nat ->
  nth j (zipWithQ f a b) 0%Q = f (nth j a 0%Q) (nth j b 0%Q).
Proof.
  revert b j. induction a as [|x a IH]; intros [|y b] j Ha Hb;
    cbn in Ha, Hb; try lia.
  destruct j as [|j]; [reflexivity|]. cbn. apply IH; lia.
Qed.

Lemma nth_vdiv (v : RealVector) (s : Q) (j : nat) :
  (j < length v)%nat -> nth j (vdiv v s) 0%Q = (nth j v 0 / s)%Q.
Proof.
  revert j. induction v as [|x v IH]; intros j Hj; cbn in Hj; [lia|].
  destruct j as [|j]; [reflexivity|]. cbn. apply IH. lia.
Qed.

Lemma length_vdiv (v : RealVector) (s : Q) : length (vdiv v s) = length v.
Proof. apply length_map. Qed.

Lemma fold_vadd (rest : list RealVector) (l0 : RealVector) (k : nat) :
  length l0 = k -> Forall (fun l => length l = k) rest ->
  length (fold_left vadd rest l0) = k /\
  forall j, (j < k)%nat ->
    (nth j (fold_left vadd rest l0) 0
     == nth j l0 0 + Qsum (List.map (fun l => nth j l 0) rest))%Q.
Proof.
  intros Hl0 Hrest. revert l0 Hl0.
  induction Hrest as [|l rest Hl Hrest IH]; intros l0 Hl0.
  - split; [exact Hl0|]. intros j Hj. cbn. ring.
  - cbn [fold_left].
    destruct (IH (vadd l0 l)) as [Hlen Hsum].
    { unfold vadd. rewrite length_zipWithQ. lia. }
    split; [exact Hlen|]. intros j Hj.
    rewrite (Hsum j Hj). unfold vadd.
    rewrite nth_zipWithQ by lia. cbn [List.map Qsum foldr].
    fold (Qsum (List.map (fun l => nth j l 0%Q) rest)). ring.
Qed.

(** What [average] returns is the mean, component by component. *)
Lemma average_components (labels : list RealVector) (k : nat)
    (avg : RealVector) :
  Forall (fun l => length l = k) labels ->
  average labels = Ret avg ->
  length avg = k /\
  forall j, (j < k)%nat ->
    (nth j avg 0
     == Qsum (List.map (fun l => nth j l 0) labels)
        / inject_Z (Z.of_nat (length labels)))%Q.
Proof.
  intros Hall Havg. destruct labels as [|l0 rest]; [discriminate|].
  apply Forall_cons in Hall as [Hl0 Hrest].
  destruct (fold_vadd rest l0 k Hl0 Hrest) as [Hlen Hsum].
  unfold average in Havg. injection Havg as <-.
  split; [rewrite length_vdiv; exact Hlen|].
  intros j Hj. rewrite nth_vdiv by lia. rewrite (Hsum j Hj).
  cbn [List.map Qsum foldr]. reflexivity.
Qed.

(** X9. [average] of a non-empty vector of labels of one dimension [k]: it
    returns a vector of dimension [k] whose component [j] is the sum of
    the components [j] of the labels divided by the number of labels. *)
Theorem average_spec (labels : list RealVector) (k : nat) :
  labels <> [] ->
  Forall (fun l => length l = k) labels ->
  exists avg,
    average labels = Ret avg /\
    length avg = k /\
    forall j, (j < k)%nat ->
      (nth j avg 0
       == Qsum (List.map (fun l => nth j l 0) labels)
          / inject_Z (Z.of_nat (length labels)))%Q.
Proof.
  intros Hne Hall.
  destruct labels as [|l0 rest] eqn:E; [contradiction|].
  rewrite <- E in *.
  assert (Havg : exists avg, average labels = Ret avg)
    by (rewrite E; eexists; reflexivity).
  destruct Havg as [avg Havg]. exists avg. split; [exact Havg|].
  exact (average_components labels k avg Hall Havg).
Qed.

Lemma average_spec_witness :
  exists avg,
    average Example.labels = Ret avg /\ length avg = 1%nat /\
    (nth 0 avg 0 == 3)%Q.
Proof.
  destruct (average_spec Example.labels 1) as (avg & Havg & Hlen & Hj).
  - discriminate.
  - repeat constructor.
  - exists avg. split; [exact Havg|]. split; [exact Hlen|].
    rewrite (Hj 0%nat) by lia. reflexivity.
Defined.

Lemma Qplus_nonneg_compat (a b : Q) :
  (0 <= a)%Q -> (0 <= b)%Q -> (0 <= a + b)%Q.
Proof.
  intros Ha Hb. apply Qle_trans with (0 + 0)%Q; [discriminate|].
  apply Qplus_le_compat; assumption.
Qed.

Lemma Qsum_nonneg {A} (f : A -> Q) (l : list A) :
  (forall x, (0 <= f x)%Q) -> (0 <= Qsum (List.map f l))%Q.
Proof.
  intros Hf. induction l as [|x l IH]; cbn [List.map Qsum foldr];
    [apply Qle_refl|].
  apply Qplus_nonneg_compat; [apply Hf | exact IH].
Qed.

Lemma Qplus_nonneg_zero (a b : Q) :
  (0 <= a)%Q -> (0 <= b)%Q -> (a + b == 0)%Q -> (a == 0)%Q /\ (b == 0)%Q.
Proof.
  intros Ha Hb H. split; apply Qle_antisym; try assumption.
  - rewrite <- H. rewrite <- (Qplus_0_r a) at 1.
    apply Qplus_le_compat; [apply Qle_refl | exact Hb].
  - rewrite <- H. rewrite <- (Qplus_0_l b) at 1.
    apply Qplus_le_compat; [exact Ha | apply Qle_refl].
Qed.

Lemma Qsum_zero_iff {A} (f : A -> Q) (l : list A) :
  (forall x, (0 <= f x)%Q) ->
  (Qsum (List.map f l) == 0)%Q <-> forall x, In x l -> (f x == 0)%Q.
Proof.
  intros Hf. induction l as [|x l IH]; cbn [List.map Qsum foldr].
  - split; [intros _ x [] | reflexivity].
  - fold (Qsum (List.map f l)). split.
    + intros H. apply Qplus_nonneg_zero in H as [Hx Hl];
        [|apply Hf | apply Qsum_nonneg, Hf].
      intros y [<-|Hy]; [exact Hx | apply IH; assumption].
    + intros H. rewrite (H x) by (left; reflexivity).
      rewrite (proj2 IH) by (intros y Hy; apply H; right; exact Hy). ring.
Qed.

Lemma norm_sqr_zero_iff (v : RealVector) :
  (norm_sqr v == 0)%Q <-> Forall (fun x => (x == 0)%Q) v.
Proof.
  unfold norm_sqr.
  rewrite (fold_left_Qplus (fun x => x * x)%Q), Qplus_0_l.
  rewrite (Qsum_zero_iff (fun x => x * x)%Q) by apply Qsquare_nonneg.
  rewrite Forall_forall. split.
  - intros H x Hx. apply list_elem_of_In in Hx.
    destruct (Qmult_integral _ _ (H x Hx)); assumption.
  - intros H x Hx. rewrite (H x) by (apply list_elem_of_In; exact Hx). ring.
Qed.

Lemma vsub_zero_iff (a b : RealVector) :
  length a = length b ->
  Forall (fun x => (x == 0)%Q) (vsub a b) <-> Forall2 Qeq a b.
Proof.
  revert b. induction a as [|x a IH]; intros [|y b] Hlen; cbn in Hlen;
    try discriminate.
  - cbn. split; constructor.
  - unfold vsub. cbn [zipWithQ]. fold (vsub a b).
    rewrite Forall_cons, Forall2_cons, IH by lia.
    split; intros [H1 H2]; split; try assumption.
    + rewrite <- (Qplus_0_r y), <- H1. ring.
    + rewrite H1. ring.
Qed.

(** X11. [totalSumOfSquares] on a window that lies inside the labels, the
    labels of the window having the dimension of [sumLabel]: the call
    returns, the result is not negative, and it is zero exactly when every
    label of the window equals [sumLabel / length] component by
    component. *)
Theorem totalSumOfSquares_zero_iff (labels : list RealVector)
    (start length : Z) (sumLabel : RealVector) :
  0 <= start -> 1 <= length ->
  start + length <= Z.of_nat (List.length labels) ->
  start + length < 2 ^ 64 ->
  (forall i, start <= i < start + length ->
     List.length (nth (Z.to_nat i) labels []) = List.length sumLabel) ->
  exists v,
    totalSumOfSquares labels start length sumLabel = Ret v /\
    (0 <= v)%Q /\
    ((v == 0)%Q <->
     forall i, start <= i < start + length ->
       Forall2 Qeq (nth (Z.to_nat i) labels [])
         (vdiv sumLabel (inject_Z length))).
Proof.
  intros Hs Hl Hfit Hno Hdim.
  destruct (totalSumOfSquares_returns labels start length sumLabel Hs Hl Hfit Hno)
    as (v & Hv & Hnn).
  exists v. split; [exact Hv|]. split; [exact Hnn|].
  unfold totalSumOfSquares in Hv.
  destruct (Z.ltb_spec length 1); [lia|].
  rewrite usize_small in Hv by lia.
  destruct (Z.gtb_spec (start + length) (Z.of_nat (List.length labels)));
    [lia|].
  injection Hv as <-.
  set (avg := vdiv sumLabel (inject_Z length)).
  rewrite (fold_left_Qplus
             (fun i => norm_sqr
                (vsub (nth (Z.to_nat (usize (start + Z.of_nat i))) labels [])
                      avg))), Qplus_0_l.
  rewrite Qsum_zero_iff by (intros i; apply norm_sqr_nonneg).
  split.
  - intros Hz i Hi.
    specialize (Hz (Z.to_nat (i - start))).
    rewrite usize_small in Hz by lia.
    replace (start + Z.of_nat (Z.to_nat (i - start))) with i in Hz by lia.
    apply vsub_zero_iff.
    + rewrite (Hdim i Hi). unfold avg. rewrite length_vdiv. reflexivity.
    + apply norm_sqr_zero_iff, Hz. apply in_seq. lia.
  - intros Hz i Hi. apply in_seq in Hi.
    rewrite usize_small by lia.
    apply norm_sqr_zero_iff, vsub_zero_iff.
    + rewrite (Hdim (start + Z.of_nat i)) by lia. unfold avg.
      rewrite length_vdiv. reflexivity.
    + apply Hz. lia.
Qed.

Lemma totalSumOfSquares_zero_iff_witness :
  exists v,
    totalSumOfSquares [[1%Q]; [5%Q]; [5%Q]] 1 2 [10%Q] = Ret v /\
    (v == 0)%Q.
Proof.
  destruct (totalSumOfSquares_zero_iff [[1%Q]; [5%Q]; [5%Q]] 1 2 [10%Q])
    as (v & Hv & _ & Hz); try (cbn; lia).
  - intros i Hi.
    assert (i = 1 \/ i = 2) as [-> | ->] by lia; reflexivity.
  - exists v. split; [exact Hv|]. apply Hz. intros i Hi.
    assert (i = 1 \/ i = 2) as [-> | ->] by lia;
      repeat constructor; reflexivity.
Defined.

(** ** The hash of the table splitter, without assumptions on the rows *)

(** The entry of a key after the loop: the last row with this identifier
    decides; a key that no row carries keeps its entry. *)
Lemma buildHash_last (rows : AttributeTable) (valIndex i : nat)
    (hash : gmap nat bool) (k : nat) :
  (k ∉ ids rows ->
   hashAt (buildHash i rows valIndex hash) k = hashAt hash k) /\
  (forall q b,
     rows !! q = Some b -> id b = k ->
     (forall q' b', rows !! q' = Some b' -> id b' = k -> (q' <= q)%nat) ->
     hashAt (buildHash i rows valIndex hash) k = (i + q <=? valIndex)%nat).
Proof.
  revert i hash. induction rows as [|a rows IH]; intros i hash.
  - split; [reflexivity|]. intros q b Hq. discriminate Hq.
  - cbn [buildHash].
    destruct (IH (S i) (<[id a := (i <=? valIndex)%nat]> hash)) as [IH1 IH2].
    split.
    + intros Hk. unfold ids in Hk. rewrite fmap_cons, not_elem_of_cons in Hk.
      destruct Hk as [Hne Hk]. rewrite (IH1 Hk). unfold hashAt.
      rewrite lookup_insert_ne by congruence. reflexivity.
    + intros q b Hq Hb Hlast. destruct q as [|q].
      * cbn in Hq. injection Hq as <-.
        assert (Hk : k ∉ ids rows).
        { intros Hin. unfold ids in Hin.
          apply list_elem_of_fmap in Hin as (b' & Hb' & Hin).
          apply list_elem_of_lookup in Hin as [q' Hq'].
          specialize (Hlast (S q') b' Hq' (eq_sym Hb')). lia. }
        rewrite (IH1 Hk). unfold hashAt. rewrite Hb, lookup_insert_eq.
        cbn [default]. rewrite Nat.add_0_r. reflexivity.
      * cbn in Hq. rewrite (IH2 q b Hq Hb).
        -- f_equal. lia.
        -- intros q' b' Hq' Hb'. specialize (Hlast (S q') b' Hq' Hb'). lia.
Qed.

(** X12. [splitAttributeTables] without any assumption on the row
    identifiers: both results have one table per input table; each input
    table is divided between its left and its right table, both in the
    order of the input.  A row whose identifier does not occur in the
    table [index] goes to the right.  When an identifier occurs several
    times in the table [index], its last occurrence decides: the rows with
    this identifier go to the left exactly when that position is
    [<= valIndex]. *)
Theorem splitAttributeTables_last_occurrence (tables : AttributeTables)
    (index valIndex : nat) (win : AttributeTable) :
  tables !! index = Some win ->
  let L := fst (splitAttributeTables tables index valIndex) in
  let R := snd (splitAttributeTables tables index valIndex) in
  length L = length tables /\ length R = length tables /\
  forall i table, tables !! i = Some table ->
    exists l r,
      L !! i = Some l /\ R !! i = Some r /\
      l ++ r ≡ₚ table /\
      l `sublist_of` table /\ r `sublist_of` table /\
      (forall a, a ∈ table -> id a ∉ ids win -> a ∈ r /\ a ∉ l) /\
      (forall a q b,
         a ∈ table -> win !! q = Some b -> id b = id a ->
         (forall q' b', win !! q' = Some b' -> id b' = id a -> (q' <= q)%nat) ->
         (a ∈ l <-> (q <= valIndex)%nat) /\
         (a ∈ r <-> (valIndex < q)%nat)).
Proof.
  intros Hwin L R.
  assert (Hat : at_table tables index = win).
  { unfold at_table. apply nth_lookup_Some with (d := []) in Hwin. exact Hwin. }
  subst L R. rewrite splitAttributeTables_map. cbv zeta. rewrite Hat.
  set (hash := buildHash 0 win valIndex ∅).
  cbn [fst snd]. rewrite !length_fmap.
  split; [reflexivity|]. split; [reflexivity|].
  intros i table Hi.
  exists (filter (fun a => hashAt hash (id a) = true) table),
         (filter (fun a => ~ hashAt hash (id a) = true) table).
  rewrite !list_lookup_fmap, Hi. cbn [fmap option_fmap option_map].
  rewrite splitTable_filter. cbn [fst snd].
  split; [reflexivity|]. split; [reflexivity|].
  split; [apply filter_app_complement|].
  split; [apply sublist_filter|]. split; [apply sublist_filter|].
  split.
  - intros a Ha Hid. rewrite !list_elem_of_filter.
    assert (Hh : hashAt hash (id a) = false).
    { unfold hash. rewrite (proj1 (buildHash_last win valIndex 0 ∅ (id a)) Hid).
      unfold hashAt. rewrite lookup_empty. reflexivity. }
    rewrite Hh. split; [split; [discriminate | exact Ha]|].
    intros [Hc _]. discriminate Hc.
  - intros a q b Ha Hq Hb Hlast. rewrite !list_elem_of_filter.
    assert (Hh : hashAt hash (id a) = (q <=? valIndex)%nat).
    { unfold hash.
      rewrite (proj2 (buildHash_last win valIndex 0 ∅ (id a)) q b Hq Hb Hlast).
      reflexivity. }
    rewrite Hh. destruct (Nat.leb_spec q valIndex) as [Hle|Hgt].
    + split; [split; [intros _; exact Hle | intros _; split; [reflexivity | exact Ha]]|].
      split; [intros [Hc _]; exfalso; apply Hc; reflexivity | lia].
    + split; [split; [intros [Hc _]; discriminate Hc | lia]|].
      split; [intros _; exact Hgt | intros _; split; [discriminate | exact Ha]].
Qed.

Lemma splitAttributeTables_last_occurrence_witness :
  length (fst (splitAttributeTables
                 [[mkRFAttribute 0%Q 7; mkRFAttribute 1%Q 7;
                   mkRFAttribute 2%Q 8];
                  [mkRFAttribute 5%Q 9; mkRFAttribute 6%Q 7]]%nat 0 0))
  = 2%nat /\
  splitAttributeTables
    [[mkRFAttribute 0%Q 7; mkRFAttribute 1%Q 7; mkRFAttribute 2%Q 8];
     [mkRFAttribute 5%Q 9; mkRFAttribute 6%Q 7]]%nat 0 0
  = ([[]; []],
     [[mkRFAttribute 0%Q 7; mkRFAttribute 1%Q 7; mkRFAttribute 2%Q 8];
      [mkRFAttribute 5%Q 9; mkRFAttribute 6%Q 7]]%nat).
Proof.
  split; [|reflexivity].
  apply (splitAttributeTables_last_occurrence
           [[mkRFAttribute 0%Q 7; mkRFAttribute 1%Q 7; mkRFAttribute 2%Q 8];
            [mkRFAttribute 5%Q 9; mkRFAttribute 6%Q 7]]%nat 0 0
           [mkRFAttribute 0%Q 7; mkRFAttribute 1%Q 7; mkRFAttribute 2%Q 8]%nat
           eq_refl).
Defined.

(** ** When a node becomes a leaf *)

(** No boundary among the first [n] rows of the drawn attributes. *)
Lemma candidates_nil_iff (tables : AttributeTables) (n : nat)
    (tableIndicies : list nat) :
  candidates tables n tableIndicies = [] <->
  forall f i, f ∈ tableIndicies -> (1 <= i <= n - 1)%nat ->
    (value (at_row (at_table tables f) (i - 1))
     == value (at_row (at_table tables f) i))%Q.
Proof.
  split.
  - intros Hnil f i Hf Hi.
    destruct (Qeq_dec (value (at_row (at_table tables f) (i - 1)))
                (value (at_row (at_table tables f) i))) as [Heq|Hne];
      [exact Heq|].
    exfalso.
    assert (Hin : (f, i) ∈ candidates tables n tableIndicies)
      by (apply elem_of_candidates; auto).
    rewrite Hnil in Hin. inversion Hin.
  - intros Hall.
    destruct (candidates tables n tableIndicies) as [|[f i] cs] eqn:E;
      [reflexivity|].
    exfalso.
    assert (Hin : (f, i) ∈ candidates tables n tableIndicies)
      by (rewrite E; left).
    apply elem_of_candidates in Hin as (Hf & Hi & Hne).
    apply Hne, Hall; assumption.
Qed.

Section LeafClassification.

Variable t : RFTrainer.
Variable rand : nat -> nat.
Variable dataset : ClassificationDataset.

Lemma decideSplit_None_iff (tables : AttributeTables) (cAbove : ClassVector)
    (tableIndicies : list nat) :
  let n := length (at_table tables 0) in
  Z.of_nat n < 2 ^ 32 ->
  decideSplit t dataset tables cAbove tableIndicies = None <->
  Qeq_bool (gini cAbove (Z.of_nat n)) 0 = true \/
  Z.of_nat n <= m_nodeSize t \/
  candidates tables n tableIndicies = [].
Proof.
  intros n Hn. unfold decideSplit. cbv zeta. fold n.
  destruct (Qeq_bool (gini cAbove (Z.of_nat n)) 0) eqn:Eg; cbn [orb];
    [split; [intros _; left; reflexivity | reflexivity]|].
  destruct (Z.leb_spec (Z.of_nat n) (m_nodeSize t)) as [Hle|Hgt];
    [split; [intros _; right; left; exact Hle | reflexivity]|].
  rewrite searchSplit_fold, pick_pick_by.
  assert (Hn53 : Z.of_nat n < 2 ^ 53) by lia.
  destruct (fold_pick_by_sentinel bestImpurity
              (List.map (candidate t dataset tables cAbove n)
                 (candidates tables n tableIndicies)) (initBest t n)
              (fun c =>
                 candidate_below_sentinel t dataset tables cAbove n
                   tableIndicies c Hn53))
    as [Hnil Hcons].
  cbv zeta in Hnil, Hcons.
  set (b := fold_left (pick_by bestImpurity) _ (initBest t n)) in *.
  clearbody b.
  rewrite usize_small by lia. rewrite inject_Z_plus.
  change (inject_Z 1) with 1%Q.
  destruct (candidates tables n tableIndicies) as [|c cs] eqn:E.
  - rewrite Hnil by reflexivity. cbn [initBest bestImpurity].
    replace (Qlt_bool _ _) with false
      by (symmetry; apply Qlt_bool_false, Qle_refl).
    split; [intros _; right; right; reflexivity | reflexivity].
  - destruct (Hcons ltac:(discriminate)) as (pre & post & Hcs & _).
    assert (Hin : b ∈ List.map (candidate t dataset tables cAbove n)
                        (candidates tables n tableIndicies)).
    { rewrite E, Hcs. apply elem_of_app. right. left. }
    apply candidate_below_sentinel in Hin; [|lia].
    cbn [initBest bestImpurity] in Hin.
    apply Qlt_bool_iff in Hin. rewrite Hin.
    split; [discriminate|]. intros [H|[H|H]]; [discriminate H | lia | discriminate H].
Qed.

(** An accepted split stands at a boundary of a drawn attribute. *)
Lemma decideSplit_boundary (tables : AttributeTables) (cAbove : ClassVector)
    (tableIndicies : list nat) (best : Best) :
  Z.of_nat (length (at_table tables 0)) < 2 ^ 32 ->
  decideSplit t dataset tables cAbove tableIndicies = Some best ->
  exists f i,
    (f, i) ∈ candidates tables (length (at_table tables 0)) tableIndicies /\
    best = candidate t dataset tables cAbove (length (at_table tables 0)) (f, i).
Proof.
  intros Hn. unfold decideSplit. cbv zeta.
  set (n := length (at_table tables 0)) in *.
  destruct (Qeq_bool _ _ || _); [discriminate|].
  rewrite searchSplit_fold, pick_pick_by.
  destruct (fold_pick_by bestImpurity
              (List.map (candidate t dataset tables cAbove n)
                 (candidates tables n tableIndicies)) (initBest t n))
    as [[Heq _]|[_ (pre & post & Hcs & _)]].
  - rewrite Heq. cbn [initBest bestImpurity].
    rewrite usize_small by lia. rewrite inject_Z_plus.
    replace (Qlt_bool _ _) with false; [discriminate|].
    symmetry. apply Qlt_bool_false. apply Qle_refl.
  - set (b := fold_left _ _ _) in *. clearbody b.
    destruct (Qlt_bool _ _); [|discriminate]. intros [= <-].
    assert (Hin : b ∈ List.map (candidate t dataset tables cAbove n)
                        (candidates tables n tableIndicies)).
    { rewrite Hcs. apply elem_of_app. right. left. }
    apply list_elem_of_In, in_map_iff in Hin as ([f i] & <- & Hc).
    exists f, i. split; [apply list_elem_of_In, Hc | reflexivity].
Qed.

Lemma buildTree_nonempty (fuel : nat) (tables : AttributeTables)
    (cAbove : ClassVector) (rootId : Z) (pos : nat) (tree : TreeType)
    (pos' : nat) :
  buildTree t rand dataset fuel tables cAbove rootId pos = Ret (tree, pos') ->
  (1 <= length tree)%nat.
Proof.
  intros H. apply buildTree_shape in H as (s & -> & _).
  destruct s; cbn; lia.
Qed.

End LeafClassification.

(** X13. A classification [buildTree] call that returns, on tables of fewer
    than [2^32] rows: the tree is a single leaf exactly when the node has
    one class only ([gini == 0]), or at most [m_nodeSize] rows, or when
    every attribute that was drawn is constant over the rows of the node,
    so that there is no boundary to split at.  The leaf then carries the
    histogram of the counters.  Otherwise the tree has at least three
    nodes, and its first node splits on a drawn attribute at the value
    below one of its boundaries. *)
Theorem buildTree_leaf_iff (t : RFTrainer) (rand : nat -> nat)
    (dataset : ClassificationDataset) (fuel : nat)
    (tables : AttributeTables) (cAbove : ClassVector) (rootId : Z)
    (pos : nat) (tree : TreeType) (pos' : nat) :
  Z.of_nat (length (at_table tables 0)) < 2 ^ 32 ->
  buildTree t rand dataset (S fuel) tables cAbove rootId pos
    = Ret (tree, pos') ->
  let n := length (at_table tables 0) in
  (length tree = 1%nat <->
   Qeq_bool (gini cAbove (Z.of_nat n)) 0 = true \/
   Z.of_nat n <= m_nodeSize t \/
   exists tableIndicies pos1,
     generateRandomTableIndicies t rand fuel pos [] = Ret (tableIndicies, pos1) /\
     forall f i, f ∈ tableIndicies -> (1 <= i <= n - 1)%nat ->
       (value (at_row (at_table tables f) (i - 1))
        == value (at_row (at_table tables f) i))%Q) /\
  (length tree = 1%nat ->
   exists h, hist t cAbove = Ret h /\ tree = [withLabel (newNode rootId) h]) /\
  (length tree <> 1%nat ->
   (3 <= length tree)%nat /\
   exists tableIndicies pos1 f i lTree rTree,
     generateRandomTableIndicies t rand fuel pos [] = Ret (tableIndicies, pos1) /\
     f ∈ tableIndicies /\ (1 <= i <= n - 1)%nat /\
     ~ (value (at_row (at_table tables f) (i - 1))
        == value (at_row (at_table tables f) i))%Q /\
     tree = withSplit (newNode rootId) f
              (value (at_row (at_table tables f) (i - 1)))
            :: lTree ++ rTree).
Proof.
  intros Hn H n. rewrite buildTree_unfold in H. cbv zeta in H. fold n in H.
  assert (Hleaf : forall pos0,
            (h ← hist t cAbove; Ret ([withLabel (newNode rootId) h], pos0))
            = Ret (tree, pos') ->
            exists h, hist t cAbove = Ret h /\
                      tree = [withLabel (newNode rootId) h]).
  { intros pos0 Hl. apply bind_Ret_inv in Hl as (h & Hh & [= <- _]).
    exists h. auto. }
  destruct (Qeq_bool (gini cAbove (Z.of_nat n)) 0) eqn:Eg; cbn [orb] in H.
  { destruct (Hleaf _ H) as (h & Hh & ->).
    split; [split; [intros _; left; reflexivity | reflexivity]|].
    split; [intros _; exists h; auto|]. intros Hc. exfalso. apply Hc. reflexivity. }
  destruct (Z.leb_spec (Z.of_nat n) (m_nodeSize t)) as [Hle|Hgt].
  { destruct (Hleaf _ H) as (h & Hh & ->).
    split; [split; [intros _; right; left; exact Hle | reflexivity]|].
    split; [intros _; exists h; auto|]. intros Hc. exfalso. apply Hc. reflexivity. }
  apply bind_Ret_inv in H as ([ti pos1] & Hgen & H).
  pose proof (decideSplit_None_iff t dataset tables cAbove ti Hn) as Hiff.
  fold n in Hiff. rewrite Eg in Hiff.
  destruct (decideSplit t dataset tables cAbove ti) as [best|] eqn:Hdec.
  - destruct (decideSplit_boundary t dataset tables cAbove ti best Hn Hdec)
      as (f & i & Hcand & Hbest). fold n in Hcand, Hbest.
    apply bind_Ret_inv in H as ([lTree pos2] & Hl & H).
    apply bind_Ret_inv in H as ([rTree pos3] & Hr & [= <- _]).
    apply buildTree_nonempty in Hl, Hr.
    assert (Hlen : (3 <= length
                      (withSplit (newNode rootId) (bestAttributeIndex best)
                         (bestAttributeVal best) :: lTree ++ rTree))%nat).
    { cbn [length]. rewrite length_app. lia. }
    apply elem_of_candidates in Hcand as (Hf & Hi & Hne).
    split; [|split].
    + split; [intros Hone; lia|].
      intros [Hc|[Hc|(ti' & pos1' & Hgen' & Hconst)]];
        [discriminate Hc | lia |].
      rewrite Hgen in Hgen'. injection Hgen' as <- <-.
      exfalso. apply Hne, Hconst; assumption.
    + intros Hone. lia.
    + intros _. split; [exact Hlen|].
      exists ti, pos1, f, i, lTree, rTree.
      split; [exact Hgen|]. split; [exact Hf|]. split; [exact Hi|].
      split; [exact Hne|]. rewrite Hbest. reflexivity.
  - destruct (Hleaf _ H) as (h & Hh & ->).
    assert (Hnil : candidates tables n ti = []).
    { destruct (proj1 Hiff eq_refl) as [Hc|[Hc|Hc]];
        [discriminate Hc | lia | exact Hc]. }
    split; [split; [|reflexivity]|].
    + intros _. right. right. exists ti, pos1. split; [exact Hgen|].
      apply candidates_nil_iff, Hnil.
    + split; [intros _; exists h; auto|]. intros Hc. exfalso. apply Hc.
      reflexivity.
Qed.

Lemma buildTree_leaf_iff_witness :
  exists tree pos',
    buildTree Example.trainer Example.rand Example.data 3
      Example.tables Example.counts 0 0 = Ret (tree, pos') /\
    (3 <= length tree)%nat.
Proof.
  destruct (buildTree Example.trainer Example.rand Example.data 3
              Example.tables Example.counts 0 0) as [[tree pos']| | | |] eqn:E;
    try (vm_compute in E; discriminate E).
  exists tree, pos'. split; [reflexivity|].
  destruct (buildTree_leaf_iff Example.trainer Example.rand Example.data 2
              Example.tables Example.counts 0 0 tree pos') as (_ & _ & H).
  - cbn. lia.
  - exact E.
  - apply H. intros Hone. vm_compute in E. injection E as <- _.
    discriminate Hone.
Defined.

Section LeafRegression.

Variable t : RFTrainer.
Variable rand : nat -> nat.
Variable dataset : RegressionDataset.

(** The regression search on well-formed arguments: it splits exactly when
    a drawn attribute has a boundary, and then at one of the boundaries. *)
Lemma searchSplitR_boundary (tables : AttributeTables)
    (labels : list RealVector) (tableIndicies : list nat) :
  wf_nodeR t tables labels -> in_range t tableIndicies ->
  let n := length (at_table tables 0) in
  exists best,
    searchSplitR t dataset tables n tableIndicies = Ret best /\
    (candidates tables n tableIndicies = [] -> doSplit best = false) /\
    (candidates tables n tableIndicies <> [] ->
     doSplit best = true /\
     exists f i,
       (f, i) ∈ candidates tables n tableIndicies /\
       candidateR t dataset tables n (f, i) = Ret best).
Proof.
  intros Hwf Hrange n.
  pose proof (wf_nodeR_rows t tables labels tableIndicies Hwf Hrange) as Hlen.
  destruct Hwf as [Hdim Hhas Hrows Hnd Hne Hbound Hlab].
  fold n in Hlen, Hbound.
  destruct (candidatesR_return t dataset tables n tableIndicies Hlen Hbound)
    as (recs & Hrecs & Hprops).
  exists (fold_left pickR recs initBestR).
  split; [apply searchSplitR_fold, Hrecs|].
  assert (Hnonneg : Forall (fun b => (0 <= r_bestImpurity b)%Q) recs).
  { eapply Forall_impl; [exact Hprops|]. intros b [H _]. exact H. }
  destruct (fold_pickR_sentinel recs Hnonneg) as [Hnil Hcons].
  set (b := fold_left pickR recs initBestR) in *. clearbody b.
  split.
  - intros Hc. rewrite Hc in Hrecs. inversion Hrecs; subst.
    rewrite Hnil by reflexivity. reflexivity.
  - intros Hc.
    destruct recs as [|r0 recs].
    { inversion Hrecs as [Hc'|]; subst. exfalso. apply Hc. symmetry. exact Hc'. }
    destruct (Hcons ltac:(discriminate)) as (pre & post & Heq & _).
    assert (Hin : b ∈ r0 :: recs) by (rewrite Heq; apply elem_of_app; right; left).
    split.
    + rewrite Forall_forall in Hprops. apply (Hprops b Hin).
    + destruct (Forall2_elem_of_r _ _ _ _ Hrecs Hin) as ([f i] & Hcand & Hb).
      exists f, i. auto.
Qed.

Lemma buildTreeR_nonempty (fuel : nat) (tables : AttributeTables)
    (labels : list RealVector) (rootId : Z) (pos : nat) (tree : TreeType)
    (pos' : nat) :
  buildTreeR t rand dataset fuel tables labels rootId pos = Ret (tree, pos') ->
  (1 <= length tree)%nat.
Proof.
  intros H. apply buildTreeR_shape in H as (s & -> & _).
  destruct s; cbn; lia.
Qed.

End LeafRegression.

(** X14. A regression [buildTree] call on well-formed arguments that
    returns: the tree is a single leaf exactly when the node has at most
    [m_nodeSize] rows or every attribute that was drawn is constant over
    the rows of the node.  There is no test on the labels: a node whose
    labels are all equal is split like any other.  The first node of the
    tree carries the mean of the labels in both cases; when the node is
    split, it splits on a drawn attribute at the value below one of its
    boundaries. *)
Theorem buildTreeR_leaf_iff (t : RFTrainer) (rand : nat -> nat)
    (dataset : RegressionDataset) (fuel : nat)
    (tables : AttributeTables) (labels : list RealVector) (rootId : Z)
    (pos : nat) (tree : TreeType) (pos' : nat) :
  wf_nodeR t tables labels ->
  buildTreeR t rand dataset (S fuel) tables labels rootId pos
    = Ret (tree, pos') ->
  let n := length (at_table tables 0) in
  exists avg,
    average labels = Ret avg /\
    (length tree = 1%nat <->
     Z.of_nat n <= m_nodeSize t \/
     exists tableIndicies pos1,
       generateRandomTableIndicies t rand fuel pos [] = Ret (tableIndicies, pos1) /\
       forall f i, f ∈ tableIndicies -> (1 <= i <= n - 1)%nat ->
         (value (at_row (at_table tables f) (i - 1))
          == value (at_row (at_table tables f) i))%Q) /\
    (length tree = 1%nat -> tree = [withLabel (newNode rootId) avg]) /\
    (length tree <> 1%nat ->
     (3 <= length tree)%nat /\
     exists tableIndicies pos1 f i lTree rTree,
       generateRandomTableIndicies t rand fuel pos [] = Ret (tableIndicies, pos1) /\
       f ∈ tableIndicies /\ (1 <= i <= n - 1)%nat /\
       ~ (value (at_row (at_table tables f) (i - 1))
          == value (at_row (at_table tables f) i))%Q /\
       tree = withSplit (withLabel (newNode rootId) avg) f
                (value (at_row (at_table tables f) (i - 1)))
              :: lTree ++ rTree).
Proof.
  intros Hwf H n. rewrite buildTreeR_unfold in H.
  apply bind_Ret_inv in H as (avg & Havg & H). cbv zeta in H. fold n in H.
  exists avg. split; [exact Havg|].
  destruct (Z.leb_spec (Z.of_nat n) (m_nodeSize t)) as [Hle|Hgt].
  { injection H as <- _.
    split; [split; [intros _; left; exact Hle | reflexivity]|].
    split; [reflexivity|]. intros Hc. exfalso. apply Hc. reflexivity. }
  apply bind_Ret_inv in H as ([ti pos1] & Hgen & H).
  pose proof (generate_in_range t rand fuel pos ti pos1 Hgen) as Hrange.
  destruct (searchSplitR_boundary t dataset tables labels ti Hwf Hrange)
    as (best & Hbest & Hnil & Hcons). fold n in Hbest, Hnil, Hcons.
  rewrite Hbest in H. cbn [mbind outcome_bind] in H.
  destruct (candidates tables n ti) as [|c cs] eqn:E.
  - rewrite Hnil in H by reflexivity. injection H as <- _.
    split; [split; [|reflexivity]|].
    + intros _. right. exists ti, pos1. split; [exact Hgen|].
      apply candidates_nil_iff, E.
    + split; [reflexivity|]. intros Hc. exfalso. apply Hc. reflexivity.
  - destruct (Hcons ltac:(discriminate)) as (Hdo & f & i & Hcand & Hb).
    rewrite Hdo in H. rewrite <- E in Hcand.
    apply elem_of_candidates in Hcand as (Hf & Hi & Hne).
    assert (Hlenf : (n <= length (at_table tables f))%nat)
      by (apply (wf_nodeR_rows t tables labels ti Hwf Hrange), Hf).
    destruct (candidateR_returns t dataset tables n (f, i) Hi Hlenf
                (wfR_bound _ _ _ Hwf))
      as (b & Hb' & _ & _ & Hattr & _ & Hval & _).
    rewrite Hb in Hb'. injection Hb' as <-. cbn [fst snd] in Hattr, Hval.
    apply bind_Ret_inv in H as ([lTree pos2] & Hl & H).
    apply bind_Ret_inv in H as ([rTree pos3] & Hr & [= <- _]).
    apply buildTreeR_nonempty in Hl, Hr.
    assert (Hlen : (3 <= length
                      (withSplit (withLabel (newNode rootId) avg)
                         (r_bestAttributeIndex best) (r_bestAttributeVal best)
                       :: lTree ++ rTree))%nat).
    { cbn [length]. rewrite length_app. lia. }
    split; [|split].
    + split; [intros Hone; lia|].
      intros [Hc|(ti' & pos1' & Hgen' & Hconst)]; [lia|].
      rewrite Hgen in Hgen'. injection Hgen' as <- <-.
      exfalso. apply Hne, Hconst; assumption.
    + intros Hone. lia.
    + intros _. split; [exact Hlen|].
      exists ti, pos1, f, i, lTree, rTree.
      split; [exact Hgen|]. split; [exact Hf|]. split; [exact Hi|].
      split; [exact Hne|]. rewrite Hattr, Hval. reflexivity.
Qed.

Lemma buildTreeR_leaf_iff_witness :
  exists tree pos' avg,
    buildTreeR Example.trainer Example.rand Example.dataR 3
      Example.tables Example.labels 0 0 = Ret (tree, pos') /\
    average Example.labels = Ret avg /\
    (3 <= length tree)%nat.
Proof.
  destruct (buildTreeR Example.trainer Example.rand Example.dataR 3
              Example.tables Example.labels 0 0) as [[tree pos']| | | |] eqn:E;
    try (vm_compute in E; discriminate E).
  destruct (buildTreeR_leaf_iff Example.trainer Example.rand Example.dataR 2
              Example.tables Example.labels 0 0 tree pos' example_wfR E)
    as (avg & Havg & _ & _ & H).
  exists tree, pos', avg. split; [reflexivity|]. split; [exact Havg|].
  apply H. intros Hone. vm_compute in E. injection E as <- _.
  discriminate Hone.
Defined.

(** ** The threshold of a split separates the two sides *)

Lemma sorted_positions (win : AttributeTable) (j k : nat) (x y : RFAttribute) :
  sorted_table win -> (j <= k)%nat ->
  win !! j = Some x -> win !! k = Some y -> (value x <= value y)%Q.
Proof.
  intros Hs Hjk Hx Hy.
  destruct (decide (j = k)) as [->|Hne].
  { rewrite Hx in Hy. injection Hy as <-. apply Qle_refl. }
  assert (Hss : StronglySorted (fun a b => (value a <= value b)%Q) win)
    by (apply Sorted_StronglySorted; [apply Qle_value_trans | exact Hs]).
  clear Hs. rename Hss into Hs.
  rewrite <- (take_drop k win) in Hs.
  eapply (StronglySorted_app_1_elem_of _ _ _ x y Hs).
  - apply list_elem_of_lookup. exists j. rewrite lookup_take_lt by lia. exact Hx.
  - apply list_elem_of_lookup. exists 0%nat. rewrite lookup_drop, Nat.add_0_r.
    exact Hy.
Qed.

Lemma sorted_boundary (win : AttributeTable) (i : nat) :
  sorted_table win -> (1 <= i <= length win - 1)%nat ->
  ~ (value (at_row win (i - 1)) == value (at_row win i))%Q ->
  (forall b, b ∈ take i win -> (value b <= value (at_row win (i - 1)))%Q) /\
  (forall b, b ∈ drop i win -> (value (at_row win (i - 1)) < value b)%Q).
Proof.
  intros Hs Hi Hne.
  pose proof (at_row_lookup win (i - 1) ltac:(lia)) as Hprev.
  pose proof (at_row_lookup win i ltac:(lia)) as Hcur.
  assert (Hlt : (value (at_row win (i - 1)) < value (at_row win i))%Q).
  { pose proof (sorted_positions win (i - 1) i _ _ Hs ltac:(lia) Hprev Hcur)
      as Hle.
    apply Qle_lt_or_eq in Hle as [H|H]; [exact H | contradiction]. }
  split.
  - intros b Hb. apply list_elem_of_lookup in Hb as [j Hj].
    apply lookup_take_Some in Hj as [Hj Hji].
    apply (sorted_positions win j (i - 1) b _ Hs ltac:(lia) Hj Hprev).
  - intros b Hb. apply list_elem_of_lookup in Hb as [k Hk].
    rewrite lookup_drop in Hk.
    eapply Qlt_le_trans; [exact Hlt|].
    apply (sorted_positions win i (i + k) _ b Hs ltac:(lia) Hcur Hk).
Qed.

Lemma elem_of_ids (table : AttributeTable) (k : nat) :
  k ∈ ids table <-> exists b, b ∈ table /\ id b = k.
Proof.
  unfold ids. rewrite list_elem_of_fmap. split.
  - intros (b & -> & Hb). exists b. auto.
  - intros (b & Hb & <-). exists b. auto.
Qed.

(** The rows of the left tables are at most the threshold in the winning
    attribute, the rows of the right tables above it. *)
Lemma split_separates (tables : AttributeTables) (f i : nat) :
  (0 < length tables)%nat -> (f < length tables)%nat ->
  (forall table, table ∈ tables -> ids table ≡ₚ ids (at_table tables 0)) ->
  NoDup (ids (at_table tables 0)) ->
  (1 <= i <= length (at_table tables 0) - 1)%nat ->
  sorted_table (at_table tables f) ->
  ~ (value (at_row (at_table tables f) (i - 1))
     == value (at_row (at_table tables f) i))%Q ->
  let win := at_table tables f in
  let v := value (at_row win (i - 1)) in
  let split := splitAttributeTables tables f (i - 1) in
  (forall table a, table ∈ split.1 -> a ∈ table ->
     exists b, b ∈ win /\ id b = id a /\ (value b <= v)%Q) /\
  (forall table a, table ∈ split.2 -> a ∈ table ->
     exists b, b ∈ win /\ id b = id a /\ (v < value b)%Q).
Proof.
  intros H0 Hf Hrows Hnd Hi Hs Hne win v split.
  destruct (split_tables tables f (i - 1) H0 Hf Hrows Hnd ltac:(lia))
    as (_ & _ & HL & HR & _ & _ & Hlenw & _).
  replace (S (i - 1)) with i in HL, HR by lia. fold win in HL, HR, Hlenw.
  destruct (sorted_boundary win i Hs ltac:(lia) Hne) as [Hle Hgt].
  split.
  - intros table a Hin Ha.
    assert (Hid : id a ∈ ids (take i win)).
    { rewrite <- (proj1 (HL table Hin)). apply elem_of_ids. exists a. auto. }
    apply elem_of_ids in Hid as (b & Hb & Hidb).
    exists b. split; [|split; [exact Hidb | apply Hle, Hb]].
    eapply elem_of_sublist; [exact Hb | apply sublist_take].
  - intros table a Hin Ha.
    assert (Hid : id a ∈ ids (drop i win)).
    { rewrite <- (proj1 (HR table Hin)). apply elem_of_ids. exists a. auto. }
    apply elem_of_ids in Hid as (b & Hb & Hidb).
    exists b. split; [|split; [exact Hidb | apply Hgt, Hb]].
    eapply elem_of_sublist; [exact Hb | apply sublist_drop].
Qed.

Lemma split_sorted (tables : AttributeTables) (f p : nat) :
  NoDup (ids (at_table tables f)) ->
  (forall table, table ∈ tables -> sorted_table table) ->
  (forall table, table ∈ (splitAttributeTables tables f p).1 ->
     sorted_table table) /\
  (forall table, table ∈ (splitAttributeTables tables f p).2 ->
     sorted_table table).
Proof.
  intros Hnd Hs. rewrite splitAttributeTables_filter by exact Hnd.
  cbn [fst snd]. split; intros table' Hin;
    apply list_elem_of_fmap in Hin as (table & -> & Hin);
    (eapply sorted_table_sublist; [apply sublist_filter | apply Hs, Hin]).
Qed.

Section Separation.

Variable t : RFTrainer.
Variable rand : nat -> nat.

Lemma decideSplit_separates (dataset : ClassificationDataset)
    (tables : AttributeTables) (cAbove : ClassVector)
    (tableIndicies : list nat) (best : Best) :
  wf_node t dataset tables cAbove ->
  (forall table, table ∈ tables -> sorted_table table) ->
  in_range t tableIndicies ->
  decideSplit t dataset tables cAbove tableIndicies = Some best ->
  let f := bestAttributeIndex best in
  let v := bestAttributeVal best in
  let split := splitAttributeTables tables f (bestAttributeValIndex best) in
  let win := at_table tables f in
  (f < m_inputDimension t)%nat /\ f ∈ tableIndicies /\
  (exists b, b ∈ win /\ value b = v) /\
  (forall table a, table ∈ split.1 -> a ∈ table ->
     exists b, b ∈ win /\ id b = id a /\ (value b <= v)%Q) /\
  (forall table a, table ∈ split.2 -> a ∈ table ->
     exists b, b ∈ win /\ id b = id a /\ (v < value b)%Q) /\
  (forall table, table ∈ split.1 -> sorted_table table) /\
  (forall table, table ∈ split.2 -> sorted_table table).
Proof.
  intros Hwf Hsorted Hrange Hdec f v split win.
  destruct (decideSplit_boundary t dataset tables cAbove tableIndicies best
              (wf_bound _ _ _ _ Hwf) Hdec) as (f' & i & Hcand & Hbest).
  apply elem_of_candidates in Hcand as (Hf & Hi & Hne).
  assert (Hattr : f = f') by (unfold f; rewrite Hbest; reflexivity).
  assert (Hval : v = value (at_row (at_table tables f') (i - 1)))
    by (unfold v; rewrite Hbest; reflexivity).
  assert (Hp : bestAttributeValIndex best = (i - 1)%nat)
    by (rewrite Hbest; reflexivity).
  subst split win. rewrite Hp. clearbody f v. subst f' v.
  destruct Hwf as [Hdim Hhas Hrows Hnd Hne' Hbound Hlab Hcounts].
  assert (Hfd : (f < length tables)%nat) by (rewrite Hdim; apply Hrange, Hf).
  assert (Hwin : ids (at_table tables f) ≡ₚ ids (at_table tables 0))
    by (apply Hrows, at_table_elem_of, Hfd).
  assert (Hlenw : length (at_table tables f) = length (at_table tables 0))
    by (apply length_ids_perm, Hwin).
  destruct (split_separates tables f i Hhas Hfd Hrows Hnd Hi
              (Hsorted _ (at_table_elem_of tables f Hfd)) Hne) as [HL HR].
  destruct (split_sorted tables f (i - 1)
              ltac:(rewrite Hwin; exact Hnd) Hsorted) as [HsL HsR].
  split; [rewrite <- Hdim; exact Hfd|]. split; [exact Hf|].
  split.
  { exists (at_row (at_table tables f) (i - 1)). split; [|reflexivity].
    eapply list_elem_of_lookup_2, at_row_lookup. lia. }
  split; [exact HL|]. split; [exact HR|]. split; [exact HsL | exact HsR].
Qed.

Lemma decideSplitR_boundary (dataset : RegressionDataset)
    (tables : AttributeTables) (labels : list RealVector)
    (tableIndicies : list nat) (best : BestR) :
  wf_nodeR t tables labels -> in_range t tableIndicies ->
  decideSplitR t dataset tables tableIndicies = Some best ->
  exists f i,
    (f, i) ∈ candidates tables (length (at_table tables 0)) tableIndicies /\
    r_bestAttributeIndex best = f /\
    r_bestAttributeValIndex best = (i - 1)%nat /\
    r_bestAttributeVal best = value (at_row (at_table tables f) (i - 1)) /\
    bestLabels best = labelsOf dataset (at_table tables f).
Proof.
  intros Hwf Hrange. unfold decideSplitR. cbv zeta.
  destruct (_ <=? _); [discriminate|].
  destruct (searchSplitR_boundary t dataset tables labels tableIndicies
              Hwf Hrange) as (b & Hb & Hnil & Hcons).
  rewrite Hb. destruct (doSplit b) eqn:Hdo; [|discriminate].
  intros [= <-].
  assert (Hsome : candidates tables (length (at_table tables 0)) tableIndicies
                  <> []).
  { intros Hc. specialize (Hnil Hc). discriminate Hnil. }
  destruct (Hcons Hsome) as (_ & f & i & Hcand & Hc).
  pose proof Hcand as Hcand'.
  apply elem_of_candidates in Hcand' as (Hf & Hi & _).
  destruct (candidateR_returns t dataset tables _ (f, i) Hi
              (wf_nodeR_rows t tables labels tableIndicies Hwf Hrange f Hf)
              (wfR_bound _ _ _ Hwf))
    as (b' & Hb' & _ & _ & Hattr & Hp & Hval & Hlab).
  rewrite Hc in Hb'. injection Hb' as <-.
  exists f, i. auto.
Qed.

Lemma decideSplitR_separates (dataset : RegressionDataset)
    (tables : AttributeTables) (labels : list RealVector)
    (tableIndicies : list nat) (best : BestR) :
  wf_nodeR t tables labels ->
  (forall table, table ∈ tables -> sorted_table table) ->
  in_range t tableIndicies ->
  decideSplitR t dataset tables tableIndicies = Some best ->
  let f := r_bestAttributeIndex best in
  let v := r_bestAttributeVal best in
  let split := splitAttributeTables tables f (r_bestAttributeValIndex best) in
  let win := at_table tables f in
  (f < m_inputDimension t)%nat /\ f ∈ tableIndicies /\
  (exists b, b ∈ win /\ value b = v) /\
  (forall table a, table ∈ split.1 -> a ∈ table ->
     exists b, b ∈ win /\ id b = id a /\ (value b <= v)%Q) /\
  (forall table a, table ∈ split.2 -> a ∈ table ->
     exists b, b ∈ win /\ id b = id a /\ (v < value b)%Q) /\
  (forall table, table ∈ split.1 -> sorted_table table) /\
  (forall table, table ∈ split.2 -> sorted_table table).
Proof.
  intros Hwf Hsorted Hrange Hdec f v split win.
  destruct (decideSplitR_boundary dataset tables labels tableIndicies best
              Hwf Hrange Hdec) as (f' & i & Hcand & Hattr & Hp & Hval & _).
  apply elem_of_candidates in Hcand as (Hf & Hi & Hne).
  subst split win. rewrite Hp. unfold v, f. rewrite Hval, Hattr.
  clear f v.
  destruct Hwf as [Hdim Hhas Hrows Hnd Hne' Hbound Hlab].
  assert (Hfd : (f' < length tables)%nat) by (rewrite Hdim; apply Hrange, Hf).
  assert (Hwin : ids (at_table tables f') ≡ₚ ids (at_table tables 0))
    by (apply Hrows, at_table_elem_of, Hfd).
  destruct (split_separates tables f' i Hhas Hfd Hrows Hnd Hi
              (Hsorted _ (at_table_elem_of tables f' Hfd)) Hne) as [HL HR].
  destruct (split_sorted tables f' (i - 1)
              ltac:(rewrite Hwin; exact Hnd) Hsorted) as [HsL HsR].
  assert (Hlenw : length (at_table tables f') = length (at_table tables 0))
    by (apply length_ids_perm, Hwin).
  split; [rewrite <- Hdim; exact Hfd|]. split; [exact Hf|].
  split.
  { exists (at_row (at_table tables f') (i - 1)). split; [|reflexivity].
    eapply list_elem_of_lookup_2, at_row_lookup. lia. }
  split; [exact HL|]. split; [exact HR|]. split; [exact HsL | exact HsR].
Qed.

Lemma reachable_sorted (dataset : ClassificationDataset)
    (c c' : AttributeTables * ClassVector) :
  rtc (subcall t rand dataset) c c' ->
  wf_node t dataset c.1 c.2 ->
  (forall table, table ∈ c.1 -> sorted_table table) ->
  forall table, table ∈ c'.1 -> sorted_table table.
Proof.
  induction 1 as [|c1 c2 c3 Hstep _ IH]; intros Hwf Hs; [exact Hs|].
  apply IH; [eapply subcall_wf; eassumption|].
  destruct Hstep as [tables cAbove fuel pos ti pos' best Hgen Hdec
                    |tables cAbove fuel pos ti pos' best Hgen Hdec];
    cbn [fst snd] in *;
    destruct (decideSplit_separates dataset tables cAbove ti best Hwf Hs
                (generate_in_range t rand fuel pos ti pos' Hgen) Hdec)
      as (_ & _ & _ & _ & _ & HsL & HsR); assumption.
Qed.

Lemma reachableR_sorted (dataset : RegressionDataset)
    (c c' : AttributeTables * list RealVector) :
  rtc (subcallR t rand dataset) c c' ->
  wf_nodeR t c.1 c.2 ->
  (forall table, table ∈ c.1 -> sorted_table table) ->
  forall table, table ∈ c'.1 -> sorted_table table.
Proof.
  induction 1 as [|c1 c2 c3 Hstep _ IH]; intros Hwf Hs; [exact Hs|].
  apply IH; [eapply subcallR_wf; eassumption|].
  destruct Hstep as [tables labels fuel pos ti pos' best Hgen Hdec
                    |tables labels fuel pos ti pos' best Hgen Hdec];
    cbn [fst snd] in *;
    destruct (decideSplitR_separates dataset tables labels ti best Hwf Hs
                (generate_in_range t rand fuel pos ti pos' Hgen) Hdec)
      as (_ & _ & _ & _ & _ & HsL & HsR); assumption.
Qed.

End Separation.

(** X15. The threshold of a split separates the rows.  From a root call on
    well-formed arguments whose tables are sorted by value (the tables that
    [createAttributeTables] builds), the tables of every call that the
    recursion reaches are sorted, and for every split that such a call
    accepts, on attribute [f] with threshold [v]: [f] is one of the drawn
    attributes, below the input dimension, and [v] is a value of
    attribute [f] in the node; every row that goes to the left tables has
    a value of attribute [f] that is at most [v], and every row that goes
    to the right tables a value above [v].  This holds for the
    classification and for the regression builder. *)
Theorem split_threshold_separates (t : RFTrainer) (rand : nat -> nat) :
  (forall (dataset : ClassificationDataset) tables cAbove,
     wf_node t dataset tables cAbove ->
     (forall table, table ∈ tables -> sorted_table table) ->
     forall c, rtc (subcall t rand dataset) (tables, cAbove) c ->
       (forall table, table ∈ c.1 -> sorted_table table) /\
       forall fuel pos tableIndicies pos' best,
         generateRandomTableIndicies t rand fuel pos []
           = Ret (tableIndicies, pos') ->
         decideSplit t dataset c.1 c.2 tableIndicies = Some best ->
         let f := bestAttributeIndex best in
         let v := bestAttributeVal best in
         let split :=
           splitAttributeTables c.1 f (bestAttributeValIndex best) in
         let win := at_table c.1 f in
         (f < m_inputDimension t)%nat /\ f ∈ tableIndicies /\
         (exists b, b ∈ win /\ value b = v) /\
         (forall table a, table ∈ split.1 -> a ∈ table ->
            exists b, b ∈ win /\ id b = id a /\ (value b <= v)%Q) /\
         (forall table a, table ∈ split.2 -> a ∈ table ->
            exists b, b ∈ win /\ id b = id a /\ (v < value b)%Q)) /\
  (forall (dataset : RegressionDataset) tables labels,
     wf_nodeR t tables labels ->
     (forall table, table ∈ tables -> sorted_table table) ->
     forall c, rtc (subcallR t rand dataset) (tables, labels) c ->
       (forall table, table ∈ c.1 -> sorted_table table) /\
       forall fuel pos tableIndicies pos' best,
         generateRandomTableIndicies t rand fuel pos []
           = Ret (tableIndicies, pos') ->
         decideSplitR t dataset c.1 tableIndicies = Some best ->
         let f := r_bestAttributeIndex best in
         let v := r_bestAttributeVal best in
         let split :=
           splitAttributeTables c.1 f (r_bestAttributeValIndex best) in
         let win := at_table c.1 f in
         (f < m_inputDimension t)%nat /\ f ∈ tableIndicies /\
         (exists b, b ∈ win /\ value b = v) /\
         (forall table a, table ∈ split.1 -> a ∈ table ->
            exists b, b ∈ win /\ id b = id a /\ (value b <= v)%Q) /\
         (forall table a, table ∈ split.2 -> a ∈ table ->
            exists b, b ∈ win /\ id b = id a /\ (v < value b)%Q)).
Proof.
  split.
  - intros dataset tables cAbove Hwf Hs c Hreach.
    pose proof (reachable_wf t rand dataset _ _ Hreach Hwf) as Hc.
    pose proof (reachable_sorted t rand dataset _ _ Hreach Hwf Hs) as Hsc.
    cbn [fst snd] in Hc, Hsc. split; [exact Hsc|].
    intros fuel pos ti pos' best Hgen Hdec f v split win.
    destruct (decideSplit_separates t dataset c.1 c.2 ti best Hc Hsc
                (generate_in_range t rand fuel pos ti pos' Hgen) Hdec)
      as (H1 & H2 & H3 & H4 & H5 & _).
    repeat (split; [assumption|]). assumption.
  - intros dataset tables labels Hwf Hs c Hreach.
    pose proof (reachableR_wf t rand dataset _ _ Hreach Hwf) as Hc.
    pose proof (reachableR_sorted t rand dataset _ _ Hreach Hwf Hs) as Hsc.
    cbn [fst snd] in Hc, Hsc. split; [exact Hsc|].
    intros fuel pos ti pos' best Hgen Hdec f v split win.
    destruct (decideSplitR_separates t dataset c.1 c.2 ti best Hc Hsc
                (generate_in_range t rand fuel pos ti pos' Hgen) Hdec)
      as (H1 & H2 & H3 & H4 & H5 & _).
    repeat (split; [assumption|]). assumption.
Qed.

Lemma example_sorted :
  forall table, table ∈ Example.tables -> sorted_table table.
Proof.
  intros table Hin. vm_compute in Hin.
  apply list_elem_of_singleton in Hin as ->.
  unfold sorted_table. repeat constructor; cbn; apply Qle_bool_iff; reflexivity.
Qed.

Lemma split_threshold_separates_witness :
  exists best,
    decideSplit Example.trainer Example.data Example.tables Example.counts
      [0%nat] = Some best /\
    (bestAttributeIndex best < 1)%nat /\
    exists b, b ∈ at_table Example.tables (bestAttributeIndex best) /\
              value b = bestAttributeVal best.
Proof.
  destruct (decideSplit Example.trainer Example.data Example.tables
              Example.counts [0%nat]) as [best|] eqn:E;
    [|vm_compute in E; discriminate E].
  exists best. split; [reflexivity|].
  destruct (proj1 (split_threshold_separates Example.trainer Example.rand)
              Example.data Example.tables Example.counts example_wf
              example_sorted (Example.tables, Example.counts) (rtc_refl _ _))
    as [_ H].
  destruct (H 1%nat 0%nat [0%nat] 1%nat best eq_refl E) as (H1 & _ & H3 & _).
  split; [exact H1 | exact H3].
Defined.

(** ** Induction over the calls that built a tree *)

Section TreeInduction.

Variable t : RFTrainer.
Variable rand : nat -> nat.

(** A property of the trees of the classification builder holds when it
    holds for a leaf and is passed on by a split. *)
Lemma buildTree_wf_ind (dataset : ClassificationDataset)
    (P : AttributeTables -> ClassVector -> Z -> shape -> Prop) :
  (forall tables cAbove k h,
     wf_node t dataset tables cAbove -> hist t cAbove = Ret h ->
     P tables cAbove k (Leaf (withLabel (newNode k) h))) ->
  (forall tables cAbove k ti best l r,
     wf_node t dataset tables cAbove -> in_range t ti ->
     decideSplit t dataset tables cAbove ti = Some best ->
     let split :=
       splitAttributeTables tables (bestAttributeIndex best)
         (bestAttributeValIndex best) in
     P split.1 (cBestBelow best) (usize (2 * k + 1)) l ->
     P split.2 (cBestAbove best) (usize (2 * k + 2)) r ->
     P tables cAbove k
       (Node (withSplit (newNode k) (bestAttributeIndex best)
                (bestAttributeVal best)) l r)) ->
  forall fuel tables cAbove k pos tree pos',
    wf_node t dataset tables cAbove ->
    buildTree t rand dataset fuel tables cAbove k pos = Ret (tree, pos') ->
    exists s, tree = preorder s /\ P tables cAbove k s.
Proof.
  intros Hleaf Hnode.
  induction fuel as [|fuel IH]; intros tables cAbove k pos tree pos' Hwf H;
    [discriminate H|].
  rewrite buildTree_unfold in H. cbv zeta in H.
  assert (Hl : forall pos0,
            (h ← hist t cAbove; Ret ([withLabel (newNode k) h], pos0))
            = Ret (tree, pos') ->
            exists s, tree = preorder s /\ P tables cAbove k s).
  { intros pos0 Hl. apply bind_Ret_inv in Hl as (h & Hh & [= <- _]).
    exists (Leaf (withLabel (newNode k) h)). split; [reflexivity|].
    apply Hleaf; assumption. }
  destruct (Qeq_bool _ _ || _); [eapply Hl; exact H|].
  apply bind_Ret_inv in H as ([ti pos1] & Hgen & H).
  pose proof (generate_in_range t rand fuel pos ti pos1 Hgen) as Hrange.
  destruct (decideSplit t dataset tables cAbove ti) as [best|] eqn:Hdec;
    [|eapply Hl; exact H].
  destruct (split_children t dataset tables cAbove ti best Hwf Hrange Hdec)
    as (_ & _ & _ & _ & HwfL & HwfR).
  apply bind_Ret_inv in H as ([lTree pos2] & HlT & H).
  apply bind_Ret_inv in H as ([rTree pos3] & HrT & [= <- _]).
  apply IH in HlT as (sl & -> & Pl); [|exact HwfL].
  apply IH in HrT as (sr & -> & Pr); [|exact HwfR].
  exists (Node (withSplit (newNode k) (bestAttributeIndex best)
                  (bestAttributeVal best)) sl sr).
  split; [reflexivity|].
  apply (Hnode tables cAbove k ti best sl sr Hwf Hrange Hdec Pl Pr).
Qed.

(** The same for the regression builder. *)
Lemma buildTreeR_wf_ind (dataset : RegressionDataset)
    (P : AttributeTables -> list RealVector -> Z -> shape -> Prop) :
  (forall tables labels k avg,
     wf_nodeR t tables labels -> average labels = Ret avg ->
     P tables labels k (Leaf (withLabel (newNode k) avg))) ->
  (forall tables labels k avg ti best l r,
     wf_nodeR t tables labels -> average labels = Ret avg ->
     in_range t ti ->
     decideSplitR t dataset tables ti = Some best ->
     let split :=
       splitAttributeTables tables (r_bestAttributeIndex best)
         (r_bestAttributeValIndex best) in
     P split.1 (take (r_bestAttributeValIndex best + 1) (bestLabels best))
       (usize (2 * k + 1)) l ->
     P split.2 (drop (r_bestAttributeValIndex best + 1) (bestLabels best))
       (usize (2 * k + 2)) r ->
     P tables labels k
       (Node (withSplit (withLabel (newNode k) avg)
                (r_bestAttributeIndex best) (r_bestAttributeVal best)) l r)) ->
  forall fuel tables labels k pos tree pos',
    wf_nodeR t tables labels ->
    buildTreeR t rand dataset fuel tables labels k pos = Ret (tree, pos') ->
    exists s, tree = preorder s /\ P tables labels k s.
Proof.
  intros Hleaf Hnode.
  induction fuel as [|fuel IH]; intros tables labels k pos tree pos' Hwf H;
    [discriminate H|].
  rewrite buildTreeR_unfold in H.
  apply bind_Ret_inv in H as (avg & Havg & H). cbv zeta in H.
  destruct (_ <=? _) eqn:Esize.
  { injection H as <- _. exists (Leaf (withLabel (newNode k) avg)).
    split; [reflexivity|]. apply Hleaf; assumption. }
  apply bind_Ret_inv in H as ([ti pos1] & Hgen & H).
  pose proof (generate_in_range t rand fuel pos ti pos1 Hgen) as Hrange.
  apply bind_Ret_inv in H as (best & Hs & H).
  destruct (doSplit best) eqn:Hdo.
  - assert (Hdec : decideSplitR t dataset tables ti = Some best).
    { unfold decideSplitR. cbv zeta. rewrite Esize, Hs, Hdo. reflexivity. }
    destruct (split_childrenR t dataset tables labels ti best Hwf Hrange Hdec)
      as (_ & _ & _ & _ & _ & _ & HwfL & HwfR).
    apply bind_Ret_inv in H as ([lTree pos2] & HlT & H).
    apply bind_Ret_inv in H as ([rTree pos3] & HrT & [= <- _]).
    apply IH in HlT as (sl & -> & Pl); [|exact HwfL].
    apply IH in HrT as (sr & -> & Pr); [|exact HwfR].
    exists (Node (withSplit (withLabel (newNode k) avg)
                    (r_bestAttributeIndex best) (r_bestAttributeVal best))
              sl sr).
    split; [reflexivity|].
    apply (Hnode tables labels k avg ti best sl sr Hwf Havg Hrange Hdec Pl Pr).
  - injection H as <- _. exists (Leaf (withLabel (newNode k) avg)).
    split; [reflexivity|]. apply Hleaf; assumption.
Qed.

End TreeInduction.

(** ** The size of a tree *)

Lemma length_preorder (s : shape) :
  length (preorder s) = (2 * length (leaves s) - 1)%nat /\
  (1 <= length (leaves s))%nat /\
  (length (internal s) + 1 = length (leaves s))%nat.
Proof.
  induction s as [info|info l [IHl1 [IHl2 IHl3]] r [IHr1 [IHr2 IHr3]]];
    cbn [preorder leaves internal length].
  - lia.
  - rewrite !length_app, IHl1, IHr1. lia.
Qed.

(** X16. A tree that either builder returns for well-formed arguments with
    [n] rows has at most [n] leaves, one internal node less than leaves,
    and therefore an odd number of nodes, at most [2n - 1]. *)
Theorem tree_size (t : RFTrainer) (rand : nat -> nat) :
  (forall (dataset : ClassificationDataset) fuel tables cAbove rootId pos
          tree pos',
     wf_node t dataset tables cAbove ->
     buildTree t rand dataset fuel tables cAbove rootId pos
       = Ret (tree, pos') ->
     exists s,
       tree = preorder s /\
       (1 <= length (leaves s) <= length (at_table tables 0))%nat /\
       (length (internal s) + 1 = length (leaves s))%nat /\
       length tree = (2 * length (leaves s) - 1)%nat /\
       (length tree <= 2 * length (at_table tables 0) - 1)%nat) /\
  (forall (dataset : RegressionDataset) fuel tables labels rootId pos
          tree pos',
     wf_nodeR t tables labels ->
     buildTreeR t rand dataset fuel tables labels rootId pos
       = Ret (tree, pos') ->
     exists s,
       tree = preorder s /\
       (1 <= length (leaves s) <= length (at_table tables 0))%nat /\
       (length (internal s) + 1 = length (leaves s))%nat /\
       length tree = (2 * length (leaves s) - 1)%nat /\
       (length tree <= 2 * length (at_table tables 0) - 1)%nat).
Proof.
  split.
  - intros dataset fuel tables cAbove rootId pos tree pos' Hwf H.
    destruct (buildTree_wf_ind t rand dataset
                (fun tables _ _ s =>
                   (length (leaves s) <= length (at_table tables 0))%nat))
      with (fuel := fuel) (tables := tables) (cAbove := cAbove) (k := rootId)
           (pos := pos) (tree := tree) (pos' := pos')
      as (s & Hs & Hle); try assumption.
    + intros tbl c k h Hw _. cbn. apply (wf_nonempty _ _ _ _ Hw).
    + intros tbl c k ti best l r Hw Hrange Hdec split Pl Pr.
      destruct (split_children t dataset tbl c ti best Hw Hrange Hdec)
        as (Hp & Hn2 & HL & HR & HwfL & HwfR).
      assert (H0L : at_table split.1 0 ∈ split.1)
        by (apply at_table_elem_of, (wf_has_table _ _ _ _ HwfL)).
      assert (H0R : at_table split.2 0 ∈ split.2)
        by (apply at_table_elem_of, (wf_has_table _ _ _ _ HwfR)).
      rewrite (HL _ H0L) in Pl. rewrite (HR _ H0R) in Pr.
      cbn [leaves]. rewrite length_app. lia.
    + exists s. destruct (length_preorder s) as (H1 & H2 & H3).
      split; [exact Hs|]. split; [lia|]. split; [exact H3|].
      rewrite Hs. split; [exact H1 | lia].
  - intros dataset fuel tables labels rootId pos tree pos' Hwf H.
    destruct (buildTreeR_wf_ind t rand dataset
                (fun tables _ _ s =>
                   (length (leaves s) <= length (at_table tables 0))%nat))
      with (fuel := fuel) (tables := tables) (labels := labels) (k := rootId)
           (pos := pos) (tree := tree) (pos' := pos')
      as (s & Hs & Hle); try assumption.
    + intros tbl c k avg Hw _. cbn. apply (wfR_nonempty _ _ _ Hw).
    + intros tbl c k avg ti best l r Hw _ Hrange Hdec split Pl Pr.
      destruct (split_childrenR t dataset tbl c ti best Hw Hrange Hdec)
        as (Hp & Hn2 & HL & HR & _ & _ & HwfL & HwfR).
      assert (H0L : at_table split.1 0 ∈ split.1)
        by (apply at_table_elem_of, (wfR_has_table _ _ _ HwfL)).
      assert (H0R : at_table split.2 0 ∈ split.2)
        by (apply at_table_elem_of, (wfR_has_table _ _ _ HwfR)).
      rewrite (HL _ H0L) in Pl. rewrite (HR _ H0R) in Pr.
      cbn [leaves]. rewrite length_app. lia.
    + exists s. destruct (length_preorder s) as (H1 & H2 & H3).
      split; [exact Hs|]. split; [lia|]. split; [exact H3|].
      rewrite Hs. split; [exact H1 | lia].
Qed.

Lemma tree_size_witness :
  exists tree pos',
    buildTree Example.trainer Example.rand Example.data 3
      Example.tables Example.counts 0 0 = Ret (tree, pos') /\
    (length tree <= 7)%nat.
Proof.
  destruct (buildTree Example.trainer Example.rand Example.data 3
              Example.tables Example.counts 0 0) as [[tree pos']| | | |] eqn:E;
    try (vm_compute in E; discriminate E).
  exists tree, pos'. split; [reflexivity|].
  destruct (proj1 (tree_size Example.trainer Example.rand) Example.data 3%nat
              Example.tables Example.counts 0 0%nat tree pos' example_wf E)
    as (s & _ & _ & _ & _ & Hle).
  exact Hle.
Defined.

(** ** The fields of the nodes *)

Lemma Forall_preorder (P : NodeInfo -> Prop) (s : shape) :
  Forall P (internal s) -> Forall P (leaves s) -> Forall P (preorder s).
Proof.
  induction s as [info|info l IHl r IHr]; cbn [internal leaves preorder];
    intros Hi Hl.
  - exact Hl.
  - apply Forall_cons in Hi as [H0 Hi].
    apply Forall_app in Hi as [Hil Hir]. apply Forall_app in Hl as [Hll Hlr].
    constructor; [exact H0|]. apply Forall_app. auto.
Qed.

(** An accepted split is on a drawn attribute. *)
Lemma decideSplit_in_range (t : RFTrainer) (dataset : ClassificationDataset)
    (tables : AttributeTables) (cAbove : ClassVector) (ti : list nat)
    (best : Best) :
  wf_node t dataset tables cAbove -> in_range t ti ->
  decideSplit t dataset tables cAbove ti = Some best ->
  (bestAttributeIndex best < m_inputDimension t)%nat.
Proof.
  intros Hwf Hrange Hdec.
  destruct (decideSplit_candidate t dataset tables cAbove ti best
              (wf_bound _ _ _ _ Hwf) Hdec) as (f & i & Hf & _ & ->).
  cbn. apply Hrange, Hf.
Qed.

Lemma decideSplitR_in_range (t : RFTrainer) (dataset : RegressionDataset)
    (tables : AttributeTables) (labels : list RealVector) (ti : list nat)
    (best : BestR) :
  wf_nodeR t tables labels -> in_range t ti ->
  decideSplitR t dataset tables ti = Some best ->
  (r_bestAttributeIndex best < m_inputDimension t)%nat.
Proof.
  intros Hwf Hrange Hdec.
  destruct (decideSplitR_boundary t dataset tables labels ti best Hwf Hrange
              Hdec) as (f & i & Hcand & -> & _).
  apply elem_of_candidates in Hcand as (Hf & _). apply Hrange, Hf.
Qed.

(** The histogram of a well-formed node is a distribution. *)
Lemma wf_node_distribution (t : RFTrainer) (dataset : ClassificationDataset)
    (tables : AttributeTables) (cAbove : ClassVector) (h : RealVector) :
  wf_node t dataset tables cAbove -> hist t cAbove = Ret h ->
  length h = (m_maxLabel t + 1)%nat /\ (Qsum h == 1)%Q /\
  Forall (fun x => (0 <= x)%Q /\ (x <= 1)%Q) h /\
  forall j, (j <= m_maxLabel t)%nat ->
    (nth j h 0
     == inject_Z (labelCount dataset (ids (at_table tables 0)) j)
        / inject_Z (Z.of_nat (length (ids (at_table tables 0)))))%Q.
Proof.
  intros Hwf Hh.
  destruct (wf_node_hist t dataset tables cAbove Hwf) as [Htot _].
  pose proof (wf_counts _ _ _ _ Hwf) as Hc.
  pose proof (wf_nonempty _ _ _ _ Hwf) as Hne.
  pose proof (wf_bound _ _ _ _ Hwf) as Hb.
  assert (Hnn : Forall (fun x => 0 <= x) cAbove)
    by (rewrite Hc; apply countsOf_nonneg).
  assert (Hlc : (length cAbove <= m_maxLabel t + 1)%nat)
    by (rewrite Hc, length_countsOf; lia).
  assert (Hpos : 0 < totalCount cAbove) by lia.
  pose proof (hist_value t cAbove Hnn Hlc ltac:(lia)) as Hv.
  assert (E : (totalCount cAbove =? 0) = false) by (apply Z.eqb_neq; lia).
  rewrite E, Hh in Hv. injection Hv as ->.
  destruct (frequencies cAbove (m_maxLabel t + 1) Hnn Hlc Hpos)
    as (Hlen & Hnth & Hsum & Hall).
  split; [exact Hlen|]. split; [exact Hsum|]. split; [exact Hall|].
  intros j Hj. rewrite (Hnth j), Htot, length_ids.
  rewrite Hc at 1. rewrite nth_countsOf by exact Hj. reflexivity.
Qed.

(** X17. The nodes of a tree returned for well-formed arguments.  No node
    has its [misclassProp], [r] or [g] set: they are 0.  An internal node
    splits on an attribute below the input dimension; a leaf has attribute
    index 0 and attribute value 0.  In a classification tree an internal
    node carries no label (the empty vector) and a leaf carries a
    histogram with one entry per label [0 .. m_maxLabel], every entry
    between 0 and 1, that adds up to 1.  In a regression tree whose labels
    have the dimension [k], every node, internal or leaf, carries a label
    of dimension [k]. *)
Theorem tree_node_fields (t : RFTrainer) (rand : nat -> nat) :
  (forall (dataset : ClassificationDataset) fuel tables cAbove rootId pos
          tree pos',
     wf_node t dataset tables cAbove ->
     buildTree t rand dataset fuel tables cAbove rootId pos
       = Ret (tree, pos') ->
     exists s,
       tree = preorder s /\
       Forall (fun nd => misclassProp nd = 0%Q /\ r nd = 0 /\ g nd = 0%Q)
         tree /\
       Forall (fun nd => (attributeIndex nd < m_inputDimension t)%nat /\
                         label nd = [])
         (internal s) /\
       Forall (fun nd => attributeIndex nd = 0%nat /\
                         attributeValue nd = 0%Q /\
                         length (label nd) = (m_maxLabel t + 1)%nat /\
                         (Qsum (label nd) == 1)%Q /\
                         Forall (fun x => (0 <= x)%Q /\ (x <= 1)%Q) (label nd))
         (leaves s)) /\
  (forall (dataset : RegressionDataset) (k : nat) fuel tables labels rootId
          pos tree pos',
     wf_nodeR t tables labels ->
     Forall (fun l => length l = k) labels ->
     (forall table a, table ∈ tables -> a ∈ table ->
        length (regr_label dataset (id a)) = k) ->
     buildTreeR t rand dataset fuel tables labels rootId pos
       = Ret (tree, pos') ->
     exists s,
       tree = preorder s /\
       Forall (fun nd => misclassProp nd = 0%Q /\ r nd = 0 /\ g nd = 0%Q /\
                         length (label nd) = k)
         tree /\
       Forall (fun nd => (attributeIndex nd < m_inputDimension t)%nat)
         (internal s) /\
       Forall (fun nd => attributeIndex nd = 0%nat /\ attributeValue nd = 0%Q)
         (leaves s)).
Proof.
  split.
  - intros dataset fuel tables cAbove rootId pos tree pos' Hwf H.
    destruct (buildTree_wf_ind t rand dataset
                (fun _ _ _ s =>
                   Forall (fun nd => misclassProp nd = 0%Q /\ r nd = 0 /\
                                     g nd = 0%Q) (preorder s) /\
                   Forall (fun nd =>
                             (attributeIndex nd < m_inputDimension t)%nat /\
                             label nd = []) (internal s) /\
                   Forall (fun nd =>
                             attributeIndex nd = 0%nat /\
                             attributeValue nd = 0%Q /\
                             length (label nd) = (m_maxLabel t + 1)%nat /\
                             (Qsum (label nd) == 1)%Q /\
                             Forall (fun x => (0 <= x)%Q /\ (x <= 1)%Q)
                               (label nd)) (leaves s)))
      with (fuel := fuel) (tables := tables) (cAbove := cAbove) (k := rootId)
           (pos := pos) (tree := tree) (pos' := pos')
      as (s & Hs & H1 & H2 & H3); try assumption.
    + intros tbl c k h Hw Hh.
      destruct (wf_node_distribution t dataset tbl c h Hw Hh)
        as (Hlen & Hsum & Hall & _).
      cbn [preorder internal leaves].
      split; [repeat constructor|]. split; [constructor|].
      repeat constructor; assumption.
    + intros tbl c k ti best l r Hw Hrange Hdec split (Pl1 & Pl2 & Pl3)
             (Pr1 & Pr2 & Pr3).
      pose proof (decideSplit_in_range t dataset tbl c ti best Hw Hrange Hdec)
        as Hf.
      cbn [preorder internal leaves].
      split; [|split].
      * constructor; [repeat split|]. apply Forall_app. auto.
      * constructor; [split; [exact Hf | reflexivity]|]. apply Forall_app. auto.
      * apply Forall_app. auto.
    + exists s. rewrite Hs. auto.
  - intros dataset k fuel tables labels rootId pos tree pos' Hwf Hdim Hrows H.
    destruct (buildTreeR_wf_ind t rand dataset
                (fun tbl lbl _ s =>
                   Forall (fun l => length l = k) lbl ->
                   (forall table a, table ∈ tbl -> a ∈ table ->
                              length (regr_label dataset (id a)) = k) ->
                   Forall (fun nd => misclassProp nd = 0%Q /\ r nd = 0 /\
                                     g nd = 0%Q /\ length (label nd) = k)
                     (preorder s) /\
                   Forall (fun nd =>
                             (attributeIndex nd < m_inputDimension t)%nat)
                     (internal s) /\
                   Forall (fun nd => attributeIndex nd = 0%nat /\
                                     attributeValue nd = 0%Q) (leaves s)))
      with (fuel := fuel) (tables := tables) (labels := labels) (k := rootId)
           (pos := pos) (tree := tree) (pos' := pos')
      as (s & Hs & HP); try assumption.
    + intros tbl lbl n avg Hw Havg Hl _.
      destruct (average_components lbl k avg Hl Havg) as [Hlen _].
      cbn [preorder internal leaves].
      split; [repeat constructor; exact Hlen|]. split; [constructor|].
      repeat constructor.
    + intros tbl lbl n avg ti best l r Hw Havg Hrange Hdec split Pl Pr Hl Hr.
      destruct (average_components lbl k avg Hl Havg) as [Hlen _].
      pose proof (decideSplitR_in_range t dataset tbl lbl ti best Hw Hrange Hdec)
        as Hf.
      destruct (decideSplitR_boundary t dataset tbl lbl ti best Hw Hrange Hdec)
        as (f & i & Hcand & Hattr & _ & _ & Hbl).
      apply elem_of_candidates in Hcand as (Hfin & _).
      assert (Hfd : (f < length tbl)%nat)
        by (rewrite (wfR_dimension _ _ _ Hw); apply Hrange, Hfin).
      assert (Hbest : Forall (fun l => length l = k) (bestLabels best)).
      { rewrite Hbl. unfold labelsOf. apply Forall_forall. intros x Hx.
        apply list_elem_of_In, in_map_iff in Hx as (a & <- & Ha).
        apply (Hr (at_table tbl f));
          [apply at_table_elem_of, Hfd | apply list_elem_of_In, Ha]. }
      assert (Hsub : forall table' a,
                table' ∈ split.1 \/ table' ∈ split.2 -> a ∈ table' ->
                exists table, table ∈ tbl /\ a ∈ table).
      { intros table' a Hin Ha. subst split.
        rewrite splitAttributeTables_map in Hin.
        cbv zeta in Hin. cbn [fst snd] in Hin.
        destruct Hin as [Hin|Hin];
          apply list_elem_of_fmap in Hin as (table & -> & Hin);
          rewrite splitTable_filter in Ha; cbn [fst snd] in Ha;
          apply list_elem_of_filter in Ha as [_ Ha];
          exists table; auto. }
      destruct Pl as (Pl1 & Pl2 & Pl3); [apply Forall_take, Hbest | |].
      { intros table' a Hin Ha.
        destruct (Hsub table' a (or_introl Hin) Ha) as (table & Ht & Hat).
        apply (Hr table a Ht Hat). }
      destruct Pr as (Pr1 & Pr2 & Pr3); [apply Forall_drop, Hbest | |].
      { intros table' a Hin Ha.
        destruct (Hsub table' a (or_intror Hin) Ha) as (table & Ht & Hat).
        apply (Hr table a Ht Hat). }
      cbn [preorder internal leaves].
      split; [|split].
      * constructor; [repeat split; exact Hlen|]. apply Forall_app. auto.
      * constructor; [exact Hf|]. apply Forall_app. auto.
      * apply Forall_app. auto.
    + exists s. rewrite Hs. destruct (HP Hdim Hrows) as (H1 & H2 & H3). auto.
Qed.

Lemma tree_node_fields_witness :
  exists tree pos',
    buildTree Example.trainer Example.rand Example.data 3
      Example.tables Example.counts 0 0 = Ret (tree, pos') /\
    Forall (fun nd => misclassProp nd = 0%Q /\ r nd = 0 /\ g nd = 0%Q) tree.
Proof.
  destruct (buildTree Example.trainer Example.rand Example.data 3
              Example.tables Example.counts 0 0) as [[tree pos']| | | |] eqn:E;
    try (vm_compute in E; discriminate E).
  exists tree, pos'. split; [reflexivity|].
  destruct (proj1 (tree_node_fields Example.trainer Example.rand) Example.data
              3%nat Example.tables Example.counts 0 0%nat tree pos'
              example_wf E)
    as (s & _ & H & _).
  exact H.
Defined.

(** ** What the label of a node says about its rows *)

Section NodeLabels.

Variable t : RFTrainer.
Variable rand : nat -> nat.

Lemma buildTree_single (dataset : ClassificationDataset) (fuel : nat)
    (tables : AttributeTables) (cAbove : ClassVector) (k : Z) (pos : nat)
    (tree : TreeType) (pos' : nat) :
  buildTree t rand dataset (S fuel) tables cAbove k pos = Ret (tree, pos') ->
  length tree = 1%nat ->
  exists h, hist t cAbove = Ret h /\ tree = [withLabel (newNode k) h].
Proof.
  intros H Hone. rewrite buildTree_unfold in H. cbv zeta in H.
  assert (Hleaf : forall pos0,
            (h ← hist t cAbove; Ret ([withLabel (newNode k) h], pos0))
            = Ret (tree, pos') ->
            exists h, hist t cAbove = Ret h /\ tree = [withLabel (newNode k) h]).
  { intros pos0 Hl. apply bind_Ret_inv in Hl as (h & Hh & [= <- _]).
    exists h. auto. }
  destruct (Qeq_bool _ _ || _); [eapply Hleaf; exact H|].
  apply bind_Ret_inv in H as ([ti pos1] & _ & H).
  destruct (decideSplit t dataset tables cAbove ti) as [best|];
    [|eapply Hleaf; exact H].
  apply bind_Ret_inv in H as ([lTree pos2] & Hl & H).
  apply bind_Ret_inv in H as ([rTree pos3] & Hr & [= <- _]).
  apply buildTree_nonempty in Hl, Hr.
  cbn [length] in Hone. rewrite length_app in Hone. lia.
Qed.

Lemma buildTreeR_head (dataset : RegressionDataset) (fuel : nat)
    (tables : AttributeTables) (labels : list RealVector) (k : Z) (pos : nat)
    (tree : TreeType) (pos' : nat) :
  buildTreeR t rand dataset (S fuel) tables labels k pos = Ret (tree, pos') ->
  exists avg nd rest,
    average labels = Ret avg /\ tree = nd :: rest /\
    nodeId nd = k /\ label nd = avg.
Proof.
  intros H. rewrite buildTreeR_unfold in H.
  apply bind_Ret_inv in H as (avg & Havg & H). cbv zeta in H.
  exists avg.
  destruct (_ <=? _).
  { injection H as <- _. eexists _, _. split; [exact Havg|]. split; [reflexivity|].
    split; reflexivity. }
  apply bind_Ret_inv in H as ([ti pos1] & _ & H).
  apply bind_Ret_inv in H as (best & _ & H).
  destruct (doSplit best).
  - apply bind_Ret_inv in H as ([lTree pos2] & _ & H).
    apply bind_Ret_inv in H as ([rTree pos3] & _ & [= <- _]).
    eexists _, _. split; [exact Havg|]. split; [reflexivity|].
    split; reflexivity.
  - injection H as <- _. eexists _, _. split; [exact Havg|]. split; [reflexivity|].
    split; reflexivity.
Qed.

Lemma labelsOf_ids (dataset : RegressionDataset) (table : AttributeTable) :
  labelsOf dataset table = List.map (regr_label dataset) (ids table).
Proof.
  unfold labelsOf, ids. induction table as [|a table IH]; [reflexivity|].
  cbn. f_equal. exact IH.
Qed.

Lemma labelsOf_perm (dataset : RegressionDataset) (a b : AttributeTable) :
  ids a ≡ₚ ids b -> labelsOf dataset a ≡ₚ labelsOf dataset b.
Proof.
  intros H. rewrite !labelsOf_ids. apply Permutation_map, H.
Qed.

Lemma labelsOf_take (dataset : RegressionDataset) (table : AttributeTable)
    (k : nat) :
  take k (labelsOf dataset table) = labelsOf dataset (take k table).
Proof. unfold labelsOf. apply firstn_map. Qed.

Lemma labelsOf_drop (dataset : RegressionDataset) (table : AttributeTable)
    (k : nat) :
  drop k (labelsOf dataset table) = labelsOf dataset (drop k table).
Proof. unfold labelsOf. apply skipn_map. Qed.

(** The labels handed to a call are the labels of its rows. *)
Lemma subcallR_labels (dataset : RegressionDataset)
    (c c' : AttributeTables * list RealVector) :
  subcallR t rand dataset c c' ->
  wf_nodeR t c.1 c.2 ->
  c'.2 ≡ₚ labelsOf dataset (at_table c'.1 0).
Proof.
  intros Hsub Hwf.
  destruct Hsub as [tables labels fuel pos ti pos' best Hgen Hdec
                   |tables labels fuel pos ti pos' best Hgen Hdec];
    cbn [fst snd] in *;
    pose proof (generate_in_range t rand fuel pos ti pos' Hgen) as Hrange;
    destruct (decideSplitR_boundary t dataset tables labels ti best Hwf
                Hrange Hdec) as (f & i & Hcand & Hattr & Hp & _ & Hbl);
    apply elem_of_candidates in Hcand as (Hf & Hi & _);
    destruct (split_childrenR t dataset tables labels ti best Hwf Hrange Hdec)
      as (_ & _ & _ & _ & _ & _ & HwfL & HwfR);
    destruct Hwf as [Hdim Hhas Hrows Hnd Hne Hbound Hlab];
    assert (Hfd : (f < length tables)%nat)
      by (rewrite Hdim; apply Hrange, Hf);
    destruct (split_tables tables f (i - 1) Hhas Hfd Hrows Hnd ltac:(lia))
      as (_ & _ & HL & HR & _);
    rewrite Hattr, Hp, Hbl in *;
    replace (i - 1 + 1)%nat with (S (i - 1)) by lia.
  - rewrite labelsOf_take. apply labelsOf_perm. symmetry.
    apply HL, at_table_elem_of, (wfR_has_table _ _ _ HwfL).
  - rewrite labelsOf_drop. apply labelsOf_perm. symmetry.
    apply HR, at_table_elem_of, (wfR_has_table _ _ _ HwfR).
Qed.

Lemma reachableR_labels (dataset : RegressionDataset)
    (c c' : AttributeTables * list RealVector) :
  rtc (subcallR t rand dataset) c c' ->
  wf_nodeR t c.1 c.2 ->
  c.2 ≡ₚ labelsOf dataset (at_table c.1 0) ->
  c'.2 ≡ₚ labelsOf dataset (at_table c'.1 0).
Proof.
  induction 1 as [|c1 c2 c3 Hstep _ IH]; intros Hwf Hl; [exact Hl|].
  apply IH; [eapply subcallR_wf; eassumption|].
  eapply subcallR_labels; eassumption.
Qed.

Lemma reachableR_rows (dataset : RegressionDataset)
    (c c' : AttributeTables * list RealVector) :
  rtc (subcallR t rand dataset) c c' ->
  wf_nodeR t c.1 c.2 ->
  forall k, k ∈ ids (at_table c'.1 0) -> k ∈ ids (at_table c.1 0).
Proof.
  induction 1 as [|c1 c2 c3 Hstep _ IH]; intros Hwf k Hk; [exact Hk|].
  specialize (IH (subcallR_wf t rand dataset _ _ Hstep Hwf) k Hk).
  clear Hk.
  destruct Hstep as [tables labels fuel pos ti pos' best Hgen Hdec
                    |tables labels fuel pos ti pos' best Hgen Hdec];
    cbn [fst snd] in *;
    pose proof (generate_in_range t rand fuel pos ti pos' Hgen) as Hrange;
    destruct (decideSplitR_boundary t dataset tables labels ti best Hwf
                Hrange Hdec) as (f & i & Hcand & Hattr & Hp & _ & _);
    apply elem_of_candidates in Hcand as (Hf & Hi & _);
    destruct (split_childrenR t dataset tables labels ti best Hwf Hrange Hdec)
      as (_ & _ & _ & _ & _ & _ & HwfL & HwfR);
    destruct Hwf as [Hdim Hhas Hrows Hnd Hne Hbound Hlab];
    assert (Hfd : (f < length tables)%nat)
      by (rewrite Hdim; apply Hrange, Hf);
    destruct (split_tables tables f (i - 1) Hhas Hfd Hrows Hnd ltac:(lia))
      as (_ & _ & HL & HR & _ & _ & _ & Hwin);
    rewrite Hattr, Hp in *.
  - rewrite (proj1 (HL _ (at_table_elem_of _ 0 (wfR_has_table _ _ _ HwfL))))
      in IH.
    rewrite <- Hwin. eapply elem_of_ids_take. exact IH.
  - rewrite (proj1 (HR _ (at_table_elem_of _ 0 (wfR_has_table _ _ _ HwfR))))
      in IH.
    rewrite <- Hwin. eapply elem_of_ids_drop. exact IH.
Qed.

End NodeLabels.

Lemma Qsum_perm (l k : list Q) : l ≡ₚ k -> (Qsum l == Qsum k)%Q.
Proof.
  induction 1 as [|x l k _ IH|x y l|l k m _ IH1 _ IH2]; cbn [Qsum foldr].
  - reflexivity.
  - fold (Qsum l) (Qsum k). rewrite IH. reflexivity.
  - fold (Qsum l). ring.
  - rewrite IH1. exact IH2.
Qed.

(** X18. The histogram of a classification node is the class frequency of
    its rows.  From a root call on well-formed arguments, in every call
    that the recursion reaches the count vector is the count of the rows
    of the node, label by label, and [hist] returns, for every label [j],
    the number of rows of the node with label [j] divided by the number of
    rows of the node; when the call returns a single leaf, this histogram
    is the label of the leaf. *)
Theorem leaf_label_frequencies (t : RFTrainer) (rand : nat -> nat)
    (dataset : ClassificationDataset) (tables : AttributeTables)
    (cAbove : ClassVector) :
  wf_node t dataset tables cAbove ->
  forall c, rtc (subcall t rand dataset) (tables, cAbove) c ->
    let rows := ids (at_table c.1 0) in
    c.2 = countsOf t dataset rows /\
    exists h,
      hist t c.2 = Ret h /\
      length h = (m_maxLabel t + 1)%nat /\
      (forall j, (j <= m_maxLabel t)%nat ->
         (nth j h 0
          == inject_Z (labelCount dataset rows j)
             / inject_Z (Z.of_nat (length rows)))%Q) /\
      (Qsum h == 1)%Q /\
      forall fuel k pos tree pos',
        buildTree t rand dataset (S fuel) c.1 c.2 k pos = Ret (tree, pos') ->
        length tree = 1%nat -> tree = [withLabel (newNode k) h].
Proof.
  intros Hwf c Hreach rows.
  pose proof (reachable_wf t rand dataset _ _ Hreach Hwf) as Hc.
  cbn [fst snd] in Hc.
  split; [apply (wf_counts _ _ _ _ Hc)|].
  destruct (wf_node_hist t dataset _ _ Hc) as [_ [h Hh]].
  destruct (wf_node_distribution t dataset _ _ h Hc Hh)
    as (Hlen & Hsum & _ & Hnth).
  exists h. split; [exact Hh|]. split; [exact Hlen|].
  split; [exact Hnth|]. split; [exact Hsum|].
  intros fuel k pos tree pos' Hb Hone.
  destruct (buildTree_single t rand dataset fuel _ _ k pos tree pos' Hb Hone)
    as (h' & Hh' & ->).
  rewrite Hh in Hh'. injection Hh' as <-. reflexivity.
Qed.

Lemma leaf_label_frequencies_witness :
  exists h,
    hist Example.trainer Example.counts = Ret h /\
    (nth 1 h 0 == 1 # 2)%Q /\ (Qsum h == 1)%Q.
Proof.
  destruct (leaf_label_frequencies Example.trainer Example.rand Example.data
              Example.tables Example.counts example_wf
              (Example.tables, Example.counts) (rtc_refl _ _))
    as (_ & h & Hh & _ & Hnth & Hsum & _).
  exists h. split; [exact Hh|]. split; [|exact Hsum].
  rewrite (Hnth 1%nat) by (cbn; lia). reflexivity.
Defined.

(** X19. The label of a regression node is the mean of the labels of its
    rows.  From a root call on well-formed arguments whose labels are the
    labels of the rows of its tables, all of dimension [k]: in every call
    that the recursion reaches, the labels handed over are, up to their
    order, the labels of the rows of the node; [average] returns their
    mean, component by component; and this mean is the label of the first
    node of the tree that the call returns, whether it is a leaf or not. *)
Theorem node_label_mean (t : RFTrainer) (rand : nat -> nat)
    (dataset : RegressionDataset) (tables : AttributeTables)
    (labels : list RealVector) (k : nat) :
  wf_nodeR t tables labels ->
  labels ≡ₚ labelsOf dataset (at_table tables 0) ->
  Forall (fun l => length l = k) labels ->
  (forall c, rtc (subcallR t rand dataset) (tables, labels) c ->
     let rows := at_table c.1 0 in
     c.2 ≡ₚ labelsOf dataset rows /\
     exists avg,
       average c.2 = Ret avg /\ length avg = k /\
       (forall j, (j < k)%nat ->
          (nth j avg 0
           == Qsum (List.map (fun a => nth j (regr_label dataset (id a)) 0)
                      rows)
              / inject_Z (Z.of_nat (length rows)))%Q) /\
       forall fuel rootId pos tree pos',
         buildTreeR t rand dataset (S fuel) c.1 c.2 rootId pos
           = Ret (tree, pos') ->
         exists nd rest,
           tree = nd :: rest /\ nodeId nd = rootId /\ label nd = avg).
Proof.
  intros Hwf Hl Hdim c Hreach rows.
  pose proof (reachableR_wf t rand dataset _ _ Hreach Hwf) as Hc.
  pose proof (reachableR_labels t rand dataset _ _ Hreach Hwf Hl) as Hcl.
  pose proof (reachableR_rows t rand dataset _ _ Hreach Hwf) as Hrows.
  cbn [fst snd] in Hc, Hcl, Hrows. fold rows in Hcl.
  split; [exact Hcl|].
  assert (Hdimc : Forall (fun l => length l = k) c.2).
  { rewrite Hcl. rewrite Hl in Hdim. rewrite Forall_forall in Hdim.
    apply Forall_forall. intros x Hx. apply Hdim.
    rewrite labelsOf_ids in Hx |- *.
    apply list_elem_of_In, in_map_iff in Hx as (i & <- & Hi).
    apply list_elem_of_In, in_map_iff. exists i. split; [reflexivity|].
    apply list_elem_of_In, Hrows, list_elem_of_In, Hi. }
  destruct (wf_nodeR_average t _ _ Hc) as [_ [avg Havg]].
  destruct (average_components c.2 k avg Hdimc Havg) as [Hlen Hmean].
  exists avg. split; [exact Havg|]. split; [exact Hlen|]. split.
  - intros j Hj. rewrite (Hmean j Hj).
    assert (Hsum : (Qsum (List.map (fun l => nth j l 0%Q) c.2)
                    == Qsum (List.map
                               (fun a => nth j (regr_label dataset (id a)) 0%Q)
                               rows))%Q).
    { rewrite (Qsum_perm _ (List.map (fun l => nth j l 0%Q)
                              (labelsOf dataset rows)))
        by (apply Permutation_map, Hcl).
      unfold labelsOf. rewrite List.map_map. reflexivity. }
    rewrite Hsum.
    assert (Hn : length c.2 = length rows).
    { rewrite Hcl. apply length_labelsOf. }
    rewrite Hn. reflexivity.
  - intros fuel rootId pos tree pos' Hb.
    destruct (buildTreeR_head t rand dataset fuel _ _ rootId pos tree pos' Hb)
      as (avg' & nd & rest & Havg' & Htree & Hid & Hlab).
    rewrite Havg in Havg'. injection Havg' as <-.
    exists nd, rest. auto.
Qed.

Lemma node_label_mean_witness :
  exists avg,
    average Example.labels = Ret avg /\ (nth 0 avg 0 == 3)%Q.
Proof.
  destruct (node_label_mean Example.trainer Example.rand Example.dataR
              Example.tables Example.labels 1 example_wfR)
    with (c := (Example.tables, Example.labels))
    as (_ & avg & Havg & _ & Hmean & _).
  - reflexivity.
  - repeat constructor.
  - apply rtc_refl.
  - exists avg. split; [exact Havg|].
    rewrite (Hmean 0%nat) by lia. reflexivity.
Defined.

(** ** One task of train, from the dataset to the tree *)

Lemma length_subset {A} (elements : list A) (d : A) (indices : list nat) :
  length (subset elements d indices) = length indices.
Proof. unfold subset. apply length_fmap. Qed.

Lemma nth_subset {A} (elements : list A) (d : A) (indices : list nat)
    (j : nat) :
  (j < length indices)%nat ->
  nth j (subset elements d indices) d = nth (nth j indices 0%nat) elements d.
Proof.
  intros Hj. unfold subset.
  destruct (nth_lookup_or_length indices j 0%nat) as [Hl|Hl]; [|lia].
  apply nth_lookup_Some. rewrite list_lookup_fmap, Hl. reflexivity.
Qed.

Section TaskProperties.

Variable rand : nat -> nat.
Variable std_sort :
  (RFAttribute -> RFAttribute -> bool) -> AttributeTable -> AttributeTable.
Variable random_shuffle : list nat -> list nat.
Hypothesis std_sort_perm : forall cmp table, std_sort cmp table ≡ₚ table.
Hypothesis random_shuffle_perm : forall l, random_shuffle l ≡ₚ l.

(** The bag: no more rows than the dataset, all of them rows of the
    dataset. *)
Lemma bag_rows (t : RFTrainer) (n : nat) :
  let bag := fst (bagIndices random_shuffle t n) in
  (length bag <= n)%nat /\
  forall j, (j < length bag)%nat -> (nth j bag 0 < n)%nat.
Proof.
  intros bag.
  assert (Hbag : bag = take (subsetSize t n) (random_shuffle (seq 0 n)))
    by reflexivity.
  clearbody bag. revert Hbag. generalize (subsetSize t n). intros k ->.
  assert (Hlen : length (random_shuffle (seq 0 n)) = n)
    by (rewrite random_shuffle_perm; apply length_seq).
  split; [rewrite length_take; lia|].
  intros j Hj.
  destruct (nth_lookup_or_length (take k (random_shuffle (seq 0 n))) j 0%nat)
    as [Hl|Hl]; [|lia].
  apply list_elem_of_lookup_2 in Hl.
  revert Hl. generalize (nth j (take k (random_shuffle (seq 0 n))) 0%nat).
  intros x Hl.
  apply elem_of_take in Hl as (i & Hi & _).
  apply list_elem_of_lookup_2 in Hi.
  rewrite random_shuffle_perm in Hi. apply elem_of_seq in Hi. lia.
Qed.

Lemma trainTask_root_wf (t0 : RFTrainer) (dataset : ClassificationDataset)
    (d : nat) (classes : Z) :
  (1 <= d)%nat -> 1 <= classes <= 2 ^ 32 ->
  Z.of_nat (length dataset) < 2 ^ 32 ->
  (forall i, (i < length dataset)%nat ->
             Z.of_nat (class_label dataset i) < classes) ->
  let fields := trainFields t0 d classes in
  let bag := fst (bagIndices random_shuffle fields (length dataset)) in
  let dataTrain := subset dataset ([], 0%nat) bag in
  (1 <= length bag)%nat ->
  wf_node (setDefaults fields) dataTrain
    (createAttributeTables (setDefaults fields) std_sort (fst <$> dataTrain))
    (createCountVector (setDefaults fields) dataTrain).
Proof.
  intros Hd Hc Hn Hlab fields bag dataTrain Hbag.
  destruct (bag_rows fields (length dataset)) as (Hle & Hrows).
  fold bag in Hle, Hrows.
  destruct (setDefaults_fields fields)
    as (_ & _ & _ & _ & Hdim & _ & Hml & _).
  cbv zeta in Hdim, Hml. cbn [fields trainFields m_inputDimension m_maxLabel]
    in Hdim, Hml.
  assert (Hmax : Z.of_nat (m_maxLabel (setDefaults fields)) = classes - 1).
  { rewrite Hml. rewrite Z2Nat.id by (apply Z.mod_pos_bound; reflexivity).
    unfold uint, uint_modulus.
    destruct (Z.eq_dec classes (2 ^ 32)) as [->|Hne]; [reflexivity|].
    rewrite (Z.mod_small classes) by lia.
    rewrite Z.mod_small by lia. lia. }
  apply train_root_wf.
  - exact std_sort_perm.
  - rewrite Hdim. lia.
  - unfold dataTrain. rewrite length_subset. exact Hbag.
  - unfold dataTrain. rewrite length_subset. lia.
  - intros j Hj. unfold dataTrain in Hj. rewrite length_subset in Hj.
    unfold class_label, dataTrain. rewrite nth_subset by exact Hj.
    specialize (Hlab (nth j bag 0%nat) ltac:(specialize (Hrows j Hj); lia)).
    unfold class_label in Hlab. lia.
Qed.

Lemma trainTaskR_root_wf (t0 : RFTrainer) (dataset : RegressionDataset)
    (d ld : nat) :
  (1 <= d)%nat -> Z.of_nat (length dataset) < 2 ^ 64 ->
  let fields := trainFieldsR t0 d ld in
  let bag := fst (bagIndices random_shuffle fields (length dataset)) in
  let dataTrain := subset dataset ([], []) bag in
  (1 <= length bag)%nat ->
  wf_nodeR (setDefaults fields)
    (createAttributeTables (setDefaults fields) std_sort (fst <$> dataTrain))
    (fold_left (fun labels i => labels ++ [regr_label dataTrain i])
       (seq 0 (length dataTrain)) []).
Proof.
  intros Hd Hn fields bag dataTrain Hbag.
  destruct (bag_rows fields (length dataset)) as (Hle & _).
  fold bag in Hle.
  destruct (setDefaults_fields fields) as (_ & _ & _ & _ & Hdim & _).
  cbv zeta in Hdim. cbn [fields trainFieldsR m_inputDimension] in Hdim.
  apply train_root_wfR.
  - exact std_sort_perm.
  - rewrite Hdim. lia.
  - unfold dataTrain. rewrite length_subset. exact Hbag.
  - unfold dataTrain. rewrite length_subset. lia.
Qed.

End TaskProperties.

(** X20. One tree-growing task of [train], when [random_shuffle] and
    [std::sort] return permutations of their arguments: for a
    classification dataset of fewer than [2^32] rows with at least one
    attribute and labels below the number of classes, and for a regression
    dataset with at least one attribute, each with a bag of at least one
    row, the task never ends in an exception, a division by zero or a
    trap; and when the random numbers are varied enough for the attribute
    draws of the trainer that [train] has set up, the task returns a
    tree. *)
Theorem trainTask_returns (rand : nat -> nat)
    (std_sort : (RFAttribute -> RFAttribute -> bool) ->
                AttributeTable -> AttributeTable)
    (random_shuffle : list nat -> list nat) (t0 : RFTrainer) (d : nat) :
  (forall cmp table, std_sort cmp table ≡ₚ table) ->
  (forall l, random_shuffle l ≡ₚ l) ->
  (1 <= d)%nat ->
  (forall (dataset : ClassificationDataset) (classes : Z),
     1 <= classes <= 2 ^ 32 ->
     Z.of_nat (length dataset) < 2 ^ 32 ->
     (forall i, (i < length dataset)%nat ->
                Z.of_nat (class_label dataset i) < classes) ->
     (1 <= length (fst (bagIndices random_shuffle
                          (trainFields t0 d classes) (length dataset))))%nat ->
     (forall fuel pos,
        ~ fails (trainTask rand std_sort random_shuffle t0 dataset d classes
                   fuel pos)) /\
     (fair_draws (trainSetup t0 d classes) rand ->
      forall pos, exists fuel tree pos',
        trainTask rand std_sort random_shuffle t0 dataset d classes fuel pos
        = Ret (tree, pos'))) /\
  (forall (dataset : RegressionDataset) (ld : nat),
     Z.of_nat (length dataset) < 2 ^ 64 ->
     (1 <= length (fst (bagIndices random_shuffle
                          (trainFieldsR t0 d ld) (length dataset))))%nat ->
     (forall fuel pos,
        ~ fails (trainTaskR rand std_sort random_shuffle t0 dataset d ld
                   fuel pos)) /\
     (fair_draws (trainSetupR t0 d ld) rand ->
      forall pos, exists fuel tree pos',
        trainTaskR rand std_sort random_shuffle t0 dataset d ld fuel pos
        = Ret (tree, pos'))).
Proof.
  intros Hsort Hshuffle Hd. split.
  - intros dataset classes Hc Hn Hlab Hbag.
    pose proof (trainTask_root_wf std_sort random_shuffle Hsort Hshuffle t0
                  dataset d classes Hd Hc Hn Hlab Hbag) as Hwf.
    split.
    + intros fuel pos. unfold trainTask, trainTree. cbv zeta.
      apply buildTree_no_fail, Hwf.
    + intros Hfair pos. unfold trainTask, trainTree. cbv zeta.
      destruct (buildTree_returns (setDefaults (trainFields t0 d classes)) rand
                  Hfair _ _ _ _ 0 pos Hwf eq_refl)
        as (fuel & [tree pos'] & H).
      exists fuel, tree, pos'. exact H.
  - intros dataset ld Hn Hbag.
    pose proof (trainTaskR_root_wf std_sort random_shuffle Hsort Hshuffle t0
                  dataset d ld Hd Hn Hbag) as Hwf.
    split.
    + intros fuel pos. unfold trainTaskR, trainTreeR. cbv zeta.
      apply buildTreeR_no_fail, Hwf.
    + intros Hfair pos. unfold trainTaskR, trainTreeR. cbv zeta.
      destruct (buildTreeR_returns (setDefaults (trainFieldsR t0 d ld)) rand
                  Hfair
                  (subset dataset ([], [])
                     (fst (bagIndices random_shuffle (trainFieldsR t0 d ld)
                             (length dataset))))
                  _ _ _ 0 pos Hwf eq_refl)
        as (fuel & [tree pos'] & H).
      exists fuel, tree, pos'. exact H.
Qed.

Lemma trainTask_returns_witness :
  exists fuel tree pos',
    trainTask Example.rand
      (fun cmp =>
         @merge_sort _ (fun a b => cmp b a = false)
           (fun a b => decide (cmp b a = false)))
      (@rev nat) (RFTrainer_new 0 0 0 false false) Example.data 1 2 fuel 0
    = Ret (tree, pos').
Proof.
  destruct (trainTask_returns Example.rand
              (fun cmp =>
                 @merge_sort _ (fun a b => cmp b a = false)
                   (fun a b => decide (cmp b a = false)))
              (@rev nat) (RFTrainer_new 0 0 0 false false) 1) as [Hc _].
  - intros cmp table. apply merge_sort_Permutation.
  - intros l. symmetry. apply Permutation_rev.
  - lia.
  - destruct (Hc Example.data 2) as [_ Hret].
    + lia.
    + cbn. lia.
    + intros i Hi. cbn in Hi. destruct i as [|[|[|[|i]]]]; cbn; lia.
    + vm_compute. lia.
    + apply Hret. intros pos. exists 1%nat. vm_compute. discriminate.
Defined.

(** ** The bag of a trainer with the default ratio *)

(** The double nearest to 0.66. *)
Lemma stored_default_ratio :
  Binary64.round (66 # 100) = (5944751508129055 # 9007199254740992)%Q.
Proof. vm_compute. reflexivity. Qed.

(** With the default ratio and fewer than [2^32] rows, the rounded product
    has the integer part of [0.66 n]. *)
Lemma fresh_subsetSize (t : RFTrainer) (n : nat) :
  m_OOBratio (setDefaults t) = (66 # 100)%Q ->
  Z.of_nat n < 2 ^ 32 ->
  Z.of_nat (subsetSize t n) = 66 * Z.of_nat n / 100.
Proof.
  intros Hr Hn.
  destruct (subsetSize_bounds t n ltac:(lia)) as (Hk & _). cbv zeta in Hk.
  rewrite Hk. unfold storedOOBratio. rewrite Hr, stored_default_ratio.
  set (c := (5944751508129055 # 9007199254740992)%Q).
  set (k := 66 * Z.of_nat n / 100).
  pose proof (Z.div_mod (66 * Z.of_nat n) 100 ltac:(lia)) as Hdm.
  pose proof (Z.mod_pos_bound (66 * Z.of_nat n) 100 ltac:(lia)) as Hmod.
  fold k in Hdm.
  pose proof (round_Z (Z.of_nat n) ltac:(lia)) as Hz.
  assert (Hk0 : 0 <= k) by (apply Z.div_pos; lia).
  assert (Hlow : (inject_Z k <= Binary64.of_Z (Z.of_nat n) * c)%Q).
  { rewrite Hz. unfold c, Qle, Qmult, inject_Z. cbn [Qnum Qden]. lia. }
  set (y := (inject_Z (2 ^ 20 * (k + 1) - 1) * (1 # 1048576))%Q).
  assert (Hup : (Binary64.of_Z (Z.of_nat n) * c <= y)%Q).
  { rewrite Hz. unfold c, y, Qle, Qmult, inject_Z. cbn [Qnum Qden]. lia. }
  assert (Hy : (Binary64.round y == y)%Q).
  { apply (round_representable y (2 ^ 20 * (k + 1) - 1) (-20)); [lia | lia |].
    unfold y. reflexivity. }
  assert (Hy1 : (y < inject_Z (k + 1))%Q).
  { unfold y, Qlt, Qmult, inject_Z. cbn [Qnum Qden]. lia. }
  apply Qfloor_unique.
  - apply Qle_trans with (Binary64.round (inject_Z k)).
    + apply Qle_lteq. right. symmetry. apply (round_Z k). lia.
    + unfold Binary64.mul. apply round_le; [exact Hlow|].
      eapply Qle_trans; [|exact Hlow]. apply inject_Z_nonneg, Hk0.
  - apply Qle_lt_trans with y; [|exact Hy1].
    apply Qle_trans with (Binary64.round y);
      [|apply Qle_lteq; right; exact Hy].
    unfold Binary64.mul. apply round_le; [exact Hup|].
    eapply Qle_trans; [|exact Hup].
    eapply Qle_trans; [|exact Hlow]. apply inject_Z_nonneg, Hk0.
Qed.

Lemma bag_sizes (random_shuffle : list nat -> list nat) (t : RFTrainer)
    (n : nat) :
  (forall l, random_shuffle l ≡ₚ l) ->
  m_OOBratio (setDefaults t) = (66 # 100)%Q ->
  let bag := fst (bagIndices random_shuffle t n) in
  let oob := snd (bagIndices random_shuffle t n) in
  (Z.of_nat n < 2 ^ 32 -> Z.of_nat (length bag) = 66 * Z.of_nat n / 100) /\
  (length bag + length oob = n)%nat /\
  (Z.of_nat n < 2 ^ 32 -> (2 <= n)%nat ->
   (1 <= length bag)%nat /\ (1 <= length oob)%nat) /\
  ((n <= 1)%nat -> bag = []).
Proof.
  intros Hperm Hr bag oob.
  assert (Hlen : length (random_shuffle (seq 0 n)) = n)
    by (rewrite Hperm; apply length_seq).
  pose proof (Z.div_mod (66 * Z.of_nat n) 100 ltac:(lia)) as Hdm.
  pose proof (Z.mod_pos_bound (66 * Z.of_nat n) 100 ltac:(lia)) as Hmod.
  assert (Hbag : length bag = Nat.min (subsetSize t n) n).
  { unfold bag, bagIndices. cbn [fst]. rewrite length_take, Hlen. reflexivity. }
  assert (Hoob : length oob = (n - subsetSize t n)%nat).
  { unfold oob, bagIndices. cbn [snd]. rewrite length_drop, Hlen. reflexivity. }
  clearbody bag oob.
  assert (Hk : Z.of_nat n < 2 ^ 32 ->
               Z.of_nat (subsetSize t n) = 66 * Z.of_nat n / 100)
    by apply (fresh_subsetSize t n Hr).
  revert Hbag Hoob Hk. generalize (subsetSize t n). intros k Hbag Hoob Hk.
  split; [intros Hn; specialize (Hk Hn); lia|].
  split; [lia|].
  split; [intros Hn; specialize (Hk Hn); lia|].
  intros Hn1. apply length_zero_iff_nil. specialize (Hk ltac:(lia)). lia.
Qed.

(** X21. The bag of a trainer that runs with the default ratio 0.66, as a
    trainer that was just constructed does, for a shuffle that returns a
    permutation: of [n] rows, fewer than [2^32], the integer part of
    [0.66 n] go to the bag and the others to the out-of-bag sample, also
    with the rounding of the product.  From two rows on, neither of
    the two is empty.  For a dataset of one row, or none, the bag is
    empty: the tables have no row, the classification root call (with at
    least one attribute) divides the histogram by zero and the regression
    root call takes the average of no label. *)
Theorem default_bag (random_shuffle : list nat -> list nat)
    (d0 ld0 ml0 : nat) (fi oob : bool) :
  (forall l, random_shuffle l ≡ₚ l) ->
  let t0 := RFTrainer_new d0 ld0 ml0 fi oob in
  (forall d classes n,
     let bag := fst (bagIndices random_shuffle (trainFields t0 d classes) n) in
     let oobs := snd (bagIndices random_shuffle (trainFields t0 d classes) n) in
     (Z.of_nat n < 2 ^ 32 ->
      Z.of_nat (length bag) = 66 * Z.of_nat n / 100) /\
     (length bag + length oobs = n)%nat /\
     (Z.of_nat n < 2 ^ 32 -> (2 <= n)%nat ->
      (1 <= length bag)%nat /\ (1 <= length oobs)%nat) /\
     ((n <= 1)%nat -> bag = [])) /\
  (forall d ld n,
     let bag := fst (bagIndices random_shuffle (trainFieldsR t0 d ld) n) in
     let oobs := snd (bagIndices random_shuffle (trainFieldsR t0 d ld) n) in
     (Z.of_nat n < 2 ^ 32 ->
      Z.of_nat (length bag) = 66 * Z.of_nat n / 100) /\
     (length bag + length oobs = n)%nat /\
     (Z.of_nat n < 2 ^ 32 -> (2 <= n)%nat ->
      (1 <= length bag)%nat /\ (1 <= length oobs)%nat) /\
     ((n <= 1)%nat -> bag = [])) /\
  (forall rand std_sort (dataset : ClassificationDataset) d classes fuel pos,
     (forall cmp table, std_sort cmp table ≡ₚ table) ->
     (1 <= d)%nat -> (length dataset <= 1)%nat ->
     trainTask rand std_sort random_shuffle t0 dataset d classes (S fuel) pos
     = DivByZero) /\
  (forall rand std_sort (dataset : RegressionDataset) d ld fuel pos,
     (length dataset <= 1)%nat ->
     trainTaskR rand std_sort random_shuffle t0 dataset d ld (S fuel) pos
     = DivByZero).
Proof.
  intros Hperm t0.
  assert (Hc : forall d classes,
            m_OOBratio (setDefaults (trainFields t0 d classes)) = (66 # 100)%Q).
  { intros d classes.
    destruct (trainSetup_fields t0 d classes) as (_ & _ & _ & _ & Hr & _).
    exact Hr. }
  assert (Hr : forall d ld,
            m_OOBratio (setDefaults (trainFieldsR t0 d ld)) = (66 # 100)%Q).
  { intros d ld.
    destruct (trainSetupR_fields t0 d ld) as (_ & _ & _ & _ & Hr & _).
    exact Hr. }
  split; [|split; [|split]].
  - intros d classes n. apply bag_sizes; [exact Hperm | apply Hc].
  - intros d ld n. apply bag_sizes; [exact Hperm | apply Hr].
  - intros rand std_sort dataset d classes fuel pos Hsort Hd Hn.
    destruct (bag_sizes random_shuffle (trainFields t0 d classes)
                (length dataset) Hperm (Hc d classes)) as (_ & _ & _ & Hnil).
    unfold trainTask. cbv zeta. rewrite (Hnil Hn).
    change (subset dataset ([], 0%nat) []) with (@nil (RealVector * nat)).
    unfold trainTree. cbv zeta.
    set (t := setDefaults (trainFields t0 d classes)).
    assert (Hns : m_nodeSize t = 1).
    { destruct (trainSetup_fields t0 d classes) as (_ & _ & _ & Hns & _).
      exact Hns. }
    assert (Hrows : at_table (createAttributeTables t std_sort []) 0 = []).
    { rewrite createAttributeTables_map. cbn [length seq fmap list_fmap].
      unfold at_table.
      destruct (m_inputDimension t) as [|k]; [reflexivity|].
      cbn [seq fmap list_fmap nth]. apply Permutation_nil_r, Hsort. }
    clear Hd.
    rewrite buildTree_unfold. cbv zeta.
    change (fst <$> []) with (@nil RealVector). rewrite Hrows.
    cbn [length]. rewrite Hns.
    change (Qeq_bool (gini (createCountVector t []) (Z.of_nat 0)) 0) with false.
    cbn [orb Z.of_nat Z.leb Z.compare].
    assert (Hh : hist t (createCountVector t []) = DivByZero).
    { change (createCountVector t []) with (replicate (m_maxLabel t + 1) 0).
      rewrite hist_value.
      - rewrite totalCount_replicate_zero. reflexivity.
      - apply Forall_replicate. lia.
      - rewrite length_replicate. lia.
      - rewrite totalCount_replicate_zero. lia. }
    rewrite Hh. reflexivity.
  - intros rand std_sort dataset d ld fuel pos Hn.
    destruct (bag_sizes random_shuffle (trainFieldsR t0 d ld)
                (length dataset) Hperm (Hr d ld)) as (_ & _ & _ & Hnil).
    unfold trainTaskR. cbv zeta. rewrite (Hnil Hn).
    reflexivity.
Qed.

Lemma default_bag_witness :
  length (fst (bagIndices (@rev nat)
                 (trainFields (RFTrainer_new 0 0 0 false false) 1 2) 4))
  = 2%nat /\
  trainTaskR Example.rand Example.sorted_already (@rev nat)
    (RFTrainer_new 0 0 0 false false) [([1%Q], [2%Q])] 1 1 1 0 = DivByZero.
Proof.
  destruct (default_bag (@rev nat) 0 0 0 false false) as (Hc & _ & _ & Hr).
  - intros l. symmetry. apply Permutation_rev.
  - split.
    + destruct (Hc 1%nat 2 4%nat) as (Hlen & _).
      apply Nat2Z.inj. rewrite Hlen by (cbn; lia). reflexivity.
    + apply Hr. cbn. lia.
Defined.

(** ** How many random numbers a draw reads *)

Section DrawTrace.

Variable t : RFTrainer.
Variable rand : nat -> nat.

Lemma elem_of_drawn (k pos : nat) (s : list nat) (x : nat) :
  x ∈ drawn t rand k pos s <->
  x ∈ s \/
  exists j, (j < k)%nat /\ x = (rand (pos + j) mod m_inputDimension t)%nat.
Proof.
  revert pos s. induction k as [|k IH]; intros pos s; cbn [drawn].
  - split; [auto|]. intros [H|(j & Hj & _)]; [exact H | lia].
  - rewrite IH, elem_of_set_insert. split.
    + intros [[->|H]|(j & Hj & ->)].
      * right. exists 0%nat. split; [lia|]. rewrite Nat.add_0_r. reflexivity.
      * left. exact H.
      * right. exists (S j). split; [lia|]. f_equal. f_equal. lia.
    + intros [H|(j & Hj & ->)]; [left; right; exact H|].
      destruct j as [|j].
      * left. left. rewrite Nat.add_0_r. reflexivity.
      * right. exists j. split; [lia|]. f_equal. f_equal. lia.
Qed.

Lemma ascending_drawn (k pos : nat) (s : list nat) :
  ascending s -> ascending (drawn t rand k pos s).
Proof.
  revert pos s. induction k as [|k IH]; intros pos s Hs; cbn [drawn];
    [exact Hs|]. apply IH, ascending_set_insert, Hs.
Qed.

Lemma length_drawn (k pos : nat) (s : list nat) :
  ascending s -> (length (drawn t rand k pos s) <= length s + k)%nat.
Proof.
  revert pos s. induction k as [|k IH]; intros pos s Hs; cbn [drawn]; [lia|].
  specialize (IH (S pos) _ (ascending_set_insert
                              (rand pos mod m_inputDimension t)%nat s Hs)).
  pose proof (length_set_insert_bounds
                (rand pos mod m_inputDimension t)%nat s Hs). lia.
Qed.

(** The loop returns at the first moment at which the set holds [m_try]
    indices. *)
Lemma generate_trace (fuel pos : nat) (s s' : list nat) (pos' : nat) :
  generateRandomTableIndicies t rand fuel pos s = Ret (s', pos') ->
  exists k,
    pos' = (pos + k)%nat /\ (k <= fuel)%nat /\
    s' = drawn t rand k pos s /\
    (forall j, (j < k)%nat ->
       Z.of_nat (length (drawn t rand j pos s)) < m_try t) /\
    m_try t <= Z.of_nat (length s').
Proof.
  revert pos s. induction fuel as [|fuel IH]; intros pos s;
    rewrite generate_unfold;
    destruct (Z.ltb_spec (Z.of_nat (length s)) (m_try t)) as [Hlt|Hge];
    try discriminate.
  - intros [= <- <-]. exists 0%nat. cbn [drawn].
    split; [lia|]. split; [lia|]. split; [reflexivity|].
    split; [intros j Hj; lia | lia].
  - destruct (m_inputDimension t =? 0)%nat; [discriminate|].
    intros H. apply IH in H as (k & -> & Hk & -> & Hbelow & Hm).
    exists (S k). cbn [drawn].
    split; [lia|]. split; [lia|]. split; [reflexivity|].
    split; [|exact Hm].
    intros [|j] Hj; cbn [drawn]; [exact Hlt | apply Hbelow; lia].
  - intros [= <- <-]. exists 0%nat. cbn [drawn].
    split; [lia|]. split; [lia|]. split; [reflexivity|].
    split; [intros j Hj; lia | lia].
Qed.

End DrawTrace.

(** X22. What a returning attribute draw has read.  When
    [generateRandomTableIndicies] returns from an empty set, it has called
    [rand()] some [k] times, at least [m_try] times; the set holds exactly
    the remainders modulo [m_inputDimension] of these [k] numbers; and it
    stopped at the first moment at which [m_try] distinct indices were
    drawn: after fewer calls the set was still too small.  More fuel does
    not change the result. *)
Theorem generateRandomTableIndicies_trace (t : RFTrainer) (rand : nat -> nat)
    (fuel pos : nat) (s : list nat) (pos' : nat) :
  generateRandomTableIndicies t rand fuel pos [] = Ret (s, pos') ->
  exists k,
    pos' = (pos + k)%nat /\ (k <= fuel)%nat /\
    m_try t <= Z.of_nat k /\
    s = drawn t rand k pos [] /\
    (forall x, x ∈ s <->
       exists j, (j < k)%nat /\
                 x = (rand (pos + j) mod m_inputDimension t)%nat) /\
    (forall j, (j < k)%nat ->
       Z.of_nat (length (drawn t rand j pos [])) < m_try t) /\
    (forall fuel', (fuel <= fuel')%nat ->
       generateRandomTableIndicies t rand fuel' pos [] = Ret (s, pos')).
Proof.
  intros H.
  destruct (generate_trace t rand fuel pos [] s pos' H)
    as (k & Hpos & Hk & Hs & Hbelow & Hm).
  exists k. split; [exact Hpos|]. split; [exact Hk|].
  split.
  { pose proof (length_drawn t rand k pos [] ltac:(constructor)) as Hlen.
    rewrite <- Hs in Hlen. cbn [length] in Hlen. lia. }
  split; [exact Hs|]. split.
  { intros x. rewrite Hs, elem_of_drawn. split.
    - intros [Hx|Hx]; [inversion Hx | exact Hx].
    - intros Hx. right. exact Hx. }
  split; [exact Hbelow|].
  intros fuel' Hle. eapply generate_fuel_mono; eassumption.
Qed.

Lemma generateRandomTableIndicies_trace_witness :
  exists k,
    (2 = 0 + k)%nat /\
    [1; 2]%nat
    = drawn (mkRFTrainer 3 0 1 2 1 1 (66 # 100)%Q false false false)
        (fun k => (5 - k)%nat) k 0 [].
Proof.
  destruct (generateRandomTableIndicies_trace
              (mkRFTrainer 3 0 1 2 1 1 (66 # 100)%Q false false false)
              (fun k => (5 - k)%nat) 2 0 [1; 2]%nat 2 eq_refl)
    as (k & Hpos & _ & _ & Hs & _).
  exists k. split; [exact Hpos | exact Hs].
Defined.

(** ** The counters handed to the two calls of a split *)

Lemma labelCount_app (dataset : ClassificationDataset) (a b : list nat)
    (j : nat) :
  labelCount dataset (a ++ b) j
  = labelCount dataset a j + labelCount dataset b j.
Proof. unfold labelCount. rewrite filter_app, length_app. lia. Qed.

(** X23. The counters of a split add up.  When a call on well-formed
    arguments accepts a split, the count vectors that it hands to the left
    and to the right call have one counter per label, none negative; label
    by label they add up to the count vector of the call; the left one
    sums to the number of rows of the left tables and the right one to the
    number of rows of the right tables, both at least one. *)
Theorem split_counts_add_up (t : RFTrainer)
    (dataset : ClassificationDataset) (tables : AttributeTables)
    (cAbove : ClassVector) (tableIndicies : list nat) (best : Best) :
  wf_node t dataset tables cAbove ->
  in_range t tableIndicies ->
  decideSplit t dataset tables cAbove tableIndicies = Some best ->
  let n := length (at_table tables 0) in
  let p := bestAttributeValIndex best in
  length (cBestBelow best) = (m_maxLabel t + 1)%nat /\
  length (cBestAbove best) = (m_maxLabel t + 1)%nat /\
  Forall (fun x => 0 <= x) (cBestBelow best) /\
  Forall (fun x => 0 <= x) (cBestAbove best) /\
  (forall j, nth j (cBestBelow best) 0 + nth j (cBestAbove best) 0
             = nth j cAbove 0) /\
  totalCount (cBestBelow best) = Z.of_nat (p + 1) /\
  totalCount (cBestAbove best) = Z.of_nat (n - p - 1) /\
  totalCount (cBestBelow best) + totalCount (cBestAbove best)
  = totalCount cAbove /\
  (1 <= p + 1)%nat /\ (1 <= n - p - 1)%nat.
Proof.
  intros Hwf Hrange Hdec n p.
  destruct (split_children t dataset tables cAbove tableIndicies best Hwf
              Hrange Hdec) as (Hp & Hn2 & HL & HR & HwfL & HwfR).
  fold n in Hp, Hn2, HR. fold p in Hp, HL, HR.
  destruct (wf_node_hist t dataset _ _ HwfL) as [HtotL _].
  destruct (wf_node_hist t dataset _ _ HwfR) as [HtotR _].
  destruct (wf_node_hist t dataset _ _ Hwf) as [Htot _].
  fold p in HtotL, HtotR.
  set (L := fst (splitAttributeTables tables (bestAttributeIndex best) p)) in *.
  set (R := snd (splitAttributeTables tables (bestAttributeIndex best) p)) in *.
  rewrite (HL _ (at_table_elem_of L 0 (wf_has_table _ _ _ _ HwfL))) in HtotL.
  rewrite (HR _ (at_table_elem_of R 0 (wf_has_table _ _ _ _ HwfR))) in HtotR.
  (* the counters, label by label *)
  destruct (decideSplit_candidate t dataset tables cAbove tableIndicies best
              (wf_bound _ _ _ _ Hwf) Hdec) as (f & i & Hf & Hi & Hbest).
  fold n in Hi, Hbest.
  destruct Hwf as [Hdim Hhas Hrows Hnd Hne Hbound Hlab Hcounts].
  assert (Hfd : (f < length tables)%nat) by (rewrite Hdim; apply Hrange, Hf).
  set (win := at_table tables f).
  assert (Hwin : ids win ≡ₚ ids (at_table tables 0))
    by (apply Hrows, at_table_elem_of, Hfd).
  assert (Hlenw : length win = n) by (apply length_ids_perm, Hwin).
  assert (Hlabw : forall k, k ∈ ids win ->
                    (class_label dataset k <= m_maxLabel t)%nat).
  { intros k Hk. apply Hlab. rewrite <- Hwin. exact Hk. }
  assert (Hcw : cAbove = countsOf t dataset (ids win)).
  { rewrite Hcounts. apply countsOf_perm. symmetry. exact Hwin. }
  pose proof (countsAt_countsOf t dataset win cAbove i ltac:(lia) ltac:(lia)
                Hlabw Hcw) as Hcnt.
  assert (HcB : cBestBelow best = countsOf t dataset (ids (take i win))).
  { rewrite Hbest. cbn [candidate cBestBelow]. fold win. rewrite Hcnt.
    reflexivity. }
  assert (HcA : cBestAbove best = countsOf t dataset (ids (drop i win))).
  { rewrite Hbest. cbn [candidate cBestAbove]. fold win. rewrite Hcnt.
    reflexivity. }
  split; [rewrite HcB; apply length_countsOf|].
  split; [rewrite HcA; apply length_countsOf|].
  split; [rewrite HcB; apply countsOf_nonneg|].
  split; [rewrite HcA; apply countsOf_nonneg|].
  split.
  { intros j. rewrite HcB, HcA, Hcw.
    destruct (decide (j <= m_maxLabel t)%nat) as [Hj|Hj].
    - rewrite !nth_countsOf by exact Hj.
      rewrite <- labelCount_app, ids_take_drop. reflexivity.
    - rewrite !nth_overflow by (rewrite length_countsOf; lia). reflexivity. }
  split; [exact HtotL|]. split; [exact HtotR|].
  split; [rewrite HtotL, HtotR, Htot; fold n; lia|].
  lia.
Qed.

Lemma split_counts_add_up_witness :
  exists best,
    decideSplit Example.trainer Example.data Example.tables Example.counts
      [0%nat] = Some best /\
    totalCount (cBestBelow best) + totalCount (cBestAbove best)
    = totalCount Example.counts.
Proof.
  destruct (decideSplit Example.trainer Example.data Example.tables
              Example.counts [0%nat]) as [best|] eqn:E;
    [|vm_compute in E; discriminate E].
  exists best. split; [reflexivity|].
  destruct (split_counts_add_up Example.trainer Example.data Example.tables
              Example.counts [0%nat] best example_wf)
    as (_ & _ & _ & _ & _ & _ & _ & Hsum & _).
  - intros x Hx. apply list_elem_of_singleton in Hx as ->. cbn. lia.
  - exact E.
  - exact Hsum.
Defined.

(** ** The identifiers of the nodes are distinct *)

Lemma pow2_pos (j : nat) : 1 <= 2 ^ Z.of_nat j.
Proof.
  pose proof (Z.pow_pos_nonneg 2 (Z.of_nat j) ltac:(lia) ltac:(lia)). lia.
Qed.

Lemma pow2_le (i j : nat) : (i <= j)%nat -> 2 ^ Z.of_nat i <= 2 ^ Z.of_nat j.
Proof. intros H. apply Z.pow_le_mono_r; lia. Qed.

Lemma pow2_S (j : nat) : 2 ^ Z.of_nat (S j) = 2 * 2 ^ Z.of_nat j.
Proof. rewrite Nat2Z.inj_succ, Z.pow_succ_r by lia. reflexivity. Qed.

(** The identifiers below the node [k] lie in the ranges of its
    descendants in the heap numbering. *)
Lemma numbered_range (s : shape) (k : Z) :
  0 <= k -> numbered k s ->
  Forall (fun nd => 2 * nodeId nd + 2 < 2 ^ 64) (internal s) ->
  forall nd, nd ∈ preorder s ->
    exists j : nat,
      (k + 1) * 2 ^ Z.of_nat j <= nodeId nd + 1 < (k + 2) * 2 ^ Z.of_nat j.
Proof.
  revert k. induction s as [info|info l IHl r IHr]; intros k Hk Hn Hw nd Hin.
  - cbn in Hn, Hin. apply list_elem_of_singleton in Hin as ->.
    exists 0%nat. cbn. lia.
  - cbn [numbered] in Hn. destruct Hn as (Hid & Hl & Hr & Hnl & Hnr).
    cbn [internal] in Hw. apply Forall_cons in Hw as [Hw0 Hw].
    apply Forall_app in Hw as [Hwl Hwr].
    rewrite Hid in Hw0.
    rewrite Hl in Hnl. rewrite Hr in Hnr.
    rewrite usize_small in Hnl by lia. rewrite usize_small in Hnr by lia.
    cbn [preorder] in Hin. apply elem_of_cons in Hin as [->|Hin].
    + exists 0%nat. cbn. lia.
    + apply elem_of_app in Hin as [Hin|Hin].
      * destruct (IHl (2 * k + 1) ltac:(lia) Hnl Hwl nd Hin) as [j Hj].
        exists (S j). rewrite pow2_S. pose proof (pow2_pos j). nia.
      * destruct (IHr (2 * k + 2) ltac:(lia) Hnr Hwr nd Hin) as [j Hj].
        exists (S j). rewrite pow2_S. pose proof (pow2_pos j). nia.
Qed.

Lemma numbered_NoDup (s : shape) (k : Z) :
  0 <= k -> numbered k s ->
  Forall (fun nd => 2 * nodeId nd + 2 < 2 ^ 64) (internal s) ->
  NoDup (nodeId <$> preorder s).
Proof.
  revert k. induction s as [info|info l IHl r IHr]; intros k Hk Hn Hw.
  - cbn. apply NoDup_singleton.
  - pose proof Hn as Hn'. pose proof Hw as Hw'.
    cbn [numbered] in Hn. destruct Hn as (Hid & Hl & Hr & Hnl & Hnr).
    cbn [internal] in Hw. apply Forall_cons in Hw as [Hw0 Hw].
    apply Forall_app in Hw as [Hwl Hwr].
    rewrite Hid in Hw0.
    rewrite Hl in Hnl. rewrite Hr in Hnr.
    rewrite usize_small in Hnl by lia. rewrite usize_small in Hnr by lia.
    cbn [preorder]. rewrite fmap_cons, fmap_app.
    apply NoDup_cons. split.
    + rewrite Hid. intros Hin. apply elem_of_app in Hin as [Hin|Hin];
        apply list_elem_of_fmap in Hin as (nd & Hnd & Hin).
      * destruct (numbered_range l (2 * k + 1) ltac:(lia) Hnl Hwl nd Hin)
          as [j Hj]. pose proof (pow2_pos j). nia.
      * destruct (numbered_range r (2 * k + 2) ltac:(lia) Hnr Hwr nd Hin)
          as [j Hj]. pose proof (pow2_pos j). nia.
    + apply NoDup_app. split; [apply (IHl (2 * k + 1)); [lia|assumption..]|].
      split; [|apply (IHr (2 * k + 2)); [lia|assumption..]].
      intros x Hxl Hxr.
      apply list_elem_of_fmap in Hxl as (nl & -> & Hinl).
      apply list_elem_of_fmap in Hxr as (nr & Heq & Hinr).
      destruct (numbered_range l (2 * k + 1) ltac:(lia) Hnl Hwl nl Hinl)
        as [j Hj].
      destruct (numbered_range r (2 * k + 2) ltac:(lia) Hnr Hwr nr Hinr)
        as [i Hi].
      rewrite <- Heq in Hi.
      pose proof (pow2_pos j). pose proof (pow2_pos i).
      destruct (Nat.le_gt_cases j i) as [Hji|Hij].
      * pose proof (pow2_le j i Hji). nia.
      * pose proof (pow2_le (S i) j Hij) as Hp. rewrite pow2_S in Hp. nia.
Qed.

Lemma numbered_children (s : shape) (k : Z) :
  numbered k s ->
  forall nd, nd ∈ internal s ->
    (exists nl, nl ∈ preorder s /\ nodeId nl = leftNodeId nd) /\
    (exists nr, nr ∈ preorder s /\ nodeId nr = rightNodeId nd).
Proof.
  revert k. induction s as [info|info l IHl r IHr]; intros k Hn nd Hin.
  - inversion Hin.
  - cbn [numbered] in Hn. destruct Hn as (Hid & Hl & Hr & Hnl & Hnr).
    cbn [internal] in Hin. cbn [preorder].
    assert (Hroot : forall s' k', numbered k' s' ->
                      exists n0, n0 ∈ preorder s' /\ nodeId n0 = k').
    { intros s' k' Hk'. exists (root s'). split; [|apply numbered_root, Hk'].
      destruct s'; cbn; left. }
    apply elem_of_cons in Hin as [->|Hin].
    + split.
      * destruct (Hroot l _ Hnl) as (n0 & Hin0 & Hid0). exists n0.
        split; [right; apply elem_of_app; left; exact Hin0 | exact Hid0].
      * destruct (Hroot r _ Hnr) as (n0 & Hin0 & Hid0). exists n0.
        split; [right; apply elem_of_app; right; exact Hin0 | exact Hid0].
    + apply elem_of_app in Hin as [Hin|Hin].
      * destruct (IHl _ Hnl nd Hin) as [(nl & Hl1 & Hl2) (nr & Hr1 & Hr2)].
        split; [exists nl | exists nr];
          (split; [right; apply elem_of_app; left; assumption | assumption]).
      * destruct (IHr _ Hnr nd Hin) as [(nl & Hl1 & Hl2) (nr & Hr1 & Hr2)].
        split; [exists nl | exists nr];
          (split; [right; apply elem_of_app; right; assumption | assumption]).
Qed.

Lemma Forall_internal (P : NodeInfo -> Prop) (s : shape) :
  Forall P (preorder s) -> Forall P (internal s).
Proof.
  induction s as [info|info l IHl r IHr]; cbn [preorder internal]; intros H.
  - constructor.
  - apply Forall_cons in H as [H0 H]. apply Forall_app in H as [Hl Hr].
    constructor; [exact H0|]. apply Forall_app. auto.
Qed.

(** X24. The node identifiers of a tree are distinct as long as none of
    them wraps.  For a tree that either [buildTree] returns from a root
    identifier that is not negative, if [2 * nodeId + 2] stays below
    [2^64] for every node, then no two nodes of the tree carry the same
    identifier, and for every internal node the tree holds a node with its
    [leftNodeId] and a node with its [rightNodeId], which are [2 * nodeId +
    1] and [2 * nodeId + 2]: a child is found by its identifier without
    ambiguity. *)
Theorem tree_node_ids_distinct (t : RFTrainer) (rand : nat -> nat)
    (fuel : nat) (tables : AttributeTables) (rootId : Z) (pos : nat)
    (tree : TreeType) (pos' : nat) :
  (exists (dataset : ClassificationDataset) (cAbove : ClassVector),
     buildTree t rand dataset fuel tables cAbove rootId pos
     = Ret (tree, pos')) \/
  (exists (dataset : RegressionDataset) (labels : list RealVector),
     buildTreeR t rand dataset fuel tables labels rootId pos
     = Ret (tree, pos')) ->
  0 <= rootId ->
  Forall (fun nd => 2 * nodeId nd + 2 < 2 ^ 64) tree ->
  NoDup (nodeId <$> tree) /\
  exists s,
    tree = preorder s /\
    forall nd, nd ∈ internal s ->
      leftNodeId nd = 2 * nodeId nd + 1 /\
      rightNodeId nd = 2 * nodeId nd + 2 /\
      (exists nl, nl ∈ tree /\ nodeId nl = leftNodeId nd) /\
      (exists nr, nr ∈ tree /\ nodeId nr = rightNodeId nd).
Proof.
  intros H Hk Hw.
  assert (Hs : exists s, tree = preorder s /\ numbered rootId s).
  { destruct H as [(dataset & cAbove & H)|(dataset & labels & H)].
    - eapply buildTree_shape. exact H.
    - eapply buildTreeR_shape. exact H. }
  destruct Hs as (s & -> & Hnum).
  pose proof (Forall_internal _ s Hw) as Hwi.
  split; [apply (numbered_NoDup s rootId Hk Hnum Hwi)|].
  exists s. split; [reflexivity|].
  intros nd Hin.
  destruct (numbered_internal s rootId Hnum nd Hin) as [Hl Hr].
  destruct (numbered_children s rootId Hnum nd Hin) as [Hcl Hcr].
  assert (Hnd : 0 <= nodeId nd).
  { assert (Hin' : nd ∈ preorder s).
    { clear -Hin. induction s as [info|info l IHl r IHr]; cbn in *.
      - inversion Hin.
      - apply elem_of_cons in Hin as [->|Hin]; [left|]. right.
        apply elem_of_app in Hin as [Hin|Hin]; apply elem_of_app; auto. }
    destruct (numbered_range s rootId Hk Hnum Hwi nd Hin') as [j Hj].
    pose proof (pow2_pos j). nia. }
  rewrite Forall_forall in Hwi. specialize (Hwi nd Hin).
  rewrite Hl, Hr, !usize_small by lia.
  rewrite Hl, usize_small in Hcl by lia.
  rewrite Hr, usize_small in Hcr by lia.
  auto.
Qed.

Lemma tree_node_ids_distinct_witness :
  exists tree pos',
    buildTree Example.trainer Example.rand Example.data 3
      Example.tables Example.counts 0 0 = Ret (tree, pos') /\
    NoDup (nodeId <$> tree).
Proof.
  destruct (buildTree Example.trainer Example.rand Example.data 3
              Example.tables Example.counts 0 0) as [[tree pos']| | | |] eqn:E;
    try (vm_compute in E; discriminate E).
  exists tree, pos'. split; [reflexivity|].
  apply (tree_node_ids_distinct Example.trainer Example.rand 3 Example.tables
           0 0 tree pos').
  - left. exists Example.data, Example.counts. exact E.
  - lia.
  - vm_compute in E. injection E as <- _.
    repeat constructor; cbn; lia.
Defined.
